(** * ShapeDiameterFunction: shallow embedding and verified properties

    Embedding of [src/libslic3r/ShapeDiameterFunction.cpp]: the mesh
    subdivision ([subdivide] with its local structs [Edges],
    [TriangleLengths] and the [EdgeDivides] registry), the width
    aggregation of [calc_width], [calc_widths], the support point sampler
    [generate_support_points], the Poisson filter
    [poisson_sphere_from_samples] and the direction sampler
    [create_fibonacci_sphere_samples].

    Conventions of the embedding.
    - [float] is an interface ([Scalar]): the functions are written once
      over it and read like the C++.  Two instances are given: IEEE
      binary32 with round-to-nearest-even ([b32_scalar], built on the
      standard [SpecFloat] operations, every operation rounded once and
      the three products of a dot product added from left to right; it
      runs the code on concrete meshes) and the real numbers ([R_scalar],
      exact arithmetic, used for the geometric statements).  Statements
      that need no arithmetic law are proved for every instance.
    - [size_t] and [int] are [Z]; an index is looked up with [vget], which
      is undefined (None) for a negative or too large index.  A mesh is
      addressed through [int] triples, so runs are taken to stay below 2^31
      vertices; the one comparison of the source that mixes a signed with
      an unsigned operand is written with the conversion.
    - Undefined behaviour (out-of-range [operator[]], [back()] of an empty
      vector, a float-to-integer cast out of range) is [None]; loops that
      are not bounded by their input take fuel and answer [Timeout] when
      it runs out.
    - [assert] is evaluated when [ndebug] is false and aborts there
      ([AssertFailed]); with [ndebug] it is skipped, as NDEBUG does. *)

From Stdlib Require Import ZArith List Bool Lia Reals Lra Psatz Sorted.
From Stdlib Require Import Floats.SpecFloat.
From stdpp Require Import base option list gmap.

Local Open Scope Z_scope.

(** ** Scalars *)

Class Scalar (F : Type) := {
  f_zero : F;
  f_one : F;
  f_add : F -> F -> F;
  f_sub : F -> F -> F;
  f_mul : F -> F -> F;
  f_div : F -> F -> F;
  f_opp : F -> F;
  f_abs : F -> F;
  f_sqrt : F -> F;
  (** [floor] of <cmath> *)
  f_floor : F -> F;
  (** integral part of [modf] (rounding toward zero) *)
  f_trunc : F -> F;
  (** [a < b] and [a <= b]; [a > b] of the source is [f_ltb b a] *)
  f_ltb : F -> F -> bool;
  f_leb : F -> F -> bool;
  (** conversion of an integer ([size_t] or [int]) to [float] *)
  f_of_Z : Z -> F;
  (** [static_cast<size_t>(x)]: undefined unless the truncated value is
      representable *)
  f_to_size_t : F -> option Z;
  (** [static_cast<int>(x)] *)
  f_to_int : F -> option Z;
  (** [M_PI] *)
  f_pi : F;
}.

Declare Scope scalar_scope.
Delimit Scope scalar_scope with flt.
Infix "+" := f_add : scalar_scope.
Infix "-" := f_sub : scalar_scope.
Infix "*" := f_mul : scalar_scope.
Infix "/" := f_div : scalar_scope.
Notation "- x" := (f_opp x) : scalar_scope.
Notation "a <? b" := (f_ltb a b) : scalar_scope.
Notation "a >? b" := (f_ltb b a) : scalar_scope.
Notation "a <=? b" := (f_leb a b) : scalar_scope.

(** ** Three-component vectors ([Vec3f], [Vec3crd]) *)

Record Vec3 (A : Type) := mkVec3 { v_x : A; v_y : A; v_z : A }.
Arguments mkVec3 {A} _ _ _.
Arguments v_x {A} _.
Arguments v_y {A} _.
Arguments v_z {A} _.

(** [v[i]] for [i] in 0..2 *)
Definition vnth {A} (v : Vec3 A) (i : Z) : A :=
  match i with
  | 0 => v_x v
  | 1 => v_y v
  | _ => v_z v
  end.

(** [v[i] = a] *)
Definition vset {A} (v : Vec3 A) (i : Z) (a : A) : Vec3 A :=
  match i with
  | 0 => mkVec3 a (v_y v) (v_z v)
  | 1 => mkVec3 (v_x v) a (v_z v)
  | _ => mkVec3 (v_x v) (v_y v) a
  end.

Arguments vnth {A} v i : simpl never.
Arguments vset {A} v i a : simpl never.

Abbreviation Vec3crd := (Vec3 Z).

(** [vertices[i]] of a [std::vector]: undefined out of range *)
Definition vget {A} (l : list A) (i : Z) : option A :=
  if i <? 0 then None else l !! Z.to_nat i.

Arguments vget {A} l i : simpl never.

(** The integers [from, from+1, ..., from+n-1] of a counting loop. *)
Definition zrange (from n : Z) : list Z :=
  map (fun k => from + Z.of_nat k) (seq 0 (Z.to_nat n)).

(** [size_t(i)] of an [int] *)
Definition size_t_of_int (i : Z) : Z := i mod 2 ^ 64.

(** Outcome of a loop that runs on fuel. *)
Inductive outcome (A : Type) :=
  | Done (a : A)
  | Undefined
  | AssertFailed
  | Timeout.
Arguments Done {A} _.
Arguments Undefined {A}.
Arguments AssertFailed {A}.
Arguments Timeout {A}.

(** [assert(c)]: aborts unless NDEBUG is defined. *)
Definition assert {A} (ndebug c : bool) (k : outcome A) : outcome A :=
  if ndebug || c then k else AssertFailed.

(** An undefined step of a computation that otherwise answers [a]. *)
Definition of_option {A} (o : option A) : outcome A :=
  match o with
  | Some a => Done a
  | None => Undefined
  end.

Section Vectors.
Context {F : Type} {SF : Scalar F}.
Local Open Scope scalar_scope.

Local Abbreviation Vec3f := (Vec3 F).

Definition vsub (a b : Vec3f) : Vec3f :=
  mkVec3 (v_x a - v_x b) (v_y a - v_y b) (v_z a - v_z b).
Definition vadd (a b : Vec3f) : Vec3f :=
  mkVec3 (v_x a + v_x b) (v_y a + v_y b) (v_z a + v_z b).
Definition vscale (a : Vec3f) (k : F) : Vec3f :=
  mkVec3 (v_x a * k) (v_y a * k) (v_z a * k).
Definition vneg (a : Vec3f) : Vec3f :=
  mkVec3 (- v_x a) (- v_y a) (- v_z a).
Definition vdot (a b : Vec3f) : F :=
  v_x a * v_x b + v_y a * v_y b + v_z a * v_z b.
Definition vcross (a b : Vec3f) : Vec3f :=
  mkVec3 (v_y a * v_z b - v_z a * v_y b)
         (v_z a * v_x b - v_x a * v_z b)
         (v_x a * v_y b - v_y a * v_x b).
Definition squaredNorm (a : Vec3f) : F := vdot a a.
(** Eigen's [norm()] *)
Definition norm (a : Vec3f) : F := f_sqrt (squaredNorm a).
(** Eigen's [normalize()]: divides by the norm when it is positive *)
Definition normalize (a : Vec3f) : Vec3f :=
  let z := squaredNorm a in
  if z >? f_zero then
    let n := f_sqrt z in mkVec3 (v_x a / n) (v_y a / n) (v_z a / n)
  else a.
End Vectors.

(** ** Mesh *)

Record indexed_triangle_set (F : Type) := mkIts {
  its_indices : list Vec3crd;
  its_vertices : list (Vec3 F);
}.
Arguments mkIts {F} _ _.
Arguments its_indices {F} _.
Arguments its_vertices {F} _.

(** ** subdivide *)

(** [VerticesSequence]: the first inserted vertex of a divided edge, seen
    from [key.first], and whether the indices grow toward [key.second]. *)
Record VerticesSequence := mkVS {
  start_index : Z;
  positive_order : bool;
}.

(** [EdgeDivides]: std::map from the ordered pair of vertex indices. *)
Abbreviation EdgeDivides := (gmap (Z * Z) VerticesSequence).

Record TriangleLengths (F : Type) := mkTL {
  tl_indices : Vec3crd;
  tl_l : Vec3 F;
}.
Arguments mkTL {F} _ _.
Arguments tl_indices {F} _.
Arguments tl_l {F} _.

Section Subdivide.
Context {F : Type} {SF : Scalar F}.
Local Open Scope scalar_scope.

Local Abbreviation Vec3f := (Vec3 F).

(** [struct Edges]: the three edge vectors and the lengths computed so
    far (-1 when not computed). *)
Record Edges := mkEdges {
  e_data : Vec3 Vec3f;
  e_lengths : Vec3f;
}.

Definition no_length : F := - f_one.

Definition Edges_new (indices : Vec3crd) (vertices : list Vec3f)
  : option Edges :=
  v0 ← vget vertices (vnth indices 0);
  v1 ← vget vertices (vnth indices 1);
  v2 ← vget vertices (vnth indices 2);
  Some (mkEdges (mkVec3 (vsub v0 v1) (vsub v1 v2) (vsub v2 v0))
                (mkVec3 no_length no_length no_length)).

Definition abs_sum (v : Vec3f) : F :=
  f_abs (vnth v 0) + f_abs (vnth v 1) + f_abs (vnth v 2).

Definition biggest_index (sum : Vec3f) : list Z :=
  if vnth sum 0 >? vnth sum 1 then
    if vnth sum 0 >? vnth sum 2 then
      if vnth sum 2 >? vnth sum 1 then [0; 2; 1] else [0; 1; 2]
    else [2; 0; 1]
  else
    if vnth sum 1 >? vnth sum 2 then
      if vnth sum 2 >? vnth sum 0 then [1; 2; 0] else [1; 0; 2]
    else [2; 1; 0].

(** The [for i] loop of [is_dividable] over the not yet visited part of
    [biggest_index]; answers the result and the updated [lengths]. *)
Fixpoint is_dividable_loop (data : Vec3 Vec3f) (sum : Vec3f)
    (max_length : F) (order : list Z) (lengths : Vec3f) : bool * Vec3f :=
  match order with
  | [] => (false, lengths)
  | index :: rest =>
    if vnth sum index <=? max_length then (false, lengths)
    else
      let lengths := vset lengths index (norm (vnth data index)) in
      if vnth lengths index <=? max_length then
        is_dividable_loop data sum max_length rest lengths
      else
        (true,
         fold_left (fun ls j => vset ls j (norm (vnth data j))) rest lengths)
  end.

Definition is_dividable (e : Edges) (max_length : F) : bool * Edges :=
  let data := e_data e in
  let sum := mkVec3 (abs_sum (vnth data 0)) (abs_sum (vnth data 1))
                    (abs_sum (vnth data 2)) in
  let '(b, lengths) :=
    is_dividable_loop data sum max_length (biggest_index sum) (e_lengths e) in
  (b, mkEdges data lengths).

Definition get_divide_index (tl : TriangleLengths F) (max_length : F) : Z :=
  let l := tl_l tl in
  if (vnth l 0 >? vnth l 1) && (vnth l 0 >? vnth l 2) then
    if vnth l 0 >? max_length then 0 else (-1)%Z
  else if vnth l 1 >? vnth l 2 then
    if vnth l 1 >? max_length then 1 else (-1)%Z
  else
    if vnth l 2 >? max_length then 2 else (-1)%Z.

(** The canonical key of an edge and whether the ends were swapped. *)
Definition edge_key (a b : Z) : (Z * Z) * bool :=
  if (a >? b)%Z then ((b, a), true) else ((a, b), false).

(** [insert] of std::map: keeps the entry that is already there. *)
Definition insert_new (key : Z * Z) (vs : VerticesSequence)
    (ed : EdgeDivides) : EdgeDivides :=
  match ed !! key with
  | Some _ => ed
  | None => <[key := vs]> ed
  end.

(** The vertices pushed for a new edge: [vf + dir * (i / segments)] for
    [i = 1 .. count]. *)
Definition new_edge_vertices (vf dir : Vec3f) (count : Z) (segments : F)
  : list Vec3f :=
  map (fun i => vadd vf (vscale dir (f_of_Z i / segments))) (zrange 1 count).

(** The lookup of the key and, when [it == edge_divides.end()], the block
    that creates the vertices of the edge and its entry; answers the
    vertices, the registry and [it->second]. *)
Definition find_or_create (key : Z * Z) (count_edge_vertices : Z)
    (count_edge_segments : F) (vertices : list Vec3f)
    (edge_divides : EdgeDivides)
  : option (list Vec3f * EdgeDivides * VerticesSequence) :=
  match edge_divides !! key with
  | None =>
    let new_vs := mkVS (Z.of_nat (List.length vertices)) true in
    vf ← vget vertices key.1;
    vs ← vget vertices key.2;
    let dir := vsub vs vf in
    Some (vertices ++
            new_edge_vertices vf dir count_edge_vertices count_edge_segments,
          <[key := new_vs]> edge_divides, new_vs)
  | Some vs => Some (vertices, edge_divides, vs)
  end.

(** What a call of [divide] leaves: the returned pair of triangles, the
    vertices and the registry it updated in place, and, for the
    statements about a run, the triangle it was called on ([*this]) with
    [divide_index], the values of its locals [key], [length],
    [count_edge_vertices], [vs] ([it->second]) and [new_index], and
    [vertices.size()] at entry. *)
Record divided := mkDivided {
  d_first : TriangleLengths F;
  d_second : TriangleLengths F;
  d_vertices : list Vec3f;
  d_edge_divides : EdgeDivides;
  d_key : Z * Z;
  d_length : F;
  d_count : Z;
  d_sequence : VerticesSequence;
  d_new_index : Z;
  d_old_size : nat;
  d_triangle : TriangleLengths F;
  d_index : Z;
}.

Definition divide (tl : TriangleLengths F) (divide_index : Z)
    (max_length : F) (vertices : list Vec3f) (edge_divides : EdgeDivides)
  : option divided :=
  let indices := tl_indices tl in
  let l := tl_l tl in
  let i0 := divide_index in
  let i1 := ((divide_index + 1) mod 3)%Z in
  let vi0 := vnth indices i0 in
  let vi1 := vnth indices i1 in
  let '(key, key_swap) := edge_key vi0 vi1 in
  let edge_length := vnth l divide_index in
  let old_size := List.length vertices in
  count_edge_vertices ← f_to_size_t (f_floor (edge_length / max_length));
  let count_edge_segments := f_of_Z (count_edge_vertices + 1)%Z in
  '(vertices, edge_divides, vs) ←
    find_or_create key count_edge_vertices count_edge_segments vertices
      edge_divides;
  let index_offset := (count_edge_vertices / 2)%Z in
  let i2 := ((divide_index + 2) mod 3)%Z in
  let index_offset :=
    if (count_edge_vertices mod 2 =? 0)%Z
       && eqb key_swap (vnth l i1 <? vnth l i2)
    then (index_offset - 1)%Z else index_offset in
  let sign := (if positive_order vs then 1 else -1)%Z in
  let new_index := (start_index vs + sign * index_offset)%Z in
  let vi2 := vnth indices i2 in
  v2 ← vget vertices vi2;
  vn ← vget vertices new_index;
  let new_len := norm (vsub v2 vn) in
  let ratio := f_of_Z (1 + index_offset)%Z / count_edge_segments in
  let len1 := vnth l i0 * ratio in
  let len2 := vnth l i0 - len1 in
  let '(len1, len2) := if key_swap then (len2, len1) else (len1, len2) in
  let indices1 := mkVec3 vi0 new_index vi2 in
  let lengths1 := mkVec3 len1 new_len (vnth l i2) in
  let indices2 := mkVec3 new_index vi1 vi2 in
  let lengths2 := mkVec3 len2 (vnth l i1) new_len in
  let edge_divides :=
    if (index_offset >? 0)%Z then
      let '(new_key, new_key_swap) := edge_key key.1 new_index in
      insert_new new_key
        (if new_key_swap
         then mkVS (new_index - sign)%Z (negb (positive_order vs))
         else vs)
        edge_divides
    else edge_divides in
  let edge_divides :=
    if (size_t_of_int index_offset <? size_t_of_int (count_edge_vertices - 1))%Z
    then
      let '(new_key, new_key_swap) := edge_key new_index key.2 in
      insert_new new_key
        (if new_key_swap
         then mkVS (start_index vs + sign * (count_edge_vertices - 1))%Z
                   (negb (positive_order vs))
         else mkVS (new_index + sign)%Z (positive_order vs))
        edge_divides
    else edge_divides in
  Some (mkDivided (mkTL indices1 lengths1) (mkTL indices2 lengths2)
                  vertices edge_divides
                  key edge_length count_edge_vertices vs new_index old_size
                  tl divide_index).

(** The state of the loops of [subdivide]: the vertices and triangles of
    [result] and the registry. *)
Record sub_state := mkSub {
  s_vertices : list Vec3f;
  s_edge_divides : EdgeDivides;
  s_indices : list Vec3crd;
  (** the calls of [divide] made so far, oldest first: not a variable of
      the source, kept for the statements about a run *)
  s_divisions : list divided;
}.

(** The [do ... while (true)] loop: [tl] is the triangle in hand, [tls]
    the queue (front first). *)
Fixpoint divide_loop (fuel : nat) (max_length : F)
    (tl : TriangleLengths F) (tls : list (TriangleLengths F))
    (st : sub_state) : outcome sub_state :=
  match fuel with
  | O => Timeout
  | S fuel =>
    let divide_index := get_divide_index tl max_length in
    if (divide_index <? 0)%Z then
      let st := mkSub (s_vertices st) (s_edge_divides st)
                      (s_indices st ++ [tl_indices tl]) (s_divisions st) in
      match tls with
      | [] => Done st
      | front :: tls => divide_loop fuel max_length front tls st
      end
    else
      match divide tl divide_index max_length
                   (s_vertices st) (s_edge_divides st) with
      | None => Undefined
      | Some d =>
        divide_loop fuel max_length (d_first d) (tls ++ [d_second d])
          (mkSub (d_vertices d) (d_edge_divides d) (s_indices st)
                 (s_divisions st ++ [d]))
      end
  end.

(** One iteration of the [for] loop over the input triangles; [vertices]
    are the input vertices, which [Edges] reads. *)
Definition subdivide_triangle (fuel : nat) (max_length : F)
    (vertices : list Vec3f) (indices : Vec3crd) (st : sub_state)
  : outcome sub_state :=
  match Edges_new indices vertices with
  | None => Undefined
  | Some edges =>
    let '(dividable, edges) := is_dividable edges max_length in
    if negb dividable then
      Done (mkSub (s_vertices st) (s_edge_divides st)
                  (s_indices st ++ [indices]) (s_divisions st))
    else
      divide_loop fuel max_length (mkTL indices (e_lengths edges)) [] st
  end.

Fixpoint subdivide_triangles (fuel : nat) (max_length : F)
    (vertices : list Vec3f) (triangles : list Vec3crd) (st : sub_state)
  : outcome sub_state :=
  match triangles with
  | [] => Done st
  | indices :: rest =>
    match subdivide_triangle fuel max_length vertices indices st with
    | Done st => subdivide_triangles fuel max_length vertices rest st
    | Undefined => Undefined
    | AssertFailed => AssertFailed
    | Timeout => Timeout
    end
  end.

(** The run of [subdivide] up to its [return]; [fuel] bounds the
    iterations of the inner loop spent on one input triangle. *)
Definition subdivide_run (fuel : nat) (its : indexed_triangle_set F)
    (max_length : F) : outcome sub_state :=
  subdivide_triangles fuel max_length (its_vertices its) (its_indices its)
    (mkSub (its_vertices its) ∅ [] []).

Definition subdivide (fuel : nat) (its : indexed_triangle_set F)
    (max_length : F) : outcome (indexed_triangle_set F) :=
  match subdivide_run fuel its max_length with
  | Done st => Done (mkIts (s_indices st) (s_vertices st))
  | Undefined => Undefined
  | AssertFailed => AssertFailed
  | Timeout => Timeout
  end.
End Subdivide.
Arguments Edges F : clear implicits.
Arguments divided F : clear implicits.
Arguments sub_state F : clear implicits.

(** ** calc_width and calc_widths *)

Record Direction (F : Type) := mkDirection {
  d_dir : Vec3 F;
  d_weight : F;
}.
Arguments mkDirection {F} _ _.
Arguments d_dir {F} _.
Arguments d_weight {F} _.

(** [RaysConfig]; [is_angle_filtering()] and [is_deviation_filtering()]
    are declared in the header, which is not part of the sources: they are
    taken as given answers of the configuration. *)
Record RaysConfig (F : Type) := mkRaysConfig {
  normal_z_max : F;
  safe_move : F;
  dirs : list (Direction F);
  allowed_angle : F;
  allowed_deviation : F;
  is_angle_filtering : bool;
  is_deviation_filtering : bool;
}.
Arguments mkRaysConfig {F} _ _ _ _ _ _ _.
Arguments normal_z_max {F} _.
Arguments safe_move {F} _.
Arguments dirs {F} _.
Arguments allowed_angle {F} _.
Arguments allowed_deviation {F} _.
Arguments is_angle_filtering {F} _.
Arguments is_deviation_filtering {F} _.

(** [igl::Hit]: the triangle that was hit and the distance along the ray. *)
Record Hit (F : Type) := mkHit {
  hit_id : Z;
  hit_t : F;
}.
Arguments mkHit {F} _ _.
Arguments hit_id {F} _.
Arguments hit_t {F} _.

Section CalcWidth.
Context {F : Type} {SF : Scalar F}.
Local Open Scope scalar_scope.

Local Abbreviation Vec3f := (Vec3 F).

(** The collaborators of [calc_width] that live outside the sources: the
    ray tree with its query [AABBTreeIndirect::intersect_ray_first_hit],
    the per-triangle normals stored with it, the rotation
    [Eigen::AngleAxis(angle, axis).matrix() * ray] and [std::acos]. *)
Variable AABBTree : Type.
Variable intersect_ray_first_hit : AABBTree -> Vec3f -> Vec3f -> option (Hit F).
Variable triangle_normals : AABBTree -> list Vec3f.
Variable angle_axis : F -> Vec3f -> Vec3f -> Vec3f.
Variable acos : F -> F.

(** value for width when no intersection *)
Definition no_width : F := - f_one.

(** The accumulators of the first loop. *)
Record ray_acc := mkRayAcc {
  a_widths : list F;
  a_weights : list F;
  a_sum_width : F;
  a_sq_sum_width : F;
}.

(** The test of one hit against the allowed angle: [Some true] keeps the
    hit, [Some false] is the [continue]. *)
Definition angle_ok (tree : AABBTree) (config : RaysConfig F)
    (ray_dir : Vec3f) (hit : Hit F) : option bool :=
  if is_angle_filtering config then
    hit_normal ← vget (triangle_normals tree) (hit_id hit);
    let dot := vdot ray_dir hit_normal in
    let dot := if dot <? - f_one then - f_one else dot in
    let dot := if dot >? f_one then f_one else dot in
    let angle := acos dot in
    Some (negb (angle >? allowed_angle config))
  else Some true.

(** The body of [for (const auto &dir : dirs)]. *)
Definition cast_ray (tree : AABBTree) (config : RaysConfig F)
    (ray_dir ray_point : Vec3f) (tr_angle : F) (tr_axis : Vec3f)
    (acc : ray_acc) (dir : Direction F) : option ray_acc :=
  let ray_tr := angle_axis tr_angle tr_axis (d_dir dir) in
  match intersect_ray_first_hit tree ray_point ray_tr with
  | None => Some acc
  | Some hit =>
    ok ← angle_ok tree config ray_dir hit;
    if (ok : bool) then
      let width := hit_t hit in
      Some (mkRayAcc (a_widths acc ++ [width])
                     (a_weights acc ++ [d_weight dir])
                     (a_sum_width acc + width)
                     (a_sq_sum_width acc + width * width))
    else Some acc
  end.

Fixpoint cast_rays (tree : AABBTree) (config : RaysConfig F)
    (ray_dir ray_point : Vec3f) (tr_angle : F) (tr_axis : Vec3f)
    (ds : list (Direction F)) (acc : ray_acc) : option ray_acc :=
  match ds with
  | [] => Some acc
  | dir :: ds =>
    acc ← cast_ray tree config ray_dir ray_point tr_angle tr_axis acc dir;
    cast_rays tree config ray_dir ray_point tr_angle tr_axis ds acc
  end.

(** The second loop, over [widths[i]] and [weights[i]]: the weighted sum
    and the sum of the weights of the widths that are kept. *)
Fixpoint weighted_sums (config : RaysConfig F) (mean threshold_deviation : F)
    (widths weights : list F) (sum_width sum_weight : F) : F * F :=
  match widths, weights with
  | width :: widths, weight :: weights =>
    if is_deviation_filtering config
       && (f_abs (width - mean) >? threshold_deviation)
    then weighted_sums config mean threshold_deviation widths weights
           sum_width sum_weight
    else weighted_sums config mean threshold_deviation widths weights
           (sum_width + width * weight) (sum_weight + weight)
  | _, _ => (sum_width, sum_weight)
  end.

(** The part of [calc_width] after the rays were cast. *)
Definition width_statistics (config : RaysConfig F) (acc : ray_acc) : F :=
  match a_widths acc with
  | [] => no_width
  | [front] => front
  | _ =>
    let size := f_of_Z (Z.of_nat (length (a_widths acc))) in
    let mean := a_sum_width acc / size in
    let standard_deviation :=
      f_sqrt (a_sq_sum_width acc / size - mean * mean) in
    let threshold_deviation := standard_deviation * allowed_deviation config in
    let '(sum_width, sum_weight) :=
      weighted_sums config mean threshold_deviation (a_widths acc)
        (a_weights acc) f_zero f_zero in
    if sum_weight <=? f_zero then mean
    else sum_width / sum_weight + safe_move config
  end.

Definition calc_width (point normal : Vec3f) (tree : AABBTree)
    (config : RaysConfig F) : option F :=
  if v_z normal >? normal_z_max config then Some no_width
  else
    let ray_dir := vneg normal in
    let ray_point := vadd point (vscale ray_dir (safe_move config)) in
    let z_axe := mkVec3 f_zero f_zero f_one in
    let axis := vcross z_axe ray_dir in
    let angle := acos (vdot z_axe ray_dir) in
    acc ← cast_rays tree config ray_dir ray_point angle axis (dirs config)
            (mkRayAcc [] [] f_zero f_zero);
    Some (width_statistics config acc).

(** The body of [tbb::parallel_for]: one independent slot per index. *)
Fixpoint calc_widths_loop (points normals : list Vec3f) (tree : AABBTree)
    (config : RaysConfig F) : option (list F) :=
  match points, normals with
  | vertex :: points, normal :: normals =>
    w ← calc_width vertex normal tree config;
    ws ← calc_widths_loop points normals tree config;
    Some (w :: ws)
  | _, _ => Some []
  end.

Definition calc_widths (ndebug : bool) (points normals : list Vec3f)
    (tree : AABBTree) (config : RaysConfig F) : outcome (list F) :=
  let points_empty := match points with [] => true | _ => false end in
  let dirs_empty := match dirs config with [] => true | _ => false end in
  let same_size := (length points =? length normals)%nat in
  assert ndebug (negb points_empty) (
  assert ndebug (negb dirs_empty) (
  assert ndebug same_size (
  if points_empty || dirs_empty || negb same_size then Done []
  else of_option (calc_widths_loop points normals tree config)))).
End CalcWidth.
(** ** generate_support_points *)

Record SampleConfig (F : Type) := mkSampleConfig {
  min_width : F;
  max_width : F;
  min_radius : F;
  max_radius : F;
  multiplicator : F;
  sample_normal_z_max : F;
}.
Arguments mkSampleConfig {F} _ _ _ _ _ _.
Arguments min_width {F} _.
Arguments max_width {F} _.
Arguments min_radius {F} _.
Arguments max_radius {F} _.
Arguments multiplicator {F} _.
Arguments sample_normal_z_max {F} _.

Record PointRadius (F : Type) := mkPointRadius {
  pr_point : Vec3 F;
  pr_radius : F;
}.
Arguments mkPointRadius {F} _ _.
Arguments pr_point {F} _.
Arguments pr_radius {F} _.

Section Sampler.
Context {F : Type} {SF : Scalar F}.
Local Open Scope scalar_scope.

Local Abbreviation Vec3f := (Vec3 F).

(** [std::mt19937] with one [std::uniform_real_distribution<float>(0, 1)]
    applied to it: the three distributions of the source are stateless
    and share the one generator. *)
Variable Rng : Type.
Variable uniform01 : Rng -> F * Rng.

Definition triangle_area (v0 v1 v2 : Vec3f) : F :=
  let ab := vsub v1 v0 in
  let ac := vsub v2 v0 in
  norm (vcross ab ac) / f_of_Z 2.

Definition triangle_area_indexed (triangle_inices : Vec3crd)
    (vertices : list Vec3f) : option F :=
  v0 ← vget vertices (vnth triangle_inices 0);
  v1 ← vget vertices (vnth triangle_inices 1);
  v2 ← vget vertices (vnth triangle_inices 2);
  Some (triangle_area v0 v1 v2).

Definition width_to_radius (cfg : SampleConfig F) (width : F) : F :=
  let width_range := max_width cfg - min_width cfg in
  let radius_range := max_radius cfg - min_radius cfg in
  (width - min_width cfg) / width_range * radius_range + min_radius cfg.

(** The test that takes a vertex width out of the needs of the sampler. *)
Definition width_out_of_needs (cfg : SampleConfig F) (width : F) : bool :=
  (width >? max_width cfg) || (width <? f_zero).

(** The loop [for (int i = 0; i < 3; ++i)] over the vertices of one
    triangle, from index [i] on: answers [is_full_in_needs], [radiuses]
    and [area_for_one_support]. *)
Fixpoint needs_loop (cfg : SampleConfig F) (widths : list F)
    (triangle_indices : Vec3crd) (rest : list Z) (radiuses : Vec3f)
    (area_for_one_support : F) : option (bool * Vec3f * F) :=
  match rest with
  | [] => Some (true, radiuses, area_for_one_support)
  | i :: rest =>
    width ← vget widths (vnth triangle_indices i);
    if width_out_of_needs cfg width
    then Some (false, radiuses, area_for_one_support)
    else
      let r := width_to_radius cfg width in
      let area := r * r * f_pi in
      needs_loop cfg widths triangle_indices rest (vset radiuses i r)
        (area_for_one_support + area)
  end.

(** The state of the sampler between triangles. *)
Record sampler_state := mkSampler {
  sp_result : list (PointRadius F);
  sp_rng : Rng;
}.

(** The loop [for (int c = 0; c < count; c++)].  The two draws of a point
    are the arguments of one constructor call; they are taken here from
    left to right. *)
Fixpoint scatter (count : nat) (v0 v1 v2 radiuses : Vec3f)
    (st : sampler_state) : sampler_state :=
  match count with
  | O => st
  | S count =>
    let '(b0, g) := uniform01 (sp_rng st) in
    let '(b1, g) := uniform01 g in
    let '(b0, b1) :=
      if (b0 + b1) >? f_one then (f_one - b0, f_one - b1) else (b0, b1) in
    let b2 := f_one - b0 - b1 in
    let pos := mkVec3 (b0 * v_x v0 + b1 * v_x v1 + b2 * v_x v2)
                      (b0 * v_y v0 + b1 * v_y v1 + b2 * v_y v2)
                      (b0 * v_z v0 + b1 * v_z v1 + b2 * v_z v2) in
    let radius := f_zero + b0 * vnth radiuses 0 + b1 * vnth radiuses 1
                  + b2 * vnth radiuses 2 in
    scatter count v0 v1 v2 radiuses
      (mkSampler (sp_result st ++ [mkPointRadius pos radius]) g)
  end.

(** The body of [for (const Vec3crd &triangle_indices : its.indices)]. *)
Definition sample_triangle (its : indexed_triangle_set F) (widths : list F)
    (cfg : SampleConfig F) (triangle_indices : Vec3crd) (st : sampler_state)
  : option sampler_state :=
  let zero3 := mkVec3 f_zero f_zero f_zero in
  '(is_full_in_needs, radiuses, area_for_one_support) ←
    needs_loop cfg widths triangle_indices [0; 1; 2]%Z zero3 f_zero;
  if negb (is_full_in_needs : bool) then Some st
  else
    let area_for_one_support := area_for_one_support / f_of_Z 3 in
    area ← triangle_area_indexed triangle_indices (its_vertices its);
    let countf := area / area_for_one_support * multiplicator cfg in
    let int_part_of_count := f_trunc countf in
    let fraction := countf - int_part_of_count in
    count ← f_to_int int_part_of_count;
    let '(generate, g) := uniform01 (sp_rng st) in
    let st := mkSampler (sp_result st) g in
    let count := if generate <? fraction then (count + 1)%Z else count in
    if (count =? 0)%Z then Some st
    else
      v0 ← vget (its_vertices its) (vnth triangle_indices 0);
      v1 ← vget (its_vertices its) (vnth triangle_indices 1);
      v2 ← vget (its_vertices its) (vnth triangle_indices 2);
      let n := normalize (vcross (vsub v1 v0) (vsub v2 v0)) in
      if v_z n >? sample_normal_z_max cfg then Some st
      else Some (scatter (Z.to_nat count) v0 v1 v2 radiuses st).

Fixpoint sample_triangles (its : indexed_triangle_set F) (widths : list F)
    (cfg : SampleConfig F) (triangles : list Vec3crd) (st : sampler_state)
  : option sampler_state :=
  match triangles with
  | [] => Some st
  | triangle_indices :: triangles =>
    st ← sample_triangle its widths cfg triangle_indices st;
    sample_triangles its widths cfg triangles st
  end.

(** [generate_support_points]: answers the points and the generator as the
    call leaves it. *)
Definition generate_support_points (ndebug : bool)
    (its : indexed_triangle_set F) (widths : list F) (cfg : SampleConfig F)
    (random_generator : Rng) : outcome sampler_state :=
  assert ndebug (length (its_vertices its) =? length widths)%nat (
  of_option (sample_triangles its widths cfg (its_indices its)
               (mkSampler [] random_generator))).
End Sampler.
Arguments sampler_state F Rng : clear implicits.
Arguments mkSampler {F Rng} _ _.
Arguments sp_result {F Rng} _.
Arguments sp_rng {F Rng} _.

(** ** std::sort

    [std::sort] of <algorithm> is not part of the sources.  The C++
    standard requires of the comparator that it induces a strict weak
    ordering on the values of the range, and promises that the range then
    holds the same values in an order in which no value compares less than
    a value before it; the order of equivalent values is left open. *)

Section StdSort.
Context {A : Type}.

(** The requirement on [comp]: irreflexive and transitive, and so is being
    incomparable, on the values of the range. *)
Definition strict_weak_order_on (comp : A -> A -> bool) (l : list A) : Prop :=
  forall a b c, a ∈ l -> b ∈ l -> c ∈ l ->
    comp a a = false
    /\ (comp a b = true -> comp b c = true -> comp a c = true)
    /\ (comp a b = false -> comp b a = false ->
        comp b c = false -> comp c b = false ->
        comp a c = false /\ comp c a = false).

(** [a] may stand before [b] in a range sorted by [comp]: not [comp b a]. *)
Definition may_precede (comp : A -> A -> bool) (a b : A) : Prop :=
  comp b a = false.

(** Sorted with respect to [comp]: [comp] answers false for every value
    of the range taken with a value at an earlier position. *)
Definition sorted_by (comp : A -> A -> bool) (l : list A) : Prop :=
  StronglySorted (may_precede comp) l.

(** What the standard promises of a function used as [std::sort]. *)
Definition sort_contract (sort : (A -> A -> bool) -> list A -> list A)
  : Prop :=
  forall comp l, strict_weak_order_on comp l ->
    l ≡ₚ sort comp l /\ sorted_by comp (sort comp l).

(** A sort that keeps the contract, used to run the code on examples: the
    insertion sort that libstdc++ applies to short ranges; it leaves
    equivalent values in the order in which it found them. *)
Fixpoint insert_sorted (comp : A -> A -> bool) (x : A) (l : list A)
  : list A :=
  match l with
  | [] => [x]
  | y :: l' => if comp y x then y :: insert_sorted comp x l' else x :: l
  end.

Definition insertion_sort (comp : A -> A -> bool) (l : list A) : list A :=
  fold_right (insert_sorted comp) [] l.
End StdSort.

(** ** poisson_sphere_from_samples *)

Section Poisson.
Context {F : Type} {SF : Scalar F}.
Local Open Scope scalar_scope.

Local Abbreviation Vec3f := (Vec3 F).

(** [PointGrid3D] is declared outside the sources; the filter uses its
    constructor from a cell size, [insert] and [collides_with]. *)
Variable PointGrid3D : Type.
Variable grid_new : Vec3f -> PointGrid3D.
Variable grid_insert : PointGrid3D -> Vec3f -> PointGrid3D.
Variable collides_with : PointGrid3D -> Vec3f -> F -> bool.

(** [std::sort(first, last, comp)] of <algorithm>, which is not part of the
    sources: it answers the new contents of the range. *)
Variable std_sort :
  (PointRadius F -> PointRadius F -> bool) ->
  list (PointRadius F) -> list (PointRadius F).

(** The comparator of the call, [lhs.radius < rhs.radius]. *)
Definition radius_less (lhs rhs : PointRadius F) : bool :=
  pr_radius lhs <? pr_radius rhs.

(** The loop over the sorted samples. *)
Fixpoint poisson_loop (grid : PointGrid3D) (samples : list (PointRadius F))
    (actGrid : PointGrid3D) (result : list (PointRadius F))
  : list (PointRadius F) :=
  match samples with
  | [] => result
  | sample :: samples =>
    let r := pr_radius sample in
    if collides_with actGrid (pr_point sample) r
    then poisson_loop grid samples actGrid result
    else if collides_with grid (pr_point sample) r
    then poisson_loop grid samples actGrid result
    else poisson_loop grid samples (grid_insert actGrid (pr_point sample))
           (result ++ [sample])
  end.

(** Answers the new contents of [samples]; [back()] of an empty vector is
    undefined. *)
Definition poisson_sphere_from_samples (samples : list (PointRadius F))
    (grid : PointGrid3D) : option (list (PointRadius F)) :=
  let samples := std_sort radius_less samples in
  back ← last samples;
  let max_r := pr_radius back in
  let cell_size := mkVec3 max_r max_r max_r in
  let actGrid := grid_new cell_size in
  Some (poisson_loop grid samples actGrid []).
End Poisson.

(** ** create_fibonacci_sphere_samples *)

Section Fibonacci.
(** [D] is [double], [F] is [float]. *)
Context {D : Type} {SD : Scalar D} {F : Type} {SF : Scalar F}.
Local Open Scope scalar_scope.

Variable cos : D -> D.
Variable sin : D -> D.
(** [static_cast<float>] of a [double] *)
Variable to_float : D -> F.

(** The loop [for (size_t i = 0; i < count_samples; ++i)] from [i] on. *)
Fixpoint fibonacci_loop (count_samples : Z) (min_z phi : D) (rest : list Z)
    (points : list (Direction F)) : list (Direction F) :=
  match rest with
  | [] => points
  | i :: rest =>
    let z := f_one - f_of_Z i / f_of_Z (count_samples - 1)%Z in
    if z <? min_z then points
    else
      let radius := f_sqrt (f_one - z * z) in
      let theta := phi * f_of_Z i in
      let x := cos theta * radius in
      let y := sin theta * radius in
      let dir := mkVec3 (to_float x) (to_float y) (to_float z) in
      fibonacci_loop count_samples min_z phi rest
        (points ++ [mkDirection dir (v_z dir)])
  end.

Definition create_fibonacci_sphere_samples (ndebug : bool) (angle : D)
    (count_samples : Z) : outcome (list (Direction F)) :=
  if (count_samples <=? 1)%Z then
    Done [mkDirection (mkVec3 f_zero f_zero f_one) f_one]
  else
    assert ndebug (angle <? f_of_Z 180) (
    assert ndebug (angle >? f_of_Z 1) (
    let min_z := cos (angle / f_of_Z 2 * f_pi / f_of_Z 180) in
    assert ndebug (min_z >? f_zero) (
    let phi := f_pi * (f_of_Z 3 - f_sqrt (f_of_Z 5)) in
    Done (fibonacci_loop count_samples min_z phi (zrange 0 count_samples) [])))).
End Fibonacci.

(** ** The two scalar instances *)

(** *** IEEE binary32 *)

Module B32.
Definition prec : Z := 24.
Definition emax : Z := 128.

Abbreviation float := spec_float.

Definition of_Z (z : Z) : float := binary_normalize prec emax z 0 false.

(** The value of a finite float is [m * 2^e]; its floor and its
    truncation toward zero as integers. *)
Definition floor_Z (s : bool) (m : positive) (e : Z) : Z :=
  let z := if s then Z.neg m else Z.pos m in
  if 0 <=? e then z * 2 ^ e else Z.shiftr z (- e).

Definition trunc_Z (s : bool) (m : positive) (e : Z) : Z :=
  let z := if s then Z.neg m else Z.pos m in
  if 0 <=? e then z * 2 ^ e else Z.quot z (2 ^ (- e)).

Definition floor (x : float) : float :=
  match x with
  | S754_finite s m e =>
    if 0 <=? e then x
    else let z := floor_Z s m e in
         if z =? 0 then S754_zero s else of_Z z
  | _ => x
  end.

Definition trunc (x : float) : float :=
  match x with
  | S754_finite s m e =>
    if 0 <=? e then x
    else let z := trunc_Z s m e in
         if z =? 0 then S754_zero s else of_Z z
  | _ => x
  end.

Definition to_integer (lo hi : Z) (x : float) : option Z :=
  match x with
  | S754_zero _ => Some 0
  | S754_finite s m e =>
    let z := trunc_Z s m e in
    if (lo <=? z) && (z <? hi) then Some z else None
  | _ => None
  end.

(** [float(M_PI)] = 0x40490FDB *)
Definition pi : float := S754_finite false 13176795 (-22).
End B32.

#[export] Instance b32_scalar : Scalar B32.float := {
  f_zero := S754_zero false;
  f_one := B32.of_Z 1;
  f_add := SFadd B32.prec B32.emax;
  f_sub := SFsub B32.prec B32.emax;
  f_mul := SFmul B32.prec B32.emax;
  f_div := SFdiv B32.prec B32.emax;
  f_opp := SFopp;
  f_abs := SFabs;
  f_sqrt := SFsqrt B32.prec B32.emax;
  f_floor := B32.floor;
  f_trunc := B32.trunc;
  f_ltb := SFltb;
  f_leb := SFleb;
  f_of_Z := B32.of_Z;
  f_to_size_t := B32.to_integer 0 (2 ^ 64);
  f_to_int := B32.to_integer (- 2 ^ 31) (2 ^ 31);
  f_pi := B32.pi;
}.

(** *** IEEE binary64

    [double] in [create_fibonacci_sphere_samples].  The instance is not
    registered for the resolution of [Scalar]: binary32 and binary64 live
    in the same type of the standard library, and where [double] is meant
    the instance is named. *)

Module B64.
Definition prec : Z := 53.
Definition emax : Z := 1024.

Abbreviation float := spec_float.

Definition of_Z (z : Z) : float := binary_normalize prec emax z 0 false.

Definition floor (x : float) : float :=
  match x with
  | S754_finite s m e =>
    if 0 <=? e then x
    else let z := B32.floor_Z s m e in
         if z =? 0 then S754_zero s else of_Z z
  | _ => x
  end.

Definition trunc (x : float) : float :=
  match x with
  | S754_finite s m e =>
    if 0 <=? e then x
    else let z := B32.trunc_Z s m e in
         if z =? 0 then S754_zero s else of_Z z
  | _ => x
  end.

(** [M_PI] = 0x400921FB54442D18 *)
Definition pi : float := S754_finite false 7074237752028440 (-51).

(** [static_cast<float>] of a [double]: the nearest binary32 number. *)
Definition to_float (x : float) : B32.float :=
  match x with
  | S754_finite s m e =>
    binary_normalize B32.prec B32.emax (if s then Z.neg m else Z.pos m) e s
  | _ => x
  end.

(** A binary32 number as the binary64 number of the same value. *)
Definition of_float (x : B32.float) : float :=
  match x with
  | S754_finite s m e =>
    binary_normalize prec emax (if s then Z.neg m else Z.pos m) e s
  | _ => x
  end.
End B64.

Definition b64_scalar : Scalar B64.float := {|
  f_zero := S754_zero false;
  f_one := B64.of_Z 1;
  f_add := SFadd B64.prec B64.emax;
  f_sub := SFsub B64.prec B64.emax;
  f_mul := SFmul B64.prec B64.emax;
  f_div := SFdiv B64.prec B64.emax;
  f_opp := SFopp;
  f_abs := SFabs;
  f_sqrt := SFsqrt B64.prec B64.emax;
  f_floor := B64.floor;
  f_trunc := B64.trunc;
  f_ltb := SFltb;
  f_leb := SFleb;
  f_of_Z := B64.of_Z;
  f_to_size_t := B32.to_integer 0 (2 ^ 64);
  f_to_int := B32.to_integer (- 2 ^ 31) (2 ^ 31);
  f_pi := B64.pi;
|}.

(** *** Real numbers *)

Module Rs.
Definition ltb (a b : R) : bool := if Rlt_dec a b then true else false.
Definition leb (a b : R) : bool := if Rle_dec a b then true else false.

(** Truncation toward zero as an integer. *)
Definition trunc_Z (x : R) : Z :=
  if Rle_dec 0 x then Int_part x else - Int_part (- x).

Definition to_integer (lo hi : Z) (x : R) : option Z :=
  let z := trunc_Z x in
  if (lo <=? z) && (z <? hi) then Some z else None.
End Rs.

#[export] Instance R_scalar : Scalar R := {
  f_zero := 0%R;
  f_one := 1%R;
  f_add := Rplus;
  f_sub := Rminus;
  f_mul := Rmult;
  f_div := Rdiv;
  f_opp := Ropp;
  f_abs := Rabs;
  f_sqrt := sqrt;
  f_floor := fun x => IZR (Int_part x);
  f_trunc := fun x => IZR (Rs.trunc_Z x);
  f_ltb := Rs.ltb;
  f_leb := Rs.leb;
  f_of_Z := IZR;
  f_to_size_t := Rs.to_integer 0 (2 ^ 64);
  f_to_int := Rs.to_integer (- 2 ^ 31) (2 ^ 31);
  f_pi := PI;
}.


(** ** Concrete collaborators, used to run the code on examples *)

Module Examples.
Import B32.

Definition v3 (x y z : Z) : Vec3 float := mkVec3 (of_Z x) (of_Z y) (of_Z z).

(** Modelled from the spec: [PointGrid3D], whose code is not part of the
    sources.  The spec describes it as the set of already accepted points,
    queried for "does any stored point lie within radius r of the query
    point"; the cell size only organises the storage. *)
Definition ListGrid : Type := list (Vec3 float).
Definition lg_new (cell_size : Vec3 float) : ListGrid := [].
Definition lg_insert (g : ListGrid) (p : Vec3 float) : ListGrid := p :: g.
Definition lg_collides_with (g : ListGrid) (p : Vec3 float) (r : float)
  : bool :=
  existsb (fun q => f_ltb (norm (vsub p q)) r) g.

(** [std::sort] in the runs. *)
Definition isort
  : (PointRadius float -> PointRadius float -> bool) ->
    list (PointRadius float) -> list (PointRadius float) :=
  insertion_sort.

(** A linear congruential generator standing for [std::mt19937]; a draw
    is the state scaled into [0, 1). *)
Definition Lcg : Type := Z.
Definition lcg_uniform01 (g : Lcg) : float * Lcg :=
  (f_div (of_Z (g mod 2 ^ 24)) (of_Z (2 ^ 24)),
   (g * 1103515245 + 12345) mod 2 ^ 31).
End Examples.

(** [cos] and [sin] of <cmath> are not part of the sources.  In the runs
    they are the Taylor polynomials of degree 32 and 33, after the
    argument was reduced by a multiple of 2 pi into [-pi, pi]. *)
Section Series.
Context {D : Type} {SD : Scalar D}.
Local Open Scope scalar_scope.

(** [1 - r2/(k(k+1)) (1 - r2/((k+2)(k+3)) (1 - ...))], [n] factors deep. *)
Fixpoint taylor (n : nat) (k : Z) (r2 : D) : D :=
  match n with
  | O => f_one
  | S n => f_one - r2 / f_of_Z (k * (k + 1)) * taylor n (k + 2) r2
  end.

Definition reduce (x : D) : D :=
  let two_pi := f_of_Z 2 * f_pi in
  x - f_floor (x / two_pi + f_one / f_of_Z 2) * two_pi.

Definition cos_series (x : D) : D :=
  let r := reduce x in taylor 16 1 (r * r).

Definition sin_series (x : D) : D :=
  let r := reduce x in r * taylor 16 2 (r * r).
End Series.

(** ** Vector access *)

Lemma vnth_0 {A} (a b c : A) : vnth (mkVec3 a b c) 0 = a.
Proof. reflexivity. Qed.

Lemma vnth_1 {A} (a b c : A) : vnth (mkVec3 a b c) 1 = b.
Proof. reflexivity. Qed.

Lemma vnth_2 {A} (a b c : A) : vnth (mkVec3 a b c) 2 = c.
Proof. reflexivity. Qed.

(** ** std::sort: the contract and a sort that keeps it *)

Section StdSortProps.
Context {A : Type}.
Variable comp : A -> A -> bool.
Variable range : list A.
Hypothesis order : strict_weak_order_on comp range.

Lemma comp_asymmetric (a b : A) :
  a ∈ range -> b ∈ range -> comp a b = true -> comp b a = false.
Proof using order.
  intros Ha Hb Hab. destruct (comp b a) eqn:Hba; [|reflexivity].
  destruct (order a b a Ha Hb Ha) as (Hirr & Htrans & _).
  rewrite <- Hirr. symmetry. by apply Htrans.
Qed.

Lemma comp_negatively_transitive (a b c : A) :
  a ∈ range -> b ∈ range -> c ∈ range ->
  comp a b = false -> comp b c = false -> comp a c = false.
Proof using order.
  intros Ha Hb Hc Hab Hbc. destruct (comp a c) eqn:Hac; [|reflexivity].
  destruct (comp b a) eqn:Hba.
  { destruct (order b a c Hb Ha Hc) as (_ & Htrans & _).
    rewrite <- Hbc. symmetry. by apply Htrans. }
  destruct (comp c b) eqn:Hcb.
  { destruct (order a c b Ha Hc Hb) as (_ & Htrans & _).
    rewrite <- Hab. symmetry. by apply Htrans. }
  destruct (order a b c Ha Hb Hc) as (_ & _ & Heq).
  destruct (Heq Hab Hba Hbc Hcb) as [H _]. by rewrite <- H, Hac.
Qed.

Lemma insert_sorted_permutation (x : A) (l : list A) :
  insert_sorted comp x l ≡ₚ x :: l.
Proof.
  induction l as [|y l IH]; cbn [insert_sorted]; [reflexivity|].
  destruct (comp y x); [|reflexivity].
  rewrite IH. apply Permutation_swap.
Qed.

Lemma insertion_sort_permutation (l : list A) : l ≡ₚ insertion_sort comp l.
Proof.
  induction l as [|x l IH]; cbn [insertion_sort fold_right]; [reflexivity|].
  rewrite insert_sorted_permutation. by constructor.
Qed.

Lemma insert_sorted_sorted (x : A) (l : list A) :
  x ∈ range -> (forall y, y ∈ l -> y ∈ range) ->
  sorted_by comp l -> sorted_by comp (insert_sorted comp x l).
Proof using order.
  intros Hx. induction l as [|y l IH]; intros Hin Hsorted;
    cbn [insert_sorted].
  - repeat constructor.
  - apply StronglySorted_inv in Hsorted as [Hl Hy].
    assert (Hyr : y ∈ range) by (apply Hin; left).
    assert (Hlr : forall z, z ∈ l -> z ∈ range)
      by (intros z Hz; apply Hin; by right).
    destruct (comp y x) eqn:E.
    + constructor; [by apply IH|].
      rewrite insert_sorted_permutation. constructor; [|exact Hy].
      by apply comp_asymmetric.
    + constructor; [by constructor|]. constructor; [exact E|].
      rewrite Forall_forall in Hy. apply Forall_forall. intros z Hz.
      unfold may_precede in *.
      apply (comp_negatively_transitive z y x); auto.
Qed.

Lemma insertion_sort_sorted (l : list A) :
  (forall y, y ∈ l -> y ∈ range) -> sorted_by comp (insertion_sort comp l).
Proof using order.
  induction l as [|x l IH]; intros Hin; cbn [insertion_sort fold_right].
  - constructor.
  - apply insert_sorted_sorted.
    + apply Hin. left.
    + intros y Hy. apply Hin. right.
      by rewrite (insertion_sort_permutation l).
    + apply IH. intros y Hy. apply Hin. by right.
Qed.
End StdSortProps.

(** The insertion sort keeps the contract of [std::sort]. *)
Lemma insertion_sort_contract {A} : sort_contract (@insertion_sort A).
Proof.
  intros comp l Horder. split.
  - apply insertion_sort_permutation.
  - by apply (insertion_sort_sorted comp l Horder).
Qed.

(** *** The comparator of the source is a strict weak ordering

    Over the reals always; in binary32 on radii that are numbers: the
    comparison of two floats is the lexicographic comparison of their
    sign class, exponent and mantissa.  A comparison with a NaN is false
    both ways, which makes a NaN equivalent to every number. *)

Module FloatOrder.
Definition is_nan (x : spec_float) : bool :=
  match x with
  | S754_nan => true
  | _ => false
  end.

Definition order_key (x : spec_float) : Z * Z * Z :=
  match x with
  | S754_infinity true => (-2, 0, 0)
  | S754_finite true m e => (-1, - e, Z.neg m)
  | S754_zero _ | S754_nan => (0, 0, 0)
  | S754_finite false m e => (1, e, Z.pos m)
  | S754_infinity false => (2, 0, 0)
  end.

Definition key_ltb (a b : Z * Z * Z) : bool :=
  let '(a1, a2, a3) := a in
  let '(b1, b2, b3) := b in
  (a1 <? b1) || ((a1 =? b1) && ((a2 <? b2) || ((a2 =? b2) && (a3 <? b3)))).

Lemma SFltb_key (x y : spec_float) :
  is_nan x = false -> is_nan y = false ->
  SFltb x y = key_ltb (order_key x) (order_key y).
Proof.
  destruct x as [[|]|[|]| |[|] m e], y as [[|]|[|]| |[|] m' e'];
    try discriminate; intros _ _; try reflexivity;
    unfold SFltb, SFcompare, order_key, key_ltb;
    rewrite Pos.compare_cont_spec; cbn [Pos.switch_Eq];
    destruct (Z.compare_spec e e'), (Pos.compare_spec m m'); cbn [CompOpp];
    repeat match goal with
           | |- context [(?a <? ?b)] => destruct (Z.ltb_spec a b)
           | |- context [(?a =? ?b)] => destruct (Z.eqb_spec a b)
           end; cbn [andb orb]; first [reflexivity | lia].
Qed.

Lemma key_ltb_irreflexive (a : Z * Z * Z) : key_ltb a a = false.
Proof.
  destruct a as [[a1 a2] a3]. unfold key_ltb.
  rewrite !Z.ltb_irrefl, !Z.eqb_refl. reflexivity.
Qed.

Lemma key_ltb_spec (a b : Z * Z * Z) :
  key_ltb a b = true
  <-> a.1.1 < b.1.1
      \/ (a.1.1 = b.1.1
          /\ (a.1.2 < b.1.2 \/ (a.1.2 = b.1.2 /\ a.2 < b.2))).
Proof.
  destruct a as [[a1 a2] a3], b as [[b1 b2] b3]. unfold key_ltb. cbn [fst snd].
  rewrite orb_true_iff, andb_true_iff, orb_true_iff, andb_true_iff.
  rewrite !Z.ltb_lt, !Z.eqb_eq. reflexivity.
Qed.

Lemma key_ltb_false (a b : Z * Z * Z) :
  key_ltb a b = false
  <-> b.1.1 < a.1.1
      \/ (a.1.1 = b.1.1
          /\ (b.1.2 < a.1.2 \/ (a.1.2 = b.1.2 /\ b.2 <= a.2))).
Proof.
  rewrite <- not_true_iff_false, key_ltb_spec. lia.
Qed.

(** Radii that are numbers are ordered by the comparator. *)
Lemma radius_order_binary32 (samples : list (PointRadius B32.float)) :
  Forall (fun s => is_nan (pr_radius s) = false) samples ->
  strict_weak_order_on radius_less samples.
Proof.
  intros Hnum a b c Ha Hb Hc. rewrite Forall_forall in Hnum.
  unfold radius_less. cbn [f_ltb b32_scalar].
  rewrite !SFltb_key by by apply Hnum.
  split; [apply key_ltb_irreflexive|].
  rewrite !key_ltb_spec, !key_ltb_false. lia.
Qed.

Lemma radius_order_reals (samples : list (PointRadius R)) :
  strict_weak_order_on radius_less samples.
Proof.
  intros a b c _ _ _. unfold radius_less. cbn [f_ltb R_scalar]. unfold Rs.ltb.
  repeat destruct (Rlt_dec _ _); repeat split; intros; try reflexivity;
    try discriminate; exfalso; lra.
Qed.
End FloatOrder.

(** ** Poisson filter: properties *)

Section PoissonProps.
Context {F : Type} {SF : Scalar F}.
Variable PointGrid3D : Type.
Variable grid_new : Vec3 F -> PointGrid3D.
Variable grid_insert : PointGrid3D -> Vec3 F -> PointGrid3D.
Variable collides_with : PointGrid3D -> Vec3 F -> F -> bool.
Variable std_sort :
  (PointRadius F -> PointRadius F -> bool) ->
  list (PointRadius F) -> list (PointRadius F).

(** The call [std::sort(samples.begin(), samples.end(), comp)] of the
    source. *)
Local Abbreviation sort_by_radius := (std_sort radius_less).

(** [a] may stand before [b] in the output of [std::sort]: not [b < a]. *)
Definition radius_ascending (a b : PointRadius F) : Prop :=
  f_ltb (pr_radius b) (pr_radius a) = false.

(** The local grid after the points of [accepted] were inserted. *)
Definition grid_of (start : PointGrid3D) (accepted : list (PointRadius F))
  : PointGrid3D :=
  fold_left grid_insert (map pr_point accepted) start.

Local Abbreviation loop := (poisson_loop PointGrid3D grid_insert collides_with).

Lemma poisson_loop_accepts (grid : PointGrid3D) (samples : list (PointRadius F)) :
  forall actGrid result,
  exists accepted,
    loop grid samples actGrid result = result ++ accepted
    /\ sublist accepted samples
    /\ forall pre s post, accepted = pre ++ s :: post ->
         collides_with grid (pr_point s) (pr_radius s) = false
         /\ collides_with (grid_of actGrid pre) (pr_point s) (pr_radius s)
            = false.
Proof.
  induction samples as [|sample samples IH]; intros actGrid result; simpl.
  - exists []. rewrite app_nil_r. split; [reflexivity|]. split; [constructor|].
    intros pre s post H; destruct pre; discriminate.
  - destruct (collides_with actGrid (pr_point sample) (pr_radius sample)) eqn:Hact.
    { destruct (IH actGrid result) as (acc & Heq & Hsub & Hfree).
      exists acc. split; [exact Heq|]. split; [by apply sublist_cons|exact Hfree]. }
    destruct (collides_with grid (pr_point sample) (pr_radius sample)) eqn:Hext.
    { destruct (IH actGrid result) as (acc & Heq & Hsub & Hfree).
      exists acc. split; [exact Heq|]. split; [by apply sublist_cons|exact Hfree]. }
    destruct (IH (grid_insert actGrid (pr_point sample)) (result ++ [sample]))
      as (acc & Heq & Hsub & Hfree).
    exists (sample :: acc). split; [|split].
    + rewrite Heq, <- app_assoc. reflexivity.
    + by apply sublist_skip.
    + intros pre s post H. destruct pre as [|p pre]; simpl in H.
      * injection H as -> ->. split; assumption.
      * injection H as H1 H2. subst p. exact (Hfree pre s post H2).
Qed.

Lemma sublist_strongly_sorted {A} (R : A -> A -> Prop) (l1 l2 : list A) :
  sublist l1 l2 -> StronglySorted R l2 -> StronglySorted R l1.
Proof.
  induction 1 as [|x l1 l2 Hs IH|x l1 l2 Hs IH]; intros Hsorted.
  - constructor.
  - apply StronglySorted_inv in Hsorted as [Hl2 Hx]. constructor; [by apply IH|].
    rewrite Forall_forall in *. intros y Hy. apply Hx.
    by eapply elem_of_sublist.
  - apply StronglySorted_inv in Hsorted as [Hl2 _]. by apply IH.
Qed.

(** C5.  For a [std::sort] that keeps the promise of the standard, and
    candidates whose radii the comparator of the source,
    [lhs.radius < rhs.radius], orders: the list that the loop of the filter
    visits front to back is a rearrangement of the candidates in which no
    radius is less than a radius before it, so the candidates are processed
    in ascending order of radius; the filter keeps a sublist of it; and
    every kept point, tested at its own radius, collides neither with the
    external grid nor with the local grid that holds the points kept
    before it in this call. *)
Theorem poisson_accepts_only_free_points
    (samples : list (PointRadius F)) (grid : PointGrid3D)
    (result : list (PointRadius F))
    (Hsort : sort_contract std_sort)
    (Hcomp : strict_weak_order_on radius_less samples)
    (Hrun : poisson_sphere_from_samples PointGrid3D grid_new grid_insert
              collides_with std_sort samples grid = Some result) :
  samples ≡ₚ sort_by_radius samples
  /\ StronglySorted radius_ascending (sort_by_radius samples)
  /\ sublist result (sort_by_radius samples)
  /\ StronglySorted radius_ascending result
  /\ exists back,
       last (sort_by_radius samples) = Some back
       /\ forall pre s post, result = pre ++ s :: post ->
            collides_with grid (pr_point s) (pr_radius s) = false
            /\ collides_with
                 (grid_of (grid_new (mkVec3 (pr_radius back) (pr_radius back)
                                            (pr_radius back))) pre)
                 (pr_point s) (pr_radius s) = false.
Proof.
  destruct (Hsort radius_less samples Hcomp) as [Hperm Hsorted].
  change (StronglySorted radius_ascending (sort_by_radius samples))
    in Hsorted.
  unfold poisson_sphere_from_samples in Hrun.
  destruct (last (sort_by_radius samples)) as [back|] eqn:Hback;
    simpl in Hrun; [|discriminate].
  injection Hrun as <-.
  set (cell := mkVec3 (pr_radius back) (pr_radius back) (pr_radius back)).
  destruct (poisson_loop_accepts grid (sort_by_radius samples)
              (grid_new cell) []) as (acc & Heq & Hsub & Hfree).
  rewrite Heq. simpl.
  split; [exact Hperm|]. split; [exact Hsorted|].
  split; [exact Hsub|]. split.
  - by apply (sublist_strongly_sorted _ _ _ Hsub).
  - exists back. split; [reflexivity|exact Hfree].
Qed.

(** C9.  With an empty candidate list the sorted vector is empty and its
    [back()] is read all the same: the call is undefined instead of
    answering an empty result; a non-empty list always gets a result. *)
Theorem poisson_defined_iff_nonempty
    (samples : list (PointRadius F)) (grid : PointGrid3D)
    (Hsize : length (sort_by_radius samples) = length samples) :
  poisson_sphere_from_samples PointGrid3D grid_new grid_insert
    collides_with std_sort samples grid = None
  <-> samples = [].
Proof.
  unfold poisson_sphere_from_samples.
  destruct (last (sort_by_radius samples)) as [back|] eqn:Hback; simpl.
  - split; [discriminate|]. intros ->. simpl in Hsize.
    destruct (sort_by_radius []); [discriminate Hback|discriminate Hsize].
  - split; [|reflexivity]. intros _.
    apply last_None in Hback. rewrite Hback in Hsize.
    destruct samples; [reflexivity|discriminate Hsize].
Qed.
End PoissonProps.

Module PoissonRuns.
Import B32 Examples.

(** Three candidates on a line; the second collides, at its radius 2,
    with the first, which is kept before it. *)
Definition candidates : list (PointRadius float) :=
  [mkPointRadius (v3 0 0 0) (of_Z 2); mkPointRadius (v3 1 0 0) (of_Z 1);
   mkPointRadius (v3 10 0 0) (of_Z 3)].

Definition external_grid : ListGrid := [v3 20 0 0].

Definition kept : list (PointRadius float) :=
  [mkPointRadius (v3 1 0 0) (of_Z 1); mkPointRadius (v3 10 0 0) (of_Z 3)].

Lemma poisson_accepts_only_free_points_witness :
  poisson_sphere_from_samples ListGrid lg_new lg_insert lg_collides_with
    isort candidates external_grid = Some kept
  /\ candidates ≡ₚ isort radius_less candidates
  /\ StronglySorted radius_ascending (isort radius_less candidates)
  /\ sublist kept (isort radius_less candidates)
  /\ StronglySorted radius_ascending kept
  /\ exists back,
       last (isort radius_less candidates) = Some back
       /\ forall pre s post, kept = pre ++ s :: post ->
            lg_collides_with external_grid (pr_point s) (pr_radius s) = false
            /\ lg_collides_with
                 (grid_of ListGrid lg_insert
                    (lg_new (mkVec3 (pr_radius back) (pr_radius back)
                                    (pr_radius back))) pre)
                 (pr_point s) (pr_radius s) = false.
Proof.
  split; [vm_compute; reflexivity|].
  apply (poisson_accepts_only_free_points ListGrid lg_new lg_insert
           lg_collides_with isort candidates external_grid kept).
  - exact insertion_sort_contract.
  - apply FloatOrder.radius_order_binary32. repeat constructor.
  - vm_compute; reflexivity.
Defined.

Lemma poisson_defined_iff_nonempty_witness :
  (poisson_sphere_from_samples ListGrid lg_new lg_insert lg_collides_with
     isort [] external_grid = None
   <-> [] = ([] : list (PointRadius float)))
  /\ (poisson_sphere_from_samples ListGrid lg_new lg_insert lg_collides_with
        isort candidates external_grid = None
      <-> candidates = []).
Proof.
  split.
  - apply (poisson_defined_iff_nonempty ListGrid lg_new lg_insert
             lg_collides_with isort [] external_grid). reflexivity.
  - apply (poisson_defined_iff_nonempty ListGrid lg_new lg_insert
             lg_collides_with isort candidates external_grid).
    vm_compute; reflexivity.
Defined.
End PoissonRuns.

(** ** Support point sampler: properties *)

Section SamplerProps.
Context {F : Type} {SF : Scalar F}.
Variable Rng : Type.
Variable uniform01 : Rng -> F * Rng.

Local Abbreviation sample_triangle' := (sample_triangle Rng uniform01).
Local Abbreviation sample_triangles' := (sample_triangles Rng uniform01).
Local Abbreviation scatter' := (scatter Rng uniform01).

(** The generator after [n] draws. *)
Fixpoint draws (n : nat) (g : Rng) : Rng :=
  match n with
  | O => g
  | S n => draws n (snd (uniform01 g))
  end.

(** The widths of the three vertices of a triangle are read. *)
Definition widths_of (widths : list F) (triangle_indices : Vec3crd)
    (w0 w1 w2 : F) : Prop :=
  vget widths (vnth triangle_indices 0) = Some w0
  /\ vget widths (vnth triangle_indices 1) = Some w1
  /\ vget widths (vnth triangle_indices 2) = Some w2.

Lemma sample_triangle_out_of_needs (its : indexed_triangle_set F)
    (widths : list F) (cfg : SampleConfig F) (triangle_indices : Vec3crd)
    (st : sampler_state F Rng) (w0 w1 w2 : F) :
  widths_of widths triangle_indices w0 w1 w2 ->
  width_out_of_needs cfg w0 || width_out_of_needs cfg w1
    || width_out_of_needs cfg w2 = true ->
  sample_triangle' its widths cfg triangle_indices st = Some st.
Proof.
  intros (H0 & H1 & H2) Hout. unfold sample_triangle. simpl.
  rewrite H0. simpl.
  destruct (width_out_of_needs cfg w0); [reflexivity|].
  rewrite H1. simpl.
  destruct (width_out_of_needs cfg w1); [reflexivity|].
  rewrite H2. simpl.
  destruct (width_out_of_needs cfg w2); [reflexivity|discriminate].
Qed.

Lemma scatter_draws (count : nat) (v0 v1 v2 radiuses : Vec3 F) :
  forall st, exists points,
    scatter' count v0 v1 v2 radiuses st
    = mkSampler (sp_result st ++ points)
        (draws (2 * count) (sp_rng st))
    /\ length points = count.
Proof.
  induction count as [|count IH]; intros st.
  - exists []. destruct st. simpl. by rewrite app_nil_r.
  - simpl scatter.
    destruct (uniform01 (sp_rng st)) as [b0 g0] eqn:E0.
    destruct (uniform01 g0) as [b1 g1] eqn:E1.
    destruct (f_ltb f_one (f_add b0 b1)).
    all: match goal with
         | |- context [scatter _ _ _ _ _ _ _ ?s] =>
           destruct (IH s) as (points & -> & Hlen)
         end.
    all: eexists (_ :: points); simpl sp_result; simpl sp_rng.
    all: rewrite <- app_assoc; simpl.
    all: replace (count + S (count + 0))%nat with (S (2 * count)) by lia.
    all: simpl draws; rewrite E0; simpl; rewrite E1; simpl.
    all: split; [reflexivity | by rewrite Hlen].
Qed.

(** C7.  A triangle one of whose vertex widths is above [max_width] or
    below zero (the sentinel -1 is below zero) leaves the sampler as it
    found it: no point is added for it, and the points and the generator
    of a whole run are those of the run without the triangle. *)
Theorem out_of_range_width_skips_triangle (its : indexed_triangle_set F)
    (widths : list F) (cfg : SampleConfig F) (triangle_indices : Vec3crd)
    (w0 w1 w2 : F)
    (Hread : widths_of widths triangle_indices w0 w1 w2)
    (Hout : exists w, w ∈ [w0; w1; w2]
            /\ (f_ltb (max_width cfg) w = true \/ f_ltb w f_zero = true)) :
  (forall st, sample_triangle' its widths cfg triangle_indices st = Some st)
  /\ (forall before after st,
        sample_triangles' its widths cfg
          (before ++ triangle_indices :: after) st
        = sample_triangles' its widths cfg (before ++ after) st)
  /\ (f_ltb no_width f_zero = true ->
      width_out_of_needs cfg no_width = true).
Proof.
  assert (Hskip : forall st,
            sample_triangle' its widths cfg triangle_indices st = Some st).
  { intros st. apply (sample_triangle_out_of_needs _ _ _ _ _ w0 w1 w2 Hread).
    destruct Hout as (w & Hin & Hw).
    assert (Hw' : width_out_of_needs cfg w = true).
    { unfold width_out_of_needs. destruct Hw as [-> | ->]; [reflexivity|].
      apply orb_true_r. }
    rewrite !elem_of_cons in Hin.
    destruct Hin as [-> | [-> | [-> | Hin]]]; rewrite ?Hw', ?orb_true_r;
      try reflexivity.
    by apply elem_of_nil in Hin. }
  split; [exact Hskip|]. split.
  - induction before as [|t before IH]; intros after st; simpl.
    + by rewrite Hskip.
    + destruct (sample_triangle' its widths cfg t st); simpl; [apply IH|done].
  - intros H. unfold width_out_of_needs. rewrite H. apply orb_true_r.
Qed.

(** C10.  For a triangle whose three widths are all inside the needs, the
    draw that rounds the count is made before the count is tested against
    zero and before the orientation filter: when the triangle is sampled
    without undefined behaviour, the generator has advanced by that one
    draw plus two draws per emitted point, so by exactly one draw when
    nothing is emitted.  A triangle skipped for a width out of range
    leaves the generator untouched. *)
Theorem rounding_draw_order (its : indexed_triangle_set F)
    (widths : list F) (cfg : SampleConfig F) (triangle_indices : Vec3crd)
    (w0 w1 w2 : F) (st st' : sampler_state F Rng)
    (Hread : widths_of widths triangle_indices w0 w1 w2)
    (Hrun : sample_triangle' its widths cfg triangle_indices st = Some st') :
  (width_out_of_needs cfg w0 || width_out_of_needs cfg w1
     || width_out_of_needs cfg w2 = false ->
   exists points,
     sp_result st' = sp_result st ++ points
     /\ sp_rng st' = draws (1 + 2 * length points) (sp_rng st)
     /\ (points = [] -> sp_rng st' = snd (uniform01 (sp_rng st))))
  /\ (width_out_of_needs cfg w0 || width_out_of_needs cfg w1
        || width_out_of_needs cfg w2 = true ->
      st' = st).
Proof.
  split; intros Hneeds.
  2:{ rewrite (sample_triangle_out_of_needs _ _ _ _ _ w0 w1 w2 Hread Hneeds)
        in Hrun. by injection Hrun as <-. }
  apply orb_false_elim in Hneeds as [Hneeds Hn2].
  apply orb_false_elim in Hneeds as [Hn0 Hn1].
  destruct Hread as (H0 & H1 & H2).
  unfold sample_triangle in Hrun. simpl in Hrun.
  rewrite H0 in Hrun. simpl in Hrun. rewrite Hn0 in Hrun.
  rewrite H1 in Hrun. simpl in Hrun. rewrite Hn1 in Hrun.
  rewrite H2 in Hrun. simpl in Hrun. rewrite Hn2 in Hrun.
  simpl in Hrun.
  destruct (triangle_area_indexed triangle_indices (its_vertices its))
    as [area|]; simpl in Hrun; [|discriminate].
  match type of Hrun with
  | context [f_to_int ?x] => destruct (f_to_int x) as [count|]
  end; simpl in Hrun; [|discriminate].
  destruct (uniform01 (sp_rng st)) as [generate g] eqn:Edraw.
  assert (Hnone : exists points,
            sp_result (mkSampler (sp_result st) g)
            = sp_result st ++ points
            /\ sp_rng (mkSampler (sp_result st) g)
               = draws (1 + 2 * length points) (sp_rng st)
            /\ (points = [] ->
                sp_rng (mkSampler (sp_result st) g) = g)).
  { exists []. simpl. rewrite Edraw, app_nil_r. done. }
  match type of Hrun with
  | context [if (?c =? 0)%Z then _ else _] => destruct (c =? 0)%Z; [|set (n := c) in *]
  end.
  { injection Hrun as <-. exact Hnone. }
  destruct (vget (its_vertices its) (vnth triangle_indices 0)) as [v0|];
    simpl in Hrun; [|discriminate].
  destruct (vget (its_vertices its) (vnth triangle_indices 1)) as [v1|];
    simpl in Hrun; [|discriminate].
  destruct (vget (its_vertices its) (vnth triangle_indices 2)) as [v2|];
    simpl in Hrun; [|discriminate].
  match type of Hrun with
  | context [if ?c then _ else _] => destruct c
  end.
  { injection Hrun as <-. exact Hnone. }
  injection Hrun as <-.
  match goal with
  | |- context [scatter _ _ ?k _ _ _ ?r ?s] =>
    destruct (scatter_draws k v0 v1 v2 r s) as (points & -> & Hlen)
  end.
  exists points. simpl. rewrite Edraw. simpl. split; [reflexivity|]. split.
  - rewrite Hlen. reflexivity.
  - intros ->. simpl in Hlen. rewrite <- Hlen. reflexivity.
Qed.
End SamplerProps.

Module SamplerRuns.
Import B32 Examples.

(** A right triangle with legs of length 10 in the plane z = 0. *)
Definition triangle_mesh : indexed_triangle_set float :=
  mkIts [mkVec3 0 1 2]%Z [v3 0 0 0; v3 10 0 0; v3 0 10 0].

(** Widths from 0 to 2 map to radiuses from 1 to 2. *)
Definition config : SampleConfig float :=
  mkSampleConfig (of_Z 0) (of_Z 2) (of_Z 1) (of_Z 2) (of_Z 1) (of_Z 2).

Lemma out_of_range_width_skips_triangle_witness :
  let widths := [of_Z 1; of_Z 5; of_Z 1] in
  (forall st,
     sample_triangle Lcg lcg_uniform01 triangle_mesh widths config
       (mkVec3 0 1 2)%Z st = Some st)
  /\ (forall before after st,
        sample_triangles Lcg lcg_uniform01 triangle_mesh widths config
          (before ++ (mkVec3 0 1 2)%Z :: after) st
        = sample_triangles Lcg lcg_uniform01 triangle_mesh widths config
            (before ++ after) st)
  /\ (f_ltb (no_width (F := float)) f_zero = true ->
      width_out_of_needs config no_width = true).
Proof.
  intros widths.
  apply (out_of_range_width_skips_triangle Lcg lcg_uniform01 triangle_mesh
           widths config (mkVec3 0 1 2)%Z (of_Z 1) (of_Z 5) (of_Z 1)).
  - repeat split; reflexivity.
  - exists (of_Z 5). split.
    + apply elem_of_cons. right. apply elem_of_cons. by left.
    + left. vm_compute. reflexivity.
Defined.

Lemma rounding_draw_order_witness :
  let widths := [of_Z 1; of_Z 1; of_Z 1] in
  let st := mkSampler [] 12345%Z in
  exists st',
    sample_triangle Lcg lcg_uniform01 triangle_mesh widths config
      (mkVec3 0 1 2)%Z st = Some st'
    /\ (width_out_of_needs config (of_Z 1) || width_out_of_needs config (of_Z 1)
          || width_out_of_needs config (of_Z 1) = false ->
        exists points,
          sp_result st' = sp_result st ++ points
          /\ sp_rng st' = draws Lcg lcg_uniform01 (1 + 2 * length points)
                            (sp_rng st)
          /\ (points = [] -> sp_rng st' = snd (lcg_uniform01 (sp_rng st))))
    /\ (width_out_of_needs config (of_Z 1) || width_out_of_needs config (of_Z 1)
          || width_out_of_needs config (of_Z 1) = true ->
        st' = st).
Proof.
  intros widths st. eexists. split; [vm_compute; reflexivity|].
  apply (rounding_draw_order Lcg lcg_uniform01 triangle_mesh widths config
           (mkVec3 0 1 2)%Z (of_Z 1) (of_Z 1) (of_Z 1) st).
  - repeat split; reflexivity.
  - vm_compute. reflexivity.
Defined.

(** C4.  [generate_support_points] has no defensive return: called with
    three vertices and four widths it does not answer an empty result.
    With assertions compiled out it samples the triangle as if the lengths
    matched and answers eight points; with assertions it aborts.  The
    sibling [calc_widths] answers an empty result in the same situation,
    see [calc_widths_precondition]. *)
Theorem generate_support_points_mismatch :
  let widths := [of_Z 1; of_Z 1; of_Z 1; of_Z 1] in
  length (its_vertices triangle_mesh) <> length widths
  /\ (exists st,
        generate_support_points Lcg lcg_uniform01 true triangle_mesh widths
          config 12345%Z = Done st
        /\ length (sp_result st) = 8%nat)
  /\ generate_support_points Lcg lcg_uniform01 false triangle_mesh widths
       config 12345%Z = AssertFailed.
Proof.
  intros widths. split; [discriminate|]. split.
  - eexists. split; [vm_compute; reflexivity|reflexivity].
  - vm_compute. reflexivity.
Qed.
End SamplerRuns.

(** ** Width estimator: properties *)

Section CalcWidthProps.
Context {F : Type} {SF : Scalar F}.
Local Open Scope scalar_scope.
Variable AABBTree : Type.
Variable intersect_ray_first_hit : AABBTree -> Vec3 F -> Vec3 F -> option (Hit F).
Variable triangle_normals : AABBTree -> list (Vec3 F).
Variable angle_axis : F -> Vec3 F -> Vec3 F -> Vec3 F.
Variable acos : F -> F.

Local Abbreviation calc_width' :=
  (calc_width AABBTree intersect_ray_first_hit triangle_normals angle_axis acos).
Local Abbreviation cast_rays' :=
  (cast_rays AABBTree intersect_ray_first_hit triangle_normals angle_axis acos).
Local Abbreviation angle_ok' := (angle_ok AABBTree triangle_normals acos).

(** *** The width as the specification words it *)

(** A surviving ray: its hit distance and the weight of its direction. *)
Record survivor := mkSurvivor {
  sv_distance : F;
  sv_weight : F;
}.

(** The rays of the Direction Set that survive the filtering at one
    vertex, in order: a ray survives when it hits the mesh and, with angle
    filtering, the angle between the firing direction and the normal of
    the hit triangle does not exceed the allowed angle.  Undefined when the
    normal of a hit triangle cannot be read. *)
Fixpoint survivors (tree : AABBTree) (config : RaysConfig F)
    (ray_dir ray_point : Vec3 F) (tr_angle : F) (tr_axis : Vec3 F)
    (ds : list (Direction F)) : option (list survivor) :=
  match ds with
  | [] => Some []
  | dir :: ds =>
    match intersect_ray_first_hit tree ray_point
            (angle_axis tr_angle tr_axis (d_dir dir)) with
    | None => survivors tree config ray_dir ray_point tr_angle tr_axis ds
    | Some hit =>
      ok ← angle_ok' tree config ray_dir hit;
      rest ← survivors tree config ray_dir ray_point tr_angle tr_axis ds;
      Some (if (ok : bool) then mkSurvivor (hit_t hit) (d_weight dir) :: rest
            else rest)
    end
  end.

(** Sum in the order of the list, starting from [start]. *)
Definition sum_from (start : F) (l : list F) : F := fold_left f_add l start.

Definition count_of {A} (l : list A) : F := f_of_Z (Z.of_nat (length l)).

Definition mean (distances : list F) : F :=
  sum_from f_zero distances / count_of distances.

(** Population standard deviation: the square root of the mean of the
    squares minus the square of the mean. *)
Definition population_deviation (distances : list F) : F :=
  f_sqrt (sum_from f_zero (map (fun d => d * d) distances) / count_of distances
          - mean distances * mean distances).

(** The deviation filter keeps a survivor unless filtering is enabled and
    its distance is farther from the mean than the multiplier times the
    standard deviation. *)
Definition passes_deviation (config : RaysConfig F) (all : list survivor)
    (s : survivor) : bool :=
  let distances := map sv_distance all in
  negb (is_deviation_filtering config
        && (f_abs (sv_distance s - mean distances)
            >? population_deviation distances * allowed_deviation config)).

Definition weighted_mean (kept : list survivor) : F :=
  sum_from f_zero (map (fun s => sv_distance s * sv_weight s) kept)
  / sum_from f_zero (map sv_weight kept).

(** The width of a vertex from its surviving rays. *)
Definition width_of_survivors (config : RaysConfig F) (all : list survivor)
  : F :=
  match all with
  | [] => no_width
  | [only] => sv_distance only
  | _ =>
    let kept := List.filter (passes_deviation config all) all in
    if sum_from f_zero (map sv_weight kept) <=? f_zero
    then mean (map sv_distance all)
    else weighted_mean kept + safe_move config
  end.

(** *** The loops compute it *)

Lemma cast_rays_survivors (tree : AABBTree) (config : RaysConfig F)
    (ray_dir ray_point : Vec3 F) (tr_angle : F) (tr_axis : Vec3 F)
    (ds : list (Direction F)) :
  forall acc,
  cast_rays' tree config ray_dir ray_point tr_angle tr_axis ds acc
  = all ← survivors tree config ray_dir ray_point tr_angle tr_axis ds;
    Some (mkRayAcc
            (a_widths acc ++ map sv_distance all)
            (a_weights acc ++ map sv_weight all)
            (sum_from (a_sum_width acc) (map sv_distance all))
            (sum_from (a_sq_sum_width acc)
               (map (fun d => d * d) (map sv_distance all)))).
Proof.
  induction ds as [|dir ds IH]; intros acc; simpl.
  - destruct acc. simpl. by rewrite !app_nil_r.
  - unfold cast_ray.
    destruct (intersect_ray_first_hit tree ray_point
                (angle_axis tr_angle tr_axis (d_dir dir))) as [hit|]; simpl.
    2:{ apply IH. }
    destruct (angle_ok' tree config ray_dir hit) as [[|]|]; simpl.
    + rewrite IH. simpl.
      destruct (survivors tree config ray_dir ray_point tr_angle tr_axis ds);
        simpl; [|reflexivity].
      by rewrite <- !app_assoc.
    + rewrite IH.
      by destruct (survivors tree config ray_dir ray_point tr_angle tr_axis ds).
    + reflexivity.
Qed.

Lemma weighted_sums_filter (config : RaysConfig F) (m threshold : F)
    (all : list survivor) :
  forall sum_width sum_weight,
  weighted_sums config m threshold (map sv_distance all) (map sv_weight all)
    sum_width sum_weight
  = let kept :=
      List.filter
        (fun s => negb (is_deviation_filtering config
                        && (f_abs (sv_distance s - m) >? threshold))) all in
    (sum_from sum_width (map (fun s => sv_distance s * sv_weight s) kept),
     sum_from sum_weight (map sv_weight kept)).
Proof.
  induction all as [|s all IH]; intros sum_width sum_weight; simpl.
  - reflexivity.
  - destruct (is_deviation_filtering config
              && (f_abs (sv_distance s - m) >? threshold)); simpl; apply IH.
Qed.

Lemma width_statistics_survivors (config : RaysConfig F) (all : list survivor) :
  width_statistics config
    (mkRayAcc (map sv_distance all) (map sv_weight all)
       (sum_from f_zero (map sv_distance all))
       (sum_from f_zero (map (fun d => d * d) (map sv_distance all))))
  = width_of_survivors config all.
Proof.
  unfold width_statistics, width_of_survivors.
  destruct all as [|s1 [|s2 all]]; try reflexivity.
  cbn [a_widths a_weights a_sum_width a_sq_sum_width].
  set (ss := s1 :: s2 :: all).
  change (map sv_distance ss) with (sv_distance s1 :: sv_distance s2
                                      :: map sv_distance all) at 1.
  cbv iota.
  rewrite weighted_sums_filter. cbv zeta.
  unfold weighted_mean, mean, count_of, passes_deviation, population_deviation,
    mean, count_of.
  rewrite !length_map. reflexivity.
Qed.


(** *** calc_widths *)

(** The defensive return of [calc_widths]: with assertions compiled out
    it answers an empty result for an empty vertex list, an empty Direction
    Set or mismatched lengths; with assertions it aborts there. *)
Lemma calc_widths_precondition (ndebug : bool) (points normals : list (Vec3 F))
    (tree : AABBTree) (config : RaysConfig F) :
  points = [] \/ dirs config = [] \/ length points <> length normals ->
  calc_widths AABBTree intersect_ray_first_hit triangle_normals angle_axis acos
    ndebug points normals tree config
  = if ndebug then Done [] else AssertFailed.
Proof.
  intros H. unfold calc_widths, assert.
  destruct points as [|p points]; simpl.
  { destruct ndebug; reflexivity. }
  destruct (dirs config) as [|d ds]; simpl.
  { destruct ndebug; reflexivity. }
  destruct H as [H | [H | H]]; try discriminate.
  simpl in H.
  destruct (Nat.eqb_spec (length points) (Init.Nat.pred (length normals))).
  - destruct normals; simpl in *; [|congruence].
    destruct ndebug; reflexivity.
  - destruct normals as [|n0 normals]; simpl in *.
    + destruct ndebug; reflexivity.
    + destruct (Nat.eqb_spec (length points) (length normals)); [congruence|].
      destruct ndebug; reflexivity.
Qed.
End CalcWidthProps.

(** ** Direction sampler over the reals *)

Module FibonacciR.
Local Open Scope R_scope.

(** The sampler in exact arithmetic: [double] and [float] are both the
    reals and the narrowing cast is the identity. *)
Definition fibonacci (ndebug : bool) (angle : R) (count_samples : Z)
  : outcome (list (Direction R)) :=
  create_fibonacci_sphere_samples (D := R) (F := R) cos sin (fun x => x)
    ndebug angle count_samples.

(** The polar component of point [i] of [count_samples]. *)
Definition polar (count_samples i : Z) : R :=
  1 - IZR i / IZR (count_samples - 1).

Definition golden_angle : R := PI * (3 - sqrt 5).

Definition point (count_samples i : Z) : Direction R :=
  let z := polar count_samples i in
  let radius := sqrt (1 - z * z) in
  let theta := golden_angle * IZR i in
  mkDirection (mkVec3 (cos theta * radius) (sin theta * radius) z) z.

(** The loop stops at the first index whose polar component is below
    [min_z]: it emits the points of a prefix of its index list. *)
Lemma fibonacci_loop_prefix (count_samples : Z) (min_z : R) (rest : list Z) :
  forall points,
  exists k : nat,
    fibonacci_loop (D := R) (F := R) cos sin (fun x => x) count_samples min_z
      golden_angle rest points
    = points ++ map (point count_samples) (take k rest)
    /\ Forall (fun i => min_z <= polar count_samples i) (take k rest)
    /\ (forall i tl, rest = i :: tl -> min_z <= polar count_samples i ->
        (1 <= k)%nat).
Proof.
  induction rest as [|i rest IH]; intros points.
  - exists O. simpl. rewrite app_nil_r. repeat split; [constructor|].
    intros i tl H; discriminate H.
  - cbn [fibonacci_loop].
    change (f_ltb (f_sub f_one (f_div (f_of_Z i) (f_of_Z (count_samples - 1)))) min_z)
      with (Rs.ltb (polar count_samples i) min_z).
    unfold Rs.ltb. destruct (Rlt_dec (polar count_samples i) min_z) as [Hlt|Hge].
    + exists O. simpl. rewrite app_nil_r. repeat split; [constructor|].
      intros j tl H Hj. injection H as -> ->. lra.
    + destruct (IH (points ++ [point count_samples i])) as (k & Heq & Hall & _).
      exists (S k). simpl. split; [|split].
      * etransitivity; [exact Heq|]. by rewrite <- app_assoc.
      * constructor; [lra|exact Hall].
      * intros; lia.
Qed.

Lemma polar_decreasing (count_samples i j : Z) :
  (1 < count_samples)%Z -> (i < j)%Z ->
  polar count_samples j < polar count_samples i.
Proof.
  intros HN Hij. unfold polar.
  assert (0 < IZR (count_samples - 1)) by (apply IZR_lt; lia).
  assert (IZR i < IZR j) by (by apply IZR_lt).
  assert (IZR i / IZR (count_samples - 1) < IZR j / IZR (count_samples - 1)).
  { unfold Rdiv. apply Rmult_lt_compat_r; [|assumption].
    by apply Rinv_0_lt_compat. }
  lra.
Qed.

Lemma zrange_sorted (from n : Z) : StronglySorted Z.lt (zrange from n).
Proof.
  unfold zrange. generalize 0%nat as s.
  induction (Z.to_nat n) as [|m IH]; intros s; simpl; constructor.
  - apply IH.
  - rewrite Forall_forall. intros x Hx.
    apply list_elem_of_In, in_map_iff in Hx as (k & <- & Hk).
    apply in_seq in Hk. lia.
Qed.

Lemma take_sorted {A} (R : A -> A -> Prop) (k : nat) (l : list A) :
  StronglySorted R l -> StronglySorted R (take k l).
Proof.
  revert k. induction l as [|x l IH]; intros [|k] Hs; simpl; try constructor.
  - apply IH. by apply StronglySorted_inv in Hs as [? _].
  - apply StronglySorted_inv in Hs as [_ Hx].
    rewrite Forall_forall in *. intros y Hy. apply Hx.
    eapply elem_of_sublist; [exact Hy|]. apply sublist_take.
Qed.

Lemma points_decreasing (count_samples : Z) (l : list Z) :
  (1 < count_samples)%Z -> StronglySorted Z.lt l ->
  StronglySorted (fun a b => v_z (d_dir b) < v_z (d_dir a))
    (map (point count_samples) l).
Proof.
  intros HN Hs. induction Hs as [|i l Hs IH Hi]; simpl; constructor.
  - exact IH.
  - rewrite Forall_map. simpl. rewrite Forall_forall in Hi |- *.
    intros j Hj. apply polar_decreasing; [lia|]. by apply Hi.
Qed.

(** Exact arithmetic.  Over the reals, for a count above one and an angle
    strictly between 1 and 180 degrees the sampler answers between 1 and
    [count_samples] directions, each with a polar component of at least
    cos(angle/2) (the angle in degrees), strictly decreasing along the
    sequence, and each weight is the polar component of its direction. *)
Theorem fibonacci_inside_cone_decreasing (ndebug : bool) (angle : R)
    (count_samples : Z)
    (Hcount : (1 < count_samples)%Z) (Hlow : 1 < angle) (Hhigh : angle < 180) :
  exists directions,
    fibonacci ndebug angle count_samples = Done directions
    /\ (1 <= length directions)%nat
    /\ (Z.of_nat (length directions) <= count_samples)%Z
    /\ Forall (fun d => cos (angle / 2 * PI / 180) <= v_z (d_dir d)) directions
    /\ StronglySorted (fun a b => v_z (d_dir b) < v_z (d_dir a)) directions
    /\ Forall (fun d => d_weight d = v_z (d_dir d)) directions.
Proof.
  set (min_z := cos (angle / 2 * PI / 180)).
  assert (Hpi := PI_RGT_0).
  assert (Hmin_pos : 0 < min_z).
  { apply cos_gt_0; nra. }
  assert (Hmin_le : min_z <= 1) by apply COS_bound.
  unfold fibonacci, create_fibonacci_sphere_samples.
  destruct (Z.leb_spec count_samples 1) as [?|_]; [lia|].
  unfold assert.
  change (f_ltb angle (f_of_Z 180)) with (Rs.ltb angle 180).
  change (f_ltb (f_of_Z 1) angle) with (Rs.ltb 1 angle).
  change (f_ltb f_zero (cos (f_div (f_mul (f_div angle (f_of_Z 2)) f_pi)
                                (f_of_Z 180))))
    with (Rs.ltb 0 min_z).
  unfold Rs.ltb.
  destruct (Rlt_dec angle 180); [|lra].
  destruct (Rlt_dec 1 angle); [|lra].
  destruct (Rlt_dec 0 min_z); [|lra].
  rewrite !orb_true_r.
  destruct (fibonacci_loop_prefix count_samples min_z
              (zrange 0 count_samples) []) as (k & Heq & Hall & Hfirst).
  simpl app in Heq.
  exists (map (point count_samples) (take k (zrange 0 count_samples))). split.
  { unfold golden_angle in Heq. simpl. by rewrite <- Heq. }
  assert (Hlen : length (zrange 0 count_samples) = Z.to_nat count_samples).
  { unfold zrange. by rewrite length_map, length_seq. }
  assert (Hk : (1 <= k)%nat).
  { unfold zrange in Hfirst.
    destruct (Z.to_nat count_samples) as [|m] eqn:Hm; [lia|].
    simpl in Hfirst. eapply Hfirst; [reflexivity|].
    unfold polar. simpl. rewrite Rdiv_0_l. lra. }
  rewrite length_map, length_take, Hlen.
  split; [lia|]. split; [lia|]. split; [|split].
  - rewrite Forall_map. simpl. exact Hall.
  - apply points_decreasing; [assumption|].
    apply take_sorted, zrange_sorted.
  - rewrite Forall_map. simpl. by apply Forall_true.
Qed.
Lemma fibonacci_inside_cone_decreasing_witness :
  exists directions,
    fibonacci false 90 10 = Done directions
    /\ (1 <= length directions)%nat
    /\ (Z.of_nat (length directions) <= 10)%Z
    /\ Forall (fun d => cos (90 / 2 * PI / 180) <= v_z (d_dir d)) directions
    /\ StronglySorted (fun a b => v_z (d_dir b) < v_z (d_dir a)) directions
    /\ Forall (fun d => d_weight d = v_z (d_dir d)) directions.
Proof.
  apply (fibonacci_inside_cone_decreasing false 90 10); [lia|lra|lra].
Defined.
End FibonacciR.

(** ** Subdivision: the registry, for every scalar type *)

Section RegistryProps.
Context {F : Type} {SF : Scalar F}.
Local Open Scope Z_scope.

(** The vertex indices a registry entry stands for when the edge has
    [count] inserted vertices, from [key.first] to [key.second]. *)
Definition sequence_indices (vs : VerticesSequence) (count : Z) : list Z :=
  map (fun j => start_index vs + (if positive_order vs then 1 else -1) * j)
      (zrange 0 count).

(** The canonical key of the edge of [tl] that starts at corner
    [divide_index]. *)
Definition key_of (tl : TriangleLengths F) (divide_index : Z) : Z * Z :=
  fst (edge_key (vnth (tl_indices tl) divide_index)
                (vnth (tl_indices tl) ((divide_index + 1) mod 3))).

Lemma elem_of_zrange (from n j : Z) :
  (from <= j < from + n)%Z -> j ∈ zrange from n.
Proof.
  intros Hj. unfold zrange. apply list_elem_of_fmap.
  exists (Z.to_nat (j - from)). split; [lia|].
  apply list_elem_of_In, in_seq. lia.
Qed.

Lemma new_index_in_sequence (vs : VerticesSequence) (count : Z) (b : bool) :
  1 <= count ->
  start_index vs + (if positive_order vs then 1 else -1)
                   * (if (count mod 2 =? 0) && b
                      then count / 2 - 1 else count / 2)
  ∈ sequence_indices vs count.
Proof.
  intros Hc. unfold sequence_indices. apply list_elem_of_fmap.
  eexists. split; [reflexivity|]. apply elem_of_zrange.
  assert (H2 := Z.div_mod count 2 ltac:(lia)).
  assert (H3 := Z.mod_pos_bound count 2 ltac:(lia)).
  destruct (Z.eqb_spec (count mod 2) 0); destruct b; simpl; lia.
Qed.

Lemma edge_key_sym (a b : Z) : fst (edge_key a b) = fst (edge_key b a).
Proof.
  unfold edge_key.
  destruct (Z.gtb_spec a b), (Z.gtb_spec b a); simpl; try reflexivity; try lia.
  f_equal; lia.
Qed.

Lemma insert_new_mono (k k' : Z * Z) (v v' : VerticesSequence) (ed : EdgeDivides) :
  ed !! k = Some v -> insert_new k' v' ed !! k = Some v.
Proof.
  intros H. unfold insert_new. destruct (ed !! k') eqn:E; [exact H|].
  rewrite lookup_insert_ne; [exact H|]. intros ->. congruence.
Qed.

Lemma insert_new_present (k : Z * Z) (v : VerticesSequence) (ed : EdgeDivides) :
  is_Some (insert_new k v ed !! k).
Proof.
  unfold insert_new. destruct (ed !! k) eqn:E.
  - rewrite E. eauto.
  - rewrite lookup_insert_eq. eauto.
Qed.

Lemma find_or_create_spec (key : Z * Z) (count : Z) (segments : F)
    (vertices vertices' : list (Vec3 F)) (ed ed' : EdgeDivides)
    (vs : VerticesSequence) :
  find_or_create key count segments vertices ed = Some (vertices', ed', vs) ->
  ed' !! key = Some vs
  /\ (forall k v, ed !! k = Some v -> ed' !! k = Some v)
  /\ exists created,
       vertices' = vertices ++ created
       /\ match ed !! key with
          | Some v => v = vs /\ created = [] /\ ed' = ed
          | None =>
            vs = mkVS (Z.of_nat (length vertices)) true
            /\ length created = Z.to_nat count
            /\ ed' = <[key := vs]> ed
          end.
Proof.
  unfold find_or_create. destruct (ed !! key) as [v|] eqn:E.
  - intros H. injection H as <- <- <-. split; [exact E|]. split; [auto|].
    exists []. by rewrite app_nil_r.
  - destruct (vget vertices key.1) as [vf|]; simpl; [|discriminate].
    destruct (vget vertices key.2) as [vs'|]; simpl; [|discriminate].
    intros H. injection H as <- <- <-.
    split; [apply lookup_insert_eq|]. split.
    + intros k v Hk. rewrite lookup_insert_ne; [exact Hk|]. congruence.
    + eexists. split; [reflexivity|]. split; [reflexivity|]. split; [|reflexivity].
      unfold new_edge_vertices, zrange. by rewrite !length_map, length_seq.
Qed.

(** What a call of [divide] does to the vertices and the registry. *)
Lemma divide_registry (tl : TriangleLengths F) (divide_index : Z)
    (max_length : F) (vertices : list (Vec3 F)) (ed : EdgeDivides)
    (d : divided F) :
  divide tl divide_index max_length vertices ed = Some d ->
  d_triangle d = tl /\ d_index d = divide_index
  /\ (1 <= d_count d ->
      d_new_index d ∈ sequence_indices (d_sequence d) (d_count d))
  /\ d_key d = key_of tl divide_index
  /\ d_old_size d = length vertices
  /\ d_length d = vnth (tl_l tl) divide_index
  /\ f_to_size_t (f_floor (f_div (d_length d) max_length)) = Some (d_count d)
  /\ d_edge_divides d !! d_key d = Some (d_sequence d)
  /\ (forall k v, ed !! k = Some v -> d_edge_divides d !! k = Some v)
  /\ exists created,
       d_vertices d = vertices ++ created
       /\ match ed !! d_key d with
          | Some v => v = d_sequence d /\ created = []
          | None =>
            d_sequence d = mkVS (Z.of_nat (length vertices)) true
            /\ length created = Z.to_nat (d_count d)
          end.
Proof.
  unfold divide, key_of.
  destruct (edge_key (vnth (tl_indices tl) divide_index)
              (vnth (tl_indices tl) ((divide_index + 1) mod 3)))
    as [key key_swap] eqn:Ekey.
  destruct (f_to_size_t (f_floor (f_div (vnth (tl_l tl) divide_index) max_length)))
    as [count|] eqn:Ecount; cbn [mbind option_bind]; [|discriminate].
  destruct (find_or_create key count (f_of_Z (count + 1)) vertices ed)
    as [[[vertices' ed'] vs]|] eqn:Efind; cbn [mbind option_bind];
    [|discriminate].
  destruct (vget vertices' (vnth (tl_indices tl) ((divide_index + 2) mod 3)))
    as [v2|]; cbn [mbind option_bind]; [|discriminate].
  match goal with
  | |- context [vget vertices' ?i] => destruct (vget vertices' i) as [vn|]
  end; cbn [mbind option_bind]; [|discriminate].
  apply find_or_create_spec in Efind as (Hkey & Hmono & created & Hv & Hcase).
  assert (Hkeep' : forall k v (c1 c2 : bool) k1 s1 k2 s2,
            ed' !! k = Some v ->
            (if c2 then insert_new k2 s2 (if c1 then insert_new k1 s1 ed' else ed')
             else (if c1 then insert_new k1 s1 ed' else ed')) !! k = Some v).
  { intros k v c1 c2 k1 s1 k2 s2 Hk.
    destruct c1, c2; repeat apply insert_new_mono; exact Hk. }
  destruct key_swap.
  all: intros H; injection H as <-.
  all: cbn [d_triangle d_index d_new_index d_sequence d_count d_key
            d_old_size d_length d_edge_divides d_vertices fst].
  all: split; [reflexivity|]; split; [reflexivity|].
  all: split; [intros Hc1; by apply new_index_in_sequence|].
  all: split; [reflexivity|]; split; [reflexivity|]; split; [reflexivity|].
  all: split; [exact Ecount|].
  all: split;
    [destruct (edge_key key.1 _), (edge_key _ key.2); by apply Hkeep'|].
  all: split;
    [intros k v Hk; destruct (edge_key key.1 _), (edge_key _ key.2);
     by apply Hkeep', Hmono|].
  all: exists created; split; [exact Hv|].
  all: destruct (ed !! key); [by destruct Hcase as (? & ? & ?)|].
  all: by destruct Hcase as (? & ? & ?).
Qed.
End RegistryProps.

(** ** Subdivision over the reals *)

Module SubdivideR.
Local Open Scope R_scope.

Ltac rsimpl :=
  cbn [f_zero f_one f_add f_sub f_mul f_div f_opp f_abs f_sqrt f_floor
       f_trunc f_ltb f_leb f_of_Z f_to_size_t f_to_int f_pi R_scalar
       v_x v_y v_z] in *.

Lemma ltb_true (a b : R) : Rs.ltb a b = true <-> a < b.
Proof. unfold Rs.ltb. destruct (Rlt_dec a b); split; auto; discriminate. Qed.

Lemma ltb_false (a b : R) : Rs.ltb a b = false <-> b <= a.
Proof.
  unfold Rs.ltb. destruct (Rlt_dec a b); split; auto; try discriminate; lra.
Qed.

Lemma leb_true (a b : R) : Rs.leb a b = true <-> a <= b.
Proof. unfold Rs.leb. destruct (Rle_dec a b); split; auto; discriminate. Qed.

Lemma leb_false (a b : R) : Rs.leb a b = false <-> b < a.
Proof.
  unfold Rs.leb. destruct (Rle_dec a b); split; auto; try discriminate; lra.
Qed.

(** *** Floor *)

Lemma int_part_bounds (x : R) : IZR (Int_part x) <= x < IZR (Int_part x) + 1.
Proof.
  unfold Int_part. rewrite minus_IZR. destruct (archimed x). lra.
Qed.

Lemma int_part_unique (x : R) (z : Z) : IZR z <= x < IZR z + 1 -> Int_part x = z.
Proof.
  intros [H1 H2]. destruct (int_part_bounds x) as [H3 H4].
  assert (IZR (Int_part x) < IZR z + 1) by lra.
  assert (IZR z < IZR (Int_part x) + 1) by lra.
  rewrite <- plus_IZR in *.
  apply lt_IZR in H, H0. lia.
Qed.

Lemma int_part_IZR (z : Z) : Int_part (IZR z) = z.
Proof. apply int_part_unique. lra. Qed.

Lemma trunc_Z_IZR (z : Z) : Rs.trunc_Z (IZR z) = z.
Proof.
  unfold Rs.trunc_Z. destruct (Rle_dec 0 (IZR z)).
  - apply int_part_IZR.
  - rewrite <- opp_IZR, int_part_IZR. lia.
Qed.

(** The cast of a floor to [size_t] in the real instance. *)
Lemma floor_to_size_t (x : R) (count : Z) :
  f_to_size_t (f_floor x) = Some count
  <-> count = Int_part x /\ (0 <= count < 2 ^ 64)%Z.
Proof.
  rsimpl. unfold Rs.to_integer. rewrite trunc_Z_IZR.
  destruct (Z.leb_spec 0 (Int_part x)) as [Hlo|Hlo],
           (Z.ltb_spec (Int_part x) (2 ^ 64)) as [Hhi|Hhi];
    simpl; split; try discriminate; intros H.
  all: try (injection H as <-; split; [reflexivity|lia]).
  all: destruct H as [-> H]; try reflexivity; lia.
Qed.

(** A part of an edge that carries [k] of its [c] inserted vertices is
    [k + 1] of the [c + 1] segments long, and its own count is [k]. *)
Lemma int_part_sub_edge (x : R) (c k : Z) :
  IZR c <= x < IZR c + 1 -> (0 <= k <= c)%Z ->
  Int_part (IZR (k + 1) / IZR (c + 1) * x) = k.
Proof.
  intros [Hx1 Hx2] [Hk1 Hk2]. apply int_part_unique.
  rewrite !plus_IZR. apply IZR_le in Hk1, Hk2.
  set (K := IZR k) in *. set (C := IZR c) in *.
  assert (HC : 0 < C + 1) by lra.
  split.
  - apply Rmult_le_reg_r with (C + 1); [lra|].
    replace ((K + 1) / (C + 1) * x * (C + 1)) with ((K + 1) * x) by (field; lra).
    nra.
  - apply Rmult_lt_reg_r with (C + 1); [lra|].
    replace ((K + 1) / (C + 1) * x * (C + 1)) with ((K + 1) * x) by (field; lra).
    nra.
Qed.

(** *** Lengths *)

Abbreviation Vec3r := (Vec3 R).

Definition dist (p q : Vec3r) : R := norm (vsub p q).

(** The point at parameter [t] of the segment from [pf] to [ps], as the
    source computes it: [vf + dir * ratio]. *)
Definition on_edge (pf ps : Vec3r) (t : R) : Vec3r :=
  vadd pf (vscale (vsub ps pf) t).

Lemma squaredNorm_nonneg (v : Vec3r) : 0 <= squaredNorm v.
Proof. unfold squaredNorm, vdot. rsimpl. nra. Qed.

Lemma norm_nonneg (v : Vec3r) : 0 <= norm v.
Proof. unfold norm. rsimpl. apply sqrt_pos. Qed.

Lemma norm_sqr (v : Vec3r) : norm v * norm v = squaredNorm v.
Proof. unfold norm. rsimpl. apply sqrt_sqrt, squaredNorm_nonneg. Qed.

Lemma dist_sym (p q : Vec3r) : dist p q = dist q p.
Proof.
  unfold dist, norm. f_equal. unfold squaredNorm, vdot, vsub. rsimpl. ring.
Qed.

Lemma dist_nonneg (p q : Vec3r) : 0 <= dist p q.
Proof. apply norm_nonneg. Qed.

Lemma dist_sqr (p q : Vec3r) : dist p q * dist p q = squaredNorm (vsub p q).
Proof. apply norm_sqr. Qed.

(** Two non-negative numbers with the same square are equal. *)
Lemma sqr_inj (a b : R) : 0 <= a -> 0 <= b -> a * a = b * b -> a = b.
Proof. intros. nra. Qed.

Lemma dist_on_edge_first (pf ps : Vec3r) (t : R) :
  0 <= t -> dist pf (on_edge pf ps t) = dist pf ps * t.
Proof.
  intros Ht. apply sqr_inj.
  - apply dist_nonneg.
  - apply Rmult_le_pos; [apply dist_nonneg|exact Ht].
  - replace (dist pf ps * t * (dist pf ps * t))
      with (dist pf ps * dist pf ps * (t * t)) by ring.
    rewrite !dist_sqr. unfold on_edge, squaredNorm, vdot, vadd, vscale, vsub.
    rsimpl. ring.
Qed.

Lemma dist_on_edge_second (pf ps : Vec3r) (t : R) :
  t <= 1 -> dist (on_edge pf ps t) ps = dist pf ps - dist pf ps * t.
Proof.
  intros Ht. apply sqr_inj.
  - apply dist_nonneg.
  - assert (0 <= dist pf ps) by apply dist_nonneg. nra.
  - replace ((dist pf ps - dist pf ps * t) * (dist pf ps - dist pf ps * t))
      with (dist pf ps * dist pf ps * ((1 - t) * (1 - t))) by ring.
    rewrite !dist_sqr. unfold on_edge, squaredNorm, vdot, vadd, vscale, vsub.
    rsimpl. ring.
Qed.

(** Stewart's theorem: the squared distance from [c] to a point of the
    segment. *)
Lemma stewart (pf ps c : Vec3r) (t : R) :
  squaredNorm (vsub c (on_edge pf ps t))
  = (1 - t) * squaredNorm (vsub c pf) + t * squaredNorm (vsub c ps)
    - t * (1 - t) * squaredNorm (vsub pf ps).
Proof.
  unfold on_edge, squaredNorm, vdot, vadd, vscale, vsub. rsimpl. ring.
Qed.

Lemma stewart_bound (A B LL t : R) :
  A <= LL -> B <= LL -> 0 <= LL -> 1 / 3 <= t <= 2 / 3 ->
  (1 - t) * A + t * B - t * (1 - t) * LL <= 7 / 9 * LL.
Proof.
  intros HA HB HLL Ht.
  assert ((1 - t) * A <= (1 - t) * LL) by (apply Rmult_le_compat_l; lra).
  assert (t * B <= t * LL) by (apply Rmult_le_compat_l; lra).
  assert (0 <= (t - 1 / 3) * (2 / 3 - t) * LL).
  { apply Rmult_le_pos; [apply Rmult_le_pos; lra|lra]. }
  lra.
Qed.

(** The sum of the absolute components bounds the length from above. *)
Lemma norm_le_abs_sum (v : Vec3r) : norm v <= abs_sum v.
Proof.
  unfold abs_sum. rsimpl. unfold vnth.
  assert (H0 := Rabs_pos (v_x v)). assert (H1 := Rabs_pos (v_y v)).
  assert (H2 := Rabs_pos (v_z v)).
  apply Rsqr_incr_0_var; [|lra].
  unfold Rsqr. rewrite norm_sqr. unfold squaredNorm, vdot. rsimpl.
  assert (Hx : v_x v * v_x v = Rabs (v_x v) * Rabs (v_x v)).
  { rewrite <- Rabs_mult. symmetry. apply Rabs_pos_eq. nra. }
  assert (Hy : v_y v * v_y v = Rabs (v_y v) * Rabs (v_y v)).
  { rewrite <- Rabs_mult. symmetry. apply Rabs_pos_eq. nra. }
  assert (Hz : v_z v * v_z v = Rabs (v_z v) * Rabs (v_z v)).
  { rewrite <- Rabs_mult. symmetry. apply Rabs_pos_eq. nra. }
  rewrite Hx, Hy, Hz. nra.
Qed.
(** *** Points of an edge by parameter *)

Lemma vec3_eq (a b : Vec3r) :
  v_x a = v_x b -> v_y a = v_y b -> v_z a = v_z b -> a = b.
Proof. destruct a, b. simpl. by intros -> -> ->. Qed.

Lemma on_edge_0 (pf ps : Vec3r) : on_edge pf ps 0 = pf.
Proof. apply vec3_eq; unfold on_edge, vadd, vscale, vsub; rsimpl; ring. Qed.

Lemma on_edge_1 (pf ps : Vec3r) : on_edge pf ps 1 = ps.
Proof. apply vec3_eq; unfold on_edge, vadd, vscale, vsub; rsimpl; ring. Qed.

Lemma on_edge_affine (pf ps : Vec3r) (a b s : R) :
  on_edge (on_edge pf ps a) (on_edge pf ps b) s
  = on_edge pf ps (a + (b - a) * s).
Proof. apply vec3_eq; unfold on_edge, vadd, vscale, vsub; rsimpl; ring. Qed.

Lemma dist_on_edge (pf ps : Vec3r) (a b : R) :
  a <= b ->
  dist (on_edge pf ps a) (on_edge pf ps b) = dist pf ps * (b - a).
Proof.
  intros Hab. apply sqr_inj.
  - apply dist_nonneg.
  - apply Rmult_le_pos; [apply dist_nonneg|lra].
  - replace (dist pf ps * (b - a) * (dist pf ps * (b - a)))
      with (dist pf ps * dist pf ps * ((b - a) * (b - a))) by ring.
    rewrite !dist_sqr.
    unfold on_edge, squaredNorm, vdot, vadd, vscale, vsub. rsimpl. ring.
Qed.

(** *** The invariant of a run *)

Ltac eval_mod3 :=
  repeat match goal with
         | |- context [(?a mod 3)%Z] =>
           let v := eval vm_compute in (a mod 3)%Z in
           change (a mod 3)%Z with v
         end.

Section Invariant.
Variable max_length : R.

(** The tracked lengths of a triangle are the distances between its
    vertices. *)
Definition tri_inv (V : list Vec3r) (tl : TriangleLengths R) : Prop :=
  exists p0 p1 p2,
    vget V (vnth (tl_indices tl) 0) = Some p0
    /\ vget V (vnth (tl_indices tl) 1) = Some p1
    /\ vget V (vnth (tl_indices tl) 2) = Some p2
    /\ vnth (tl_l tl) 0 = dist p0 p1
    /\ vnth (tl_l tl) 1 = dist p1 p2
    /\ vnth (tl_l tl) 2 = dist p2 p0.

(** The sign of a sequence. *)
Definition sign_of (vs : VerticesSequence) : Z :=
  if positive_order vs then 1%Z else (-1)%Z.

(** The number of vertices inserted between two points. *)
Definition count_between (pf ps : Vec3r) : Z :=
  Int_part (dist pf ps / max_length).

(** The vertices of a sequence are the evenly spaced interior points of
    the segment between [pf] and [ps]. *)
Definition sequence_at (V : list Vec3r) (pf ps : Vec3r)
    (vs : VerticesSequence) : Prop :=
  let c := count_between pf ps in
  forall j, (0 <= j < c)%Z ->
    vget V (start_index vs + sign_of vs * j)
    = Some (on_edge pf ps (IZR (j + 1) / IZR (c + 1))).

(** A registry entry stands for the inserted vertices of its edge. *)
Definition entry_inv (V : list Vec3r) (key : Z * Z) (vs : VerticesSequence)
  : Prop :=
  exists pf ps,
    vget V key.1 = Some pf /\ vget V key.2 = Some ps
    /\ sequence_at V pf ps vs.

Definition reg_inv (V : list Vec3r) (ed : EdgeDivides) : Prop :=
  forall key vs, ed !! key = Some vs -> entry_inv V key vs.

Lemma vget_app {A} (V W : list A) (i : Z) (p : A) :
  vget V i = Some p -> vget (V ++ W) i = Some p.
Proof.
  unfold vget. destruct (i <? 0)%Z; [discriminate|].
  intros H. by apply lookup_app_l_Some.
Qed.

Lemma vget_app_new {A} (V W : list A) (j : Z) :
  (0 <= j)%Z ->
  vget (V ++ W) (Z.of_nat (length V) + j) = W !! Z.to_nat j.
Proof.
  intros Hj. unfold vget.
  destruct (Z.ltb_spec (Z.of_nat (length V) + j) 0); [lia|].
  rewrite lookup_app_r by lia. f_equal. lia.
Qed.

Lemma tri_inv_app (V W : list Vec3r) (tl : TriangleLengths R) :
  tri_inv V tl -> tri_inv (V ++ W) tl.
Proof.
  intros (p0 & p1 & p2 & H0 & H1 & H2 & Hl).
  exists p0, p1, p2. repeat split; try apply vget_app; tauto.
Qed.

Lemma entry_inv_app (V W : list Vec3r) (key : Z * Z) (vs : VerticesSequence) :
  entry_inv V key vs -> entry_inv (V ++ W) key vs.
Proof.
  intros (pf & ps & Hf & Hs & Hseq). exists pf, ps.
  split; [by apply vget_app|]. split; [by apply vget_app|].
  intros j Hj. by apply vget_app, Hseq.
Qed.

Lemma reg_inv_app (V W : list Vec3r) (ed : EdgeDivides) :
  reg_inv V ed -> reg_inv (V ++ W) ed.
Proof. intros H key vs Hk. by apply entry_inv_app, H. Qed.

Lemma reg_inv_insert_new (V : list Vec3r) (ed : EdgeDivides) (key : Z * Z)
    (vs : VerticesSequence) :
  reg_inv V ed -> entry_inv V key vs -> reg_inv V (insert_new key vs ed).
Proof.
  intros Hreg Hentry k v. unfold insert_new.
  destruct (ed !! key) eqn:E; [apply Hreg|].
  destruct (decide (key = k)) as [<-|Hne].
  - rewrite lookup_insert_eq. by intros [= <-].
  - rewrite lookup_insert_ne by done. apply Hreg.
Qed.

Lemma tri_inv_rot (V : list Vec3r) (tl : TriangleLengths R) (i : Z) :
  tri_inv V tl -> (i = 0 \/ i = 1 \/ i = 2)%Z ->
  exists pa pb pc,
    vget V (vnth (tl_indices tl) i) = Some pa
    /\ vget V (vnth (tl_indices tl) ((i + 1) mod 3)) = Some pb
    /\ vget V (vnth (tl_indices tl) ((i + 2) mod 3)) = Some pc
    /\ vnth (tl_l tl) i = dist pa pb
    /\ vnth (tl_l tl) ((i + 1) mod 3) = dist pb pc
    /\ vnth (tl_l tl) ((i + 2) mod 3) = dist pc pa.
Proof.
  intros (p0 & p1 & p2 & H0 & H1 & H2 & Hl0 & Hl1 & Hl2) [-> | [-> | ->]].
  - exists p0, p1, p2. done.
  - exists p1, p2, p0. done.
  - exists p2, p0, p1. done.
Qed.

Lemma zrange_lookup (from n j : Z) :
  (0 <= j < n)%Z -> zrange from n !! Z.to_nat j = Some (from + j)%Z.
Proof.
  intros Hj. unfold zrange. rewrite list_lookup_fmap.
  rewrite lookup_seq_lt by lia. simpl. f_equal. lia.
Qed.

Lemma count_between_bounds (pf ps : Vec3r) :
  IZR (count_between pf ps) <= dist pf ps / max_length
  < IZR (count_between pf ps) + 1.
Proof. apply int_part_bounds. Qed.

Lemma sequence_at_eta (V : list Vec3r) (pf ps : Vec3r) (vs : VerticesSequence) :
  sequence_at V pf ps vs
  <-> sequence_at V pf ps (mkVS (start_index vs) (positive_order vs)).
Proof. by destruct vs. Qed.

(** The vertex numbered [m] of an edge with [c] inserted vertices:
    [-1] is the first end, [c] the second. *)
Definition vertex_no (pf ps : Vec3r) (c m : Z) : Vec3r :=
  on_edge pf ps (IZR (m + 1) / IZR (c + 1)).

(** The part of a divided edge between its vertices numbered [u] and [w]
    carries the vertices between them, read from [u] ([d] is the direction
    in which the numbers run from [u] to [w]). *)
Lemma sub_sequence (V : list Vec3r) (pf ps : Vec3r) (vs : VerticesSequence)
    (u w d : Z) :
  0 < max_length ->
  sequence_at V pf ps vs ->
  let c := count_between pf ps in
  (-1 <= u <= c)%Z -> (-1 <= w <= c)%Z ->
  (d = 1 /\ u < w \/ d = -1 /\ w < u)%Z ->
  sequence_at V (vertex_no pf ps c u) (vertex_no pf ps c w)
    (mkVS (start_index vs + sign_of vs * (u + d))
          (if (d =? 1)%Z then positive_order vs
           else negb (positive_order vs))).
Proof.
  intros Hmax Hseq c Hu Hw Hd.
  assert (Hc := count_between_bounds pf ps). fold c in Hc.
  assert (HL := dist_nonneg pf ps).
  set (k := (Z.abs (w - u) - 1)%Z).
  assert (Hk : (0 <= k <= c)%Z) by lia.
  assert (Hc1 : 0 < IZR (c + 1)) by (apply IZR_lt; lia).
  assert (Hcount : count_between (vertex_no pf ps c u) (vertex_no pf ps c w) = k).
  { unfold count_between.
    assert (Hdist : dist (vertex_no pf ps c u) (vertex_no pf ps c w)
                    = dist pf ps * (IZR (k + 1) / IZR (c + 1))).
    { unfold vertex_no. destruct Hd as [[-> Huw] | [-> Huw]].
      - rewrite dist_on_edge.
        + f_equal. unfold k. rewrite Z.abs_eq by lia.
          rewrite !plus_IZR, !minus_IZR. field. rewrite plus_IZR in Hc1. lra.
        + apply Rmult_le_compat_r; [left; by apply Rinv_0_lt_compat|].
          apply IZR_le. lia.
      - rewrite dist_sym, dist_on_edge.
        + f_equal. unfold k. rewrite Z.abs_neq by lia.
          rewrite !plus_IZR, !minus_IZR, opp_IZR, minus_IZR. field.
          rewrite plus_IZR in Hc1. lra.
        + apply Rmult_le_compat_r; [left; by apply Rinv_0_lt_compat|].
          apply IZR_le. lia. }
    rewrite Hdist.
    replace (dist pf ps * (IZR (k + 1) / IZR (c + 1)) / max_length)
      with (IZR (k + 1) / IZR (c + 1) * (dist pf ps / max_length))
      by (field; lra).
    by apply int_part_sub_edge. }
  unfold sequence_at. rewrite Hcount. cbn [start_index].
  intros j Hj.
  set (m := (u + d * (j + 1))%Z).
  assert (Hm : (0 <= m < c)%Z) by (unfold m, k in *; lia).
  assert (Hidx : (start_index vs + sign_of vs * (u + d)
                  + sign_of (mkVS (start_index vs + sign_of vs * (u + d))
                                  (if (d =? 1)%Z then positive_order vs
                                   else negb (positive_order vs))) * j
                  = start_index vs + sign_of vs * m)%Z).
  { unfold sign_of, m. cbn [positive_order].
    destruct Hd as [[-> _] | [-> _]]; simpl; destruct (positive_order vs);
      simpl; lia. }
  rewrite Hidx, (Hseq m Hm). f_equal. fold c.
  unfold vertex_no. rewrite on_edge_affine. f_equal.
  assert (Hk1 : IZR (k + 1) <> 0).
  { apply not_0_IZR. lia. }
  unfold m, k in *.
  destruct Hd as [[-> Huw] | [-> Huw]].
  - rewrite Z.abs_eq in * by lia.
    replace (w - u - 1 + 1)%Z with (w - u)%Z in * by lia.
    rewrite !plus_IZR, !mult_IZR, !minus_IZR, !plus_IZR in *. field.
    split; lra.
  - rewrite Z.abs_neq in * by lia.
    replace (- (w - u) - 1 + 1)%Z with (u - w)%Z in * by lia.
    rewrite !plus_IZR, !mult_IZR, !minus_IZR, !plus_IZR in *.
    field. split; lra.
Qed.

Lemma vertex_no_first (pf ps : Vec3r) (c : Z) : vertex_no pf ps c (-1) = pf.
Proof.
  unfold vertex_no. replace (-1 + 1)%Z with 0%Z by lia.
  unfold Rdiv. rewrite Rmult_0_l. apply on_edge_0.
Qed.

Lemma vertex_no_last (pf ps : Vec3r) (c : Z) :
  (0 <= c)%Z -> vertex_no pf ps c c = ps.
Proof.
  intros Hc. unfold vertex_no.
  replace (IZR (c + 1) / IZR (c + 1)) with 1; [apply on_edge_1|].
  field. apply not_0_IZR. lia.
Qed.

(** The lookup of an edge in the registry, over the reals. *)
Lemma find_or_create_R (V : list Vec3r) (ed : EdgeDivides) (key : Z * Z)
    (pf ps : Vec3r) :
  reg_inv V ed ->
  vget V key.1 = Some pf -> vget V key.2 = Some ps ->
  let c := count_between pf ps in
  (0 <= c)%Z ->
  exists V' ed' vs created,
    find_or_create key c (IZR (c + 1)) V ed = Some (V', ed', vs)
    /\ V' = V ++ created
    /\ reg_inv V' ed'
    /\ ed' !! key = Some vs
    /\ sequence_at V' pf ps vs
    /\ (forall k v, ed !! k = Some v -> ed' !! k = Some v)
    /\ match ed !! key with
       | Some _ => created = []
       | None =>
         created = map (fun i => on_edge pf ps (IZR i / IZR (c + 1)))
                       (zrange 1 c)
       end.
Proof.
  intros Hreg Hf Hs c Hc. unfold find_or_create.
  destruct (ed !! key) as [vs|] eqn:E.
  - exists V, ed, vs, []. rewrite app_nil_r.
    destruct (Hreg key vs E) as (pf' & ps' & Hf' & Hs' & Hseq).
    rewrite Hf in Hf'. rewrite Hs in Hs'.
    injection Hf' as <-. injection Hs' as <-.
    repeat split; auto.
  - rewrite Hf, Hs. simpl.
    set (created := new_edge_vertices pf (vsub ps pf) c (IZR (c + 1))).
    set (vs := mkVS (Z.of_nat (length V)) true).
    assert (Hseq : sequence_at (V ++ created) pf ps vs).
    { intros j Hj. cbn [start_index vs sign_of positive_order].
      replace (Z.of_nat (length V) + 1 * j)%Z
        with (Z.of_nat (length V) + j)%Z by lia.
      rewrite vget_app_new by lia.
      unfold created, new_edge_vertices. rewrite list_lookup_fmap.
      fold c in Hj. rewrite zrange_lookup by exact Hj. simpl.
      unfold on_edge. fold c. replace (1 + j)%Z with (j + 1)%Z by lia.
      reflexivity. }
    exists (V ++ created), (<[key := vs]> ed), vs, created.
    split; [reflexivity|]. split; [reflexivity|]. split; [|split; [|split; [|split]]].
    + intros k v. destruct (decide (key = k)) as [<-|Hne].
      * rewrite lookup_insert_eq. intros [= <-].
        exists pf, ps. split; [by apply vget_app|]. split; [by apply vget_app|].
        exact Hseq.
      * rewrite lookup_insert_ne by done. intros Hk.
        by apply entry_inv_app, Hreg.
    + apply lookup_insert_eq.
    + exact Hseq.
    + intros k v Hk. rewrite lookup_insert_ne; [exact Hk|]. congruence.
    + reflexivity.
Qed.

(** The entry that [divide] registers for the part of the edge before the
    new vertex. *)
Lemma first_part_entry (V : list Vec3r) (key : Z * Z) (pf ps : Vec3r)
    (vs : VerticesSequence) (o : Z) :
  0 < max_length ->
  vget V key.1 = Some pf ->
  sequence_at V pf ps vs ->
  let c := count_between pf ps in
  let sign := sign_of vs in
  let new_index := (start_index vs + sign * o)%Z in
  (0 < o < c)%Z ->
  entry_inv V (edge_key key.1 new_index).1
    (if (edge_key key.1 new_index).2
     then mkVS (new_index - sign) (negb (positive_order vs))
     else vs).
Proof.
  intros Hmax Hf Hseq c sign new_index Ho.
  assert (Hn : vget V new_index = Some (vertex_no pf ps c o)).
  { apply Hseq. fold c. lia. }
  unfold edge_key. destruct (key.1 >? new_index)%Z; cbn [fst snd].
  - exists (vertex_no pf ps c o), pf. split; [exact Hn|]. split; [exact Hf|].
    rewrite <- (vertex_no_first pf ps c) at 2.
    replace (new_index - sign)%Z with (start_index vs + sign_of vs * (o + -1))%Z
      by (unfold new_index, sign; lia).
    apply (sub_sequence V pf ps vs o (-1) (-1) Hmax Hseq); fold c; lia.
  - exists pf, (vertex_no pf ps c o). split; [exact Hf|]. split; [exact Hn|].
    rewrite <- (vertex_no_first pf ps c) at 1.
    apply sequence_at_eta.
    replace (start_index vs) with (start_index vs + sign_of vs * (-1 + 1))%Z
      at 1 by lia.
    apply (sub_sequence V pf ps vs (-1) o 1 Hmax Hseq); fold c; lia.
Qed.

(** The entry that [divide] registers for the part of the edge after the
    new vertex. *)
Lemma second_part_entry (V : list Vec3r) (key : Z * Z) (pf ps : Vec3r)
    (vs : VerticesSequence) (o : Z) :
  0 < max_length ->
  vget V key.2 = Some ps ->
  sequence_at V pf ps vs ->
  let c := count_between pf ps in
  let sign := sign_of vs in
  let new_index := (start_index vs + sign * o)%Z in
  (0 <= o < c - 1)%Z ->
  entry_inv V (edge_key new_index key.2).1
    (if (edge_key new_index key.2).2
     then mkVS (start_index vs + sign * (c - 1)) (negb (positive_order vs))
     else mkVS (new_index + sign) (positive_order vs)).
Proof.
  intros Hmax Hs Hseq c sign new_index Ho.
  assert (Hn : vget V new_index = Some (vertex_no pf ps c o)).
  { apply Hseq. fold c. lia. }
  unfold edge_key. destruct (new_index >? key.2)%Z; cbn [fst snd].
  - exists ps, (vertex_no pf ps c o). split; [exact Hs|]. split; [exact Hn|].
    rewrite <- (vertex_no_last pf ps c) at 1 by lia.
    replace (start_index vs + sign * (c - 1))%Z
      with (start_index vs + sign_of vs * (c + -1))%Z by (unfold sign; lia).
    apply (sub_sequence V pf ps vs c o (-1) Hmax Hseq); fold c; lia.
  - exists (vertex_no pf ps c o), ps. split; [exact Hn|]. split; [exact Hs|].
    rewrite <- (vertex_no_last pf ps c) at 2 by lia.
    replace (new_index + sign)%Z with (start_index vs + sign_of vs * (o + 1))%Z
      by (unfold new_index, sign; lia).
    apply (sub_sequence V pf ps vs o c 1 Hmax Hseq); fold c; lia.
Qed.

(** The split vertex lies in the middle third of the edge. *)
Lemma index_offset_range (c : Z) (b : bool) :
  (1 <= c)%Z ->
  let o := (if (c mod 2 =? 0)%Z && b then c / 2 - 1 else c / 2)%Z in
  (0 <= o <= c - 1)%Z /\ (c + 1 <= 3 * (o + 1) <= 2 * (c + 1))%Z.
Proof.
  intros Hc o. unfold o.
  assert (H2 := Z.div_mod c 2 ltac:(lia)).
  assert (H3 := Z.mod_pos_bound c 2 ltac:(lia)).
  destruct (Z.eqb_spec (c mod 2) 0); destruct b; simpl; lia.
Qed.

(** What one call of [divide] establishes, in exact arithmetic, for a
    triangle whose tracked lengths are its true lengths and an edge that is
    longer than [max_length]. *)
Lemma divide_R (V : list Vec3r) (ed : EdgeDivides) (tl : TriangleLengths R)
    (divide_index : Z) :
  0 < max_length ->
  tri_inv V tl -> reg_inv V ed ->
  (divide_index = 0 \/ divide_index = 1 \/ divide_index = 2)%Z ->
  let L := vnth (tl_l tl) divide_index in
  let lb := vnth (tl_l tl) ((divide_index + 1) mod 3) in
  let lc := vnth (tl_l tl) ((divide_index + 2) mod 3) in
  max_length < L ->
  L / max_length < IZR (2 ^ 64) ->
  exists d pf ps,
    divide tl divide_index max_length V ed = Some d
    /\ reg_inv (d_vertices d) (d_edge_divides d)
    /\ tri_inv (d_vertices d) (d_first d)
    /\ tri_inv (d_vertices d) (d_second d)
    /\ (exists a1 a2 n,
          tl_l (d_first d) = mkVec3 a1 n lc
          /\ tl_l (d_second d) = mkVec3 a2 lb n
          /\ 0 <= a1 <= 2 / 3 * L /\ 0 <= a2 <= 2 / 3 * L /\ 0 <= n
          /\ (lb <= L -> lc <= L -> n * n <= 7 / 9 * (L * L)))
    /\ (1 <= d_count d)%Z
    /\ d_count d = Int_part (L / max_length)
    /\ vget V (d_key d).1 = Some pf
    /\ vget V (d_key d).2 = Some ps
    /\ dist pf ps = L
    /\ sequence_at (d_vertices d) pf ps (d_sequence d)
    /\ d_vertices d
       = V ++ match ed !! d_key d with
              | Some _ => []
              | None =>
                map (fun i => on_edge pf ps (IZR i / IZR (d_count d + 1)))
                    (zrange 1 (d_count d))
              end.
Proof.
  intros Hmax Htri Hreg Hdi L lb lc HL Hbig.
  destruct (tri_inv_rot V tl divide_index Htri Hdi)
    as (pa & pb & pc & Ha & Hb & Hc & HLa & Hlb & Hlc).
  fold L in HLa. fold lb in Hlb. fold lc in Hlc.
  unfold divide. fold L lb lc.
  set (vi0 := vnth (tl_indices tl) divide_index) in *.
  set (vi1 := vnth (tl_indices tl) ((divide_index + 1) mod 3)) in *.
  set (vi2 := vnth (tl_indices tl) ((divide_index + 2) mod 3)) in *.
  assert (Hkey : exists pf ps,
            vget V (edge_key vi0 vi1).1.1 = Some pf
            /\ vget V (edge_key vi0 vi1).1.2 = Some ps
            /\ dist pf ps = L
            /\ (pa, pb) = if (edge_key vi0 vi1).2 then (ps, pf) else (pf, ps)).
  { unfold edge_key. destruct (vi0 >? vi1)%Z; cbn [fst snd].
    - exists pb, pa. rewrite dist_sym. done.
    - exists pa, pb. done. }
  destruct (edge_key vi0 vi1) as [key key_swap]. cbn [fst snd] in Hkey.
  destruct Hkey as (pf & ps & Hf & Hs & Hdist & Hswap).
  set (c := count_between pf ps).
  assert (Hc_eq : c = Int_part (L / max_length)).
  { unfold c, count_between. by rewrite Hdist. }
  assert (Hcb := count_between_bounds pf ps). fold c in Hcb. rewrite Hdist in Hcb.
  assert (Hratio : 1 < L / max_length).
  { apply Rmult_lt_reg_r with max_length; [exact Hmax|].
    replace (L / max_length * max_length) with L by (field; lra). lra. }
  assert (Hc1 : (1 <= c)%Z).
  { assert (0 < IZR c) by lra. apply lt_IZR in H. lia. }
  assert (Hc64 : (c < 2 ^ 64)%Z).
  { apply lt_IZR. lra. }
  assert (Hcast : f_to_size_t (f_floor (f_div L max_length)) = Some c).
  { apply floor_to_size_t. split; [exact Hc_eq|lia]. }
  rewrite Hcast. cbn [mbind option_bind].
  change (f_of_Z (c + 1)) with (IZR (c + 1)).
  destruct (find_or_create_R V ed key pf ps Hreg Hf Hs ltac:(fold c; lia))
    as (V' & ed' & vs & created & Hfind & HV' & Hreg' & Hlook & Hseq & Hmono & Hcreated).
  fold c in Hfind, Hcreated. rewrite Hfind. cbn [mbind option_bind].
  set (b := eqb key_swap (f_ltb lb lc)).
  destruct (index_offset_range c b Hc1) as [Ho Hthird].
  set (o := (if (c mod 2 =? 0)%Z && b then c / 2 - 1 else c / 2)%Z) in *.
  set (sign := (if positive_order vs then 1 else -1)%Z).
  set (new_index := (start_index vs + sign * o)%Z).
  assert (Hc' : vget V' vi2 = Some pc) by (rewrite HV'; by apply vget_app).
  assert (Hf' : vget V' key.1 = Some pf) by (rewrite HV'; by apply vget_app).
  assert (Hs' : vget V' key.2 = Some ps) by (rewrite HV'; by apply vget_app).
  set (pn := vertex_no pf ps c o).
  assert (Hn : vget V' new_index = Some pn).
  { apply Hseq. fold c. lia. }
  rewrite Hc', Hn. cbn [mbind option_bind].
  set (t := IZR (o + 1) / IZR (c + 1)).
  assert (Hc1R : 0 < IZR (c + 1)) by (apply IZR_lt; lia).
  assert (Ht : 1 / 3 <= t <= 2 / 3).
  { unfold t. destruct Hthird as [Ht1 Ht2].
    apply IZR_le in Ht1, Ht2. rewrite mult_IZR in Ht1, Ht2.
    split.
    - apply Rmult_le_reg_r with (IZR (c + 1)); [exact Hc1R|].
      replace (IZR (o + 1) / IZR (c + 1) * IZR (c + 1)) with (IZR (o + 1))
        by (field; lra). lra.
    - apply Rmult_le_reg_r with (IZR (c + 1)); [exact Hc1R|].
      replace (IZR (o + 1) / IZR (c + 1) * IZR (c + 1)) with (IZR (o + 1))
        by (field; lra). rewrite mult_IZR in Ht2. lra. }
  assert (Hpn : pn = on_edge pf ps t) by reflexivity.
  assert (Hlen1 : dist pf pn = L * t).
  { rewrite Hpn, dist_on_edge_first, Hdist by lra. reflexivity. }
  assert (Hlen2 : dist pn ps = L - L * t).
  { rewrite Hpn, dist_on_edge_second, Hdist by lra. reflexivity. }
  assert (HL0 : 0 < L) by lra.
  change (f_of_Z (1 + o)) with (IZR (1 + o)).
  replace (1 + o)%Z with (o + 1)%Z by lia. fold t.
  change (f_mul L t) with (L * t). change (f_sub L (L * t)) with (L - L * t).
  change (norm (vsub pc pn)) with (dist pc pn).
  match goal with
  | |- context [mkDivided _ _ _ ?e] => set (ed2 := e)
  end.
  assert (Hreg2 : reg_inv V' ed2).
  { unfold ed2, size_t_of_int. rewrite !Z.mod_small by lia.
    assert (Hreg1 : reg_inv V'
              (if (o >? 0)%Z
               then let '(new_key, new_key_swap) := edge_key key.1 new_index in
                    insert_new new_key
                      (if new_key_swap
                       then mkVS (new_index - sign) (negb (positive_order vs))
                       else vs) ed'
               else ed')).
    { destruct (Z.gtb_spec o 0); [|exact Hreg'].
      pose proof (first_part_entry V' key pf ps vs o Hmax Hf' Hseq) as H1.
      cbv zeta in H1. fold c in H1.
      destruct (edge_key key.1 (start_index vs + sign_of vs * o)) as [nk nks]
        eqn:Ek.
      unfold new_index, sign. fold (sign_of vs). rewrite Ek.
      apply reg_inv_insert_new; [exact Hreg'|]. apply H1. lia. }
    destruct (Z.ltb_spec o (c - 1)); [|exact Hreg1].
    pose proof (second_part_entry V' key pf ps vs o Hmax Hs' Hseq) as H2.
    cbv zeta in H2. fold c in H2.
    destruct (edge_key (start_index vs + sign_of vs * o) key.2) as [nk nks]
      eqn:Ek.
    unfold new_index, sign. fold (sign_of vs). rewrite Ek.
    apply reg_inv_insert_new.
    - unfold new_index, sign in Hreg1. fold (sign_of vs) in Hreg1. exact Hreg1.
    - apply H2. lia. }
  assert (Ha' : vget V' vi0 = Some pa) by (rewrite HV'; by apply vget_app).
  assert (Hb' : vget V' vi1 = Some pb) by (rewrite HV'; by apply vget_app).
  assert (Hn0 : 0 <= dist pc pn) by apply dist_nonneg.
  assert (Hstew : lb <= L -> lc <= L ->
                  dist pc pn * dist pc pn <= 7 / 9 * (L * L)).
  { intros HlbL HlcL. rewrite dist_sqr, Hpn, stewart.
    rewrite <- !dist_sqr, Hdist.
    assert (Hpf : dist pc pf <= L /\ dist pc ps <= L).
    { destruct key_swap; injection Hswap as -> ->.
      - rewrite (dist_sym pc pf), <- Hlb, <- Hlc. lra.
      - rewrite (dist_sym pc ps), <- Hlb, <- Hlc. lra. }
    assert (0 <= dist pc pf) by apply dist_nonneg.
    assert (0 <= dist pc ps) by apply dist_nonneg.
    apply stewart_bound; [nra|nra|nra|exact Ht]. }
  destruct key_swap; injection Hswap as -> ->.
  all: eexists; exists pf, ps; split; [reflexivity|].
  all: cbn [d_vertices d_edge_divides d_first d_second d_count d_key
            d_sequence tl_l].
  all: split; [exact Hreg2|].
  all: split; [|split; [|split; [|split; [|split; [|split; [|split; [|split;
         [|split]]]]]]]]; try assumption; try reflexivity.
  all: try (rewrite HV'; f_equal; destruct (ed !! key); assumption).
  all: try match goal with
           | |- tri_inv _ _ =>
             eexists _, _, _; cbn [tl_indices tl_l]; unfold vnth;
             cbn [v_x v_y v_z];
             split; [eassumption|]; split; [eassumption|];
             split; [eassumption|];
             repeat split;
             first [ assumption | symmetry; assumption
                   | rewrite dist_sym; assumption
                   | rewrite dist_sym; symmetry; assumption
                   | apply dist_sym | reflexivity ]
           end.
  - exists (L - L * t), (L * t), (dist pc pn).
    repeat split; try assumption; nra.
  - exists (L * t), (L - L * t), (dist pc pn).
    repeat split; try assumption; nra.
Qed.

(** *** The choice of the edge to divide *)

Ltac case_cmp :=
  repeat match goal with
         | |- context [Rs.ltb ?a ?b] =>
           let H := fresh "Hcmp" in
           destruct (Rs.ltb a b) eqn:H;
           [apply ltb_true in H | apply ltb_false in H]
         | |- context [Rs.leb ?a ?b] =>
           let H := fresh "Hcmp" in
           destruct (Rs.leb a b) eqn:H;
           [apply leb_true in H | apply leb_false in H]
         end.


(** [get_divide_index] answers -1 exactly when no tracked length exceeds
    [max_length], and otherwise the corner of a longest edge. *)
Lemma get_divide_index_R (tl : TriangleLengths R) :
  let divide_index := get_divide_index tl max_length in
  let l := tl_l tl in
  (divide_index = (-1)%Z
   /\ vnth l 0 <= max_length /\ vnth l 1 <= max_length
   /\ vnth l 2 <= max_length)
  \/ ((divide_index = 0 \/ divide_index = 1 \/ divide_index = 2)%Z
      /\ max_length < vnth l divide_index
      /\ vnth l ((divide_index + 1) mod 3) <= vnth l divide_index
      /\ vnth l ((divide_index + 2) mod 3) <= vnth l divide_index).
Proof.
  unfold get_divide_index. rsimpl. unfold vnth.
  destruct (tl_l tl) as [l0 l1 l2]. cbn [v_x v_y v_z].
  case_cmp; cbn [andb]; case_cmp.
  all: first [ left; repeat split; first [reflexivity | lra]
             | right; split; [auto|]; eval_mod3; repeat split; lra ].
Qed.

(** [is_dividable] leaves the edge vectors alone; when it answers true all
    three lengths are computed, and when it answers false no edge is longer
    than [max_length]. *)
Lemma is_dividable_R (e : Edges R) :
  let r := is_dividable e max_length in
  e_data r.2 = e_data e
  /\ if r.1
     then e_lengths r.2
          = mkVec3 (norm (vnth (e_data e) 0)) (norm (vnth (e_data e) 1))
                   (norm (vnth (e_data e) 2))
          /\ (max_length < norm (vnth (e_data e) 0)
              \/ max_length < norm (vnth (e_data e) 1)
              \/ max_length < norm (vnth (e_data e) 2))
     else norm (vnth (e_data e) 0) <= max_length
          /\ norm (vnth (e_data e) 1) <= max_length
          /\ norm (vnth (e_data e) 2) <= max_length.
Proof.
  destruct e as [[d0 d1 d2] lengths].
  unfold is_dividable. cbn [e_data e_lengths]. unfold vnth. cbn [v_x v_y v_z].
  assert (H0 := norm_le_abs_sum d0).
  assert (H1 := norm_le_abs_sum d1).
  assert (H2 := norm_le_abs_sum d2).
  set (s0 := abs_sum d0) in *. set (s1 := abs_sum d1) in *.
  set (s2 := abs_sum d2) in *.
  set (n0 := norm d0) in *. set (n1 := norm d1) in *. set (n2 := norm d2) in *.
  unfold biggest_index. rsimpl. unfold vnth. cbn [v_x v_y v_z].
  case_cmp.
  all: cbn [is_dividable_loop fold_left]; rsimpl;
       unfold vset, vnth; cbn [v_x v_y v_z]; fold n0 n1 n2.
  all: repeat (case_cmp; cbn [fst snd e_data e_lengths fold_left];
               unfold vset, vnth; cbn [v_x v_y v_z]; fold n0 n1 n2).
  all: split; [reflexivity|];
       first [ split; [reflexivity|];
               first [left; lra | right; left; lra | right; right; lra]
             | repeat split; lra ].
Qed.

(** *** The invariant along a run *)

(** An emitted triangle: its vertices exist and no edge is longer than
    [max_length]. *)
Definition within (V : list Vec3r) (t : Vec3crd) : Prop :=
  exists p0 p1 p2,
    vget V (vnth t 0) = Some p0 /\ vget V (vnth t 1) = Some p1
    /\ vget V (vnth t 2) = Some p2
    /\ dist p0 p1 <= max_length /\ dist p1 p2 <= max_length
    /\ dist p2 p0 <= max_length.

(** The vertices that a call of [divide] pushed. *)
Definition created (d : divided R) : list Vec3r :=
  drop (d_old_size d) (d_vertices d).

(** The [count] evenly spaced interior points of the segment. *)
Definition evenly_spaced (pf ps : Vec3r) (count : Z) : list Vec3r :=
  map (fun i => on_edge pf ps (IZR i / IZR (count + 1))) (zrange 1 count).

(** A call of [divide] on an edge of tracked length [L]: the length is the
    distance of its ends, the count is [floor (L / max_length)], the
    sequence it resolved holds exactly that many vertices, evenly spaced
    along the edge, and the call pushed either all of them or none. *)
Definition division_inv (V : list Vec3r) (d : divided R) : Prop :=
  (1 <= d_count d)%Z
  /\ d_count d = Int_part (d_length d / max_length)
  /\ exists pf ps,
       vget V (d_key d).1 = Some pf /\ vget V (d_key d).2 = Some ps
       /\ dist pf ps = d_length d
       /\ sequence_at V pf ps (d_sequence d)
       /\ (created d = [] \/ created d = evenly_spaced pf ps (d_count d)).

(** A call of [divide] splits an edge that is longer than [max_length]
    and at least as long as the two other edges of its triangle; the two
    parts of the edge are at most two thirds of it, the new edge is shorter
    than it by the factor sqrt(7)/3 at least, and each produced triangle
    inherits one of the other edges as it is. *)
Definition division_shrinks (d : divided R) : Prop :=
  let l := tl_l (d_triangle d) in
  let i := d_index d in
  let L := vnth l i in
  let lb := vnth l ((i + 1) mod 3) in
  let lc := vnth l ((i + 2) mod 3) in
  (i = 0 \/ i = 1 \/ i = 2)%Z
  /\ d_length d = L /\ max_length < L /\ lb <= L /\ lc <= L
  /\ exists a1 a2 n,
       tl_l (d_first d) = mkVec3 a1 n lc
       /\ tl_l (d_second d) = mkVec3 a2 lb n
       /\ 0 <= a1 <= 2 / 3 * L /\ 0 <= a2 <= 2 / 3 * L /\ 0 <= n
       /\ n * n <= 7 / 9 * (L * L).

Record state_inv (V0 : list Vec3r) (st : sub_state R) : Prop := {
  si_prefix : exists W, s_vertices st = V0 ++ W;
  si_reg : reg_inv (s_vertices st) (s_edge_divides st);
  si_out : Forall (within (s_vertices st)) (s_indices st);
  si_log : Forall (division_inv (s_vertices st)) (s_divisions st);
  si_shrink : Forall division_shrinks (s_divisions st);
}.

Lemma within_app (V W : list Vec3r) (t : Vec3crd) :
  within V t -> within (V ++ W) t.
Proof.
  intros (p0 & p1 & p2 & H0 & H1 & H2 & Hd). exists p0, p1, p2.
  repeat split; try apply vget_app; tauto.
Qed.

Lemma division_inv_app (V W : list Vec3r) (d : divided R) :
  division_inv V d -> division_inv (V ++ W) d.
Proof.
  intros (Hc1 & Hc & pf & ps & Hf & Hs & Hd & Hseq & Hcr).
  split; [exact Hc1|]. split; [exact Hc|]. exists pf, ps.
  split; [by apply vget_app|]. split; [by apply vget_app|].
  split; [exact Hd|]. split; [|exact Hcr].
  intros j Hj. by apply vget_app, Hseq.
Qed.

(** One call of [divide] inside a run that went on. *)
Lemma divide_step (V : list Vec3r) (ed : EdgeDivides) (tl : TriangleLengths R)
    (divide_index : Z) (d : divided R) :
  0 < max_length ->
  tri_inv V tl -> reg_inv V ed ->
  (divide_index = 0 \/ divide_index = 1 \/ divide_index = 2)%Z ->
  max_length < vnth (tl_l tl) divide_index ->
  vnth (tl_l tl) ((divide_index + 1) mod 3) <= vnth (tl_l tl) divide_index ->
  vnth (tl_l tl) ((divide_index + 2) mod 3) <= vnth (tl_l tl) divide_index ->
  divide tl divide_index max_length V ed = Some d ->
  (exists W, d_vertices d = V ++ W)
  /\ reg_inv (d_vertices d) (d_edge_divides d)
  /\ tri_inv (d_vertices d) (d_first d)
  /\ tri_inv (d_vertices d) (d_second d)
  /\ division_inv (d_vertices d) d
  /\ division_shrinks d.
Proof.
  intros Hmax Htri Hreg Hdi HL Hlb Hlc Hdiv.
  destruct (divide_registry _ _ _ _ _ _ Hdiv)
    as (Htl & Hidx & _ & _ & Hsize & Hlen & Hcast & _).
  rewrite Hlen in Hcast. apply floor_to_size_t in Hcast as [Hcount Hrange].
  rsimpl.
  assert (Hbig : vnth (tl_l tl) divide_index / max_length < IZR (2 ^ 64)).
  { destruct (int_part_bounds (vnth (tl_l tl) divide_index / max_length))
      as [_ Hup].
    rewrite <- Hcount in Hup.
    assert (IZR (d_count d) + 1 <= IZR (2 ^ 64)).
    { rewrite <- plus_IZR. apply IZR_le. lia. }
    lra. }
  destruct (divide_R V ed tl divide_index Hmax Htri Hreg Hdi HL Hbig)
    as (d' & pf & ps & Hdiv' & Hreg' & Ht1 & Ht2 & Hshr & Hc1 & Hc & Hf & Hs
        & Hdist & Hseq & HV).
  rewrite Hdiv in Hdiv'. injection Hdiv' as <-.
  split; [eauto|]. split; [exact Hreg'|]. split; [exact Ht1|].
  split; [exact Ht2|]. split.
  - split; [exact Hc1|]. split; [by rewrite Hlen|].
    exists pf, ps. rewrite HV at 1 2.
    split; [by apply vget_app|]. split; [by apply vget_app|].
    split; [by rewrite Hlen|]. split; [exact Hseq|].
    unfold created. rewrite Hsize, HV, drop_app_length.
    destruct (ed !! d_key d); [by left|by right].
  - unfold division_shrinks. rewrite Htl, Hidx.
    split; [exact Hdi|]. split; [exact Hlen|]. split; [exact HL|].
    split; [exact Hlb|]. split; [exact Hlc|].
    destruct Hshr as (a1 & a2 & n & E1 & E2 & Ha1 & Ha2 & Hn & Hnn).
    exists a1, a2, n. repeat split; tauto.
Qed.

Lemma divide_loop_inv (V0 : list Vec3r) (fuel : nat) :
  0 < max_length ->
  forall tl tls st st',
  state_inv V0 st ->
  tri_inv (s_vertices st) tl -> Forall (tri_inv (s_vertices st)) tls ->
  divide_loop fuel max_length tl tls st = Done st' ->
  state_inv V0 st'.
Proof.
  intros Hmax. induction fuel as [|fuel IH]; intros tl tls st st' Hst Htl Htls;
    [discriminate|].
  cbn [divide_loop].
  destruct (get_divide_index_R tl)
    as [(Hdi & Hl0 & Hl1 & Hl2) | (Hdi & HL & Hlb & Hlc)].
  - rewrite Hdi. cbn [Z.ltb Z.compare].
    assert (Hst2 : state_inv V0
              (mkSub (s_vertices st) (s_edge_divides st)
                     (s_indices st ++ [tl_indices tl]) (s_divisions st))).
    { destruct Hst as [Hp Hr Ho Hlog Hshr]. split; cbn; try assumption.
      apply Forall_app. split; [exact Ho|]. constructor; [|constructor].
      destruct Htl as (p0 & p1 & p2 & H0 & H1 & H2 & E0 & E1 & E2).
      exists p0, p1, p2. rewrite <- E0, <- E1, <- E2. done. }
    destruct tls as [|front tls].
    + by intros [= <-].
    + apply IH; [exact Hst2| |]; cbn.
      * by apply Forall_inv in Htls.
      * by apply Forall_inv_tail in Htls.
  - assert (Hnn : (get_divide_index tl max_length <? 0)%Z = false).
    { apply Z.ltb_ge. lia. }
    rewrite Hnn.
    destruct (divide tl (get_divide_index tl max_length) max_length
                (s_vertices st) (s_edge_divides st)) as [d|] eqn:Hdiv;
      [|discriminate].
    destruct Hst as [[W0 Hp] Hr Ho Hlog Hshr].
    destruct (divide_step _ _ _ _ _ Hmax Htl Hr Hdi HL Hlb Hlc Hdiv)
      as ([W HW] & Hreg' & Ht1 & Ht2 & Hdinv & Hdshr).
    apply IH; cbn [s_vertices].
    + split; cbn.
      * exists (W0 ++ W). by rewrite HW, Hp, app_assoc.
      * exact Hreg'.
      * rewrite HW. eapply Forall_impl; [exact Ho|]. intros t. apply within_app.
      * apply Forall_app. split; [|by constructor].
        rewrite HW. eapply Forall_impl; [exact Hlog|].
        intros e. apply division_inv_app.
      * apply Forall_app. split; [exact Hshr|by constructor].
    + exact Ht1.
    + apply Forall_app. split; [|by constructor].
      rewrite HW. eapply Forall_impl; [exact Htls|].
      intros t. apply tri_inv_app.
Qed.

(** The first lengths of an input triangle that [is_dividable] accepts. *)
Lemma subdivide_triangle_inv (V0 : list Vec3r) (fuel : nat) (t : Vec3crd) :
  0 < max_length ->
  forall st st',
  state_inv V0 st ->
  subdivide_triangle fuel max_length V0 t st = Done st' ->
  state_inv V0 st'.
Proof.
  intros Hmax st st' Hst. unfold subdivide_triangle, Edges_new.
  destruct (vget V0 (vnth t 0)) as [p0|] eqn:E0; cbn [mbind option_bind];
    [|discriminate].
  destruct (vget V0 (vnth t 1)) as [p1|] eqn:E1; cbn [mbind option_bind];
    [|discriminate].
  destruct (vget V0 (vnth t 2)) as [p2|] eqn:E2; cbn [mbind option_bind];
    [|discriminate].
  match goal with
  | |- context [is_dividable ?e _] => set (edges := e)
  end.
  assert (Hdiv := is_dividable_R edges). cbv zeta in Hdiv.
  destruct (is_dividable edges max_length) as [dividable edges'].
  cbn [fst snd] in Hdiv. destruct Hdiv as [_ Hdiv].
  destruct (si_prefix _ _ Hst) as [W HW].
  assert (H0 : vget (s_vertices st) (vnth t 0) = Some p0)
    by (rewrite HW; by apply vget_app).
  assert (H1 : vget (s_vertices st) (vnth t 1) = Some p1)
    by (rewrite HW; by apply vget_app).
  assert (H2 : vget (s_vertices st) (vnth t 2) = Some p2)
    by (rewrite HW; by apply vget_app).
  destruct dividable; cbn [negb].
  - destruct Hdiv as [Hdiv _].
    apply divide_loop_inv; [exact Hmax|exact Hst| |constructor].
    exists p0, p1, p2. cbn [tl_indices tl_l]. rewrite Hdiv.
    repeat split; assumption.
  - intros [= <-]. destruct Hst as [Hp Hr Ho Hlog Hshr].
    split; cbn; try assumption.
    apply Forall_app. split; [exact Ho|]. constructor; [|constructor].
    exists p0, p1, p2. repeat split; try assumption; tauto.
Qed.

Lemma subdivide_triangles_inv (V0 : list Vec3r) (fuel : nat)
    (triangles : list Vec3crd) :
  0 < max_length ->
  forall st st',
  state_inv V0 st ->
  subdivide_triangles fuel max_length V0 triangles st = Done st' ->
  state_inv V0 st'.
Proof.
  intros Hmax. induction triangles as [|t triangles IH]; intros st st' Hst; cbn.
  - by intros [= <-].
  - destruct (subdivide_triangle fuel max_length V0 t st) as [st1| | |] eqn:Ht;
      try discriminate.
    apply IH. by eapply subdivide_triangle_inv.
Qed.

Lemma subdivide_run_inv (fuel : nat) (its : indexed_triangle_set R)
    (st : sub_state R) :
  0 < max_length ->
  subdivide_run fuel its max_length = Done st ->
  state_inv (its_vertices its) st.
Proof.
  intros Hmax. apply subdivide_triangles_inv; [exact Hmax|].
  split; cbn; try constructor.
  - exists []. by rewrite app_nil_r.
  - intros key vs H. by rewrite lookup_empty in H.
Qed.

(** *** Termination *)

(** How many times the square of a length must shrink by 7/9 before it is
    within the square of [max_length]. *)
Definition rank (l : R) : nat :=
  Z.to_nat (up (ln (l * l / (max_length * max_length)) / ln (9 / 7))).

(** The weight of an edge in the variant: nothing when the edge needs no
    division. *)
Definition excess (l : R) : nat :=
  if Rle_dec l max_length then 0%nat else (3 ^ rank l)%nat.

Definition tri_measure (tl : TriangleLengths R) : nat :=
  (excess (vnth (tl_l tl) 0) + excess (vnth (tl_l tl) 1)
   + excess (vnth (tl_l tl) 2))%nat.

(** The iterations of the loop that a triangle can cause. *)
Definition cost (tl : TriangleLengths R) : nat :=
  (2 ^ S (tri_measure tl) - 1)%nat.

Lemma ln_le_compat (a b : R) : 0 < a -> a <= b -> ln a <= ln b.
Proof.
  intros Ha [Hlt | ->]; [|lra]. left. by apply ln_increasing.
Qed.

Lemma ln97_pos : 0 < ln (9 / 7).
Proof. rewrite <- ln_1. apply ln_increasing; lra. Qed.

Lemma rank_shrinks (l l' : R) :
  0 < max_length -> max_length < l -> max_length < l' ->
  l' * l' <= 7 / 9 * (l * l) ->
  (1 <= rank l' < rank l)%nat.
Proof.
  intros Hmax Hl Hl' Hshrink. unfold rank.
  set (m2 := max_length * max_length).
  assert (Hm2 : 0 < m2) by (unfold m2; nra).
  assert (Hq' : 1 < l' * l' / m2).
  { apply Rmult_lt_reg_r with m2; [exact Hm2|].
    replace (l' * l' / m2 * m2) with (l' * l') by (field; lra).
    unfold m2. nra. }
  assert (Hq : l' * l' / m2 <= 7 / 9 * (l * l / m2)).
  { apply Rmult_le_reg_r with m2; [exact Hm2|].
    replace (l' * l' / m2 * m2) with (l' * l') by (field; lra).
    replace (7 / 9 * (l * l / m2) * m2) with (7 / 9 * (l * l)) by (field; lra).
    exact Hshrink. }
  assert (H97 := ln97_pos).
  assert (Hln' : 0 < ln (l' * l' / m2)).
  { rewrite <- ln_1. apply ln_increasing; lra. }
  assert (Hln : ln (l' * l' / m2) <= ln (l * l / m2) - ln (9 / 7)).
  { assert (Hpos : 0 < l * l / m2) by lra.
    apply ln_le_compat in Hq; [|lra].
    rewrite ln_mult in Hq by lra.
    replace (7 / 9) with (/ (9 / 7)) in Hq by field.
    rewrite ln_Rinv in Hq by lra. lra. }
  set (x' := ln (l' * l' / m2) / ln (9 / 7)).
  set (x := ln (l * l / m2) / ln (9 / 7)).
  assert (Hx' : 0 < x').
  { unfold x'. apply Rdiv_lt_0_compat; assumption. }
  assert (Hxx : x' <= x - 1).
  { unfold x', x. apply Rmult_le_reg_r with (ln (9 / 7)); [exact H97|].
    replace (ln (l' * l' / m2) / ln (9 / 7) * ln (9 / 7))
      with (ln (l' * l' / m2)) by (field; lra).
    replace ((ln (l * l / m2) / ln (9 / 7) - 1) * ln (9 / 7))
      with (ln (l * l / m2) - ln (9 / 7)) by (field; lra).
    exact Hln. }
  destruct (archimed x') as [Hu1' Hu2']. destruct (archimed x) as [Hu1 Hu2].
  assert (Hpos' : (0 < up x')%Z) by (apply lt_IZR; lra).
  assert (Hlt : (up x' < up x)%Z) by (apply lt_IZR; lra).
  lia.
Qed.

Lemma excess_shrinks (l l' : R) :
  0 < max_length -> max_length < l -> 0 <= l' ->
  l' * l' <= 7 / 9 * (l * l) ->
  (3 * excess l' <= excess l)%nat.
Proof.
  intros Hmax Hl Hl' Hshrink. unfold excess.
  destruct (Rle_dec l max_length); [lra|].
  destruct (Rle_dec l' max_length); [lia|].
  destruct (rank_shrinks l l' Hmax Hl ltac:(lra) Hshrink) as [_ Hr].
  replace (rank l) with (S (rank l - 1)) by lia.
  rewrite Nat.pow_succ_r'. apply Nat.mul_le_mono_l.
  apply Nat.pow_le_mono_r; lia.
Qed.

Lemma excess_pos (l : R) : max_length < l -> (1 <= excess l)%nat.
Proof.
  intros Hl. unfold excess. destruct (Rle_dec l max_length); [lra|].
  assert (3 ^ rank l <> 0)%nat by (apply Nat.pow_nonzero; lia). lia.
Qed.

Lemma tri_measure_rot (tl : TriangleLengths R) (i : Z) :
  (i = 0 \/ i = 1 \/ i = 2)%Z ->
  tri_measure tl
  = (excess (vnth (tl_l tl) i) + excess (vnth (tl_l tl) ((i + 1) mod 3))
     + excess (vnth (tl_l tl) ((i + 2) mod 3)))%nat.
Proof.
  unfold tri_measure. intros [-> | [-> | ->]]; eval_mod3; lia.
Qed.

Lemma cost_succ (tl : TriangleLengths R) :
  (cost tl + 1 = 2 ^ S (tri_measure tl))%nat.
Proof.
  unfold cost.
  assert (2 ^ S (tri_measure tl) <> 0)%nat by (apply Nat.pow_nonzero; lia).
  lia.
Qed.

Lemma cost_pos (tl : TriangleLengths R) : (1 <= cost tl)%nat.
Proof.
  assert (E := cost_succ tl). rewrite Nat.pow_succ_r' in E.
  assert (2 ^ tri_measure tl <> 0)%nat by (apply Nat.pow_nonzero; lia).
  lia.
Qed.

Lemma cost_children (tl t1 t2 : TriangleLengths R) :
  (tri_measure t1 < tri_measure tl)%nat ->
  (tri_measure t2 < tri_measure tl)%nat ->
  (cost t1 + cost t2 + 1 <= cost tl)%nat.
Proof.
  intros H1 H2.
  assert (E := cost_succ tl). assert (E1 := cost_succ t1).
  assert (E2 := cost_succ t2).
  assert (2 ^ S (tri_measure t1) <= 2 ^ tri_measure tl)%nat
    by (apply Nat.pow_le_mono_r; lia).
  assert (2 ^ S (tri_measure t2) <= 2 ^ tri_measure tl)%nat
    by (apply Nat.pow_le_mono_r; lia).
  rewrite Nat.pow_succ_r' in E. lia.
Qed.

(** Each produced triangle weighs less than the divided one. *)
Lemma division_measure (d : divided R) :
  0 < max_length ->
  division_shrinks d ->
  (tri_measure (d_first d) < tri_measure (d_triangle d))%nat
  /\ (tri_measure (d_second d) < tri_measure (d_triangle d))%nat.
Proof.
  intros Hmax (Hi & _ & HL & Hlb & Hlc & a1 & a2 & n & E1 & E2 & Ha1 & Ha2
               & Hn & Hnn).
  rewrite (tri_measure_rot (d_triangle d) (d_index d) Hi).
  set (L := vnth (tl_l (d_triangle d)) (d_index d)) in *.
  unfold tri_measure. rewrite E1, E2, !vnth_0, !vnth_1, !vnth_2.
  assert (H1 := excess_shrinks L a1 Hmax HL ltac:(lra) ltac:(nra)).
  assert (H2 := excess_shrinks L a2 Hmax HL ltac:(lra) ltac:(nra)).
  assert (H3 := excess_shrinks L n Hmax HL Hn Hnn).
  assert (H4 := excess_pos L HL).
  lia.
Qed.

(** No tracked length above [B]. *)
Definition tri_bounded (B : R) (tl : TriangleLengths R) : Prop :=
  vnth (tl_l tl) 0 <= B /\ vnth (tl_l tl) 1 <= B /\ vnth (tl_l tl) 2 <= B.

Lemma tri_bounded_rot (B : R) (tl : TriangleLengths R) (i : Z) :
  (i = 0 \/ i = 1 \/ i = 2)%Z -> tri_bounded B tl ->
  vnth (tl_l tl) i <= B /\ vnth (tl_l tl) ((i + 1) mod 3) <= B
  /\ vnth (tl_l tl) ((i + 2) mod 3) <= B.
Proof.
  intros [-> | [-> | ->]] (H0 & H1 & H2); eval_mod3; tauto.
Qed.

Fixpoint total_cost (tls : list (TriangleLengths R)) : nat :=
  match tls with
  | [] => 0%nat
  | tl :: tls => (cost tl + total_cost tls)%nat
  end.

Lemma total_cost_app (l1 l2 : list (TriangleLengths R)) :
  total_cost (l1 ++ l2) = (total_cost l1 + total_cost l2)%nat.
Proof. induction l1 as [|t l1 IH]; simpl; lia. Qed.

(** With fuel for the cost of the triangles in hand and in the queue the
    loop finishes. *)
Lemma divide_loop_done (B : R) (fuel : nat) :
  0 < max_length -> B / max_length < IZR (2 ^ 64) ->
  forall tl tls st,
  tri_inv (s_vertices st) tl -> Forall (tri_inv (s_vertices st)) tls ->
  reg_inv (s_vertices st) (s_edge_divides st) ->
  tri_bounded B tl -> Forall (tri_bounded B) tls ->
  (total_cost (tl :: tls) <= fuel)%nat ->
  exists st', divide_loop fuel max_length tl tls st = Done st'.
Proof.
  intros Hmax HB. induction fuel as [|fuel IH];
    intros tl tls st Htl Htls Hreg Hbd Hbds Hfuel.
  { cbn [total_cost] in Hfuel. assert (E := cost_pos tl). lia. }
  cbn [divide_loop].
  destruct (get_divide_index_R tl)
    as [(Hdi & Hl0 & Hl1 & Hl2) | (Hdi & HL & Hlb & Hlc)].
  - rewrite Hdi. cbn [Z.ltb Z.compare].
    destruct tls as [|front tls]; [eauto|].
    apply IH; cbn [s_vertices s_edge_divides].
    + by apply Forall_inv in Htls.
    + by apply Forall_inv_tail in Htls.
    + exact Hreg.
    + by apply Forall_inv in Hbds.
    + by apply Forall_inv_tail in Hbds.
    + cbn [total_cost] in Hfuel |- *. assert (E := cost_pos tl). lia.
  - assert (Hnn : (get_divide_index tl max_length <? 0)%Z = false).
    { apply Z.ltb_ge. lia. }
    rewrite Hnn.
    set (i := get_divide_index tl max_length) in *.
    destruct (tri_bounded_rot B tl i Hdi Hbd) as (HLB & HlbB & HlcB).
    assert (Hbig : vnth (tl_l tl) i / max_length < IZR (2 ^ 64)).
    { apply Rle_lt_trans with (B / max_length); [|exact HB].
      unfold Rdiv. apply Rmult_le_compat_r; [|exact HLB].
      left. by apply Rinv_0_lt_compat. }
    destruct (divide_R (s_vertices st) (s_edge_divides st) tl i Hmax Htl Hreg
                Hdi HL Hbig)
      as (d & pf & ps & Hdiv & _).
    rewrite Hdiv.
    destruct (divide_step _ _ _ _ _ Hmax Htl Hreg Hdi HL Hlb Hlc Hdiv)
      as ([W HW] & Hreg' & Ht1 & Ht2 & _ & Hshr).
    destruct (divide_registry _ _ _ _ _ _ Hdiv) as (Htri & Hidx & _).
    destruct (division_measure d Hmax Hshr) as [Hm1 Hm2].
    rewrite Htri in Hm1, Hm2.
    assert (Hbd12 : tri_bounded B (d_first d) /\ tri_bounded B (d_second d)).
    { destruct Hshr as (_ & _ & _ & _ & _ & a1 & a2 & n & E1 & E2 & Ha1 & Ha2
                        & Hn & Hsq).
      rewrite Htri, Hidx in *. fold i in E1, E2, Ha1, Ha2, Hsq.
      assert (n <= vnth (tl_l tl) i) by nra.
      unfold tri_bounded. rewrite E1, E2, !vnth_0, !vnth_1, !vnth_2.
      repeat split; lra. }
    apply IH; cbn [s_vertices s_edge_divides].
    + exact Ht1.
    + apply Forall_app. split; [|by constructor].
      rewrite HW. eapply Forall_impl; [exact Htls|]. intros t. apply tri_inv_app.
    + exact Hreg'.
    + tauto.
    + apply Forall_app. split; [exact Hbds|]. constructor; [tauto|constructor].
    + cbn [total_cost] in Hfuel |- *. rewrite total_cost_app. cbn [total_cost].
      assert (Hc := cost_children tl (d_first d) (d_second d) Hm1 Hm2). lia.
Qed.
End Invariant.

(** The fuel that suffices for one input triangle: the cost of its first
    [TriangleLengths]. *)
Definition triangle_cost (max_length : R) (V0 : list Vec3r) (t : Vec3crd)
  : nat :=
  match vget V0 (vnth t 0), vget V0 (vnth t 1), vget V0 (vnth t 2) with
  | Some p0, Some p1, Some p2 =>
    cost max_length
      (mkTL t (mkVec3 (dist p0 p1) (dist p1 p2) (dist p2 p0)))
  | _, _, _ => 0%nat
  end.

Definition run_fuel (max_length : R) (its : indexed_triangle_set R) : nat :=
  foldr (fun t fuel => Nat.max (triangle_cost max_length (its_vertices its) t)
                               fuel)
        0%nat (its_indices its).

Lemma run_fuel_enough (max_length : R) (its : indexed_triangle_set R)
    (t : Vec3crd) :
  t ∈ its_indices its ->
  (triangle_cost max_length (its_vertices its) t <= run_fuel max_length its)%nat.
Proof.
  unfold run_fuel. induction (its_indices its) as [|t' l IH]; intros Ht.
  - by apply elem_of_nil in Ht.
  - cbn [foldr]. apply elem_of_cons in Ht as [<- | Ht]; [lia|].
    specialize (IH Ht). lia.
Qed.

Lemma subdivide_triangle_done (max_length B : R) (V0 : list Vec3r)
    (fuel : nat) (t : Vec3crd) (st : sub_state R) :
  0 < max_length -> B / max_length < IZR (2 ^ 64) ->
  state_inv max_length V0 st ->
  within B V0 t ->
  (triangle_cost max_length V0 t <= fuel)%nat ->
  exists st', subdivide_triangle fuel max_length V0 t st = Done st'.
Proof.
  intros Hmax HB Hst (p0 & p1 & p2 & E0 & E1 & E2 & Hd0 & Hd1 & Hd2) Hfuel.
  unfold triangle_cost in Hfuel. rewrite E0, E1, E2 in Hfuel.
  unfold subdivide_triangle, Edges_new. rewrite E0, E1, E2.
  cbn [mbind option_bind].
  match goal with
  | |- context [is_dividable ?e _] => set (edges := e)
  end.
  assert (Hdiv := is_dividable_R max_length edges). cbv zeta in Hdiv.
  destruct (is_dividable edges max_length) as [dividable edges'].
  cbn [fst snd] in Hdiv. destruct Hdiv as [_ Hdiv].
  destruct dividable; cbn [negb]; [|eauto].
  destruct Hdiv as [Hdiv _]. rewrite Hdiv.
  destruct (si_prefix _ _ _ Hst) as [W HW].
  apply (divide_loop_done max_length B fuel Hmax HB).
  - exists p0, p1, p2. rewrite HW.
    repeat split; try (by apply vget_app); reflexivity.
  - constructor.
  - apply (si_reg _ _ _ Hst).
  - repeat split; assumption.
  - constructor.
  - cbn [total_cost]. rewrite Nat.add_0_r. exact Hfuel.
Qed.

Lemma subdivide_triangles_done (max_length B : R) (V0 : list Vec3r)
    (fuel : nat) (triangles : list Vec3crd) :
  0 < max_length -> B / max_length < IZR (2 ^ 64) ->
  Forall (within B V0) triangles ->
  (forall t, t ∈ triangles -> (triangle_cost max_length V0 t <= fuel)%nat) ->
  forall st, state_inv max_length V0 st ->
  exists st', subdivide_triangles fuel max_length V0 triangles st = Done st'.
Proof.
  intros Hmax HB. induction triangles as [|t triangles IH];
    intros Hin Hfuel st Hst; cbn [subdivide_triangles]; [eauto|].
  destruct (subdivide_triangle_done max_length B V0 fuel t st Hmax HB Hst)
    as [st1 Ht].
  - by apply Forall_inv in Hin.
  - apply Hfuel. by left.
  - rewrite Ht. apply IH.
    + by apply Forall_inv_tail in Hin.
    + intros t' Ht'. apply Hfuel. by right.
    + by eapply subdivide_triangle_inv.
Qed.

(** A triangle within the bound is pushed as it is, whatever the fuel. *)
Lemma subdivide_triangle_within (max_length : R) (V0 : list Vec3r)
    (fuel : nat) (t : Vec3crd) (st : sub_state R) :
  within max_length V0 t ->
  subdivide_triangle fuel max_length V0 t st
  = Done (mkSub (s_vertices st) (s_edge_divides st) (s_indices st ++ [t])
                (s_divisions st)).
Proof.
  intros (p0 & p1 & p2 & E0 & E1 & E2 & Hd0 & Hd1 & Hd2).
  unfold subdivide_triangle, Edges_new. rewrite E0, E1, E2.
  cbn [mbind option_bind].
  match goal with
  | |- context [is_dividable ?e _] => set (edges := e)
  end.
  assert (Hdiv := is_dividable_R max_length edges). cbv zeta in Hdiv.
  destruct (is_dividable edges max_length) as [[|] edges'];
    cbn [fst snd negb] in *; [|reflexivity].
  destruct Hdiv as (_ & _ & Hlong). exfalso.
  unfold edges in Hlong. cbn [e_data] in Hlong.
  rewrite vnth_0, vnth_1, vnth_2 in Hlong.
  fold (dist p0 p1) (dist p1 p2) (dist p2 p0) in Hlong. lra.
Qed.
End SubdivideR.

(** ** The divisions of a run, for every scalar type *)

Section RunRegistry.
Context {F : Type} {SF : Scalar F}.

(** What the record of a call of [divide] says about itself: the key is
    the canonical key of the divided edge, the count is computed from the
    tracked length, and the new vertex is one of the vertices of the
    resolved sequence. *)
Definition division_recorded (d : divided F) : Prop :=
  d_key d = key_of (d_triangle d) (d_index d)
  /\ (1 <= d_count d ->
      d_new_index d ∈ sequence_indices (d_sequence d) (d_count d))%Z.

(** Every edge divided so far is registered with the sequence its
    division resolved, and a later division of the same edge resolved the
    same sequence and pushed no vertex. *)
Definition log_inv (st : sub_state F) : Prop :=
  (forall e, e ∈ s_divisions st ->
     s_edge_divides st !! d_key e = Some (d_sequence e))
  /\ (forall pre e2 post, s_divisions st = pre ++ e2 :: post ->
      forall e1, e1 ∈ pre -> d_key e1 = d_key e2 ->
        d_sequence e2 = d_sequence e1
        /\ length (d_vertices e2) = d_old_size e2)
  /\ Forall division_recorded (s_divisions st).

Lemma snoc_split {A} (l pre post : list A) (d e2 : A) :
  l ++ [d] = pre ++ e2 :: post ->
  (post = [] /\ e2 = d /\ pre = l)
  \/ exists post', post = post' ++ [d] /\ l = pre ++ e2 :: post'.
Proof.
  destruct post as [|x post] using rev_ind.
  - intros H. left. apply app_inj_tail in H as [-> ->]. done.
  - intros H. right. exists post.
    rewrite app_comm_cons, app_assoc in H.
    apply app_inj_tail in H as [-> ->]. done.
Qed.

Lemma log_inv_divide (st : sub_state F) (tl : TriangleLengths F)
    (divide_index : Z) (max_length : F) (d : divided F) :
  log_inv st ->
  divide tl divide_index max_length (s_vertices st) (s_edge_divides st)
    = Some d ->
  log_inv (mkSub (d_vertices d) (d_edge_divides d) (s_indices st)
                 (s_divisions st ++ [d])).
Proof.
  intros (Hreg & Hlog & Hrec) Hdiv.
  destruct (divide_registry _ _ _ _ _ _ Hdiv)
    as (Htl & Hidx & Hnew & Hk0 & Hsize & _ & _ & Hkey & Hmono & created & HV
        & Hcase).
  split; [|split]; cbn.
  - intros e He. apply elem_of_app in He as [He|He].
    + by apply Hmono, Hreg.
    + apply list_elem_of_singleton in He as ->. exact Hkey.
  - intros pre e2 post Heq e1 He1 Hk.
    apply snoc_split in Heq as [(-> & -> & ->) | (post' & -> & Heq)].
    + specialize (Hreg e1 He1). rewrite Hk in Hreg. rewrite Hreg in Hcase.
      destruct Hcase as [<- ->]. split; [reflexivity|].
      by rewrite HV, app_nil_r, Hsize.
    + by apply (Hlog pre e2 post' Heq).
  - apply Forall_app. split; [exact Hrec|]. constructor; [|constructor].
    split; [by rewrite Htl, Hidx|exact Hnew].
Qed.

Lemma log_inv_divide_loop (fuel : nat) (max_length : F) :
  forall tl tls st st',
  log_inv st ->
  divide_loop fuel max_length tl tls st = Done st' ->
  log_inv st'.
Proof.
  induction fuel as [|fuel IH]; intros tl tls st st' Hst; [discriminate|].
  cbn [divide_loop].
  destruct (get_divide_index tl max_length <? 0)%Z.
  - destruct tls as [|front tls].
    + by intros [= <-].
    + by apply IH.
  - destruct (divide tl (get_divide_index tl max_length) max_length
                (s_vertices st) (s_edge_divides st)) as [d|] eqn:Hdiv;
      [|discriminate].
    apply IH. by eapply log_inv_divide.
Qed.

Lemma log_inv_triangles (fuel : nat) (max_length : F)
    (vertices : list (Vec3 F)) (triangles : list Vec3crd) :
  forall st st',
  log_inv st ->
  subdivide_triangles fuel max_length vertices triangles st = Done st' ->
  log_inv st'.
Proof.
  induction triangles as [|t triangles IH]; intros st st' Hst; cbn.
  - by intros [= <-].
  - destruct (subdivide_triangle fuel max_length vertices t st) as [st1| | |]
      eqn:Ht; try discriminate.
    apply IH. unfold subdivide_triangle in Ht.
    destruct (Edges_new t vertices) as [edges|]; [|discriminate].
    destruct (is_dividable edges max_length) as [[|] edges'];
      cbn [negb] in Ht.
    + by eapply log_inv_divide_loop.
    + by injection Ht as <-.
Qed.

Lemma log_inv_run (fuel : nat) (its : indexed_triangle_set F)
    (max_length : F) (st : sub_state F) :
  subdivide_run fuel its max_length = Done st -> log_inv st.
Proof.
  intros Hrun. eapply log_inv_triangles; [|exact Hrun].
  split; [|split]; cbn; [intros e He; by apply elem_of_nil in He| |constructor].
  intros pre' e2' post' H. by destruct pre'.
Qed.

(** In a finished run, a later division of an edge resolves the sequence
    that the earlier division of this edge resolved, and it pushes no
    vertex. *)
Lemma run_divisions_agree (fuel : nat) (its : indexed_triangle_set F)
    (max_length : F) (st : sub_state F) :
  subdivide_run fuel its max_length = Done st ->
  forall pre e1 mid e2 post,
    s_divisions st = pre ++ e1 :: mid ++ e2 :: post ->
    d_key e1 = d_key e2 ->
    d_sequence e2 = d_sequence e1
    /\ length (d_vertices e2) = d_old_size e2.
Proof.
  intros Hrun pre e1 mid e2 post Hlog Hk.
  destruct (log_inv_run _ _ _ _ Hrun) as (_ & Hinv & _).
  apply (Hinv (pre ++ e1 :: mid) e2 post).
  - by rewrite <- app_assoc.
  - apply elem_of_app. right. by left.
  - exact Hk.
Qed.

(** The two ends of the edge a call of [divide] divided, in the order in
    which its triangle runs through them. *)
Definition ends (d : divided F) : Z * Z :=
  (vnth (tl_indices (d_triangle d)) (d_index d),
   vnth (tl_indices (d_triangle d)) ((d_index d + 1) mod 3)).

(** Two calls divided the same edge, met in the same or in the opposite
    direction. *)
Definition same_edge (d1 d2 : divided F) : Prop :=
  ends d1 = ends d2 \/ ends d1 = ((ends d2).2, (ends d2).1).

(** The indices of the vertices that a division resolved for its edge. *)
Definition inserted (d : divided F) : list Z :=
  sequence_indices (d_sequence d) (d_count d).

Lemma same_edge_key (d1 d2 : divided F) :
  division_recorded d1 -> division_recorded d2 -> same_edge d1 d2 ->
  d_key d2 = d_key d1.
Proof.
  intros [H1 _] [H2 _] Hsame. rewrite H1, H2. unfold key_of.
  unfold same_edge, ends in Hsame.
  destruct Hsame as [[= -> ->] | [= -> ->]]; [reflexivity|].
  apply edge_key_sym.
Qed.

(** The log of a run only grows. *)
Lemma divide_loop_log (fuel : nat) (max_length : F) :
  forall tl tls st st',
  divide_loop fuel max_length tl tls st = Done st' ->
  exists more, s_divisions st' = s_divisions st ++ more.
Proof.
  induction fuel as [|fuel IH]; intros tl tls st st'; cbn [divide_loop];
    [discriminate|].
  destruct (get_divide_index tl max_length <? 0)%Z.
  - destruct tls as [|front tls].
    + intros [= <-]. exists []. cbn. by rewrite app_nil_r.
    + intros H. apply IH in H as [more H]. by exists more.
  - destruct (divide tl (get_divide_index tl max_length) max_length
                (s_vertices st) (s_edge_divides st)) as [d|]; [|discriminate].
    intros H. apply IH in H as [more H]. cbn in H.
    exists (d :: more). by rewrite H, <- app_assoc.
Qed.

(** When the triangle in hand has an edge to divide, the next entry of the
    log is the division of this triangle at this edge. *)
Lemma divide_loop_first (fuel : nat) (max_length : F) (tl : TriangleLengths F)
    (tls : list (TriangleLengths F)) (st st' : sub_state F) :
  (0 <= get_divide_index tl max_length)%Z ->
  divide_loop fuel max_length tl tls st = Done st' ->
  exists d more,
    s_divisions st' = s_divisions st ++ d :: more
    /\ d_triangle d = tl /\ d_index d = get_divide_index tl max_length.
Proof.
  intros Hi. destruct fuel as [|fuel]; cbn [divide_loop]; [discriminate|].
  destruct (Z.ltb_spec (get_divide_index tl max_length) 0) as [?|_]; [lia|].
  destruct (divide tl (get_divide_index tl max_length) max_length
              (s_vertices st) (s_edge_divides st)) as [d|] eqn:Hd;
    [|discriminate].
  intros H. apply divide_loop_log in H as [more H]. cbn in H.
  destruct (divide_registry _ _ _ _ _ _ Hd) as (Htl & Hidx & _).
  exists d, more. by rewrite H, <- app_assoc.
Qed.

Lemma subdivide_triangle_log (fuel : nat) (max_length : F)
    (vertices : list (Vec3 F)) (t : Vec3crd) (st st' : sub_state F) :
  subdivide_triangle fuel max_length vertices t st = Done st' ->
  exists more, s_divisions st' = s_divisions st ++ more.
Proof.
  unfold subdivide_triangle.
  destruct (Edges_new t vertices) as [edges|]; [|discriminate].
  destruct (is_dividable edges max_length) as [[|] edges']; cbn [negb].
  - apply divide_loop_log.
  - intros [= <-]. exists []. cbn. by rewrite app_nil_r.
Qed.

Lemma subdivide_triangles_log (fuel : nat) (max_length : F)
    (vertices : list (Vec3 F)) (triangles : list Vec3crd) :
  forall st st',
  subdivide_triangles fuel max_length vertices triangles st = Done st' ->
  exists more, s_divisions st' = s_divisions st ++ more.
Proof.
  induction triangles as [|t triangles IH]; intros st st'; cbn.
  - intros [= <-]. exists []. by rewrite app_nil_r.
  - destruct (subdivide_triangle fuel max_length vertices t st) as [st1| | |]
      eqn:Ht; try discriminate.
    intros H. apply IH in H as [more2 H].
    apply subdivide_triangle_log in Ht as [more1 Ht].
    exists (more1 ++ more2). by rewrite H, Ht, <- app_assoc.
Qed.

(** The longest tracked edge of a triangle. *)
Definition longest (tl : TriangleLengths F) : F :=
  let l := tl_l tl in
  let m := if f_ltb (vnth l 0) (vnth l 1) then vnth l 1 else vnth l 0 in
  if f_ltb m (vnth l 2) then vnth l 2 else m.

(** Both triangles that a call of [divide] produced have a longest edge
    that is strictly shorter than the longest edge of the divided one. *)
Definition split_shortens_longest (d : divided F) : Prop :=
  f_ltb (longest (d_first d)) (longest (d_triangle d)) = true
  /\ f_ltb (longest (d_second d)) (longest (d_triangle d)) = true.
End RunRegistry.

(** ** The subdivision over the reals *)

Module SubdivideSpec.
Import SubdivideR.
Local Open Scope R_scope.

(** Each triangle that a division produced weighs less in the variant of
    the loop than the divided one. *)
Definition division_decreases (max_length : R) (d : divided R) : Prop :=
  (tri_measure max_length (d_first d)
   < tri_measure max_length (d_triangle d))%nat
  /\ (tri_measure max_length (d_second d)
      < tri_measure max_length (d_triangle d))%nat.

(** With the fuel [run_fuel] the run of [subdivide] returns. *)
Lemma subdivide_run_done (max_length B : R) (its : indexed_triangle_set R) :
  0 < max_length -> B / max_length < IZR (2 ^ 64) ->
  Forall (within B (its_vertices its)) (its_indices its) ->
  exists st,
    subdivide_run (run_fuel max_length its) its max_length = Done st.
Proof.
  intros Hmax HB Hin. unfold subdivide_run.
  apply (subdivide_triangles_done max_length B); try assumption.
  - intros t Ht. by apply run_fuel_enough.
  - split; cbn; try constructor.
    + exists []. by rewrite app_nil_r.
    + intros key vs H. by rewrite lookup_empty in H.
Qed.

Lemma dist_le_intro (p q : Vec3r) (B : R) :
  0 <= B -> squaredNorm (vsub p q) <= B * B -> dist p q <= B.
Proof.
  intros HB Hsq. unfold dist, norm. rsimpl.
  rewrite <- (sqrt_square B HB). by apply sqrt_le_1_alt.
Qed.

Lemma dist_gt_intro (p q : Vec3r) (B : R) :
  0 <= B -> B * B < squaredNorm (vsub p q) -> B < dist p q.
Proof.
  intros HB Hsq. unfold dist, norm. rsimpl.
  rewrite <- (sqrt_square B HB). apply sqrt_lt_1_alt.
  split; [nra|exact Hsq].
Qed.

(** With one edge longer than [max_length] and the two others within it,
    [get_divide_index] answers that edge. *)
Lemma get_divide_index_only (max_length : R) (tl : TriangleLengths R) (i : Z) :
  (i = 0 \/ i = 1 \/ i = 2)%Z ->
  max_length < vnth (tl_l tl) i ->
  vnth (tl_l tl) ((i + 1) mod 3) <= max_length ->
  vnth (tl_l tl) ((i + 2) mod 3) <= max_length ->
  get_divide_index tl max_length = i.
Proof.
  intros Hi Hlong H1 H2.
  destruct (get_divide_index_R max_length tl)
    as [(_ & L0 & L1 & L2) | (Hj & Hmax & _)].
  - exfalso. destruct Hi as [-> | [-> | ->]]; lra.
  - revert Hmax. generalize (get_divide_index tl max_length) Hj.
    intros j [-> | [-> | ->]] Hmax;
      destruct Hi as [-> | [-> | ->]]; try reflexivity; exfalso;
      revert H1 H2; eval_mod3; lra.
Qed.

(** The first division that an input triangle with an edge to divide
    causes is the division of the triangle itself at that edge. *)
Lemma subdivide_triangle_first (max_length : R) (V0 : list Vec3r)
    (fuel : nat) (t : Vec3crd) (st st' : sub_state R) (p0 p1 p2 : Vec3r) :
  vget V0 (vnth t 0) = Some p0 -> vget V0 (vnth t 1) = Some p1 ->
  vget V0 (vnth t 2) = Some p2 ->
  let tl := mkTL t (mkVec3 (dist p0 p1) (dist p1 p2) (dist p2 p0)) in
  (0 <= get_divide_index tl max_length)%Z ->
  subdivide_triangle fuel max_length V0 t st = Done st' ->
  exists d more,
    s_divisions st' = s_divisions st ++ d :: more
    /\ d_triangle d = tl /\ d_index d = get_divide_index tl max_length.
Proof.
  intros E0 E1 E2 tl Hi.
  unfold subdivide_triangle, Edges_new. rewrite E0, E1, E2.
  cbn [mbind option_bind].
  match goal with
  | |- context [is_dividable ?e _] => set (edges := e)
  end.
  assert (Hdiv := is_dividable_R max_length edges). cbv zeta in Hdiv.
  destruct (is_dividable edges max_length) as [[|] edges'];
    cbn [fst snd negb] in *.
  - destruct Hdiv as (_ & -> & _). apply divide_loop_first. exact Hi.
  - exfalso. destruct Hdiv as (_ & L0 & L1 & L2).
    unfold edges in L0, L1, L2. cbn [e_data] in L0, L1, L2.
    rewrite vnth_0 in L0. rewrite vnth_1 in L1. rewrite vnth_2 in L2.
    fold (dist p0 p1) in L0. fold (dist p1 p2) in L1. fold (dist p2 p0) in L2.
    destruct (get_divide_index_R max_length tl)
      as [(Hneg & _) | (Hj & Hmax & _)]; [lia|].
    revert Hmax. generalize (get_divide_index tl max_length) Hj.
    intros j [-> | [-> | ->]]; unfold tl; cbn [tl_l];
      rewrite ?vnth_0, ?vnth_1, ?vnth_2; lra.
Qed.

Lemma division_inv_functional (max_length : R) (V : list Vec3r)
    (e1 e2 : divided R) :
  division_inv max_length V e1 -> division_inv max_length V e2 ->
  d_key e2 = d_key e1 -> d_count e2 = d_count e1.
Proof.
  intros (_ & -> & pf1 & ps1 & F1 & S1 & <- & _)
         (_ & -> & pf2 & ps2 & F2 & S2 & <- & _) Hk.
  rewrite Hk in F2, S2. by simplify_eq.
Qed.

(** Two triangles of a square that share its diagonal, which one of them
    runs through from vertex 2 to vertex 0 and the other from 0 to 2. *)
Definition square_mesh : indexed_triangle_set R :=
  mkIts [mkVec3 0 1 2; mkVec3 0 2 3]%Z
        [mkVec3 0 0 0; mkVec3 2 0 0; mkVec3 2 2 0; mkVec3 0 2 0].

(** A triangle with two longest edges of length 5. *)
Definition tie_mesh : indexed_triangle_set R :=
  mkIts [mkVec3 0 1 2]%Z [mkVec3 0 0 0; mkVec3 3 4 0; mkVec3 4 3 0].

Lemma casts_defined (B max_length : R) :
  0 < max_length -> B <= 1000 * max_length ->
  B / max_length < IZR (2 ^ 64).
Proof.
  intros Hmax HB. apply Rle_lt_trans with 1000.
  - unfold Rdiv. apply Rmult_le_reg_r with max_length; [exact Hmax|].
    rewrite Rmult_assoc, Rinv_l by lra. lra.
  - change (2 ^ 64)%Z with 18446744073709551616%Z. lra.
Qed.

Ltac concrete_within :=
  eexists _, _, _; repeat split; try reflexivity;
  apply dist_le_intro; try lra;
  unfold squaredNorm, vdot, vsub; rsimpl; lra.

Lemma square_mesh_within :
  Forall (within 3 (its_vertices square_mesh)) (its_indices square_mesh).
Proof. repeat constructor; concrete_within. Qed.

Lemma tie_mesh_within :
  Forall (within 5 (its_vertices tie_mesh)) (its_indices tie_mesh).
Proof. repeat constructor; concrete_within. Qed.

Ltac concrete_dist :=
  first [ apply dist_le_intro | left; apply dist_gt_intro | apply dist_gt_intro ];
  try lra; unfold squaredNorm, vdot, vsub; rsimpl; lra.

(** In every finished run on the square with [max_length] 5/2, the first
    triangle divides the diagonal from vertex 2 to vertex 0 and the second
    triangle divides it, later, from vertex 0 to vertex 2. *)
Lemma square_mesh_divisions (fuel : nat) (st : sub_state R) :
  subdivide_run fuel square_mesh (5 / 2) = Done st ->
  exists e1 mid e2 post,
    s_divisions st = [] ++ e1 :: mid ++ e2 :: post
    /\ ends e1 = (2, 0)%Z /\ ends e2 = (0, 2)%Z.
Proof.
  unfold subdivide_run.
  cbn [its_indices its_vertices square_mesh subdivide_triangles].
  match goal with
  | |- context [subdivide_triangle _ _ ?V ?t ?s] =>
    destruct (subdivide_triangle fuel (5 / 2) V t s) as [st1| | |] eqn:H1;
      try discriminate
  end.
  match goal with
  | |- context [subdivide_triangle _ _ ?V ?t st1] =>
    destruct (subdivide_triangle fuel (5 / 2) V t st1) as [st2| | |] eqn:H2;
      try discriminate
  end.
  intros [= <-].
  eapply subdivide_triangle_first in H1 as (e1 & mid & L1 & T1 & I1);
    [|reflexivity..|].
  2:{ erewrite (get_divide_index_only _ _ 2); [lia|auto|..];
      cbn [tl_l]; eval_mod3; rewrite ?vnth_0, ?vnth_1, ?vnth_2;
      concrete_dist. }
  eapply subdivide_triangle_first in H2 as (e2 & post & L2 & T2 & I2);
    [|reflexivity..|].
  2:{ erewrite (get_divide_index_only _ _ 0); [lia|auto|..];
      cbn [tl_l]; eval_mod3; rewrite ?vnth_0, ?vnth_1, ?vnth_2;
      concrete_dist. }
  rewrite (get_divide_index_only _ _ 2) in I1;
    [|auto|cbn [tl_l]; eval_mod3; rewrite ?vnth_0, ?vnth_1, ?vnth_2;
           concrete_dist..].
  rewrite (get_divide_index_only _ _ 0) in I2;
    [|auto|cbn [tl_l]; eval_mod3; rewrite ?vnth_0, ?vnth_1, ?vnth_2;
           concrete_dist..].
  exists e1, mid, e2, post. split; [|split].
  - rewrite L2, L1. reflexivity.
  - unfold ends. rewrite T1, I1. reflexivity.
  - unfold ends. rewrite T2, I2. reflexivity.
Qed.

(** Exact arithmetic.  In a finished run of [subdivide] over the reals,
    take any two divisions of the same edge, the later one meeting the
    edge in the same or in the opposite direction as the earlier one (two
    triangles that share the edge, whatever their order and winding): both
    use the same registry key, resolve the same vertex sequence with the
    same count, hence the same list of inserted vertex indices, each
    splits the edge at one of these vertices, and the later division
    pushes no vertex of its own. *)
Theorem shared_edge_same_vertices (fuel : nat) (its : indexed_triangle_set R)
    (max_length : R) (st : sub_state R) (pre mid post : list (divided R))
    (e1 e2 : divided R) :
  0 < max_length ->
  subdivide_run fuel its max_length = Done st ->
  s_divisions st = pre ++ e1 :: mid ++ e2 :: post ->
  same_edge e1 e2 ->
  d_key e2 = d_key e1
  /\ d_sequence e2 = d_sequence e1
  /\ d_count e2 = d_count e1
  /\ inserted e2 = inserted e1
  /\ d_new_index e1 ∈ inserted e1
  /\ d_new_index e2 ∈ inserted e1
  /\ created e2 = [].
Proof.
  intros Hmax Hrun Hlog Hsame.
  destruct (log_inv_run _ _ _ _ Hrun) as (_ & _ & Hrec).
  assert (Hinv := si_log _ _ _ (subdivide_run_inv max_length _ _ _ Hmax Hrun)).
  rewrite Hlog in Hrec, Hinv.
  apply Forall_app in Hrec as [_ Hrec]. apply Forall_app in Hinv as [_ Hinv].
  apply Forall_cons in Hrec as [Hr1 Hrec]. apply Forall_cons in Hinv as [Hi1 Hinv].
  apply Forall_app in Hrec as [_ Hrec]. apply Forall_app in Hinv as [_ Hinv].
  apply Forall_cons in Hrec as [Hr2 _]. apply Forall_cons in Hinv as [Hi2 _].
  assert (Hk : d_key e2 = d_key e1) by by apply same_edge_key.
  destruct (run_divisions_agree _ _ _ _ Hrun _ _ _ _ _ Hlog (eq_sym Hk))
    as [Hseq Hsize].
  assert (Hc : d_count e2 = d_count e1)
    by by apply (division_inv_functional max_length (s_vertices st)).
  assert (Hins : inserted e2 = inserted e1)
    by (unfold inserted; by rewrite Hseq, Hc).
  repeat split; try assumption.
  - apply Hr1, Hi1.
  - rewrite <- Hins. apply Hr2, Hi2.
  - unfold created. apply drop_ge. lia.
Qed.

(** Exact arithmetic.  In a finished run of [subdivide] over the reals
    with a positive [max_length], the returned mesh consists of the
    emitted triangles and the final vertices, every emitted triangle
    indexes existing vertices that are pairwise at most [max_length]
    apart, and every division of an edge of length [L] resolved exactly
    [floor (L / max_length)] vertices, the evenly spaced interior points
    of the edge, which the division pushed itself unless an earlier
    division of the edge had. *)
Theorem subdivide_edges_within_max (fuel : nat)
    (its : indexed_triangle_set R) (max_length : R) (st : sub_state R) :
  0 < max_length ->
  subdivide_run fuel its max_length = Done st ->
  subdivide fuel its max_length
  = Done (mkIts (s_indices st) (s_vertices st))
  /\ Forall (within max_length (s_vertices st)) (s_indices st)
  /\ Forall (division_inv max_length (s_vertices st)) (s_divisions st).
Proof.
  intros Hmax Hrun.
  assert (Hinv := subdivide_run_inv max_length _ _ _ Hmax Hrun).
  split; [|split].
  - unfold subdivide. by rewrite Hrun.
  - apply (si_out _ _ _ Hinv).
  - apply (si_log _ _ _ Hinv).
Qed.

(** Exact arithmetic.  Over the reals, for a positive [max_length] and a
    mesh whose triangles index existing vertices no farther apart than some
    [B] with [B / max_length < 2^64], the run of [subdivide] returns with
    the fuel [run_fuel].  Each division in it divides an edge that is
    longer than [max_length] and at least as long as the two other edges;
    the parts of that edge are at most two thirds of it, the new edge is
    shorter by the factor sqrt(7)/3 at least, and each produced triangle
    inherits one of the two other edges as it is, so that its longest edge
    never grows and its weight in the variant strictly decreases.  Every
    emitted triangle has its edges within [max_length], and a triangle
    that is within [max_length] at the start is emitted as it is, with no
    vertex pushed and no division. *)
Theorem subdivide_terminates (max_length B : R)
    (its : indexed_triangle_set R) :
  0 < max_length -> B / max_length < IZR (2 ^ 64) ->
  Forall (within B (its_vertices its)) (its_indices its) ->
  (exists st,
     subdivide_run (run_fuel max_length its) its max_length = Done st
     /\ Forall (division_shrinks max_length) (s_divisions st)
     /\ Forall (division_decreases max_length) (s_divisions st)
     /\ Forall (within max_length (s_vertices st)) (s_indices st))
  /\ (forall fuel t st0,
       within max_length (its_vertices its) t ->
       subdivide_triangle fuel max_length (its_vertices its) t st0
       = Done (mkSub (s_vertices st0) (s_edge_divides st0)
                     (s_indices st0 ++ [t]) (s_divisions st0))).
Proof.
  intros Hmax HB Hin. split.
  - destruct (subdivide_run_done max_length B its Hmax HB Hin) as [st Hrun].
    assert (Hinv := subdivide_run_inv max_length _ _ _ Hmax Hrun).
    exists st. repeat split; try assumption.
    + apply (si_shrink _ _ _ Hinv).
    + eapply Forall_impl; [apply (si_shrink _ _ _ Hinv)|].
      intros d Hd. by apply division_measure.
    + apply (si_out _ _ _ Hinv).
  - intros fuel t st0. apply subdivide_triangle_within.
Qed.

Lemma shared_edge_same_vertices_witness :
  exists fuel st e1 mid e2 post,
    subdivide_run fuel square_mesh (5 / 2) = Done st
    /\ s_divisions st = [] ++ e1 :: mid ++ e2 :: post
    /\ ends e1 = (2, 0)%Z /\ ends e2 = (0, 2)%Z
    /\ d_key e2 = d_key e1
    /\ d_sequence e2 = d_sequence e1
    /\ d_count e2 = d_count e1
    /\ inserted e2 = inserted e1
    /\ d_new_index e1 ∈ inserted e1
    /\ d_new_index e2 ∈ inserted e1
    /\ created e2 = [].
Proof.
  destruct (subdivide_run_done (5 / 2) 3 square_mesh ltac:(lra)
              (casts_defined 3 (5 / 2) ltac:(lra) ltac:(lra))
              square_mesh_within) as [st Hrun].
  destruct (square_mesh_divisions _ st Hrun)
    as (e1 & mid & e2 & post & Hlog & He1 & He2).
  exists (run_fuel (5 / 2) square_mesh), st, e1, mid, e2, post.
  split; [exact Hrun|]. split; [exact Hlog|].
  split; [exact He1|]. split; [exact He2|].
  apply (shared_edge_same_vertices (run_fuel (5 / 2) square_mesh)
           square_mesh (5 / 2) st [] mid post e1 e2).
  - lra.
  - exact Hrun.
  - exact Hlog.
  - right. rewrite He1, He2. reflexivity.
Defined.

Lemma subdivide_edges_within_max_witness :
  exists fuel st,
    subdivide_run fuel tie_mesh 4 = Done st
    /\ subdivide fuel tie_mesh 4
       = Done (mkIts (s_indices st) (s_vertices st))
    /\ Forall (within 4 (s_vertices st)) (s_indices st)
    /\ Forall (division_inv 4 (s_vertices st)) (s_divisions st).
Proof.
  destruct (subdivide_run_done 4 5 tie_mesh ltac:(lra)
              (casts_defined 5 4 ltac:(lra) ltac:(lra))
              tie_mesh_within) as [st Hrun].
  exists (run_fuel 4 tie_mesh), st. split; [exact Hrun|].
  apply (subdivide_edges_within_max (run_fuel 4 tie_mesh) tie_mesh 4 st);
    [lra|exact Hrun].
Defined.

Lemma subdivide_terminates_witness :
  (exists st,
     subdivide_run (run_fuel 4 tie_mesh) tie_mesh 4 = Done st
     /\ Forall (division_shrinks 4) (s_divisions st)
     /\ Forall (division_decreases 4) (s_divisions st)
     /\ Forall (within 4 (s_vertices st)) (s_indices st))
  /\ (forall fuel t st0,
       within 4 (its_vertices tie_mesh) t ->
       subdivide_triangle fuel 4 (its_vertices tie_mesh) t st0
       = Done (mkSub (s_vertices st0) (s_edge_divides st0)
                     (s_indices st0 ++ [t]) (s_divisions st0))).
Proof.
  apply (subdivide_terminates 4 5 tie_mesh).
  - lra.
  - apply casts_defined; lra.
  - exact tie_mesh_within.
Defined.
End SubdivideSpec.

(** ** Runs of the subdivision in binary32 *)

Module SubdivideRuns.
Import B32 Examples.

(** The triangle A = (0,0,0), B = (3,4,0), C = (4,3,0): the edges AB and CA
    both have length 5, exactly so in binary32. *)
Definition tie_mesh32 : indexed_triangle_set float :=
  mkIts [mkVec3 0 1 2]%Z [v3 0 0 0; v3 3 4 0; v3 4 3 0].

(** The two triangles of a square that share its diagonal. *)
Definition square_mesh32 : indexed_triangle_set float :=
  mkIts [mkVec3 0 1 2; mkVec3 0 2 3]%Z
        [v3 0 0 0; v3 2 0 0; v3 2 2 0; v3 0 2 0].

(** With two longest edges a split does not shorten the longest edge:
    with [max_length] 4 the first split of the triangle with two edges of
    length 5 divides the edge CA and produces a triangle that inherits the
    edge AB, so the longest edge of that triangle is as long as the longest
    edge of the divided one. *)
Lemma tie_split_keeps_longest :
  exists st,
    subdivide_run 10 tie_mesh32 (of_Z 4) = Done st
    /\ ~ Forall split_shortens_longest (s_divisions st).
Proof.
  eexists. split; [vm_compute; reflexivity|].
  intros H. apply Forall_inv in H. destruct H as [_ H].
  vm_compute in H. discriminate H.
Qed.

(** Both triangles of the square divide the diagonal, the first from
    vertex 2 to vertex 0 and the second from 0 to 2; the second finds the
    vertex 4 that the first pushed and pushes none. *)
Example square_diagonal_shared :
  exists st e1 e2,
    subdivide_run 10 square_mesh32 (f_div (of_Z 5) (of_Z 2)) = Done st
    /\ s_divisions st = [e1; e2]
    /\ ends e1 = (2, 0)%Z /\ ends e2 = (0, 2)%Z
    /\ inserted e1 = [4%Z] /\ inserted e2 = [4%Z]
    /\ length (d_vertices e1) = 5%nat /\ length (d_vertices e2) = 5%nat
    /\ s_indices st
       = [mkVec3 2 4 1; mkVec3 4 0 1; mkVec3 0 4 3; mkVec3 4 2 3]%Z.
Proof.
  eexists _, _, _. split; [vm_compute; reflexivity|].
  split; [reflexivity|]. repeat split; vm_compute; reflexivity.
Qed.
(** The triangle A = (0,0,0), B = (10,0,0), C = (9,3,0). *)
Definition skew_mesh32 : indexed_triangle_set float :=
  mkIts [mkVec3 0 1 2]%Z [v3 0 0 0; v3 10 0 0; v3 9 3 0].

(** 3.3333335, the binary32 number next above 10/3: the edge AB of length
    10 has a count of two and gets the vertices 3 and 4. *)
Definition skew_max : float := S754_finite false 13981014 (-22).

(** The state in which the run on this triangle ends. *)
Definition skew_state : sub_state float :=
  Eval vm_compute in
    match subdivide_run 20 skew_mesh32 skew_max with
    | Done st => st
    | _ => mkSub [] ∅ [] []
    end.

(** The first, the fifth and the eighth division of that run. *)
Definition no_division : divided float :=
  let tl := mkTL (mkVec3 0 0 0)%Z (v3 0 0 0) in
  mkDivided tl tl [] ∅ (0, 0)%Z f_zero 0%Z (mkVS 0 true) 0%Z 0 tl 0%Z.

Definition skew_first : divided float :=
  Eval vm_compute in default no_division (s_divisions skew_state !! 0%nat).
Definition skew_fifth : divided float :=
  Eval vm_compute in default no_division (s_divisions skew_state !! 4%nat).
Definition skew_eighth : divided float :=
  Eval vm_compute in default no_division (s_divisions skew_state !! 7%nat).


(** C2.  In binary32 a division does not always resolve
    [floor (L / max_length)] interior points of its edge.  In the run on
    the triangle (0,0,0), (10,0,0), (9,3,0) with [max_length] 3.3333335,
    the first division gives the edge from vertex 0 to vertex 1, of length
    10, the two vertices 3 and 4.  The fifth division divides the part
    from vertex 0 to vertex 4, which holds vertex 3 alone.  Its tracked
    length L is 10 times the rounded ratio 2/3, which is exactly twice
    [max_length], so that [floor (L / max_length)] is two; the division
    pushes no vertex, takes the second vertex of the registered sequence,
    which is vertex 4, the end of the edge itself, and answers the
    triangles (0,4,6) and (4,4,6).  The mesh that [subdivide] returns
    holds the triangle (4,4,6), two corners of which are one vertex. *)
Theorem division_count_beyond_registry :
  exists d,
    subdivide_run 20 skew_mesh32 skew_max = Done skew_state
    /\ subdivide 20 skew_mesh32 skew_max
       = Done (mkIts (s_indices skew_state) (s_vertices skew_state))
    /\ s_divisions skew_state !! 4%nat = Some d
    /\ ends d = (0, 4)%Z
    /\ d_length d = f_mul (of_Z 10) (f_div (of_Z 2) (of_Z 3))
    /\ d_length d = f_mul (of_Z 2) skew_max
    /\ f_to_size_t (f_floor (f_div (d_length d) skew_max)) = Some 2%Z
    /\ d_count d = 2%Z
    /\ length (d_vertices d) = d_old_size d
    /\ inserted d = [3; 4]%Z
    /\ d_new_index d = 4%Z
    /\ tl_indices (d_first d) = mkVec3 0 4 6
    /\ tl_indices (d_second d) = mkVec3 4 4 6
    /\ mkVec3 4 4 6 ∈ s_indices skew_state.
Proof.
  exists skew_fifth.
  repeat split; try (vm_compute; reflexivity).
  apply list_elem_of_In. vm_compute. tauto.
Qed.
End SubdivideRuns.

(** ** Runs in which every division inserts one vertex

    When every divided edge has a count of one, a division is determined
    by the positions of the three vertices and the three tracked lengths
    of the triangle: the new vertex is the computed midpoint of the edge,
    whether this call pushes it or finds it in the registry.  *)

Section SingleVertexDivisions.
Context {F : Type} {SF : Scalar F}.
Local Open Scope scalar_scope.
Variable max_length : F.

(** The vertex [vf + dir * (1 / 2)] that a division with count one pushes
    for the edge from [vf] to [vs]. *)
Definition midpoint (vf vs : Vec3 F) : Vec3 F :=
  vadd vf (vscale (vsub vs vf) (f_of_Z 1 / f_of_Z 2)).

(** Every registered sequence starts at the computed midpoint of its
    edge. *)
Definition reg_mid (V : list (Vec3 F)) (ed : EdgeDivides) : Prop :=
  forall key vs, ed !! key = Some vs ->
    exists pf ps,
      vget V key.1 = Some pf /\ vget V key.2 = Some ps
      /\ vget V (start_index vs) = Some (midpoint pf ps).

(** The positions of the three vertices of a triangle and its three
    tracked lengths. *)
Record shape := mkShape {
  sh_points : Vec3 (Vec3 F);
  sh_l : Vec3 F;
}.

Definition has_shape (V : list (Vec3 F)) (tl : TriangleLengths F) (s : shape)
  : Prop :=
  (forall i, (i = 0 \/ i = 1 \/ i = 2)%Z ->
     vget V (vnth (tl_indices tl) i) = Some (vnth (sh_points s) i))
  /\ tl_l tl = sh_l s.

(** The edge that [get_divide_index] selects in a triangle of this
    shape. *)
Definition shape_index (s : shape) : Z :=
  get_divide_index (mkTL (mkVec3 0 0 0)%Z (sh_l s)) max_length.

(** The count that [divide] computes for that edge. *)
Definition shape_count (s : shape) : option Z :=
  f_to_size_t (f_floor (vnth (sh_l s) (shape_index s) / max_length)).

(** The shapes of the two triangles that [divide] answers at edge [i] with
    count one, [swap] telling whether the key of the edge is swapped. *)
Definition split_shape (s : shape) (i : Z) (swap : bool) : shape * shape :=
  let p := sh_points s in
  let l := sh_l s in
  let i1 := ((i + 1) mod 3)%Z in
  let i2 := ((i + 2) mod 3)%Z in
  let pf := if swap then vnth p i1 else vnth p i in
  let ps := if swap then vnth p i else vnth p i1 in
  let pn := midpoint pf ps in
  let new_len := norm (vsub (vnth p i2) pn) in
  let ratio := f_of_Z 1 / f_of_Z 2 in
  let len1 := vnth l i * ratio in
  let len2 := vnth l i - len1 in
  let '(len1, len2) := if swap then (len2, len1) else (len1, len2) in
  (mkShape (mkVec3 (vnth p i) pn (vnth p i2)) (mkVec3 len1 new_len (vnth l i2)),
   mkShape (mkVec3 pn (vnth p i1) (vnth p i2)) (mkVec3 len2 (vnth l i1) new_len)).

Lemma get_divide_index_shape (V : list (Vec3 F)) (tl : TriangleLengths F)
    (s : shape) :
  has_shape V tl s -> get_divide_index tl max_length = shape_index s.
Proof.
  intros [_ Hl]. unfold shape_index, get_divide_index. cbn [tl_l].
  by rewrite Hl.
Qed.

Lemma has_shape_app (V W : list (Vec3 F)) (tl : TriangleLengths F)
    (s : shape) :
  has_shape V tl s -> has_shape (V ++ W) tl s.
Proof.
  intros [Hp Hl]. split; [|exact Hl].
  intros i Hi. apply SubdivideR.vget_app. by apply Hp.
Qed.

Lemma has_shape_unique (V : list (Vec3 F)) (tl : TriangleLengths F)
    (s s' : shape) :
  has_shape V tl s -> has_shape V tl s' -> s = s'.
Proof.
  intros [Hp Hl] [Hp' Hl'].
  assert (H0 := Hp 0%Z ltac:(auto)). assert (H0' := Hp' 0%Z ltac:(auto)).
  assert (H1 := Hp 1%Z ltac:(auto)). assert (H1' := Hp' 1%Z ltac:(auto)).
  assert (H2 := Hp 2%Z ltac:(auto)). assert (H2' := Hp' 2%Z ltac:(auto)).
  destruct s as [[p0 p1 p2] l], s' as [[q0 q1 q2] l'].
  cbn [sh_points sh_l] in *. rewrite ?vnth_0, ?vnth_1, ?vnth_2 in *.
  congruence.
Qed.

Lemma reg_mid_app (V W : list (Vec3 F)) (ed : EdgeDivides) :
  reg_mid V ed -> reg_mid (V ++ W) ed.
Proof.
  intros H key vs Hk. destruct (H key vs Hk) as (pf & ps & H1 & H2 & H3).
  exists pf, ps. repeat split; by apply SubdivideR.vget_app.
Qed.

Ltac exists_split swap :=
  eexists _, swap; split; [reflexivity|]; unfold split_shape;
  cbn [fst snd d_vertices d_first d_second d_edge_divides].

Lemma divide_split (V : list (Vec3 F)) (ed : EdgeDivides)
    (tl : TriangleLengths F) (s : shape) (i : Z) :
  (i = 0 \/ i = 1 \/ i = 2)%Z ->
  f_to_size_t (f_floor (vnth (tl_l tl) i / max_length)) = Some 1%Z ->
  has_shape V tl s -> reg_mid V ed ->
  exists d swap,
    divide tl i max_length V ed = Some d
    /\ has_shape (d_vertices d) (d_first d) (split_shape s i swap).1
    /\ has_shape (d_vertices d) (d_second d) (split_shape s i swap).2
    /\ reg_mid (d_vertices d) (d_edge_divides d)
    /\ exists W, d_vertices d = V ++ W.
Proof.
  intros Hi Hcount [Hp Hl] Hreg.
  assert (Hi1 : ((i + 1) mod 3 = 0 \/ (i + 1) mod 3 = 1 \/ (i + 1) mod 3 = 2)%Z)
    by (destruct Hi as [-> | [-> | ->]]; auto).
  assert (Hi2 : ((i + 2) mod 3 = 0 \/ (i + 2) mod 3 = 1 \/ (i + 2) mod 3 = 2)%Z)
    by (destruct Hi as [-> | [-> | ->]]; auto).
  assert (E0 := Hp i Hi). assert (E1 := Hp _ Hi1). assert (E2 := Hp _ Hi2).
  set (swap := (vnth (tl_indices tl) i >? vnth (tl_indices tl) ((i + 1) mod 3))%Z).
  set (pf := if swap then vnth (sh_points s) ((i + 1) mod 3)
             else vnth (sh_points s) i).
  set (ps := if swap then vnth (sh_points s) i
             else vnth (sh_points s) ((i + 1) mod 3)).
  assert (Ekey : exists key,
            edge_key (vnth (tl_indices tl) i)
              (vnth (tl_indices tl) ((i + 1) mod 3)) = (key, swap)
            /\ vget V key.1 = Some pf /\ vget V key.2 = Some ps).
  { unfold edge_key, pf, ps. fold swap. destruct swap; eexists; eauto. }
  destruct Ekey as (key & Ekey & Ef & Es).
  unfold divide. rewrite Ekey, Hcount. cbn [mbind option_bind].
  unfold find_or_create. rewrite Hl.
  subst pf ps. clearbody swap.
  destruct (ed !! key) as [vs|] eqn:Elook.
  - destruct (Hreg key vs Elook) as (pf' & ps' & Ef' & Es' & Estart).
    rewrite Ef in Ef'. rewrite Es in Es'.
    injection Ef' as <-. injection Es' as <-.
    cbn [mbind option_bind].
    change (1 / 2)%Z with 0%Z. change (1 mod 2 =? 0)%Z with false.
    cbn [andb]. rewrite !Z.mul_0_r, !Z.add_0_r.
    change (0 >? 0)%Z with false.
    change (size_t_of_int 0 <? size_t_of_int (1 - 1))%Z with false.
    rewrite E2, Estart. cbn [mbind option_bind].
    destruct swap; [exists_split true|exists_split false].
    all: repeat split; cbn [tl_indices tl_l sh_points sh_l]; try reflexivity;
      try exact Hreg; try (by exists []; rewrite app_nil_r).
    all: intros j [-> | [-> | ->]]; rewrite ?vnth_0, ?vnth_1, ?vnth_2;
      assumption.
  - rewrite Ef, Es. cbn [mbind option_bind].
    change (new_edge_vertices ?vf ?dir 1 (f_of_Z (1 + 1)))
      with [vadd vf (vscale dir (f_of_Z 1 / f_of_Z 2))].
    fold (midpoint (if swap then vnth (sh_points s) ((i + 1) mod 3)
                    else vnth (sh_points s) i)
                   (if swap then vnth (sh_points s) i
                    else vnth (sh_points s) ((i + 1) mod 3))).
    set (m := midpoint _ _) in *.
    change (1 / 2)%Z with 0%Z. change (1 mod 2 =? 0)%Z with false.
    cbn [andb start_index positive_order]. rewrite !Z.mul_0_r, !Z.add_0_r.
    change (0 >? 0)%Z with false.
    change (size_t_of_int 0 <? size_t_of_int (1 - 1))%Z with false.
    assert (Enew : vget (V ++ [m]) (Z.of_nat (length V)) = Some m).
    { rewrite <- (Z.add_0_r (Z.of_nat (length V))).
      by rewrite SubdivideR.vget_app_new. }
    rewrite (SubdivideR.vget_app _ _ _ _ E2), Enew. cbn [mbind option_bind].
    assert (Hreg' : reg_mid (V ++ [m])
                      (<[key := mkVS (Z.of_nat (length V)) true]> ed)).
    { intros key' vs'. destruct (decide (key' = key)) as [->|Hne].
      - rewrite lookup_insert_eq. intros [= <-]. eexists _, _.
        split; [by apply SubdivideR.vget_app|].
        split; [by apply SubdivideR.vget_app|]. exact Enew.
      - rewrite lookup_insert_ne by congruence.
        by apply reg_mid_app. }
    subst m.
    destruct swap; [exists_split true|exists_split false].
    all: repeat split; cbn [tl_indices tl_l sh_points sh_l]; try reflexivity;
      try exact Hreg'; try (by eexists).
    all: intros j [-> | [-> | ->]]; rewrite ?vnth_0, ?vnth_1, ?vnth_2;
      first [exact Enew | by apply SubdivideR.vget_app].
Qed.

(** A set of shapes that divisions do not leave: a shape of the set is
    either emitted or divided with count one into two shapes of the set. *)
Definition single_divisions (T : shape -> Prop) : Prop :=
  forall s, T s ->
    (shape_index s < 0)%Z
    \/ ((shape_index s = 0 \/ shape_index s = 1 \/ shape_index s = 2)%Z
        /\ shape_count s = Some 1%Z
        /\ forall swap,
             T (split_shape s (shape_index s) swap).1
             /\ T (split_shape s (shape_index s) swap).2).

(** Shapes that are divided and produce one of their kind again. *)
Definition regenerating (Live : shape -> Prop) : Prop :=
  forall s, Live s ->
    (0 <= shape_index s)%Z
    /\ forall swap,
         Live (split_shape s (shape_index s) swap).1
         \/ Live (split_shape s (shape_index s) swap).2.

Definition typed (P : shape -> Prop) (V : list (Vec3 F))
    (tl : TriangleLengths F) : Prop :=
  exists s, has_shape V tl s /\ P s.

(** The triangle in hand and the queue hold shapes of [T] only and one of
    [Live] among them; the registry holds midpoints. *)
Definition loop_inv (T Live : shape -> Prop) (tl : TriangleLengths F)
    (tls : list (TriangleLengths F)) (st : sub_state F) : Prop :=
  reg_mid (s_vertices st) (s_edge_divides st)
  /\ Forall (typed T (s_vertices st)) (tl :: tls)
  /\ Exists (typed Live (s_vertices st)) (tl :: tls).

Lemma typed_app (P : shape -> Prop) (V W : list (Vec3 F))
    (tl : TriangleLengths F) :
  typed P V tl -> typed P (V ++ W) tl.
Proof. intros (s & Hs & HP). exists s. split; [by apply has_shape_app|done]. Qed.

(** Under the invariant the loop never leaves: whatever the fuel, it is
    used up. *)
Lemma divide_loop_never_done (T Live : shape -> Prop) :
  single_divisions T -> regenerating Live ->
  forall fuel tl tls st,
    loop_inv T Live tl tls st ->
    divide_loop fuel max_length tl tls st = Timeout.
Proof.
  intros HT HL. induction fuel as [|fuel IH]; intros tl tls st;
    [reflexivity|].
  intros (Hreg & Hall & Hlive). cbn [divide_loop].
  apply Forall_cons in Hall as [(s & Hs & Ts) Hall].
  rewrite (get_divide_index_shape _ _ _ Hs).
  destruct (HT s Ts) as [Hneg | (Hidx & Hcnt & Hch)].
  - destruct (Z.ltb_spec (shape_index s) 0) as [_|?]; [|lia].
    apply Exists_cons in Hlive as [(s' & Hs' & Ls') | Hlive].
    { rewrite <- (has_shape_unique _ _ _ _ Hs Hs') in Ls'.
      destruct (HL s Ls') as [? _]. lia. }
    destruct tls as [|front tls]; [by apply Exists_nil in Hlive|].
    apply IH. split; [exact Hreg|]. split; assumption.
  - destruct (Z.ltb_spec (shape_index s) 0) as [?|_]; [lia|].
    destruct (divide_split (s_vertices st) (s_edge_divides st) tl s
                (shape_index s) Hidx) as (d & swap & -> & H1 & H2 & Hreg' & W & HW).
    { unfold shape_count in Hcnt. destruct Hs as [_ ->]. exact Hcnt. }
    { exact Hs. }
    { exact Hreg. }
    destruct (Hch swap) as [T1 T2].
    apply IH. split; [exact Hreg'|]. cbn [s_vertices]. split.
    + constructor; [by exists (split_shape s (shape_index s) swap).1|].
      apply Forall_app. split.
      * rewrite HW. eapply Forall_impl; [exact Hall|].
        intros t. apply typed_app.
      * constructor; [|constructor].
        by exists (split_shape s (shape_index s) swap).2.
    + apply Exists_cons in Hlive as [(s' & Hs' & Ls') | Hlive].
      * rewrite <- (has_shape_unique _ _ _ _ Hs Hs') in Ls'.
        destruct (HL s Ls') as [_ Hnext].
        destruct (Hnext swap) as [L1 | L2].
        -- left. by exists (split_shape s (shape_index s) swap).1.
        -- right. apply Exists_app. right. left.
           by exists (split_shape s (shape_index s) swap).2.
      * right. apply Exists_app. left. rewrite HW.
        eapply Exists_impl; [exact Hlive|]. intros t. apply typed_app.
Qed.
End SingleVertexDivisions.

(** ** A run in binary32 that never returns

    Above 2^24 neighbouring binary32 numbers are 2 apart.  In a right
    triangle with legs of length 2 there, every new vertex is rounded onto
    a corner of the triangle, so the new edge of a division is again an
    edge between two corners, as long as before. *)

Module SubdivideRounding.
Import B32 Examples.

Definition sf_eqb (x y : float) : bool :=
  match x, y with
  | S754_zero a, S754_zero b => Bool.eqb a b
  | S754_infinity a, S754_infinity b => Bool.eqb a b
  | S754_nan, S754_nan => true
  | S754_finite a m e, S754_finite b m' e' =>
    Bool.eqb a b && (m =? m')%positive && (e =? e')%Z
  | _, _ => false
  end.

Lemma sf_eqb_eq (x y : float) : sf_eqb x y = true -> x = y.
Proof.
  destruct x, y; cbn; try discriminate; try reflexivity.
  - by intros ->%Bool.eqb_prop.
  - by intros ->%Bool.eqb_prop.
  - intros [[->%Bool.eqb_prop ->%Pos.eqb_eq]%andb_prop ->%Z.eqb_eq]%andb_prop.
    reflexivity.
Qed.

Definition vec_eqb (p q : Vec3 float) : bool :=
  sf_eqb (v_x p) (v_x q) && sf_eqb (v_y p) (v_y q) && sf_eqb (v_z p) (v_z q).

Lemma vec_eqb_eq (p q : Vec3 float) : vec_eqb p q = true -> p = q.
Proof.
  destruct p, q. unfold vec_eqb. cbn [v_x v_y v_z].
  intros [[->%sf_eqb_eq ->%sf_eqb_eq]%andb_prop ->%sf_eqb_eq]%andb_prop.
  reflexivity.
Qed.

Definition shape_eqb (s t : shape (F := float)) : bool :=
  vec_eqb (v_x (sh_points s)) (v_x (sh_points t))
  && vec_eqb (v_y (sh_points s)) (v_y (sh_points t))
  && vec_eqb (v_z (sh_points s)) (v_z (sh_points t))
  && vec_eqb (sh_l s) (sh_l t).

Lemma shape_eqb_eq (s t : shape (F := float)) : shape_eqb s t = true -> s = t.
Proof.
  destruct s as [[p0 p1 p2] l], t as [[q0 q1 q2] l']. unfold shape_eqb.
  cbn [sh_points sh_l v_x v_y v_z].
  intros [[[->%vec_eqb_eq ->%vec_eqb_eq]%andb_prop ->%vec_eqb_eq]%andb_prop
          ->%vec_eqb_eq]%andb_prop.
  reflexivity.
Qed.

Definition shape_in (s : shape) (l : list shape) : bool :=
  existsb (shape_eqb s) l.

Lemma shape_in_elem (s : shape) (l : list shape) :
  shape_in s l = true -> s ∈ l.
Proof.
  unfold shape_in. intros (t & Hin & Heq)%existsb_exists.
  apply shape_eqb_eq in Heq as ->. by apply list_elem_of_In.
Qed.

(** The mesh: one right triangle with legs of length 2 at 2^24. *)
Definition coarse_mesh : indexed_triangle_set float :=
  mkIts [mkVec3 0 1 2]%Z
        [v3 (2 ^ 24) (2 ^ 24) 0; v3 (2 ^ 24 + 2) (2 ^ 24) 0;
         v3 (2 ^ 24 + 2) (2 ^ 24 + 2) 0].

(** [max_length] 1.5: every edge of the triangle has a count of one. *)
Definition coarse_max : float := f_div (of_Z 3) (of_Z 2).

(** The triangle with which the loop is entered. *)
Definition start_triangle : TriangleLengths float :=
  match Edges_new (mkVec3 0 1 2)%Z (its_vertices coarse_mesh) with
  | Some edges =>
    mkTL (mkVec3 0 1 2)%Z (e_lengths (is_dividable edges coarse_max).2)
  | None => mkTL (mkVec3 0 1 2)%Z (mkVec3 f_zero f_zero f_zero)
  end.

Definition start_shape : shape :=
  Eval vm_compute in
    match its_vertices coarse_mesh with
    | [p0; p1; p2] => mkShape (mkVec3 p0 p1 p2) (tl_l start_triangle)
    | _ => mkShape (mkVec3 (v3 0 0 0) (v3 0 0 0) (v3 0 0 0)) (v3 0 0 0)
    end.

(** The shapes that the divisions reach from a list of shapes, the key of
    the divided edge swapped or not. *)
Fixpoint explore (fuel : nat) (todo seen : list shape) : list shape :=
  match fuel with
  | O => seen
  | S fuel =>
    match todo with
    | [] => seen
    | s :: todo =>
      if shape_in s seen then explore fuel todo seen
      else
        let i := shape_index coarse_max s in
        if (i <? 0)%Z then explore fuel todo (s :: seen)
        else
          let a := split_shape s i false in
          let b := split_shape s i true in
          explore fuel (a.1 :: a.2 :: b.1 :: b.2 :: todo) (s :: seen)
    end
  end.

Definition shapes : list shape :=
  Eval vm_compute in explore 1000 [start_shape] [].

(** A shape is emitted, or divided at one of its three edges with count
    one into shapes of the list [known]. *)
Definition divides_into (known : list shape) (s : shape) : bool :=
  let i := shape_index coarse_max s in
  (i <? 0)%Z
  || (((i =? 0) || (i =? 1) || (i =? 2))%Z
      && match shape_count coarse_max s with
         | Some c => (c =? 1)%Z
         | None => false
         end
      && forallb (fun swap =>
                    shape_in (split_shape s i swap).1 known
                    && shape_in (split_shape s i swap).2 known)
                 [false; true]).

(** A shape is divided and one of the two produced shapes is in [live],
    whether the key is swapped or not. *)
Definition regenerates (live : list shape) (s : shape) : bool :=
  let i := shape_index coarse_max s in
  (0 <=? i)%Z
  && forallb (fun swap =>
                shape_in (split_shape s i swap).1 live
                || shape_in (split_shape s i swap).2 live)
             [false; true].

(** The largest set of regenerating shapes, by removing the others. *)
Fixpoint prune (fuel : nat) (live : list shape) : list shape :=
  match fuel with
  | O => live
  | S fuel => prune fuel (List.filter (regenerates live) live)
  end.

Definition live_shapes : list shape :=
  Eval vm_compute in prune 100 shapes.

Lemma shapes_single : single_divisions coarse_max (fun s => s ∈ shapes).
Proof.
  assert (H : forallb (divides_into shapes) shapes = true)
    by (vm_compute; reflexivity).
  intros s Hs. rewrite forallb_forall in H.
  specialize (H s (proj1 (list_elem_of_In _ _) Hs)).
  unfold divides_into in H.
  apply orb_prop in H as [H|H]; [left; lia|right].
  apply andb_prop in H as [H Hch]. apply andb_prop in H as [Hi Hc].
  split; [lia|]. split.
  - destruct (shape_count coarse_max s) as [c|]; [|discriminate].
    apply Z.eqb_eq in Hc as ->. reflexivity.
  - cbn [forallb] in Hch. rewrite andb_true_r in Hch.
    apply andb_prop in Hch as [Hf Ht].
    apply andb_prop in Hf as [Hf1 Hf2]. apply andb_prop in Ht as [Ht1 Ht2].
    intros [|]; split; by apply shape_in_elem.
Qed.

Lemma live_regenerating : regenerating coarse_max (fun s => s ∈ live_shapes).
Proof.
  assert (H : forallb (regenerates live_shapes) live_shapes = true)
    by (vm_compute; reflexivity).
  intros s Hs. rewrite forallb_forall in H.
  specialize (H s (proj1 (list_elem_of_In _ _) Hs)).
  unfold regenerates in H. apply andb_prop in H as [Hi Hch].
  split; [lia|].
  cbn [forallb] in Hch. rewrite andb_true_r in Hch.
  apply andb_prop in Hch as [Hf Ht].
  intros [|]; [apply orb_prop in Ht as [Ht|Ht] | apply orb_prop in Hf as [Hf|Hf]];
    first [left; by apply shape_in_elem | right; by apply shape_in_elem].
Qed.

Lemma start_triangle_shape :
  has_shape (its_vertices coarse_mesh) start_triangle start_shape.
Proof.
  split.
  - intros i [-> | [-> | ->]]; vm_compute; reflexivity.
  - vm_compute. reflexivity.
Qed.

Lemma subdivide_run_start (fuel : nat) :
  subdivide_run fuel coarse_mesh coarse_max
  = match divide_loop fuel coarse_max start_triangle []
            (mkSub (its_vertices coarse_mesh) ∅ [] []) with
    | Done st => Done st
    | Undefined => Undefined
    | AssertFailed => AssertFailed
    | Timeout => Timeout
    end.
Proof.
  unfold subdivide_run.
  change (its_indices coarse_mesh) with [mkVec3 0 1 2]%Z.
  cbn [subdivide_triangles]. unfold subdivide_triangle, start_triangle.
  destruct (Edges_new (mkVec3 0 1 2)%Z (its_vertices coarse_mesh))
    as [edges|] eqn:E; [|by vm_compute in E].
  injection (eq_trans (eq_sym E)
               (eq_refl : Edges_new (mkVec3 0 1 2)%Z (its_vertices coarse_mesh)
                          = Some _)) as ->.
  destruct (is_dividable _ coarse_max) as [dividable edges'] eqn:D.
  assert (Hd : dividable = true).
  { apply (f_equal fst) in D. vm_compute in D. by rewrite <- D. }
  rewrite Hd. cbn [negb snd].
  destruct (divide_loop fuel coarse_max _ _ _); reflexivity.
Qed.

(** On the right triangle with legs of length 2 at 2^24 and with
    [max_length] 1.5 the inner loop uses up every fuel: each midpoint is
    rounded onto an end of its edge, the new edge is as long as an edge of
    the triangle, and the triangle with lengths (1, 1, 2.83) between the
    three corners is produced again and again. *)
Lemma coarse_loop_never_done (fuel : nat) :
  divide_loop fuel coarse_max start_triangle []
    (mkSub (its_vertices coarse_mesh) ∅ [] []) = Timeout.
Proof.
  apply (divide_loop_never_done coarse_max
           (fun s => s ∈ shapes) (fun s => s ∈ live_shapes)
           shapes_single live_regenerating).
  split; [|split]; cbn [s_vertices s_edge_divides].
  - intros key vs H. by rewrite lookup_empty in H.
  - constructor; [|constructor]. exists start_shape.
    split; [exact start_triangle_shape|]. apply shape_in_elem.
    vm_compute. reflexivity.
  - left. exists start_shape.
    split; [exact start_triangle_shape|]. apply shape_in_elem.
    vm_compute. reflexivity.
Qed.

(** The triangle (0,0,0), (1,0,0), (0.5,0.05,0) and the bound 0.11111112,
    the binary32 number next above 1/9. *)
Definition thin_mesh : indexed_triangle_set float :=
  mkIts [mkVec3 0 1 2]%Z
        [v3 0 0 0; v3 1 0 0;
         mkVec3 (f_div (of_Z 1) (of_Z 2)) (f_div (of_Z 5) (of_Z 100)) (of_Z 0)].

Definition thin_max : float := S754_finite false 14913082 (-27).

(** The divisions that the loop makes, in their order, as far as the fuel
    reaches: the log of a run that has not ended. *)
Fixpoint first_divisions (fuel : nat) (max_length : float)
    (tl : TriangleLengths float) (tls : list (TriangleLengths float))
    (vertices : list (Vec3 float)) (edge_divides : EdgeDivides)
  : list (divided float) :=
  match fuel with
  | O => []
  | S fuel =>
    let divide_index := get_divide_index tl max_length in
    if (divide_index <? 0)%Z then
      match tls with
      | [] => []
      | front :: tls =>
        first_divisions fuel max_length front tls vertices edge_divides
      end
    else
      match divide tl divide_index max_length vertices edge_divides with
      | None => []
      | Some d =>
        d :: first_divisions fuel max_length (d_first d) (tls ++ [d_second d])
               (d_vertices d) (d_edge_divides d)
      end
  end.

(** The triangle with which the loop is entered on the thin triangle, and
    the first, the fourth and the fifth division. *)
Definition thin_start : TriangleLengths float :=
  Eval vm_compute in
    match Edges_new (mkVec3 0 1 2)%Z (its_vertices thin_mesh) with
    | Some edges =>
      mkTL (mkVec3 0 1 2)%Z (e_lengths (is_dividable edges thin_max).2)
    | None => mkTL (mkVec3 0 1 2)%Z (mkVec3 f_zero f_zero f_zero)
    end.

Definition thin_log : list (divided float) :=
  Eval vm_compute in
    first_divisions 6 thin_max thin_start [] (its_vertices thin_mesh) ∅.

Definition thin_first : divided float :=
  Eval vm_compute in default SubdivideRuns.no_division (thin_log !! 0%nat).
Definition thin_fourth : divided float :=
  Eval vm_compute in default SubdivideRuns.no_division (thin_log !! 3%nat).
Definition thin_fifth : divided float :=
  Eval vm_compute in default SubdivideRuns.no_division (thin_log !! 4%nat).

Lemma first_divisions_log (fuel : nat) (max_length : float) :
  forall tl tls st st',
  divide_loop fuel max_length tl tls st = Done st' ->
  s_divisions st'
  = s_divisions st
    ++ first_divisions fuel max_length tl tls (s_vertices st)
         (s_edge_divides st).
Proof.
  induction fuel as [|fuel IH]; intros tl tls st st';
    cbn [divide_loop first_divisions]; [discriminate|].
  destruct (get_divide_index tl max_length <? 0)%Z.
  - destruct tls as [|front tls].
    + intros [= <-]. cbn. by rewrite app_nil_r.
    + intros H. apply IH in H. exact H.
  - destruct (divide tl (get_divide_index tl max_length) max_length
                (s_vertices st) (s_edge_divides st)) as [d|]; [|discriminate].
    intros H. apply IH in H. cbn in H. by rewrite H, <- app_assoc.
Qed.

(** C8.  In binary32 the loop of [subdivide] does not always end.  On the
    right triangle with legs of length 2 at the coordinate 2^24 and with
    [max_length] 1.5 the run uses up every fuel: no number of iterations
    ends it.  On the triangle (0,0,0), (1,0,0), (0.5,0.05,0) with
    [max_length] 0.11111112 the run has not ended after 5000 iterations:
    its first division gives the edge of length 1 a count of eight and
    splits it at vertex 6, its fourth division computes from the tracked
    length 5/9 of the part from vertex 6 to vertex 1, which holds the four
    vertices 7 to 10, a count of five and registers for the part from
    vertex 6 to vertex 8 a sequence that starts at vertex 6 itself; the
    fifth division splits that part at this end of it and answers the
    triangle (6,6,2) and the triangle (6,8,2) once more. *)
Theorem subdivide_loop_never_ends :
  (forall fuel, subdivide_run fuel coarse_mesh coarse_max = Timeout)
  /\ subdivide_run 5000 thin_mesh thin_max = Timeout
  /\ exists d1 d4 d5,
       subdivide_triangle 5000 thin_max (its_vertices thin_mesh)
         (mkVec3 0 1 2)%Z (mkSub (its_vertices thin_mesh) ∅ [] [])
       = divide_loop 5000 thin_max thin_start []
           (mkSub (its_vertices thin_mesh) ∅ [] [])
       /\ first_divisions 6 thin_max thin_start [] (its_vertices thin_mesh) ∅
          = thin_log
       /\ thin_log !! 0%nat = Some d1
       /\ thin_log !! 3%nat = Some d4
       /\ thin_log !! 4%nat = Some d5
       /\ ends d1 = (0, 1)%Z /\ d_count d1 = 8%Z /\ d_new_index d1 = 6%Z
       /\ inserted d1 = [3; 4; 5; 6; 7; 8; 9; 10]%Z
       /\ ends d4 = (6, 1)%Z /\ d_count d4 = 5%Z
       /\ d_sequence d4 = mkVS 10 false /\ d_new_index d4 = 8%Z
       /\ d_edge_divides d4 !! (6, 8)%Z = Some (mkVS 6 true)
       /\ ends d5 = (6, 8)%Z /\ d_sequence d5 = mkVS 6 true
       /\ d_new_index d5 = 6%Z
       /\ tl_indices (d_first d5) = mkVec3 6 6 2
       /\ tl_indices (d_second d5) = mkVec3 6 8 2.
Proof.
  split; [|split].
  - intros fuel. rewrite subdivide_run_start.
    by rewrite coarse_loop_never_done.
  - vm_compute. reflexivity.
  - exists thin_first, thin_fourth, thin_fifth.
    repeat split; vm_compute; reflexivity.
Qed.
End SubdivideRounding.

(** * The remaining functions of the file *)

(** ** min_triangle_side_length, area *)

Section MeshMeasures.
Context {F : Type} {SF : Scalar F}.
Local Open Scope scalar_scope.

(** The body of [for (int i = 0; i < 3; ++i)] in
    [min_triangle_side_length]: it indexes the vertices with the loop
    counter itself, [i2] is reset when it is 2, and the triangle [it] of
    the outer loop is not read. *)
Definition min_side_step (vertices : list (Vec3 F)) (min : F) (i : Z)
  : option F :=
  let i2 := (i + 1)%Z in
  let i2 := if (i2 =? 2)%Z then 0%Z else i2 in
  v0 ← vget vertices i;
  v1 ← vget vertices i2;
  let edge := vsub v0 v1 in
  if f_abs (v_x edge) >? min then Some min
  else if f_abs (v_y edge) >? min then Some min
  else
    let length := norm edge in
    Some (if min >? length then length else min).

Fixpoint min_side_loop (vertices : list (Vec3 F)) (min : F) (rest : list Z)
  : option F :=
  match rest with
  | [] => Some min
  | i :: rest => min ← min_side_step vertices min i;
                 min_side_loop vertices min rest
  end.

(** The loop [for (const Vec3crd &it : its.indices)]. *)
Fixpoint min_side_triangles (vertices : list (Vec3 F)) (min : F)
    (triangles : list Vec3crd) : option F :=
  match triangles with
  | [] => Some min
  | _ :: triangles =>
    min ← min_side_loop vertices min [0; 1; 2]%Z;
    min_side_triangles vertices min triangles
  end.

(** [front()] of an empty vector and an index out of range are
    undefined. *)
Definition min_triangle_side_length (its : indexed_triangle_set F)
  : option F :=
  it ← head (its_indices its);
  v0 ← vget (its_vertices its) (v_x it);
  v1 ← vget (its_vertices its) (v_y it);
  let min := norm (vsub v0 v1) in
  min_side_triangles (its_vertices its) min (its_indices its).

(** The loop of [area], [sum_areas] being the sum so far. *)
Fixpoint area_loop (vertices : list (Vec3 F)) (sum_areas : F)
    (triangles : list Vec3crd) : option F :=
  match triangles with
  | [] => Some sum_areas
  | it :: triangles =>
    a ← triangle_area_indexed it vertices;
    area_loop vertices (sum_areas + a) triangles
  end.

Definition area (its : indexed_triangle_set F) : option F :=
  area_loop (its_vertices its) f_zero (its_indices its).
End MeshMeasures.

(** ** store *)

From Stdlib Require Strings.String.

(** [int(t)] of a [size_t], explicit in [mesh_traits] and implied where a
    [size_t] is stored as a coordinate of a [Vec3crd]: the value modulo
    2^32, taken in [-2^31, 2^31). *)
Definition int_of_size_t (t : Z) : Z := (t + 2 ^ 31) mod 2 ^ 32 - 2 ^ 31.

Section Store.
Import Stdlib.Strings.String.
Context {F : Type} {SF : Scalar F}.
Local Open Scope scalar_scope.

(** [its_write_stl_ascii] is declared outside the sources. *)
Variable its_write_stl_ascii :
  String.string -> String.string -> indexed_triangle_set F -> bool.

(** The coordinate that the [size_t] [index + k] becomes in a triangle. *)
Definition store_index (index k : Z) : Z :=
  int_of_size_t (size_t_of_int (index + k)).

(** The loop of [store]: five vertices and two triangles for each ray. *)
Fixpoint store_loop (unit_z_rays : list (Direction F)) (index : Z)
    (its : indexed_triangle_set F) : indexed_triangle_set F :=
  match unit_z_rays with
  | [] => its
  | dir :: unit_z_rays =>
    let triangle_size := f_of_Z 1 / f_of_Z 10 in
    let triangle_length := f_one + f_of_Z 2 in
    let two := f_of_Z 2 in
    let ray := d_dir dir in
    let vertices :=
      its_vertices its ++
      [vscale ray triangle_length;
       vadd ray (mkVec3 (triangle_size / two) f_zero f_zero);
       vadd ray (mkVec3 (- triangle_size / two) f_zero f_zero)] in
    let indices :=
      its_indices its
      ++ [mkVec3 (store_index index 0) (store_index index 1)
                 (store_index index 2)] in
    let vertices :=
      vertices ++
      [vadd ray (mkVec3 f_zero (triangle_size / two) f_zero);
       vadd ray (mkVec3 f_zero (- triangle_size / two) f_zero)] in
    let indices :=
      indices
      ++ [mkVec3 (store_index index 0) (store_index index 3)
                 (store_index index 4)] in
    store_loop unit_z_rays (size_t_of_int (index + 5)) (mkIts indices vertices)
  end.

(** The mesh that [store] hands to the writer. *)
Definition store_mesh (unit_z_rays : list (Direction F))
  : indexed_triangle_set F :=
  store_loop unit_z_rays 0%Z (mkIts [] []).

Definition store (unit_z_rays : list (Direction F)) : bool :=
  its_write_stl_ascii "unit_z_rays.stl"%string "unit_z_rays"%string
    (store_mesh unit_z_rays).
End Store.

(** ** SimplifyMesh::mesh_traits<indexed_triangle_set> *)

Module MeshTraits.
Section Traits.
Context {F : Type}.

(** [std::array<size_t, 3>] *)
Definition Index3 : Type := Vec3 Z.

Definition face_count (m : indexed_triangle_set F) : Z :=
  Z.of_nat (length (its_indices m)).

Definition vertex_count (m : indexed_triangle_set F) : Z :=
  Z.of_nat (length (its_vertices m)).

(** [vertex(m, idx)] *)
Definition vertex (m : indexed_triangle_set F) (idx : Z) : option (Vec3 F) :=
  vget (its_vertices m) idx.

(** [vertex(m, idx, v)]: the assignment [m.vertices[idx] = v]. *)
Definition set_vertex (m : indexed_triangle_set F) (idx : Z) (v : Vec3 F)
  : option (indexed_triangle_set F) :=
  _ ← vget (its_vertices m) idx;
  Some (mkIts (its_indices m) (<[Z.to_nat idx := v]> (its_vertices m))).

(** [triangle(m, idx)] *)
Definition triangle (m : indexed_triangle_set F) (idx : Z) : option Index3 :=
  face ← vget (its_indices m) idx;
  Some (mkVec3 (size_t_of_int (vnth face 0)) (size_t_of_int (vnth face 1))
               (size_t_of_int (vnth face 2))).

(** [triangle(m, fidx, t)] *)
Definition set_triangle (m : indexed_triangle_set F) (fidx : Z) (t : Index3)
  : option (indexed_triangle_set F) :=
  _ ← vget (its_indices m) fidx;
  let face := mkVec3 (int_of_size_t (vnth t 0)) (int_of_size_t (vnth t 1))
                     (int_of_size_t (vnth t 2)) in
  Some (mkIts (<[Z.to_nat fidx := face]> (its_indices m)) (its_vertices m)).

(** [update(m, vc, fc)]: the two [resize]; the elements that a growing
    [resize] adds are not given a value by the source, they are whatever
    [fresh_vertex] and [fresh_face] are. *)
Definition update (fresh_vertex : Vec3 F) (fresh_face : Vec3crd)
    (m : indexed_triangle_set F) (vc fc : Z) : indexed_triangle_set F :=
  mkIts (resize (Z.to_nat fc) fresh_face (its_indices m))
        (resize (Z.to_nat vc) fresh_vertex (its_vertices m)).
End Traits.
End MeshTraits.

(** ** sample_tiny_parts *)

(** Sequencing of steps that can abort. *)
Definition outcome_bind {A B} (o : outcome A) (k : A -> outcome B)
  : outcome B :=
  match o with
  | Done a => k a
  | Undefined => Undefined
  | AssertFailed => AssertFailed
  | Timeout => Timeout
  end.

(** [Config]: the fields that [sample_tiny_parts] reads; the struct is
    declared in the header, which is not part of the sources. *)
Record Config (F NormalType : Type) := mkConfig {
  cfg_min_length : F;
  cfg_max_error : F;
  cfg_max_length : F;
  cfg_normal_type : NormalType;
  cfg_rays : RaysConfig F;
  cfg_sample : SampleConfig F;
}.
Arguments mkConfig {F NormalType} _ _ _ _ _ _.
Arguments cfg_min_length {F NormalType} _.
Arguments cfg_max_error {F NormalType} _.
Arguments cfg_max_length {F NormalType} _.
Arguments cfg_normal_type {F NormalType} _.
Arguments cfg_rays {F NormalType} _.
Arguments cfg_sample {F NormalType} _.

(** [AABBTree]: the simplified mesh, the normals of the triangles and the
    tree over the triangles. *)
Record AABBTree (F Tree : Type) := mkAABBTree {
  vertices_indices : indexed_triangle_set F;
  tree_triangle_normals : list (Vec3 F);
  tree_tree : Tree;
}.
Arguments mkAABBTree {F Tree} _ _ _.
Arguments vertices_indices {F Tree} _.
Arguments tree_triangle_normals {F Tree} _.
Arguments tree_tree {F Tree} _.

Section Pipeline.
Context {F : Type} {SF : Scalar F}.

(** What the pipeline calls outside the sources: the simplifier behind
    [connect_small_triangles], [NormalUtils], the tree of
    [AABBTreeIndirect] with its ray cast, the rotation and [std::acos] of
    [calc_width], the generator, the grid and [std::sort]. *)
Variable remove_small_edges :
  indexed_triangle_set F -> F -> F -> indexed_triangle_set F.
Variable NormalType : Type.
Variable create_triangle_normals : indexed_triangle_set F -> list (Vec3 F).
Variable create_normals : indexed_triangle_set F -> NormalType -> list (Vec3 F).
Variable Tree : Type.
Variable build_aabb_tree : list (Vec3 F) -> list Vec3crd -> Tree.
Variable intersect_ray_first_hit :
  list (Vec3 F) -> list Vec3crd -> Tree -> Vec3 F -> Vec3 F -> option (Hit F).
Variable angle_axis : F -> Vec3 F -> Vec3 F -> Vec3 F.
Variable acos : F -> F.
Variable Rng : Type.
Variable uniform01 : Rng -> F * Rng.
Variable PointGrid3D : Type.
Variable grid_new : Vec3 F -> PointGrid3D.
Variable grid_insert : PointGrid3D -> Vec3 F -> PointGrid3D.
Variable collides_with : PointGrid3D -> Vec3 F -> F -> bool.
Variable std_sort :
  (PointRadius F -> PointRadius F -> bool) ->
  list (PointRadius F) -> list (PointRadius F).

(** [connect_small_triangles]: the mesh is changed in place by the
    simplifier. *)
Definition connect_small_triangles (its : indexed_triangle_set F)
    (min_length max_error : F) : indexed_triangle_set F :=
  remove_small_edges its min_length max_error.

(** The ray cast as [calc_width] calls it on the fields of the tree. *)
Definition tree_hit (t : AABBTree F Tree) (ray_point ray : Vec3 F)
  : option (Hit F) :=
  intersect_ray_first_hit (its_vertices (vertices_indices t))
    (its_indices (vertices_indices t)) (tree_tree t) ray_point ray.

(** The widths of the vertices of the divided mesh. *)
Definition pipeline_widths (ndebug : bool) (tree : AABBTree F Tree)
    (divided : indexed_triangle_set F)
    (config : Config F NormalType) : outcome (list F) :=
  let vertex_normals := create_normals divided (cfg_normal_type config) in
  calc_widths (AABBTree F Tree) tree_hit tree_triangle_normals angle_axis acos
    ndebug (its_vertices divided) vertex_normals tree (cfg_rays config).

(** [sample_tiny_parts]: answers the points and the generator as the call
    leaves it; [fuel] bounds the loop of [subdivide]. *)
Definition sample_tiny_parts (fuel : nat) (ndebug : bool)
    (its : indexed_triangle_set F) (grid : PointGrid3D)
    (config : Config F NormalType) (random_generator : Rng)
  : outcome (list (Vec3 F) * Rng) :=
  let simplified :=
    connect_small_triangles its (cfg_min_length config)
      (cfg_max_error config) in
  let tree :=
    mkAABBTree simplified (create_triangle_normals its)
      (build_aabb_tree (its_vertices its) (its_indices its)) in
  outcome_bind (subdivide fuel simplified (cfg_max_length config))
    (fun divided =>
  outcome_bind (pipeline_widths ndebug tree divided config) (fun widths =>
  outcome_bind (generate_support_points Rng uniform01 ndebug divided widths
                  (cfg_sample config) random_generator) (fun st =>
  outcome_bind (of_option (poisson_sphere_from_samples PointGrid3D grid_new
                             grid_insert collides_with std_sort
                             (sp_result st) grid)) (fun points =>
  Done (map pr_point points, sp_rng st))))).
End Pipeline.

(** * Properties of the remaining functions *)

(** ** min_triangle_side_length and area, for every scalar type *)

Section MeshMeasuresProps.
Context {F : Type} {SF : Scalar F}.

Lemma vget_is_Some {A} (l : list A) (i : Z) :
  is_Some (vget l i) <-> (0 <= i < Z.of_nat (length l))%Z.
Proof.
  unfold vget. destruct (Z.ltb_spec i 0).
  - split; [by intros [? ?]|lia].
  - rewrite lookup_lt_is_Some. lia.
Qed.

Lemma min_side_step_defined (V : list (Vec3 F)) (min : F) (i : Z) :
  is_Some (min_side_step V min i)
  <-> is_Some (vget V i)
      /\ is_Some (vget V (if (i + 1 =? 2)%Z then 0 else i + 1)%Z).
Proof.
  unfold min_side_step.
  destruct (vget V i) as [v0|]; cbn [mbind option_bind];
    [|split; [by intros [? ?]|by intros [[? ?] _]]].
  destruct (vget V (if (i + 1 =? 2)%Z then 0%Z else (i + 1)%Z)) as [v1|];
    cbn [mbind option_bind]; [|split; [by intros [? ?]|by intros [_ [? ?]]]].
  split; [eauto|intros _].
  destruct (f_ltb min (f_abs (v_x (vsub v0 v1)))); [eauto|].
  destruct (f_ltb min (f_abs (v_y (vsub v0 v1)))); eauto.
Qed.

Lemma min_side_loop_defined (V : list (Vec3 F)) (min : F) :
  is_Some (min_side_loop V min [0; 1; 2]%Z) <-> (4 <= length V)%nat.
Proof.
  split.
  - cbn [min_side_loop]. intros H.
    destruct (min_side_step V min 0) as [m0|]; cbn [mbind option_bind] in H;
      [|by destruct H].
    destruct (min_side_step V m0 1) as [m1|]; cbn [mbind option_bind] in H;
      [|by destruct H].
    destruct (min_side_step V m1 2) as [m2|] eqn:E2;
      cbn [mbind option_bind] in H; [|by destruct H].
    assert (H2 : is_Some (min_side_step V m1 2)) by (rewrite E2; eauto).
    apply min_side_step_defined in H2 as [_ H3].
    change (2 + 1 =? 2)%Z with false in H3. cbv iota in H3.
    apply vget_is_Some in H3. lia.
  - intros Hlen.
    assert (Hall : forall m i, (0 <= i <= 2)%Z -> is_Some (min_side_step V m i)).
    { intros m i Hi. apply min_side_step_defined.
      split; apply vget_is_Some; [lia|]. destruct (i + 1 =? 2)%Z; lia. }
    cbn [min_side_loop].
    destruct (Hall min 0%Z ltac:(lia)) as [m0 ->]. cbn [mbind option_bind].
    destruct (Hall m0 1%Z ltac:(lia)) as [m1 ->]. cbn [mbind option_bind].
    destruct (Hall m1 2%Z ltac:(lia)) as [m2 ->]. cbn [mbind option_bind].
    eauto.
Qed.

Lemma min_side_triangles_defined (V : list (Vec3 F))
    (triangles : list Vec3crd) :
  triangles <> [] ->
  forall min,
    is_Some (min_side_triangles V min triangles) <-> (4 <= length V)%nat.
Proof.
  induction triangles as [|t triangles IH]; [done|]. intros _ min.
  cbn [min_side_triangles]. split.
  - intros H. apply (min_side_loop_defined V min).
    destruct (min_side_loop V min [0; 1; 2]%Z); [eauto|by destruct H].
  - intros Hlen.
    destruct (proj2 (min_side_loop_defined V min) Hlen) as [m ->].
    cbn [mbind option_bind].
    destruct triangles as [|t' triangles]; [cbn; eauto|].
    by apply IH.
Qed.

(** X1.  [min_triangle_side_length] is defined exactly for a mesh that
    has a triangle, whose first triangle has its first two indices in
    range, and that has at least four vertices: the loop reads the
    vertices 0 to 3 whatever the triangles are, so that a mesh of one
    triangle with its three vertices is read out of bounds. *)
Theorem min_triangle_side_length_defined (its : indexed_triangle_set F) :
  is_Some (min_triangle_side_length its)
  <-> exists it rest,
        its_indices its = it :: rest
        /\ (0 <= v_x it < Z.of_nat (length (its_vertices its)))%Z
        /\ (0 <= v_y it < Z.of_nat (length (its_vertices its)))%Z
        /\ (4 <= length (its_vertices its))%nat.
Proof.
  unfold min_triangle_side_length.
  destruct (its_indices its) as [|it rest] eqn:E; cbn [head mbind option_bind].
  { split; [by intros [? ?]|by intros (? & ? & ? & _)]. }
  destruct (vget (its_vertices its) (v_x it)) as [v0|] eqn:E0;
    cbn [mbind option_bind].
  2:{ split; [by intros [? ?]|].
      intros (? & ? & [= <- <-] & [? Hx]%vget_is_Some & _). congruence. }
  destruct (vget (its_vertices its) (v_y it)) as [v1|] eqn:E1;
    cbn [mbind option_bind].
  2:{ split; [by intros [? ?]|].
      intros (? & ? & [= <- <-] & _ & [? Hy]%vget_is_Some & _). congruence. }
  rewrite min_side_triangles_defined by done. split.
  - intros H. exists it, rest. split; [reflexivity|].
    split; [apply vget_is_Some; eauto|].
    split; [apply vget_is_Some; eauto|exact H].
  - by intros (? & ? & _ & _ & _ & H).
Qed.

Lemma area_loop_defined (V : list (Vec3 F)) (triangles : list Vec3crd) :
  forall sum,
    is_Some (area_loop V sum triangles)
    <-> Forall (fun it => forall i, (i = 0 \/ i = 1 \/ i = 2)%Z ->
                            (0 <= vnth it i < Z.of_nat (length V))%Z)
               triangles.
Proof.
  induction triangles as [|it triangles IH]; intros sum; cbn [area_loop].
  - split; [constructor|eauto].
  - unfold triangle_area_indexed. split.
    + intros H.
      destruct (vget V (vnth it 0)) as [v0|] eqn:E0; cbn [mbind option_bind] in H;
        [|by destruct H].
      destruct (vget V (vnth it 1)) as [v1|] eqn:E1; cbn [mbind option_bind] in H;
        [|by destruct H].
      destruct (vget V (vnth it 2)) as [v2|] eqn:E2; cbn [mbind option_bind] in H;
        [|by destruct H].
      constructor; [|by apply IH in H].
      intros i [-> | [-> | ->]]; apply vget_is_Some; eauto.
    + intros H. apply Forall_cons in H as [Hit H].
      destruct (proj2 (vget_is_Some V _) (Hit 0%Z ltac:(auto))) as [v0 ->].
      destruct (proj2 (vget_is_Some V _) (Hit 1%Z ltac:(auto))) as [v1 ->].
      destruct (proj2 (vget_is_Some V _) (Hit 2%Z ltac:(auto))) as [v2 ->].
      cbn [mbind option_bind]. by apply IH.
Qed.

(** X2.  [area] is defined exactly when every index of every triangle is
    in range; an empty mesh has an area. *)
Theorem area_defined (its : indexed_triangle_set F) :
  is_Some (area its)
  <-> Forall (fun it => forall i, (i = 0 \/ i = 1 \/ i = 2)%Z ->
                (0 <= vnth it i < Z.of_nat (length (its_vertices its)))%Z)
             (its_indices its).
Proof. apply area_loop_defined. Qed.
End MeshMeasuresProps.

(** ** min_triangle_side_length and area over the reals *)

Module MeasuresR.
Import SubdivideR.
Local Open Scope R_scope.

(** Equations between nested minima, by cases on the innermost tests. *)
Ltac rmin :=
  unfold Rmin;
  repeat match goal with
         | |- context [Rle_dec ?a ?b] =>
           lazymatch a with
           | context [Rle_dec] => fail
           | _ => lazymatch b with
                  | context [Rle_dec] => fail
                  | _ => destruct (Rle_dec a b)
                  end
           end
         end;
  lra.

Lemma abs_le_norm (v : Vec3r) : Rabs (v_x v) <= norm v /\ Rabs (v_y v) <= norm v.
Proof.
  assert (Hn := norm_nonneg v). assert (Hs := norm_sqr v).
  unfold squaredNorm, vdot in Hs. rsimpl.
  split; apply Rabs_le; split; nra.
Qed.

(** One edge of the inner loop lowers [min] to the length of the edge
    between the two vertices it reads when that is shorter: the two tests
    on the components only skip edges that are too long. *)
Lemma min_side_step_R (V : list Vec3r) (min : R) (i : Z) (v0 v1 : Vec3r) :
  vget V i = Some v0 ->
  vget V (if (i + 1 =? 2)%Z then 0 else i + 1)%Z = Some v1 ->
  min_side_step V min i = Some (Rmin min (dist v0 v1)).
Proof.
  intros E0 E1. unfold min_side_step. rewrite E0, E1.
  cbn [mbind option_bind]. fold (dist v0 v1).
  destruct (abs_le_norm (vsub v0 v1)) as [Hx Hy]. fold (dist v0 v1) in Hx, Hy.
  rsimpl. unfold Rs.ltb, Rmin.
  destruct (Rlt_dec min (Rabs (v_x (vsub v0 v1)))),
           (Rlt_dec min (Rabs (v_y (vsub v0 v1)))),
           (Rlt_dec (dist v0 v1) min), (Rle_dec min (dist v0 v1));
    try reflexivity; try lra; f_equal; lra.
Qed.

Lemma min_side_loop_R (V : list Vec3r) (min : R) (p0 p1 p2 p3 : Vec3r) :
  vget V 0 = Some p0 -> vget V 1 = Some p1 -> vget V 2 = Some p2 ->
  vget V 3 = Some p3 ->
  min_side_loop V min [0; 1; 2]%Z
  = Some (Rmin min (Rmin (dist p0 p1) (dist p2 p3))).
Proof.
  intros E0 E1 E2 E3. cbn [min_side_loop].
  rewrite (min_side_step_R V min 0 p0 p1 E0 E1). cbn [mbind option_bind].
  rewrite (min_side_step_R V _ 1 p1 p0 E1 E0). cbn [mbind option_bind].
  rewrite (min_side_step_R V _ 2 p2 p3 E2 E3). cbn [mbind option_bind].
  f_equal. rewrite (dist_sym p1 p0). rmin.
Qed.

(** X3.  Over the reals, [min_triangle_side_length] answers the smallest
    of three lengths: the first edge of the first triangle, the edge
    between the vertices 0 and 1 and the edge between the vertices 2 and
    3.  The other triangles, and how many there are, do not matter. *)
Theorem min_triangle_side_length_value (it : Vec3crd) (rest : list Vec3crd)
    (V : list Vec3r) (q0 q1 p0 p1 p2 p3 : Vec3r) :
  vget V (v_x it) = Some q0 -> vget V (v_y it) = Some q1 ->
  vget V 0 = Some p0 -> vget V 1 = Some p1 -> vget V 2 = Some p2 ->
  vget V 3 = Some p3 ->
  min_triangle_side_length (mkIts (it :: rest) V)
  = Some (Rmin (dist q0 q1) (Rmin (dist p0 p1) (dist p2 p3))).
Proof.
  intros Q0 Q1 E0 E1 E2 E3. unfold min_triangle_side_length.
  cbn [its_indices its_vertices head mbind option_bind].
  rewrite Q0, Q1. cbn [mbind option_bind]. fold (dist q0 q1).
  set (m := Rmin (dist p0 p1) (dist p2 p3)).
  assert (Hloop : forall l min,
            min_side_triangles V (Rmin min m) l = Some (Rmin min m)).
  { induction l as [|t l IH]; intros min; cbn [min_side_triangles];
      [reflexivity|].
    rewrite (min_side_loop_R V _ p0 p1 p2 p3 E0 E1 E2 E3).
    cbn [mbind option_bind]. fold m.
    replace (Rmin (Rmin min m) m) with (Rmin min m) by (clearbody m; rmin).
    apply IH. }
  cbn [min_side_triangles].
  rewrite (min_side_loop_R V _ p0 p1 p2 p3 E0 E1 E2 E3).
  cbn [mbind option_bind]. fold m. apply Hloop.
Qed.

Lemma min_triangle_side_length_value_witness :
  min_triangle_side_length
    (mkIts [mkVec3 0 1 2; mkVec3 1 2 3]%Z
           [mkVec3 0 0 0; mkVec3 1 0 0; mkVec3 0 1 0; mkVec3 0 0 1])
  = Some (Rmin (dist (mkVec3 0 0 0) (mkVec3 1 0 0))
            (Rmin (dist (mkVec3 0 0 0) (mkVec3 1 0 0))
                  (dist (mkVec3 0 1 0) (mkVec3 0 0 1)))).
Proof.
  apply (min_triangle_side_length_value (mkVec3 0 1 2)%Z [mkVec3 1 2 3]%Z);
    reflexivity.
Defined.

Lemma norm_eq (a b : Vec3r) : squaredNorm a = squaredNorm b -> norm a = norm b.
Proof. unfold norm. rsimpl. by intros ->. Qed.

Lemma triangle_area_nonneg (v0 v1 v2 : Vec3r) : 0 <= triangle_area v0 v1 v2.
Proof.
  unfold triangle_area. rsimpl.
  assert (H := norm_nonneg (vcross (vsub v1 v0) (vsub v2 v0))). lra.
Qed.

Lemma triangle_area_rot (v0 v1 v2 : Vec3r) :
  triangle_area v1 v2 v0 = triangle_area v0 v1 v2.
Proof.
  unfold triangle_area. rsimpl. f_equal. apply norm_eq.
  unfold squaredNorm, vdot, vcross, vsub. rsimpl. ring.
Qed.

(** X4.  Over the reals the area of a triangle is not negative, does not
    depend on the order in which the three vertices are given, and does
    not change when the triangle is moved. *)
Theorem triangle_area_invariant (v0 v1 v2 t : Vec3r) :
  0 <= triangle_area v0 v1 v2
  /\ triangle_area v1 v2 v0 = triangle_area v0 v1 v2
  /\ triangle_area v0 v2 v1 = triangle_area v0 v1 v2
  /\ triangle_area (vadd v0 t) (vadd v1 t) (vadd v2 t)
     = triangle_area v0 v1 v2.
Proof.
  split; [apply triangle_area_nonneg|]. split; [apply triangle_area_rot|].
  unfold triangle_area. rsimpl. split.
  - f_equal. apply norm_eq.
    unfold squaredNorm, vdot, vcross, vsub. rsimpl. ring.
  - f_equal. apply norm_eq.
    unfold squaredNorm, vdot, vcross, vsub, vadd. rsimpl. ring.
Qed.

Lemma area_loop_shift (V : list Vec3r) (l : list Vec3crd) :
  forall s, area_loop V s l = Rplus s <$> area_loop V 0 l.
Proof.
  induction l as [|it l IH]; intros s; cbn [area_loop].
  - cbn. f_equal. lra.
  - destruct (triangle_area_indexed it V) as [a|]; cbn [mbind option_bind];
      [|reflexivity].
    rsimpl. rewrite (IH (s + a)), (IH (0 + a)).
    destruct (area_loop V 0 l) as [x|]; cbn; [f_equal; lra|reflexivity].
Qed.

Lemma area_loop_nonneg (V : list Vec3r) (l : list Vec3crd) :
  forall a, area_loop V 0 l = Some a -> 0 <= a.
Proof.
  induction l as [|it l IH]; intros a; cbn [area_loop].
  - intros [= <-]. lra.
  - unfold triangle_area_indexed.
    destruct (vget V (vnth it 0)) as [v0|]; cbn [mbind option_bind];
      [|discriminate].
    destruct (vget V (vnth it 1)) as [v1|]; cbn [mbind option_bind];
      [|discriminate].
    destruct (vget V (vnth it 2)) as [v2|]; cbn [mbind option_bind];
      [|discriminate].
    rewrite area_loop_shift.
    assert (H := triangle_area_nonneg v0 v1 v2).
    set (a0 := triangle_area v0 v1 v2) in *. clearbody a0.
    destruct (area_loop V 0 l) as [x|]; cbn [fmap option_fmap option_map];
      [|discriminate].
    intros [= <-]. specialize (IH x eq_refl). rsimpl. lra.
Qed.

Lemma area_loop_app (V : list Vec3r) (l1 l2 : list Vec3crd) (a1 a2 : R) :
  area_loop V 0 l1 = Some a1 -> area_loop V 0 l2 = Some a2 ->
  area_loop V 0 (l1 ++ l2) = Some (a1 + a2).
Proof.
  revert a1. induction l1 as [|it l1 IH]; intros a1; cbn [area_loop app].
  - intros [= <-] ->. f_equal. lra.
  - destruct (triangle_area_indexed it V) as [a|]; cbn [mbind option_bind];
      [|discriminate].
    rewrite !(area_loop_shift V _ (f_add _ _)).
    destruct (area_loop V 0 l1) as [x|]; cbn; [|discriminate].
    intros [= <-] H2. rewrite (IH x eq_refl H2). cbn. f_equal. rsimpl. lra.
Qed.

Lemma area_loop_perm (V : list Vec3r) (l l' : list Vec3crd) :
  l ≡ₚ l' -> area_loop V 0 l = area_loop V 0 l'.
Proof.
  induction 1 as [|it l l' _ IH|it it' l|l l' l'' _ IH1 _ IH2];
    cbn [area_loop].
  - reflexivity.
  - destruct (triangle_area_indexed it V) as [a|]; cbn [mbind option_bind];
      [|reflexivity].
    by rewrite !(area_loop_shift V _ (f_add _ _)), IH.
  - destruct (triangle_area_indexed it V) as [a|],
             (triangle_area_indexed it' V) as [a'|];
      cbn [mbind option_bind]; try reflexivity.
    rewrite !(area_loop_shift V _ (f_add _ _)).
    destruct (area_loop V 0 l) as [x|]; cbn; [|reflexivity].
    f_equal. rsimpl. lra.
  - by rewrite IH1.
Qed.

(** X5.  Over the reals the area of a mesh is not negative, the area of
    two lists of triangles put together is the sum of their areas, and
    the area does not depend on the order of the triangles. *)
Theorem area_sum (V : list Vec3r) (l1 l2 l : list Vec3crd) (a1 a2 : R) :
  area (mkIts l1 V) = Some a1 -> area (mkIts l2 V) = Some a2 ->
  l ≡ₚ l1 ++ l2 ->
  0 <= a1 /\ area (mkIts l V) = Some (a1 + a2).
Proof.
  unfold area. cbn [its_indices its_vertices]. rsimpl.
  intros H1 H2 Hl. split; [by apply (area_loop_nonneg V l1)|].
  rewrite (area_loop_perm V _ _ Hl). by apply area_loop_app.
Qed.

Lemma area_sum_witness :
  let V := [mkVec3 0 0 0; mkVec3 1 0 0; mkVec3 0 1 0; mkVec3 0 0 1] in
  exists a1 a2,
    area (mkIts [mkVec3 0 1 2]%Z V) = Some a1
    /\ area (mkIts [mkVec3 1 2 3]%Z V) = Some a2
    /\ 0 <= a1
    /\ area (mkIts [mkVec3 1 2 3; mkVec3 0 1 2]%Z V) = Some (a1 + a2).
Proof.
  intros V. eexists _, _. split; [reflexivity|]. split; [reflexivity|].
  apply (area_sum V [mkVec3 0 1 2]%Z [mkVec3 1 2 3]%Z).
  - reflexivity.
  - reflexivity.
  - apply Permutation_swap.
Defined.
End MeasuresR.

(** ** store: the mesh it writes *)

Section StoreProps.
Context {F : Type} {SF : Scalar F}.
Local Open Scope Z_scope.

Lemma store_index_small (index k : Z) :
  0 <= index + k < 2 ^ 31 -> store_index index k = index + k.
Proof.
  intros H. unfold store_index, int_of_size_t, size_t_of_int.
  rewrite (Z.mod_small (index + k)) by lia.
  rewrite Z.mod_small by lia. lia.
Qed.

Lemma store_loop_appends (unit_z_rays : list (Direction F)) :
  forall index its,
    0 <= index -> index + 5 * Z.of_nat (length unit_z_rays) <= 2 ^ 31 ->
    exists Vn In,
      its_vertices (store_loop unit_z_rays index its) = its_vertices its ++ Vn
      /\ its_indices (store_loop unit_z_rays index its) = its_indices its ++ In
      /\ length Vn = (5 * length unit_z_rays)%nat
      /\ length In = (2 * length unit_z_rays)%nat
      /\ forall k, (k < length unit_z_rays)%nat ->
           In !! (2 * k)%nat
           = Some (mkVec3 (index + 5 * Z.of_nat k) (index + 5 * Z.of_nat k + 1)
                          (index + 5 * Z.of_nat k + 2))
           /\ In !! (2 * k + 1)%nat
              = Some (mkVec3 (index + 5 * Z.of_nat k)
                             (index + 5 * Z.of_nat k + 3)
                             (index + 5 * Z.of_nat k + 4)).
Proof.
  induction unit_z_rays as [|dir rays IH]; intros index its Hindex Hfit;
    cbn [store_loop].
  - exists [], []. rewrite !app_nil_r. repeat split; try reflexivity.
    all: cbn in *; lia.
  - cbv zeta. cbn [length] in Hfit.
    rewrite !store_index_small by lia.
    assert (size_t_of_int (index + 5) = index + 5) as ->.
    { unfold size_t_of_int. apply Z.mod_small. lia. }
    match goal with
    | |- context [store_loop rays ?i ?m] =>
      destruct (IH i m ltac:(lia) ltac:(lia))
        as (Vn & In & -> & -> & HVn & HIn & Hk)
    end.
    cbn [its_vertices its_indices]. rewrite <- !app_assoc.
    eexists _, _. split; [reflexivity|]. split; [reflexivity|].
    split; [rewrite !length_app; cbn [length]; lia|].
    split; [rewrite !length_app; cbn [length]; lia|].
    intros [|k] Hlt.
    + cbn. rewrite !Z.add_0_r. done.
    + destruct (Hk k ltac:(cbn in Hlt; lia)) as [H1 H2].
      replace (2 * S k + 1)%nat with (S (S (2 * k + 1))) by lia.
      replace (2 * S k)%nat with (S (S (2 * k))) by lia.
      cbn [app lookup list_lookup].
      replace (index + 5 * Z.of_nat (S k)) with (index + 5 + 5 * Z.of_nat k)
        by lia.
      done.
Qed.

(** X6.  For [n] rays, as long as the [5 n] indices fit the coordinates
    of a triangle, the mesh that [store] writes has [5 n] vertices and
    [2 n] triangles, the triangles of ray [k] are [(5k, 5k+1, 5k+2)] and
    [(5k, 5k+3, 5k+4)], every index is in range, and so the mesh has an
    area. *)
Theorem store_mesh_well_formed (unit_z_rays : list (Direction F)) :
  5 * Z.of_nat (length unit_z_rays) <= 2 ^ 31 ->
  let m := store_mesh unit_z_rays in
  let n := length unit_z_rays in
  length (its_vertices m) = (5 * n)%nat
  /\ length (its_indices m) = (2 * n)%nat
  /\ (forall k, (k < n)%nat ->
        its_indices m !! (2 * k)%nat
        = Some (mkVec3 (5 * Z.of_nat k) (5 * Z.of_nat k + 1)
                       (5 * Z.of_nat k + 2))
        /\ its_indices m !! (2 * k + 1)%nat
           = Some (mkVec3 (5 * Z.of_nat k) (5 * Z.of_nat k + 3)
                          (5 * Z.of_nat k + 4)))
  /\ Forall (fun it => forall i, i = 0 \/ i = 1 \/ i = 2 ->
               0 <= vnth it i < Z.of_nat (length (its_vertices m)))
            (its_indices m)
  /\ is_Some (area m).
Proof.
  intros Hfit. cbv zeta. unfold store_mesh.
  destruct (store_loop_appends unit_z_rays 0 (mkIts [] []) ltac:(lia)
              ltac:(lia)) as (Vn & In & HV & HI & HVn & HIn & Hk).
  cbn [its_vertices its_indices app] in HV, HI.
  set (m := store_loop unit_z_rays 0 (mkIts [] [])) in *.
  rewrite HV, HI.
  assert (Hvalid : Forall (fun it => forall i, i = 0 \/ i = 1 \/ i = 2 ->
                             0 <= vnth it i < Z.of_nat (length Vn)) In).
  { apply Forall_lookup. intros j it Hj.
    assert (Hjlt : (j < 2 * length unit_z_rays)%nat).
    { rewrite <- HIn. by eapply lookup_lt_Some. }
    assert (Hdm := Nat.div_mod_eq j 2).
    assert (Hm := Nat.mod_upper_bound j 2 ltac:(lia)).
    set (q := (j / 2)%nat) in *. set (r := (j mod 2)%nat) in *.
    clearbody q r.
    destruct (Hk q ltac:(lia)) as [H1 H2].
    destruct (decide (r = 0)%nat) as [E|E].
    - replace (2 * q)%nat with j in H1 by lia.
      rewrite H1 in Hj. injection Hj as <-.
      intros i [-> | [-> | ->]]; rewrite ?vnth_0, ?vnth_1, ?vnth_2; lia.
    - replace (2 * q + 1)%nat with j in H2 by lia.
      rewrite H2 in Hj. injection Hj as <-.
      intros i [-> | [-> | ->]]; rewrite ?vnth_0, ?vnth_1, ?vnth_2; lia. }
  split; [exact HVn|]. split; [exact HIn|]. split.
  { intros k Hlt. destruct (Hk k Hlt) as [H1 H2].
    rewrite !Z.add_0_l in H1, H2. done. }
  split; [exact Hvalid|].
  apply area_loop_defined. by rewrite HV, HI.
Qed.
End StoreProps.

Lemma store_mesh_well_formed_witness :
  let rays : list (Direction B32.float) :=
    [mkDirection (Examples.v3 0 0 1) (B32.of_Z 1);
     mkDirection (Examples.v3 1 0 0) (B32.of_Z 0)] in
  let m := store_mesh rays in
  length (its_vertices m) = 10%nat
  /\ length (its_indices m) = 4%nat
  /\ (forall k, (k < 2)%nat ->
        its_indices m !! (2 * k)%nat
        = Some (mkVec3 (5 * Z.of_nat k) (5 * Z.of_nat k + 1)
                       (5 * Z.of_nat k + 2))%Z
        /\ its_indices m !! (2 * k + 1)%nat
           = Some (mkVec3 (5 * Z.of_nat k) (5 * Z.of_nat k + 3)
                          (5 * Z.of_nat k + 4))%Z)
  /\ Forall (fun it => forall i, (i = 0 \/ i = 1 \/ i = 2)%Z ->
               (0 <= vnth it i < Z.of_nat (length (its_vertices m)))%Z)
            (its_indices m)
  /\ is_Some (area m).
Proof.
  intros rays. apply (store_mesh_well_formed rays). cbn. lia.
Defined.

(** ** mesh_traits: writing and reading a triangle *)

Section TraitsProps.
Context {F : Type}.
Local Open Scope Z_scope.
Import MeshTraits.

(** A [size_t] survives the casts to [int] and back exactly when it is
    below 2^31 or among the last 2^31 values of [size_t]. *)
Lemma cast_round_trip (c : Z) :
  0 <= c < 2 ^ 64 ->
  size_t_of_int (int_of_size_t c) = c <-> c < 2 ^ 31 \/ 2 ^ 64 - 2 ^ 31 <= c.
Proof.
  unfold size_t_of_int, int_of_size_t.
  change (2 ^ 64) with 18446744073709551616.
  change (2 ^ 32) with 4294967296. change (2 ^ 31) with 2147483648.
  intros Hc. Z.div_mod_to_equations. lia.
Qed.

(** X7.  Writing a triangle through the traits and reading it back
    answers the written indices exactly when each of them is below 2^31
    (or among the last 2^31 values of [size_t]): the indices are stored
    as [int].  The write leaves the other triangles, the vertices and the
    number of triangles as they are. *)
Theorem set_triangle_round_trip (m : indexed_triangle_set F) (fidx : Z)
    (t : Index3) :
  0 <= fidx < face_count m ->
  (forall i, i = 0 \/ i = 1 \/ i = 2 -> 0 <= vnth t i < 2 ^ 64) ->
  exists m',
    set_triangle m fidx t = Some m'
    /\ face_count m' = face_count m
    /\ its_vertices m' = its_vertices m
    /\ (forall j, j <> fidx -> triangle m' j = triangle m j)
    /\ (triangle m' fidx = Some t
        <-> forall i, i = 0 \/ i = 1 \/ i = 2 ->
              vnth t i < 2 ^ 31 \/ 2 ^ 64 - 2 ^ 31 <= vnth t i).
Proof.
  intros Hidx Ht. unfold set_triangle, face_count in *.
  destruct (vget (its_indices m) fidx) as [old|] eqn:Eold.
  2:{ assert (H : is_Some (vget (its_indices m) fidx))
        by (apply vget_is_Some; lia).
      rewrite Eold in H. by destruct H. }
  cbn [mbind option_bind]. eexists. split; [reflexivity|].
  cbn [its_indices its_vertices]. split; [by rewrite length_insert|].
  split; [reflexivity|]. split.
  - intros j Hj. unfold triangle, vget. cbn [its_indices].
    destruct (j <? 0) eqn:Ej; [reflexivity|].
    rewrite list_lookup_insert_ne; [reflexivity|]. apply Z.ltb_ge in Ej. lia.
  - unfold triangle, vget. cbn [its_indices].
    destruct (Z.ltb_spec fidx 0); [lia|].
    rewrite list_lookup_insert_eq by lia.
    cbn [mbind option_bind]. rewrite vnth_0, vnth_1, vnth_2.
    destruct t as [t0 t1 t2]. rewrite ?vnth_0, ?vnth_1, ?vnth_2.
    assert (H0 := cast_round_trip t0 (Ht 0 ltac:(auto))).
    assert (H1 := cast_round_trip t1 (Ht 1 ltac:(auto))).
    assert (H2 := cast_round_trip t2 (Ht 2 ltac:(auto))).
    split.
    + intros [= E0 E1 E2] i [-> | [-> | ->]];
        rewrite ?vnth_0, ?vnth_1, ?vnth_2; tauto.
    + intros Hall. do 2 f_equal.
      * apply H0. apply (Hall 0). auto.
      * apply H1. apply (Hall 1). auto.
      * apply H2. apply (Hall 2). auto.
Qed.

End TraitsProps.

Lemma set_triangle_round_trip_witness :
  let m : indexed_triangle_set B32.float :=
    mkIts [mkVec3 0 0 0; mkVec3 0 0 0]%Z [] in
  let t : MeshTraits.Index3 := mkVec3 7 8 (2 ^ 31)%Z in
  exists m',
    MeshTraits.set_triangle m 1 t = Some m'
    /\ MeshTraits.face_count m' = MeshTraits.face_count m
    /\ its_vertices m' = its_vertices m
    /\ (forall j, j <> 1%Z -> MeshTraits.triangle m' j = MeshTraits.triangle m j)
    /\ (MeshTraits.triangle m' 1 = Some t
        <-> forall i, (i = 0 \/ i = 1 \/ i = 2)%Z ->
              (vnth t i < 2 ^ 31 \/ 2 ^ 64 - 2 ^ 31 <= vnth t i)%Z).
Proof.
  intros m t. apply (set_triangle_round_trip m 1 t).
  - unfold MeshTraits.face_count. cbn. lia.
  - intros i [-> | [-> | ->]]; unfold t; rewrite ?vnth_0, ?vnth_1, ?vnth_2; lia.
Defined.


(** ** calc_widths: one width for each vertex *)

Section CalcWidthsProps.
Context {F : Type} {SF : Scalar F}.
Variable Tree : Type.
Variable intersect_ray_first_hit : Tree -> Vec3 F -> Vec3 F -> option (Hit F).
Variable triangle_normals : Tree -> list (Vec3 F).
Variable angle_axis : F -> Vec3 F -> Vec3 F -> Vec3 F.
Variable acos : F -> F.

Local Abbreviation calc_width' :=
  (calc_width Tree intersect_ray_first_hit triangle_normals angle_axis acos).
Local Abbreviation calc_widths' :=
  (calc_widths Tree intersect_ray_first_hit triangle_normals angle_axis acos).

Lemma calc_widths_loop_slots (tree : Tree) (config : RaysConfig F)
    (points : list (Vec3 F)) :
  forall normals widths,
    length points = length normals ->
    calc_widths_loop Tree intersect_ray_first_hit triangle_normals angle_axis
      acos points normals tree config = Some widths ->
    length widths = length points
    /\ forall i point normal,
         points !! i = Some point -> normals !! i = Some normal ->
         Some <$> widths !! i = Some (calc_width' point normal tree config).
Proof.
  induction points as [|p points IH]; intros [|n normals] widths Hlen;
    try discriminate; cbn [calc_widths_loop].
  - intros [= <-]. split; [reflexivity|]. intros i ? ? H. by destruct i.
  - destruct (calc_width' p n tree config) as [w|] eqn:Ew;
      cbn [mbind option_bind]; [|discriminate].
    destruct (calc_widths_loop _ _ _ _ _ points normals tree config)
      as [ws|] eqn:Ews; cbn [mbind option_bind]; [|discriminate].
    intros [= <-]. destruct (IH normals ws ltac:(by injection Hlen) Ews)
      as [Hl Hslots].
    split; [cbn; by rewrite Hl|].
    intros [|i] point normal; cbn.
    + intros [= <-] [= <-]. by rewrite Ew.
    + apply Hslots.
Qed.

(** X8.  When [calc_widths] is called with a vertex, a direction and as
    many normals as vertices and returns, it answers one width for each
    vertex, and the width at an index is [calc_width] of the vertex and
    the normal at that index: no slot depends on another vertex. *)
Theorem calc_widths_slots (ndebug : bool) (points normals : list (Vec3 F))
    (tree : Tree) (config : RaysConfig F) (widths : list F) :
  points <> [] -> dirs config <> [] -> length points = length normals ->
  calc_widths' ndebug points normals tree config = Done widths ->
  length widths = length points
  /\ forall i point normal,
       points !! i = Some point -> normals !! i = Some normal ->
       Some <$> widths !! i = Some (calc_width' point normal tree config).
Proof.
  intros Hp Hd Hlen. unfold calc_widths, assert.
  destruct points as [|p points]; [done|].
  destruct (dirs config) as [|d ds]; [done|].
  rewrite (proj2 (Nat.eqb_eq _ _) Hlen). cbn [negb orb]. rewrite !orb_true_r.
  destruct (calc_widths_loop _ _ _ _ _ (p :: points) normals tree config)
    as [ws|] eqn:E; cbn [of_option]; [|discriminate].
  intros [= <-]. exact (calc_widths_loop_slots tree config _ normals ws Hlen E).
Qed.
End CalcWidthsProps.

Module CalcWidthsRuns.
Import B32 Examples.

(** A stand-in for the ray tree: every ray hits triangle 0 at the distance
    the tree holds. *)
Definition flat_hit (t : float) (_ _ : Vec3 float) : option (Hit float) :=
  Some (mkHit 0%Z t).

(** One ray straight along the normal, no filtering. *)
Definition one_ray : RaysConfig float :=
  mkRaysConfig (of_Z 1) (of_Z 0) [mkDirection (v3 0 0 1) (of_Z 1)]
    (of_Z 1) (of_Z 1) false false.

Lemma calc_widths_slots_witness :
  let points := [v3 0 0 0; v3 1 0 0] in
  let normals := [v3 0 0 0; v3 0 0 2] in
  let widths := [of_Z 3; no_width] in
  length widths = length points
  /\ forall i point normal,
       points !! i = Some point -> normals !! i = Some normal ->
       Some <$> widths !! i
       = Some (calc_width float flat_hit (fun _ => []) (fun _ _ v => v)
                 (fun x => x) point normal (of_Z 3) one_ray).
Proof.
  intros points normals widths.
  apply (calc_widths_slots float flat_hit (fun _ => []) (fun _ _ v => v)
           (fun x => x) true points normals (of_Z 3) one_ray widths).
  - discriminate.
  - discriminate.
  - reflexivity.
  - vm_compute. reflexivity.
Defined.
End CalcWidthsRuns.

(** ** sample_tiny_parts: what an answer implies *)

Section PipelineProps.
Context {F : Type} {SF : Scalar F}.
Variable remove_small_edges :
  indexed_triangle_set F -> F -> F -> indexed_triangle_set F.
Variable NormalType : Type.
Variable create_triangle_normals : indexed_triangle_set F -> list (Vec3 F).
Variable create_normals : indexed_triangle_set F -> NormalType -> list (Vec3 F).
Variable Tree : Type.
Variable build_aabb_tree : list (Vec3 F) -> list Vec3crd -> Tree.
Variable intersect_ray_first_hit :
  list (Vec3 F) -> list Vec3crd -> Tree -> Vec3 F -> Vec3 F -> option (Hit F).
Variable angle_axis : F -> Vec3 F -> Vec3 F -> Vec3 F.
Variable acos : F -> F.
Variable Rng : Type.
Variable uniform01 : Rng -> F * Rng.
Variable PointGrid3D : Type.
Variable grid_new : Vec3 F -> PointGrid3D.
Variable grid_insert : PointGrid3D -> Vec3 F -> PointGrid3D.
Variable collides_with : PointGrid3D -> Vec3 F -> F -> bool.
Variable std_sort :
  (PointRadius F -> PointRadius F -> bool) ->
  list (PointRadius F) -> list (PointRadius F).
Local Abbreviation sort_by_radius := (std_sort radius_less).

Local Abbreviation sample_tiny_parts' :=
  (sample_tiny_parts remove_small_edges NormalType create_triangle_normals
     create_normals Tree build_aabb_tree intersect_ray_first_hit angle_axis
     acos Rng uniform01 PointGrid3D grid_new grid_insert collides_with
     std_sort).

(** Without widths the first vertex of the first triangle has no width to
    read. *)
Lemma sample_triangles_no_widths (its : indexed_triangle_set F)
    (cfg : SampleConfig F) (triangles : list Vec3crd)
    (st st' : sampler_state F Rng) :
  sample_triangles Rng uniform01 its [] cfg triangles st = Some st' ->
  triangles = [] /\ st' = st.
Proof.
  destruct triangles as [|t triangles]; cbn [sample_triangles].
  - by intros [= <-].
  - unfold sample_triangle. cbn [needs_loop].
    destruct (vget [] (vnth t 0)) as [w|] eqn:E; [|discriminate].
    assert (is_Some (vget (@nil F) (vnth t 0))) as Hs by (by rewrite E).
    apply vget_is_Some in Hs. cbn in Hs. lia.
Qed.

(** The filter returns the positions of a sublist of the sorted samples,
    and reads the last of them. *)
Lemma poisson_result (samples result : list (PointRadius F))
    (grid : PointGrid3D) :
  poisson_sphere_from_samples PointGrid3D grid_new grid_insert collides_with
    std_sort samples grid = Some result ->
  sort_by_radius samples <> []
  /\ sublist result (sort_by_radius samples).
Proof.
  unfold poisson_sphere_from_samples.
  destruct (last (sort_by_radius samples)) as [back|] eqn:Hback;
    cbn [mbind option_bind]; [|discriminate].
  intros [= <-]. split.
  - intros E. rewrite E in Hback. discriminate.
  - destruct (poisson_loop_accepts PointGrid3D grid_insert collides_with grid
                (sort_by_radius samples)
                (grid_new (mkVec3 (pr_radius back) (pr_radius back)
                                  (pr_radius back))) [])
      as (acc & -> & Hsub & _).
    exact Hsub.
Qed.

(** A defensive answer of [calc_widths] leaves the sampler without a
    point. *)
Lemma defensive_widths_no_point (ndebug : bool)
    (tree : AABBTree F Tree) (divided : indexed_triangle_set F)
    (normals : list (Vec3 F)) (rays : RaysConfig F) (cfg : SampleConfig F)
    (widths : list F) (random_generator : Rng) (st : sampler_state F Rng) :
  its_vertices divided = [] \/ dirs rays = []
  \/ length (its_vertices divided) <> length normals ->
  calc_widths (AABBTree F Tree) (tree_hit Tree intersect_ray_first_hit)
    tree_triangle_normals angle_axis acos ndebug (its_vertices divided)
    normals tree rays = Done widths ->
  generate_support_points Rng uniform01 ndebug divided widths cfg
    random_generator = Done st ->
  sp_result st = [].
Proof.
  intros Hbad. rewrite (calc_widths_precondition _ _ _ _ _ _ _ _ _ _ Hbad).
  destruct ndebug; [|discriminate]. intros [= <-].
  unfold generate_support_points, assert. cbn [orb].
  destruct (sample_triangles _ _ _ _ _ _ _) as [st'|] eqn:E;
    cbn [of_option]; [|discriminate].
  intros [= <-]. apply sample_triangles_no_widths in E as [_ ->]. reflexivity.
Qed.

(** X9.  [sample_tiny_parts] answers only when every stage had what it
    reads: the Direction Set was not empty, the divided mesh has a vertex,
    a normal and a width for each vertex, and the sampler generated at
    least one point, because the filter reads the last sample without a test
    for an empty list.  The points of the answer are the positions of a
    sublist of the sorted samples. *)
Theorem sample_tiny_parts_answer (fuel : nat) (ndebug : bool)
    (its : indexed_triangle_set F) (grid : PointGrid3D)
    (config : Config F NormalType) (random_generator : Rng)
    (points : list (Vec3 F)) (g : Rng) :
  sort_by_radius [] = [] ->
  sample_tiny_parts' fuel ndebug its grid config random_generator
  = Done (points, g) ->
  dirs (cfg_rays config) <> []
  /\ exists divided widths st,
       subdivide fuel
         (connect_small_triangles remove_small_edges its
            (cfg_min_length config) (cfg_max_error config))
         (cfg_max_length config) = Done divided
       /\ its_vertices divided <> []
       /\ length (create_normals divided (cfg_normal_type config))
          = length (its_vertices divided)
       /\ length widths = length (its_vertices divided)
       /\ generate_support_points Rng uniform01 ndebug divided widths
            (cfg_sample config) random_generator = Done st
       /\ sp_result st <> []
       /\ g = sp_rng st
       /\ exists kept,
            sublist kept (sort_by_radius (sp_result st))
            /\ points = map pr_point kept.
Proof.
  intros Hsort. unfold sample_tiny_parts.
  destruct (subdivide fuel _ _) as [divided| | |] eqn:Esub;
    cbn [outcome_bind]; try discriminate.
  unfold pipeline_widths.
  set (normals := create_normals divided (cfg_normal_type config)).
  set (tree := mkAABBTree _ _ _).
  destruct (calc_widths _ _ _ _ _ _ _ _ _ _) as [widths| | |] eqn:Ecw;
    cbn [outcome_bind]; try discriminate.
  destruct (generate_support_points _ _ _ _ _ _ _) as [st| | |] eqn:Egen;
    cbn [outcome_bind]; try discriminate.
  destruct (poisson_sphere_from_samples _ _ _ _ _ _ _) as [kept|] eqn:Ep;
    cbn [of_option outcome_bind]; [|discriminate].
  intros [= <- <-]. apply poisson_result in Ep as [Hne Hsub].
  assert (sp_result st <> []) as Hgenerated.
  { intros E. rewrite E in Hne. by apply Hne. }
  assert (its_vertices divided = [] \/ dirs (cfg_rays config) = []
          \/ length (its_vertices divided) <> length normals -> False)
    as Hgood.
  { intros bad. apply Hgenerated.
    exact (defensive_widths_no_point _ _ _ _ _ _ _ _ _ bad Ecw Egen). }
  assert (dirs (cfg_rays config) <> []) as Hdirs by (intros E; apply Hgood; auto).
  assert (its_vertices divided <> []) as Hvs by (intros E; apply Hgood; auto).
  assert (length (its_vertices divided) = length normals) as Hlen.
  { destruct (Nat.eq_dec (length (its_vertices divided)) (length normals));
      [assumption|]. exfalso. apply Hgood. auto. }
  split; [exact Hdirs|]. exists divided, widths, st.
  split; [reflexivity|]. split; [exact Hvs|]. split; [by rewrite Hlen|].
  split; [|split; [exact Egen|split; [exact Hgenerated|split; [reflexivity|]]]].
  - revert Ecw. unfold calc_widths, assert.
    destruct (its_vertices divided) as [|p ps] eqn:Ev; [done|].
    destruct (dirs (cfg_rays config)) as [|d ds]; [done|].
    rewrite (proj2 (Nat.eqb_eq _ _) Hlen). cbn [negb orb]. rewrite !orb_true_r.
    destruct (calc_widths_loop _ _ _ _ _ (p :: ps) normals tree
                (cfg_rays config)) as [ws|] eqn:E; cbn [of_option];
      [|discriminate].
    intros [= <-].
    exact (proj1 (calc_widths_loop_slots _ _ _ _ _ _ _ _ _ _ Hlen E)).
  - exists kept. split; [exact Hsub|reflexivity].
Qed.
End PipelineProps.

Module PipelineRuns.
Import B32 Examples.

(** Stand-ins for what the pipeline calls outside the sources: a
    simplifier that finds nothing to remove, normals that point down, and
    a tree in which every ray hits triangle 0 at distance 1. *)
Definition keep_mesh (its : indexed_triangle_set float) (_ _ : float)
  : indexed_triangle_set float := its.
Definition down_normals (its : indexed_triangle_set float) (_ : unit)
  : list (Vec3 float) := map (fun _ => v3 0 0 (-1)) (its_vertices its).
Definition unit_hit (_ : list (Vec3 float)) (_ : list Vec3crd) (_ : unit)
    (_ _ : Vec3 float) : option (Hit float) := Some (mkHit 0%Z (of_Z 1)).

Definition tiny_config : Config float unit :=
  mkConfig (of_Z 0) (of_Z 0) (of_Z 100) tt CalcWidthsRuns.one_ray
    SamplerRuns.config.

Definition tiny_run : outcome (list (Vec3 float) * Lcg) :=
  sample_tiny_parts keep_mesh unit (fun _ => [v3 0 0 1]) down_normals unit
    (fun _ _ => tt) unit_hit (fun _ _ v => v) (fun x => x) Lcg lcg_uniform01
    ListGrid lg_new lg_insert lg_collides_with isort
    10 false SamplerRuns.triangle_mesh [] tiny_config 1%Z.

Definition tiny_result : list (Vec3 float) * Lcg :=
  Eval vm_compute in
    match tiny_run with Done r => r | _ => ([], 0%Z) end.

Lemma sample_tiny_parts_answer_witness :
  tiny_run = Done tiny_result
  /\ length (fst tiny_result) = 6%nat
  /\ dirs (cfg_rays tiny_config) <> []
  /\ exists divided widths st,
       subdivide 10 (connect_small_triangles keep_mesh
                       SamplerRuns.triangle_mesh (cfg_min_length tiny_config)
                       (cfg_max_error tiny_config))
         (cfg_max_length tiny_config) = Done divided
       /\ its_vertices divided <> []
       /\ length (down_normals divided (cfg_normal_type tiny_config))
          = length (its_vertices divided)
       /\ length widths = length (its_vertices divided)
       /\ generate_support_points Lcg lcg_uniform01 false divided widths
            (cfg_sample tiny_config) 1%Z = Done st
       /\ sp_result st <> []
       /\ snd tiny_result = sp_rng st
       /\ exists kept,
            sublist kept (isort radius_less (sp_result st))
            /\ fst tiny_result = map pr_point kept.
Proof.
  split; [vm_compute; reflexivity|]. split; [vm_compute; reflexivity|].
  apply (sample_tiny_parts_answer keep_mesh unit (fun _ => [v3 0 0 1])
           down_normals unit (fun _ _ => tt) unit_hit (fun _ _ v => v)
           (fun x => x) Lcg lcg_uniform01 ListGrid lg_new lg_insert
           lg_collides_with isort 10 false SamplerRuns.triangle_mesh []
           tiny_config 1%Z (fst tiny_result) (snd tiny_result)).
  - reflexivity.
  - vm_compute. reflexivity.
Defined.
End PipelineRuns.

(** ** subdivide, for every scalar type: the answer is a mesh that extends
    the input *)

Section SubdivideShape.
Context {F : Type} {SF : Scalar F}.

(** The three indices of a triangle address vertices. *)
Definition triangle_in_range (vertices : list (Vec3 F)) (it : Vec3crd) : Prop :=
  forall i, (i = 0 \/ i = 1 \/ i = 2)%Z ->
    (0 <= vnth it i < Z.of_nat (length vertices))%Z.

Lemma triangle_in_range_vnth (vertices : list (Vec3 F)) (it : Vec3crd) (i : Z) :
  triangle_in_range vertices it ->
  (0 <= vnth it i < Z.of_nat (length vertices))%Z.
Proof.
  intros H. destruct i as [|[p|p|]|p];
    first [exact (H 0%Z ltac:(auto)) | exact (H 1%Z ltac:(auto))
          | exact (H 2%Z ltac:(auto))].
Qed.

Lemma triangle_in_range_app (vertices created : list (Vec3 F)) (it : Vec3crd) :
  triangle_in_range vertices it -> triangle_in_range (vertices ++ created) it.
Proof.
  intros H i Hi. specialize (H i Hi). rewrite length_app. lia.
Qed.

Lemma triangle_in_range_mk (vertices : list (Vec3 F)) (a b c : Z) :
  (0 <= a < Z.of_nat (length vertices))%Z ->
  (0 <= b < Z.of_nat (length vertices))%Z ->
  (0 <= c < Z.of_nat (length vertices))%Z ->
  triangle_in_range vertices (mkVec3 a b c).
Proof. intros Ha Hb Hc i [-> | [-> | ->]]; assumption. Qed.

(** The triangles that [divide] returns address vertices when the divided
    triangle does; the vertices grow at the end. *)
Lemma divide_children (tl : TriangleLengths F) (divide_index : Z)
    (max_length : F) (vertices : list (Vec3 F)) (ed : EdgeDivides)
    (d : divided F) :
  divide tl divide_index max_length vertices ed = Some d ->
  triangle_in_range vertices (tl_indices tl) ->
  (exists created, d_vertices d = vertices ++ created)
  /\ triangle_in_range (d_vertices d) (tl_indices (d_first d))
  /\ triangle_in_range (d_vertices d) (tl_indices (d_second d)).
Proof.
  intros Hd Hin. revert Hd. unfold divide.
  destruct (edge_key (vnth (tl_indices tl) divide_index)
              (vnth (tl_indices tl) ((divide_index + 1) mod 3)))
    as [key key_swap] eqn:Ekey.
  destruct (f_to_size_t (f_floor (f_div (vnth (tl_l tl) divide_index) max_length)))
    as [count|] eqn:Ecount; cbn [mbind option_bind]; [|discriminate].
  destruct (find_or_create key count (f_of_Z (count + 1)) vertices ed)
    as [[[vertices' ed'] vs]|] eqn:Efind; cbn [mbind option_bind];
    [|discriminate].
  destruct (vget vertices' (vnth (tl_indices tl) ((divide_index + 2) mod 3)))
    as [v2|]; cbn [mbind option_bind]; [|discriminate].
  match goal with
  | |- context [vget vertices' ?i] =>
    destruct (vget vertices' i) as [vn|] eqn:En
  end; cbn [mbind option_bind]; [|discriminate].
  apply find_or_create_spec in Efind as (_ & _ & created & Hv & _).
  assert (is_Some (vget vertices' _)) as Hn by (rewrite En; eauto).
  apply vget_is_Some in Hn.
  pose proof (triangle_in_range_app vertices created _ Hin) as Hin'.
  rewrite <- Hv in Hin'.
  destruct key_swap.
  all: intros H; injection H as <-.
  all: cbn [d_vertices d_first d_second tl_indices].
  all: split; [by exists created|].
  all: split; apply triangle_in_range_mk;
    first [exact Hn | by apply triangle_in_range_vnth].
Qed.

(** What the loops keep: the input vertices stay at the front, every
    stored triangle addresses vertices, and every call of [divide] adds one
    triangle to those that will be stored. *)
Definition shape_inv (V0 : list (Vec3 F)) (st : sub_state F) : Prop :=
  V0 `prefix_of` s_vertices st
  /\ Forall (triangle_in_range (s_vertices st)) (s_indices st).

Lemma divide_loop_shape (V0 : list (Vec3 F)) (max_length : F) (fuel : nat) :
  forall tl tls st st',
    divide_loop fuel max_length tl tls st = Done st' ->
    shape_inv V0 st ->
    triangle_in_range (s_vertices st) (tl_indices tl) ->
    Forall (fun t => triangle_in_range (s_vertices st) (tl_indices t)) tls ->
    shape_inv V0 st'
    /\ (length (s_indices st') + length (s_divisions st)
        = length (s_indices st) + S (length tls) + length (s_divisions st'))%nat.
Proof.
  induction fuel as [|fuel IH]; intros tl tls st st'; cbn [divide_loop];
    [discriminate|].
  destruct (get_divide_index tl max_length <? 0)%Z.
  - intros Hrun [Hpre Hall] Htl Htls.
    set (st1 := mkSub (s_vertices st) (s_edge_divides st)
                  (s_indices st ++ [tl_indices tl]) (s_divisions st)) in *.
    assert (shape_inv V0 st1) as Hst1.
    { split; [exact Hpre|]. cbn. apply Forall_app. split; [exact Hall|].
      by constructor. }
    destruct tls as [|front tls].
    + injection Hrun as <-. split; [exact Hst1|]. cbn.
      rewrite length_app. cbn. lia.
    + apply Forall_cons in Htls as [Hfront Htls].
      destruct (IH front tls st1 st' Hrun Hst1 Hfront Htls) as [Hinv Hcount].
      split; [exact Hinv|]. cbn in Hcount. rewrite length_app in Hcount.
      cbn in *. lia.
  - destruct (divide tl _ max_length (s_vertices st) (s_edge_divides st))
      as [d|] eqn:Ed; [|discriminate].
    intros Hrun [Hpre Hall] Htl Htls.
    destruct (divide_children _ _ _ _ _ _ Ed Htl) as ([created Hv] & H1 & H2).
    set (st1 := mkSub (d_vertices d) (d_edge_divides d) (s_indices st)
                  (s_divisions st ++ [d])) in *.
    assert (shape_inv V0 st1) as Hst1.
    { split; cbn.
      - rewrite Hv. by apply prefix_app_r.
      - rewrite Hv. eapply Forall_impl; [exact Hall|].
        intros t. apply triangle_in_range_app. }
    assert (Forall (fun t => triangle_in_range (s_vertices st1) (tl_indices t))
              (tls ++ [d_second d])) as Hq.
    { apply Forall_app. split; [|by constructor]. cbn. rewrite Hv.
      eapply Forall_impl; [exact Htls|].
      intros t. apply triangle_in_range_app. }
    destruct (IH (d_first d) (tls ++ [d_second d]) st1 st' Hrun Hst1 H1 Hq)
      as [Hinv Hcount].
    split; [exact Hinv|]. cbn in Hcount. rewrite !length_app in Hcount.
    cbn in *. lia.
Qed.

Lemma subdivide_triangle_shape (V0 : list (Vec3 F)) (max_length : F)
    (fuel : nat) (indices : Vec3crd) (st st' : sub_state F) :
  subdivide_triangle fuel max_length V0 indices st = Done st' ->
  shape_inv V0 st ->
  triangle_in_range V0 indices
  /\ shape_inv V0 st'
  /\ (length (s_indices st') + length (s_divisions st)
      = S (length (s_indices st)) + length (s_divisions st'))%nat.
Proof.
  unfold subdivide_triangle, Edges_new.
  destruct (vget V0 (vnth indices 0)) as [v0|] eqn:E0;
    cbn [mbind option_bind]; [|discriminate].
  destruct (vget V0 (vnth indices 1)) as [v1|] eqn:E1;
    cbn [mbind option_bind]; [|discriminate].
  destruct (vget V0 (vnth indices 2)) as [v2|] eqn:E2;
    cbn [mbind option_bind]; [|discriminate].
  assert (triangle_in_range V0 indices) as Hin.
  { intros i [-> | [-> | ->]]; apply vget_is_Some; eauto. }
  destruct (is_dividable _ max_length) as [dividable edges].
  intros Hrun [[created Hpre] Hall].
  assert (triangle_in_range (s_vertices st) indices) as Hin'.
  { rewrite Hpre. by apply triangle_in_range_app. }
  split; [exact Hin|]. destruct dividable; cbn [negb] in Hrun.
  - destruct (divide_loop_shape V0 max_length fuel _ [] st st' Hrun)
      as [Hinv Hcount]; [by split; [exists created|]|exact Hin'|constructor|].
    split; [exact Hinv|]. cbn in Hcount. lia.
  - injection Hrun as <-. cbn. split.
    + split; [by exists created|]. apply Forall_app. split; [exact Hall|].
      by constructor.
    + rewrite length_app. cbn. lia.
Qed.

Lemma subdivide_triangles_shape (V0 : list (Vec3 F)) (max_length : F)
    (fuel : nat) (triangles : list Vec3crd) :
  forall st st',
    subdivide_triangles fuel max_length V0 triangles st = Done st' ->
    shape_inv V0 st ->
    Forall (triangle_in_range V0) triangles
    /\ shape_inv V0 st'
    /\ (length (s_indices st') + length (s_divisions st)
        = length (s_indices st) + length triangles
          + length (s_divisions st'))%nat.
Proof.
  induction triangles as [|t triangles IH]; intros st st';
    cbn [subdivide_triangles].
  - intros [= <-] Hinv. split; [constructor|]. split; [exact Hinv|]. cbn. lia.
  - destruct (subdivide_triangle fuel max_length V0 t st) as [st1| | |] eqn:E;
      try discriminate.
    intros Hrun Hinv.
    destruct (subdivide_triangle_shape _ _ _ _ _ _ E Hinv) as (Ht & Hinv1 & Hc1).
    destruct (IH st1 st' Hrun Hinv1) as (Hts & Hinv' & Hc).
    split; [by constructor|]. split; [exact Hinv'|]. cbn. lia.
Qed.

(** X10.  For every scalar type, binary32 included: when [subdivide]
    returns, every triangle of the input addressed vertices of the input;
    the result keeps the input vertices, in their order, at the front of
    its vertices; every triangle of the result addresses vertices of the
    result; and the result has at least as many triangles as the input. *)
Theorem subdivide_extends_mesh (fuel : nat) (its : indexed_triangle_set F)
    (max_length : F) (result : indexed_triangle_set F) :
  subdivide fuel its max_length = Done result ->
  Forall (triangle_in_range (its_vertices its)) (its_indices its)
  /\ its_vertices its `prefix_of` its_vertices result
  /\ Forall (triangle_in_range (its_vertices result)) (its_indices result)
  /\ (length (its_indices its) <= length (its_indices result))%nat.
Proof.
  unfold subdivide, subdivide_run.
  destruct (subdivide_triangles _ _ _ _ _) as [st| | |] eqn:E;
    try discriminate.
  intros [= <-]. cbn [its_vertices its_indices].
  destruct (subdivide_triangles_shape _ _ _ _ _ _ E) as (Hin & [Hpre Hall] & Hc).
  { split; cbn; [reflexivity|constructor]. }
  cbn in Hc. repeat split; [exact Hin|exact Hpre|exact Hall|lia].
Qed.
End SubdivideShape.

Module SubdivideShapeRuns.
Import B32 Examples.

(** The right triangle with legs of length 10, divided in binary32 until
    no edge is longer than 4. *)
Definition divided_triangle : indexed_triangle_set float :=
  Eval vm_compute in
    match subdivide 100 SamplerRuns.triangle_mesh (of_Z 4) with
    | Done result => result
    | _ => mkIts [] []
    end.

Lemma subdivide_extends_mesh_witness :
  subdivide 100 SamplerRuns.triangle_mesh (of_Z 4) = Done divided_triangle
  /\ (1 < length (its_indices divided_triangle))%nat
  /\ Forall (triangle_in_range (its_vertices SamplerRuns.triangle_mesh))
       (its_indices SamplerRuns.triangle_mesh)
  /\ its_vertices SamplerRuns.triangle_mesh
     `prefix_of` its_vertices divided_triangle
  /\ Forall (triangle_in_range (its_vertices divided_triangle))
       (its_indices divided_triangle)
  /\ (length (its_indices SamplerRuns.triangle_mesh)
      <= length (its_indices divided_triangle))%nat.
Proof.
  split; [vm_compute; reflexivity|]. split; [vm_compute; lia|].
  apply (subdivide_extends_mesh 100 SamplerRuns.triangle_mesh (of_Z 4)
           divided_triangle).
  vm_compute. reflexivity.
Defined.
End SubdivideShapeRuns.

(** ** subdivide over the reals: what it leaves unchanged *)

Module SubdivideFixed.
Import SubdivideR.
Local Open Scope R_scope.

(** Triangles within the bound are pushed in their order, whatever the
    fuel. *)
Lemma subdivide_triangles_within (max_length : R) (V0 : list Vec3r)
    (fuel : nat) (triangles : list Vec3crd) :
  Forall (within max_length V0) triangles ->
  forall st,
    subdivide_triangles fuel max_length V0 triangles st
    = Done (mkSub (s_vertices st) (s_edge_divides st)
                  (s_indices st ++ triangles) (s_divisions st)).
Proof.
  induction 1 as [|t triangles Ht _ IH]; intros st;
    cbn [subdivide_triangles].
  - rewrite app_nil_r. by destruct st.
  - rewrite (subdivide_triangle_within max_length V0 fuel t st Ht).
    rewrite IH. cbn. by rewrite <- app_assoc.
Qed.

Lemma subdivide_within (max_length : R) (fuel : nat)
    (its : indexed_triangle_set R) :
  Forall (within max_length (its_vertices its)) (its_indices its) ->
  subdivide fuel its max_length = Done its.
Proof.
  intros Hin. unfold subdivide, subdivide_run.
  rewrite (subdivide_triangles_within _ _ _ _ Hin). cbn. by destruct its.
Qed.

Lemma subdivide_result_within (max_length : R) (fuel : nat)
    (its result : indexed_triangle_set R) :
  0 < max_length ->
  subdivide fuel its max_length = Done result ->
  Forall (within max_length (its_vertices result)) (its_indices result).
Proof.
  intros Hmax. unfold subdivide.
  destruct (subdivide_run fuel its max_length) as [st| | |] eqn:Hrun;
    try discriminate.
  intros [= <-]. cbn.
  exact (si_out _ _ _ (subdivide_run_inv max_length fuel its st Hmax Hrun)).
Qed.

(** X11.  Over the reals and for a positive [max_length], [subdivide]
    returns its input unchanged exactly when the input has its indices in
    range and no edge longer than [max_length]; this does not depend on the
    fuel, no iteration of the inner loop is needed. *)
Theorem subdivide_fixed_point (max_length : R) (fuel : nat)
    (its : indexed_triangle_set R) :
  0 < max_length ->
  subdivide fuel its max_length = Done its
  <-> Forall (within max_length (its_vertices its)) (its_indices its).
Proof.
  intros Hmax. split.
  - by apply subdivide_result_within.
  - apply subdivide_within.
Qed.

(** Exact arithmetic.  Over the reals [subdivide] is idempotent: a mesh it
    returned is returned unchanged by a second call with the same
    [max_length], whatever the fuel of the second call. *)
Theorem subdivide_idempotent (max_length : R) (fuel fuel' : nat)
    (its result : indexed_triangle_set R) :
  0 < max_length ->
  subdivide fuel its max_length = Done result ->
  subdivide fuel' result max_length = Done result.
Proof.
  intros Hmax Hrun. apply subdivide_within.
  by apply (subdivide_result_within max_length fuel its).
Qed.

Lemma subdivide_fixed_point_witness :
  subdivide 0 SubdivideSpec.square_mesh 3 = Done SubdivideSpec.square_mesh.
Proof.
  apply (subdivide_fixed_point 3 0 SubdivideSpec.square_mesh); [lra|].
  exact SubdivideSpec.square_mesh_within.
Defined.

Lemma subdivide_idempotent_witness :
  exists fuel result,
    subdivide fuel SubdivideSpec.tie_mesh 4 = Done result
    /\ forall fuel', subdivide fuel' result 4 = Done result.
Proof.
  destruct (SubdivideSpec.subdivide_run_done 4 5 SubdivideSpec.tie_mesh
              ltac:(lra) (SubdivideSpec.casts_defined 5 4 ltac:(lra) ltac:(lra))
              SubdivideSpec.tie_mesh_within) as [st Hrun].
  assert (subdivide (run_fuel 4 SubdivideSpec.tie_mesh) SubdivideSpec.tie_mesh 4
          = Done (mkIts (s_indices st) (s_vertices st))) as Hsub.
  { unfold subdivide. by rewrite Hrun. }
  exists (run_fuel 4 SubdivideSpec.tie_mesh), (mkIts (s_indices st) (s_vertices st)).
  split; [exact Hsub|]. intros fuel'.
  apply (subdivide_idempotent 4 (run_fuel 4 SubdivideSpec.tie_mesh) fuel'
           SubdivideSpec.tie_mesh); [lra|exact Hsub].
Defined.
End SubdivideFixed.

(** ** subdivide in binary32: a second call divides again *)

Module SubdivideTwice.
Import B32 Examples.

(** The triangle (0,0,0), (1,0,0), (0.5,0.9,0) and the bound 1/7. *)
Definition wide_mesh : indexed_triangle_set float :=
  mkIts [mkVec3 0 1 2]%Z
        [v3 0 0 0; v3 1 0 0;
         mkVec3 (f_div (of_Z 1) (of_Z 2)) (f_div (of_Z 9) (of_Z 10)) (of_Z 0)].

Definition wide_max : float := f_div (of_Z 1) (of_Z 7).

(** What the first call returns, and what the second call returns for
    it. *)
Definition once : indexed_triangle_set float :=
  Eval vm_compute in
    match subdivide 1000 wide_mesh wide_max with
    | Done mesh => mesh
    | _ => mkIts [] []
    end.

Definition twice : indexed_triangle_set float :=
  Eval vm_compute in
    match subdivide 1000 once wide_max with
    | Done mesh => mesh
    | _ => mkIts [] []
    end.

(** X12.  In binary32 [subdivide] is not idempotent.  On the triangle
    (0,0,0), (1,0,0), (0.5,0.9,0) with [max_length] 1/7 the first call
    returns 120 triangles on 72 vertices, the triangle (50,31,32) at
    position 28 among them, whose edge between the vertices 31 and 32 has
    a computed length one unit in the last place above [max_length]: the
    loop went by the tracked length of that edge, which is within
    [max_length].  The second call computes the lengths of the triangle
    anew, divides it and returns 121 triangles on 73 vertices. *)
Theorem subdivide_binary32_not_idempotent :
  subdivide 1000 wide_mesh wide_max = Done once
  /\ subdivide 1000 once wide_max = Done twice
  /\ length (its_indices once) = 120%nat
  /\ length (its_vertices once) = 72%nat
  /\ length (its_indices twice) = 121%nat
  /\ length (its_vertices twice) = 73%nat
  /\ its_indices once !! 28%nat = Some (mkVec3 50 31 32)
  /\ wide_max = S754_finite false 9586981 (-26)
  /\ exists p q,
       vget (its_vertices once) 31 = Some p
       /\ vget (its_vertices once) 32 = Some q
       /\ norm (vsub p q) = S754_finite false 9586982 (-26)
       /\ (norm (vsub p q) >? wide_max)%flt = true.
Proof.
  do 8 (split; [vm_compute; reflexivity|]).
  eexists _, _. split; [vm_compute; reflexivity|].
  split; [vm_compute; reflexivity|].
  split; vm_compute; reflexivity.
Qed.
End SubdivideTwice.

(** ** Direction sampler over the reals: points of the unit sphere *)

Module FibonacciSphere.
Import FibonacciR.
Local Open Scope R_scope.

(** A point of the spiral with its index in range lies on the upper half of
    the unit sphere. *)
Lemma point_on_sphere (count_samples i : Z) :
  (1 < count_samples)%Z -> (0 <= i < count_samples)%Z ->
  let d := point count_samples i in
  norm (d_dir d) = 1 /\ 0 <= d_weight d <= 1.
Proof.
  intros HN Hi. cbv zeta. unfold point. cbn [d_dir d_weight].
  set (z := polar count_samples i).
  assert (0 <= z <= 1) as Hz.
  { unfold z, polar.
    assert (0 < IZR (count_samples - 1)) as Hpos by (apply IZR_lt; lia).
    assert (0 <= IZR i) as H0 by (apply IZR_le; lia).
    assert (IZR i <= IZR (count_samples - 1)) as H1 by (apply IZR_le; lia).
    assert (0 <= IZR i / IZR (count_samples - 1) <= 1); [|lra].
    split.
    - apply Rmult_le_pos; [exact H0|]. left. by apply Rinv_0_lt_compat.
    - apply Rmult_le_reg_r with (IZR (count_samples - 1)); [exact Hpos|].
      unfold Rdiv. rewrite Rmult_assoc, Rinv_l by lra. lra. }
  split; [|exact Hz].
  set (theta := golden_angle * IZR i).
  assert (sqrt (1 - z * z) * sqrt (1 - z * z) = 1 - z * z) as Hr
    by (apply sqrt_sqrt; nra).
  assert (Hsc := sin2_cos2 theta). unfold Rsqr in Hsc.
  set (r := sqrt (1 - z * z)) in *.
  set (c := cos theta) in *. set (s := sin theta) in *.
  unfold norm, squaredNorm, vdot. cbn [v_x v_y v_z].
  change (sqrt (c * r * (c * r) + s * r * (s * r) + z * z) = 1).
  replace (c * r * (c * r) + s * r * (s * r) + z * z) with 1 by nra.
  apply sqrt_1.
Qed.

(** X13.  Over the reals, whatever the angle and the count: when the
    sampler answers, the first direction is the pole (0, 0, 1) with weight
    1, every direction has length 1, and every weight lies between 0
    and 1. *)
Theorem fibonacci_unit_directions (ndebug : bool) (angle : R)
    (count_samples : Z) (directions : list (Direction R)) :
  fibonacci ndebug angle count_samples = Done directions ->
  head directions = Some (mkDirection (mkVec3 0 0 1) 1)
  /\ Forall (fun d => norm (d_dir d) = 1 /\ 0 <= d_weight d <= 1) directions.
Proof.
  unfold fibonacci, create_fibonacci_sphere_samples.
  destruct (Z.leb_spec count_samples 1) as [Hc|Hc].
  - intros [= <-]. split; [reflexivity|]. constructor; [|constructor].
    cbn [d_dir d_weight]. split.
    + unfold norm, squaredNorm, vdot. cbn [v_x v_y v_z].
      change (sqrt (0 * 0 + 0 * 0 + 1 * 1) = 1).
      replace (0 * 0 + 0 * 0 + 1 * 1) with 1 by ring. apply sqrt_1.
    + change (0 <= 1 <= 1). lra.
  - unfold assert.
    destruct (ndebug || _); [|discriminate].
    destruct (ndebug || _); [|discriminate].
    destruct (ndebug || _); [|discriminate].
    set (min_z := cos _).
    destruct (fibonacci_loop_prefix count_samples min_z
                (zrange 0 count_samples) []) as (k & Heq & _ & Hfirst).
    unfold golden_angle in Heq. cbn [app] in Heq.
    intros [= <-].
    change (f_mul f_pi (f_sub (f_of_Z 3) (f_sqrt (f_of_Z 5))))
      with (PI * (3 - sqrt 5)).
    rewrite Heq.
    assert (zrange 0 count_samples
            = 0%Z :: zrange 1 (count_samples - 1)) as Hz.
    { unfold zrange.
      replace (Z.to_nat count_samples)
        with (S (Z.to_nat (count_samples - 1))) by lia.
      cbn [seq map]. f_equal.
      rewrite <- seq_shift, map_map. apply map_ext. intros a. lia. }
    assert (1 <= k)%nat as Hk.
    { apply (Hfirst 0%Z _ Hz). unfold polar.
      replace (1 - 0 / IZR (count_samples - 1)) with 1
        by (unfold Rdiv; ring).
      apply COS_bound. }
    split.
    + rewrite Hz. destruct k as [|k]; [lia|]. cbn [take map head].
      f_equal. unfold point, polar.
      replace (1 - 0 / IZR (count_samples - 1)) with 1
        by (unfold Rdiv; ring).
      replace (1 - 1 * 1) with 0 by ring. rewrite sqrt_0. f_equal. f_equal; ring.
    + rewrite Forall_map. apply Forall_forall. intros i Hi.
      apply point_on_sphere; [exact Hc|].
      assert (i ∈ zrange 0 count_samples) as Hin.
      { eapply elem_of_sublist; [exact Hi|apply sublist_take]. }
      unfold zrange in Hin.
      apply list_elem_of_In, in_map_iff in Hin as (n & <- & Hn).
      apply in_seq in Hn. lia.
Qed.

Lemma fibonacci_unit_directions_witness :
  exists directions,
    fibonacci true 90 10 = Done directions
    /\ head directions = Some (mkDirection (mkVec3 0 0 1) 1)
    /\ Forall (fun d => norm (d_dir d) = 1 /\ 0 <= d_weight d <= 1)
         directions.
Proof.
  eexists. split; [reflexivity|].
  apply (fibonacci_unit_directions true 90 10). reflexivity.
Defined.
End FibonacciSphere.

(** ** Direction sampler, for every scalar type: what is stored *)

Section FibonacciShape.
Context {D : Type} {SD : Scalar D} {F : Type} {SF : Scalar F}.
Variable cos : D -> D.
Variable sin : D -> D.
Variable to_float : D -> F.
Local Open Scope scalar_scope.

Local Abbreviation sampler :=
  (create_fibonacci_sphere_samples cos sin to_float).

(** [z] of the iteration [i], as the loop computes it in [double]. *)
Definition polar_component (count_samples i : Z) : D :=
  f_one - f_of_Z i / f_of_Z (count_samples - 1)%Z.

(** [min_z] and [phi] of a call. *)
Definition cone_min_z (angle : D) : D :=
  cos (angle / f_of_Z 2 * f_pi / f_of_Z 180).

Definition golden : D := f_pi * (f_of_Z 3 - f_sqrt (f_of_Z 5)).

(** The direction that the iteration [i] pushes. *)
Definition direction_at (count_samples i : Z) : Direction F :=
  let z := polar_component count_samples i in
  let radius := f_sqrt (f_one - z * z) in
  let theta := golden * f_of_Z i in
  let dir := mkVec3 (to_float (cos theta * radius))
                    (to_float (sin theta * radius)) (to_float z) in
  mkDirection dir (v_z dir).

(** The test [z < min_z] of the iteration [i]. *)
Definition below_cone (angle : D) (count_samples i : Z) : bool :=
  polar_component count_samples i <? cone_min_z angle.

(** The loop pushes the directions of the indices before the first one
    that is below the cone, and stops there. *)
Lemma fibonacci_loop_stops (angle : D) (count_samples : Z) (rest : list Z) :
  forall points,
  exists k : nat,
    fibonacci_loop cos sin to_float count_samples (cone_min_z angle) golden
      rest points
    = points ++ map (direction_at count_samples) (take k rest)
    /\ (k <= length rest)%nat
    /\ Forall (fun i => below_cone angle count_samples i = false) (take k rest)
    /\ (forall i, rest !! k = Some i ->
        below_cone angle count_samples i = true).
Proof.
  induction rest as [|i rest IH]; intros points.
  - exists O. cbn. rewrite app_nil_r.
    split; [reflexivity|]. split; [lia|]. split; [constructor|].
    intros i H. discriminate H.
  - cbn [fibonacci_loop]. fold (polar_component count_samples i).
    fold (below_cone angle count_samples i).
    destruct (below_cone angle count_samples i) eqn:E.
    + exists O. cbn [take map]. rewrite app_nil_r.
      split; [reflexivity|]. split; [cbn; lia|]. split; [constructor|].
      by intros j [= <-].
    + destruct (IH (points ++ [direction_at count_samples i]))
        as (k & Heq & Hk & Hall & Hstop).
      exists (S k). cbn [take map length lookup list_lookup].
      split; [|split; [lia|split; [by constructor|exact Hstop]]].
      etransitivity; [exact Heq|]. by rewrite <- app_assoc.
Qed.

(** With more than one sample the call passes the three assertions, or
    skips them, and runs the loop over the indices. *)
Lemma sampler_runs_loop (ndebug : bool) (angle : D) (count_samples : Z)
    (directions : list (Direction F)) :
  (1 < count_samples)%Z ->
  sampler ndebug angle count_samples = Done directions ->
  directions
  = fibonacci_loop cos sin to_float count_samples (cone_min_z angle) golden
      (zrange 0 count_samples) []
  /\ (ndebug = false ->
      (angle <? f_of_Z 180) = true /\ (angle >? f_of_Z 1) = true
      /\ (cone_min_z angle >? f_zero) = true).
Proof.
  intros HN. unfold create_fibonacci_sphere_samples, assert.
  destruct (Z.leb_spec count_samples 1) as [?|_]; [lia|].
  fold (cone_min_z angle). fold golden.
  destruct ndebug; cbn [orb].
  - intros [= <-]. split; [reflexivity|discriminate].
  - destruct (angle <? f_of_Z 180); [|discriminate].
    destruct (angle >? f_of_Z 1); [|discriminate].
    destruct (cone_min_z angle >? f_zero); [|discriminate].
    intros [= <-]. by split.
Qed.

Lemma sampler_defined (angle : D) (count_samples : Z) :
  (1 < count_samples)%Z ->
  (angle <? f_of_Z 180) = true -> (angle >? f_of_Z 1) = true ->
  (cone_min_z angle >? f_zero) = true ->
  exists directions, sampler false angle count_samples = Done directions.
Proof.
  intros HN H1 H2 H3. unfold create_fibonacci_sphere_samples, assert.
  destruct (Z.leb_spec count_samples 1) as [?|_]; [lia|].
  fold (cone_min_z angle). rewrite H1, H2, H3. cbn [orb]. eauto.
Qed.

Lemma zrange_length (from n : Z) : length (zrange from n) = Z.to_nat n.
Proof. unfold zrange. by rewrite length_map, length_seq. Qed.

Lemma zrange_take (n : Z) (k : nat) :
  (Z.of_nat k <= n)%Z -> take k (zrange 0 n) = zrange 0 (Z.of_nat k).
Proof.
  intros Hk. unfold zrange. rewrite <- fmap_take, take_seq.
  by rewrite Nat2Z.id, Nat.min_l by lia.
Qed.

(** The answer of a call: the directions of the indices [0 .. k-1], where
    [k] is the first index below the cone, or the count. *)
Lemma sampler_answer (ndebug : bool) (angle : D) (count_samples : Z)
    (directions : list (Direction F)) :
  (1 < count_samples)%Z ->
  sampler ndebug angle count_samples = Done directions ->
  exists k : nat,
    directions = map (direction_at count_samples) (zrange 0 (Z.of_nat k))
    /\ (Z.of_nat k <= count_samples)%Z
    /\ (forall i, (0 <= i < Z.of_nat k)%Z ->
        below_cone angle count_samples i = false)
    /\ ((Z.of_nat k < count_samples)%Z ->
        below_cone angle count_samples (Z.of_nat k) = true).
Proof.
  intros HN Hrun.
  destruct (sampler_runs_loop _ _ _ _ HN Hrun) as [-> _].
  destruct (fibonacci_loop_stops angle count_samples
              (zrange 0 count_samples) []) as (k & -> & Hk & Hall & Hstop).
  rewrite zrange_length in Hk.
  assert (Hkn : (Z.of_nat k <= count_samples)%Z) by lia.
  rewrite zrange_take in Hall |- * by exact Hkn.
  exists k. cbn [app]. split; [reflexivity|]. split; [exact Hkn|]. split.
  - intros i Hi. rewrite Forall_forall in Hall. apply Hall.
    apply elem_of_zrange. lia.
  - intros Hlt. apply Hstop.
    rewrite <- (Nat2Z.id k) at 1.
    by rewrite SubdivideR.zrange_lookup by lia.
Qed.

(** The direction at a position up to which no index is below the cone;
    [m] is the value of [min_z]. *)
Lemma sampler_reaches (ndebug : bool) (angle m : D) (count_samples : Z)
    (directions : list (Direction F)) (n : nat) :
  (1 < count_samples)%Z -> (Z.of_nat n < count_samples)%Z ->
  sampler ndebug angle count_samples = Done directions ->
  cone_min_z angle = m ->
  forallb (fun i => negb (polar_component count_samples i <? m))
    (zrange 0 (Z.of_nat n + 1)) = true ->
  directions !! n = Some (direction_at count_samples (Z.of_nat n)).
Proof.
  intros HN Hn Hrun <- Hpass.
  destruct (sampler_answer _ _ _ _ HN Hrun) as (k & -> & Hk & _ & Hstop).
  assert (Hnk : (n < k)%nat).
  { destruct (Nat.lt_ge_cases n k) as [?|Hge]; [assumption|exfalso].
    rewrite forallb_forall in Hpass.
    specialize (Hpass (Z.of_nat k)). unfold below_cone in Hstop.
    rewrite Hstop in Hpass by lia. cbn in Hpass.
    assert (false = true) as Habs; [|discriminate Habs].
    apply Hpass. apply list_elem_of_In, elem_of_zrange. lia. }
  rewrite list_lookup_fmap. rewrite <- (Nat2Z.id n) at 1.
  by rewrite SubdivideR.zrange_lookup by lia.
Qed.

End FibonacciShape.

(** ** Direction sampler in binary64 and binary32 *)

Module FibonacciRuns.

Definition cos64 : B64.float -> B64.float := cos_series (SD := b64_scalar).
Definition sin64 : B64.float -> B64.float := sin_series (SD := b64_scalar).

(** The sampler as it is compiled: [double] is binary64, [float] is
    binary32, and the cast rounds to the nearest binary32 number. *)
Definition sampler64 (ndebug : bool) (angle : B64.float) (count_samples : Z)
  : outcome (list (Direction B32.float)) :=
  create_fibonacci_sphere_samples (SD := b64_scalar) (SF := b32_scalar)
    cos64 sin64 B64.to_float ndebug angle count_samples.

Local Abbreviation polar64 := (polar_component (SD := b64_scalar)).
Local Abbreviation min_z64 := (cone_min_z (SD := b64_scalar) cos64).
Local Abbreviation below64 := (below_cone (SD := b64_scalar) cos64).
Local Abbreviation direction64 :=
  (direction_at (SD := b64_scalar) (F := B32.float) cos64 sin64
     B64.to_float).

(** The angle of 90 degrees: [min_z] is the binary64 number nearest to
    cos 45 degrees, 0x3FE6A09E667F3BCD. *)
Lemma min_z_90 :
  min_z64 (B64.of_Z 90) = S754_finite false 6369051672525773 (-53).
Proof. vm_compute. reflexivity. Qed.


(** The run of the witness: three directions, with the polar components
    1, 8/9 and 7/9 rounded to binary32. *)
Example three_of_ten :
  exists directions,
    sampler64 false (B64.of_Z 90) 10 = Done directions
    /\ map (fun d => v_z (d_dir d)) directions
       = [B32.of_Z 1; S754_finite false 14913081 (-24);
          S754_finite false 13048946 (-24)].
Proof. eexists. split; vm_compute; reflexivity. Qed.

End FibonacciRuns.

(** ** Support point sampler over the reals: where the points lie *)

Module SamplerR.
Import SubdivideR.
Local Open Scope R_scope.

Section OnMesh.
Variable Rng : Type.
Variable uniform01 : Rng -> R * Rng.

(** The point with barycentric coordinates [b0], [b1], [b2] in the
    triangle [v0 v1 v2]. *)
Definition barycentric (v0 v1 v2 : Vec3r) (b0 b1 b2 : R) : Vec3r :=
  vadd (vadd (vscale v0 b0) (vscale v1 b1)) (vscale v2 b2).

(** [pr] is a point of the triangle [v0 v1 v2] whose radius is
    interpolated, with the coordinates of the point, from [radiuses]. *)
Definition inside (v0 v1 v2 radiuses : Vec3r) (pr : PointRadius R) : Prop :=
  exists b0 b1 b2,
    0 <= b0 /\ 0 <= b1 /\ 0 <= b2 /\ b0 + b1 + b2 = 1
    /\ pr_point pr = barycentric v0 v1 v2 b0 b1 b2
    /\ pr_radius pr
       = b0 * v_x radiuses + b1 * v_y radiuses + b2 * v_z radiuses.

(** [pr] was sampled on a triangle of the mesh whose three widths are all
    inside the needs, with the radiuses of those widths. *)
Definition sampled_on (its : indexed_triangle_set R) (widths : list R)
    (cfg : SampleConfig R) (pr : PointRadius R) : Prop :=
  exists t v0 v1 v2 w0 w1 w2,
    t ∈ its_indices its
    /\ vget (its_vertices its) (vnth t 0) = Some v0
    /\ vget (its_vertices its) (vnth t 1) = Some v1
    /\ vget (its_vertices its) (vnth t 2) = Some v2
    /\ vget widths (vnth t 0) = Some w0
    /\ vget widths (vnth t 1) = Some w1
    /\ vget widths (vnth t 2) = Some w2
    /\ width_out_of_needs cfg w0 = false
    /\ width_out_of_needs cfg w1 = false
    /\ width_out_of_needs cfg w2 = false
    /\ inside v0 v1 v2
         (mkVec3 (width_to_radius cfg w0) (width_to_radius cfg w1)
                 (width_to_radius cfg w2)) pr.

Hypothesis uniform01_range : forall g, 0 <= (uniform01 g).1 <= 1.

Lemma scatter_inside (count : nat) (v0 v1 v2 radiuses : Vec3r) :
  forall st, exists points,
    sp_result (scatter Rng uniform01 count v0 v1 v2 radiuses st)
    = sp_result st ++ points
    /\ length points = count
    /\ Forall (inside v0 v1 v2 radiuses) points.
Proof using uniform01_range.
  induction count as [|count IH]; intros st.
  - exists []. cbn. by rewrite app_nil_r.
  - cbn [scatter].
    assert (Hb0 := uniform01_range (sp_rng st)).
    destruct (uniform01 (sp_rng st)) as [b0 g0].
    assert (Hb1 := uniform01_range g0).
    destruct (uniform01 g0) as [b1 g1]. cbn [fst] in Hb0, Hb1.
    change (f_ltb f_one (f_add b0 b1)) with (Rs.ltb 1 (b0 + b1)).
    destruct (Rs.ltb 1 (b0 + b1)) eqn:Hcmp;
      [apply ltb_true in Hcmp | apply ltb_false in Hcmp].
    all: match goal with
         | |- context [scatter _ _ _ _ _ _ _ ?s] =>
           destruct (IH s) as (points & -> & Hlen & Hall)
         end.
    all: cbn [sp_result]; rewrite <- app_assoc; cbn [app].
    all: eexists (_ :: points); split; [reflexivity|].
    all: split; [cbn; by rewrite Hlen|].
    all: constructor; [|exact Hall].
    + exists (1 - b0), (1 - b1), (1 - (1 - b0) - (1 - b1)).
      repeat split; try lra.
      * cbn [pr_point]. unfold barycentric, vadd, vscale. rsimpl.
        f_equal; ring.
      * cbn [pr_radius]. unfold vnth. rsimpl. ring.
    + exists b0, b1, (1 - b0 - b1).
      repeat split; try lra.
      * cbn [pr_point]. unfold barycentric, vadd, vscale. rsimpl.
        f_equal; ring.
      * cbn [pr_radius]. unfold vnth. rsimpl. ring.
Qed.

Lemma needs_loop_full (cfg : SampleConfig R) (widths : list R) (t : Vec3crd)
    (radiuses : Vec3r) (area_for_one_support : R) :
  needs_loop cfg widths t [0; 1; 2]%Z (mkVec3 0 0 0) 0
  = Some (true, radiuses, area_for_one_support) ->
  exists w0 w1 w2,
    vget widths (vnth t 0) = Some w0
    /\ vget widths (vnth t 1) = Some w1
    /\ vget widths (vnth t 2) = Some w2
    /\ width_out_of_needs cfg w0 = false
    /\ width_out_of_needs cfg w1 = false
    /\ width_out_of_needs cfg w2 = false
    /\ radiuses = mkVec3 (width_to_radius cfg w0) (width_to_radius cfg w1)
                         (width_to_radius cfg w2).
Proof.
  cbn [needs_loop].
  destruct (vget widths (vnth t 0)) as [w0|]; cbn [mbind option_bind];
    [|discriminate].
  destruct (width_out_of_needs cfg w0) eqn:H0; [discriminate|].
  destruct (vget widths (vnth t 1)) as [w1|]; cbn [mbind option_bind];
    [|discriminate].
  destruct (width_out_of_needs cfg w1) eqn:H1; [discriminate|].
  destruct (vget widths (vnth t 2)) as [w2|]; cbn [mbind option_bind];
    [|discriminate].
  destruct (width_out_of_needs cfg w2) eqn:H2; [discriminate|].
  intros [= <- _]. exists w0, w1, w2. repeat split; assumption.
Qed.

Lemma sample_triangle_on_mesh (its : indexed_triangle_set R)
    (widths : list R) (cfg : SampleConfig R) (t : Vec3crd)
    (st st' : sampler_state R Rng) :
  t ∈ its_indices its ->
  sample_triangle Rng uniform01 its widths cfg t st = Some st' ->
  exists points,
    sp_result st' = sp_result st ++ points
    /\ Forall (sampled_on its widths cfg) points.
Proof using uniform01_range.
  intros Ht. unfold sample_triangle.
  change (@f_zero R R_scalar) with 0.
  destruct (needs_loop cfg widths t [0; 1; 2]%Z (mkVec3 0 0 0) 0)
    as [[[full radiuses] a]|] eqn:En; cbn [mbind option_bind];
    [|discriminate].
  assert (Hnone : forall g : Rng, exists points : list (PointRadius R),
            sp_result (mkSampler (sp_result st) (g : Rng))
            = sp_result st ++ points
            /\ Forall (sampled_on its widths cfg) points).
  { intros g. exists []. cbn. by rewrite app_nil_r. }
  destruct full; cbn [negb].
  2:{ intros [= <-]. destruct st as [r g]. apply (Hnone g). }
  apply needs_loop_full in En
    as (w0 & w1 & w2 & E0 & E1 & E2 & N0 & N1 & N2 & ->).
  destruct (triangle_area_indexed t (its_vertices its)) as [ar|];
    cbn [mbind option_bind]; [|discriminate].
  match goal with
  | |- context [f_to_int ?x] => destruct (f_to_int x) as [count|]
  end; cbn [mbind option_bind]; [|discriminate].
  destruct (uniform01 (sp_rng st)) as [generate g].
  match goal with
  | |- context [(?c =? 0)%Z] => destruct (c =? 0)%Z
  end.
  { intros [= <-]. apply Hnone. }
  destruct (vget (its_vertices its) (vnth t 0)) as [v0|] eqn:V0;
    cbn [mbind option_bind]; [|discriminate].
  destruct (vget (its_vertices its) (vnth t 1)) as [v1|] eqn:V1;
    cbn [mbind option_bind]; [|discriminate].
  destruct (vget (its_vertices its) (vnth t 2)) as [v2|] eqn:V2;
    cbn [mbind option_bind]; [|discriminate].
  match goal with
  | |- context [if ?c then Some _ else Some _] => destruct c
  end.
  { intros [= <-]. apply Hnone. }
  intros [= <-].
  match goal with
  | |- context [scatter _ _ ?k _ _ _ ?r ?s] =>
    destruct (scatter_inside k v0 v1 v2 r s) as (points & -> & _ & Hall)
  end.
  exists points. split; [reflexivity|].
  eapply Forall_impl; [exact Hall|]. intros pr Hpr.
  exists t, v0, v1, v2, w0, w1, w2. repeat split; assumption.
Qed.

Lemma sample_triangles_on_mesh (its : indexed_triangle_set R)
    (widths : list R) (cfg : SampleConfig R) (triangles : list Vec3crd) :
  triangles ⊆ its_indices its ->
  forall st st',
    sample_triangles Rng uniform01 its widths cfg triangles st = Some st' ->
    Forall (sampled_on its widths cfg) (sp_result st) ->
    Forall (sampled_on its widths cfg) (sp_result st').
Proof using uniform01_range.
  induction triangles as [|t triangles IH]; intros Hsub st st';
    cbn [sample_triangles].
  - by intros [= <-].
  - destruct (sample_triangle Rng uniform01 its widths cfg t st)
      as [st1|] eqn:E; cbn [mbind option_bind]; [|discriminate].
    intros Hrun Hst.
    apply sample_triangle_on_mesh in E as (points & Hres & Hall);
      [|apply Hsub; by left].
    apply (IH ltac:(intros x Hx; apply Hsub; by right) st1 st' Hrun).
    rewrite Hres. apply Forall_app. by split.
Qed.

(** X14.  Over the reals and with draws between 0 and 1: every point that
    [generate_support_points] answers lies on a triangle of the mesh whose
    three widths are inside the needs, as a combination of its vertices
    with coefficients that are not negative and add up to 1, and the radius
    of the point is the same combination of the radiuses of the three
    widths. *)
Theorem generated_points_on_mesh (ndebug : bool)
    (its : indexed_triangle_set R) (widths : list R) (cfg : SampleConfig R)
    (random_generator : Rng) (st : sampler_state R Rng) :
  generate_support_points Rng uniform01 ndebug its widths cfg random_generator
  = Done st ->
  Forall (sampled_on its widths cfg) (sp_result st).
Proof using uniform01_range.
  unfold generate_support_points, assert.
  destruct (ndebug || _); [|discriminate].
  destruct (sample_triangles _ _ _ _ _ _ _) as [st'|] eqn:E;
    cbn [of_option]; [|discriminate].
  intros [= <-].
  apply (sample_triangles_on_mesh its widths cfg (its_indices its)
           ltac:(done) _ _ E).
  constructor.
Qed.

(** The radius of a width inside the needs. *)
Lemma width_to_radius_range (cfg : SampleConfig R) (w : R) :
  min_width cfg < max_width cfg -> min_radius cfg <= max_radius cfg ->
  width_out_of_needs cfg w = false ->
  width_to_radius cfg w <= max_radius cfg
  /\ (min_width cfg <= w -> min_radius cfg <= width_to_radius cfg w).
Proof.
  intros Hw Hr. unfold width_out_of_needs, width_to_radius. rsimpl.
  intros Hn. apply orb_false_elim in Hn as [Hmax _].
  apply ltb_false in Hmax.
  set (range := max_width cfg - min_width cfg).
  assert (0 < range) as Hrange by (unfold range; lra).
  assert (/ range * range = 1) as Hinv by (apply Rinv_l; lra).
  assert (0 < / range) as Hpos by (by apply Rinv_0_lt_compat).
  set (k := (w - min_width cfg) / range).
  assert (k <= 1) as Hk1.
  { unfold k, Rdiv. apply Rmult_le_reg_r with range; [exact Hrange|].
    rewrite Rmult_assoc, Hinv. unfold range. lra. }
  split.
  - nra.
  - intros Hmin. assert (0 <= k) as Hk0.
    { unfold k, Rdiv. apply Rmult_le_pos; lra. }
    nra.
Qed.

(** X15.  Over the reals, with draws between 0 and 1 and a configuration
    whose width range is not empty: no point that
    [generate_support_points] answers has a radius above [max_radius];
    when no vertex width is below [min_width], no radius is below
    [min_radius] either.  Widths between 0 and [min_width] are sampled
    all the same. *)
Theorem generated_radius_range (ndebug : bool)
    (its : indexed_triangle_set R) (widths : list R) (cfg : SampleConfig R)
    (random_generator : Rng) (st : sampler_state R Rng) :
  min_width cfg < max_width cfg -> min_radius cfg <= max_radius cfg ->
  generate_support_points Rng uniform01 ndebug its widths cfg random_generator
  = Done st ->
  Forall (fun pr => pr_radius pr <= max_radius cfg) (sp_result st)
  /\ (Forall (fun w => min_width cfg <= w) widths ->
      Forall (fun pr => min_radius cfg <= pr_radius pr) (sp_result st)).
Proof using uniform01_range.
  intros Hw Hr. unfold generate_support_points, assert.
  destruct (ndebug || _); [|discriminate].
  destruct (sample_triangles _ _ _ _ _ _ _) as [st'|] eqn:E;
    cbn [of_option]; [|discriminate].
  intros [= <-].
  assert (Forall (sampled_on its widths cfg) (sp_result st')) as Hon.
  { apply (sample_triangles_on_mesh its widths cfg (its_indices its)
             ltac:(done) _ _ E). constructor. }
  assert (forall i w, vget widths i = Some w -> w ∈ widths) as Hget.
  { intros i w. unfold vget. destruct (i <? 0)%Z; [discriminate|].
    apply list_elem_of_lookup_2. }
  split; [|intros Hall; rewrite Forall_forall in Hall].
  all: eapply Forall_impl; [exact Hon|]; intros pr.
  all: intros (t & v0 & v1 & v2 & w0 & w1 & w2 & _ & _ & _ & _ & E0 & E1
               & E2 & N0 & N1 & N2 & b0 & b1 & b2 & B0 & B1 & B2 & Hsum
               & _ & ->).
  all: cbn [v_x v_y v_z].
  all: destruct (width_to_radius_range cfg w0 Hw Hr N0) as [U0 L0].
  all: destruct (width_to_radius_range cfg w1 Hw Hr N1) as [U1 L1].
  all: destruct (width_to_radius_range cfg w2 Hw Hr N2) as [U2 L2].
  - nra.
  - specialize (L0 (Hall _ (Hget _ _ E0))).
    specialize (L1 (Hall _ (Hget _ _ E1))).
    specialize (L2 (Hall _ (Hget _ _ E2))). nra.
Qed.
End OnMesh.

(** A triangle of area 1 in the plane z = 0; widths 1 give the radius 1, and
    with the multiplicator pi one point is asked for. *)
Definition flat_mesh : indexed_triangle_set R :=
  mkIts [mkVec3 0 1 2]%Z [mkVec3 0 0 0; mkVec3 2 0 0; mkVec3 0 1 0].
Definition flat_config : SampleConfig R := mkSampleConfig 0 2 0 2 PI 2.
(** A generator that always draws 1/4. *)
Definition quarter (g : unit) : R * unit := (1 / 4, g).

Lemma trunc_one : Rs.trunc_Z 1 = 1%Z.
Proof.
  unfold Rs.trunc_Z. destruct (Rle_dec 0 1); [|lra].
  symmetry. apply Int_part_spec. lra.
Qed.

Lemma flat_run :
  exists pr,
  generate_support_points unit quarter false flat_mesh [1; 1; 1] flat_config tt
  = Done (mkSampler [pr] tt).
Proof.
  eexists.
  unfold generate_support_points, assert, flat_mesh.
  cbn [orb length its_vertices Nat.eqb its_indices sample_triangles].
  unfold sample_triangle. cbn [needs_loop].
  rewrite ?vnth_0, ?vnth_1, ?vnth_2.
  change (vget [1; 1; 1] 0) with (Some 1).
  change (vget [1; 1; 1] 1) with (Some 1).
  change (vget [1; 1; 1] 2) with (Some 1).
  cbn [mbind option_bind].
  assert (width_out_of_needs flat_config 1 = false) as ->.
  { unfold width_out_of_needs, flat_config. cbn [max_width]. rsimpl.
    unfold Rs.ltb. destruct (Rlt_dec 2 1); [lra|]. destruct (Rlt_dec 1 0); [lra|].
    reflexivity. }
  assert (width_to_radius flat_config 1 = 1) as ->.
  { unfold width_to_radius, flat_config. cbn [max_width min_width max_radius min_radius].
    rsimpl. field. }
  unfold triangle_area_indexed. cbn [its_vertices].
  rewrite ?vnth_0, ?vnth_1, ?vnth_2.
  change (vget [mkVec3 0 0 0; mkVec3 2 0 0; mkVec3 0 1 0] 0)
    with (Some (mkVec3 0 0 0 : Vec3r)).
  change (vget [mkVec3 0 0 0; mkVec3 2 0 0; mkVec3 0 1 0] 1)
    with (Some (mkVec3 2 0 0 : Vec3r)).
  change (vget [mkVec3 0 0 0; mkVec3 2 0 0; mkVec3 0 1 0] 2)
    with (Some (mkVec3 0 1 0 : Vec3r)).
  cbn [mbind option_bind negb].
  assert (vcross (vsub (mkVec3 2 0 0) (mkVec3 0 0 0))
                 (vsub (mkVec3 0 1 0) (mkVec3 0 0 0))
          = (mkVec3 0 0 2 : Vec3r)) as Hcross.
  { unfold vcross, vsub. rsimpl. f_equal; ring. }
  assert (sqrt 4 = 2) as Hsqrt.
  { replace 4 with (2 * 2) by ring. apply sqrt_square. lra. }
  assert (triangle_area (mkVec3 0 0 0) (mkVec3 2 0 0) (mkVec3 0 1 0) = 1) as ->.
  { unfold triangle_area. rewrite Hcross. unfold norm, squaredNorm, vdot. rsimpl.
    replace (0 * 0 + 0 * 0 + 2 * 2) with 4 by ring. rewrite Hsqrt. field. }
  assert (Hpi := PI_RGT_0).
  match goal with
  | |- context [f_trunc ?x] => replace x with 1
  end.
  2:{ unfold flat_config. cbn [multiplicator]. rsimpl. field. lra. }
  change (f_trunc 1) with (IZR (Rs.trunc_Z 1)).
  change (f_to_int (IZR (Rs.trunc_Z 1)))
    with (Rs.to_integer (- 2 ^ 31) (2 ^ 31) (IZR (Rs.trunc_Z 1))).
  rewrite trunc_one. unfold Rs.to_integer. rewrite trunc_one.
  change ((- 2 ^ 31 <=? 1)%Z && (1 <? 2 ^ 31)%Z) with true.
  cbn [mbind option_bind]. unfold quarter at 1. cbn [sp_rng sp_result].
  change (@f_ltb R R_scalar) with Rs.ltb.
  change (@f_sub R R_scalar) with Rminus.
  assert (Rs.ltb (1 / 4) (1 - 1) = false) as -> by (apply ltb_false; lra).
  cbn [Z.eqb].
  rewrite Hcross.
  assert (Rs.ltb (sample_normal_z_max flat_config)
            (v_z (normalize (mkVec3 0 0 2 : Vec3r))) = false) as ->.
  { unfold normalize, squaredNorm, vdot, flat_config.
    cbn [sample_normal_z_max]. rsimpl.
    replace (0 * 0 + 0 * 0 + 2 * 2) with 4 by ring. rewrite Hsqrt.
    assert (Rs.ltb 0 4 = true) as -> by (apply ltb_true; lra).
    cbn [v_z]. apply ltb_false. lra. }
  change (Z.to_nat 1) with 1%nat.
  cbn [scatter]. unfold quarter. cbn [sp_rng sp_result app].
  match goal with
  | |- context [if ?c then (_, _) else _] =>
    assert (c = false) as -> by (apply ltb_false; rsimpl; lra)
  end.
  cbn [of_option mbind option_bind]. reflexivity.
Qed.

Lemma generated_points_on_mesh_witness :
  exists pr,
    generate_support_points unit quarter false flat_mesh [1; 1; 1]
      flat_config tt = Done (mkSampler [pr] tt)
    /\ Forall (sampled_on flat_mesh [1; 1; 1] flat_config) [pr].
Proof.
  destruct flat_run as [pr Hrun]. exists pr. split; [exact Hrun|].
  apply (generated_points_on_mesh unit quarter
           ltac:(intros g; cbn; lra) false flat_mesh [1; 1; 1] flat_config tt
           (mkSampler [pr] tt) Hrun).
Defined.

Lemma generated_radius_range_witness :
  exists pr,
    generate_support_points unit quarter false flat_mesh [1; 1; 1]
      flat_config tt = Done (mkSampler [pr] tt)
    /\ Forall (fun pr => pr_radius pr <= max_radius flat_config) [pr]
    /\ (Forall (fun w => min_width flat_config <= w) [1; 1; 1] ->
        Forall (fun pr => min_radius flat_config <= pr_radius pr) [pr]).
Proof.
  destruct flat_run as [pr Hrun]. exists pr. split; [exact Hrun|].
  apply (generated_radius_range unit quarter
           ltac:(intros g; cbn; lra) false flat_mesh [1; 1; 1] flat_config tt
           (mkSampler [pr] tt)); [cbn; lra|cbn; lra|exact Hrun].
Defined.
End SamplerR.

(** ** Width estimator over the reals: the range of a width *)

Module CalcWidthR.
Import SubdivideR.
Local Open Scope R_scope.

Lemma sum_from_start (start : R) (l : list R) :
  sum_from start l = start + sum_from 0 l.
Proof.
  unfold sum_from. revert start. induction l as [|x l IH]; intros start;
    cbn [fold_left]; rsimpl.
  - ring.
  - rewrite (IH (start + x)), (IH (0 + x)). ring.
Qed.

Lemma sum_from_cons (x : R) (l : list R) :
  sum_from 0 (x :: l) = x + sum_from 0 l.
Proof.
  change (sum_from 0 (x :: l)) with (sum_from (f_add 0 x) l).
  rewrite sum_from_start. rsimpl. ring.
Qed.

(** The sum of distances between [lo] and [hi]. *)
Lemma sum_range (lo hi : R) (l : list R) :
  Forall (fun d => lo <= d <= hi) l ->
  lo * IZR (Z.of_nat (length l)) <= sum_from 0 l
  <= hi * IZR (Z.of_nat (length l)).
Proof.
  induction 1 as [|d l Hd _ IH].
  - unfold sum_from. cbn [length fold_left]. change (Z.of_nat 0) with 0%Z. lra.
  - rewrite sum_from_cons. cbn [length].
    rewrite Nat2Z.inj_succ, succ_IZR. lra.
Qed.

(** The weighted sum of distances between [lo] and [hi] with weights that
    are not negative. *)
Lemma weighted_sum_range (lo hi : R) (kept : list (survivor (F := R))) :
  Forall (fun s => lo <= sv_distance s <= hi /\ 0 <= sv_weight s) kept ->
  let weights := sum_from 0 (map sv_weight kept) in
  0 <= weights
  /\ lo * weights
     <= sum_from 0 (map (fun s => sv_distance s * sv_weight s) kept)
     <= hi * weights.
Proof.
  cbv zeta. induction 1 as [|s kept [Hd Hw] _ IH]; cbn [map].
  - unfold sum_from. cbn. lra.
  - rewrite !sum_from_cons. rsimpl. nra.
Qed.

Section Range.
Variable AABBTree : Type.
Variable intersect_ray_first_hit : AABBTree -> Vec3r -> Vec3r -> option (Hit R).
Variable triangle_normals : AABBTree -> list Vec3r.
Variable angle_axis : R -> Vec3r -> Vec3r -> Vec3r.
Variable acos : R -> R.

Lemma survivors_range (lo hi : R) (tree : AABBTree) (config : RaysConfig R)
    (ray_dir ray_point : Vec3r) (tr_angle : R) (tr_axis : Vec3r)
    (ds : list (Direction R)) :
  (forall p ray hit,
     intersect_ray_first_hit tree p ray = Some hit -> lo <= hit_t hit <= hi) ->
  Forall (fun d => 0 <= d_weight d) ds ->
  forall all,
    survivors AABBTree intersect_ray_first_hit triangle_normals angle_axis
      acos tree config ray_dir ray_point tr_angle tr_axis ds = Some all ->
    Forall (fun s => lo <= sv_distance s <= hi /\ 0 <= sv_weight s) all.
Proof.
  intros Hhit. induction 1 as [|dir ds Hw _ IH]; intros all;
    cbn [survivors].
  - intros [= <-]. constructor.
  - destruct (intersect_ray_first_hit tree ray_point _) as [hit|] eqn:E;
      [|apply IH].
    destruct (angle_ok _ _ _ _ _ _ _) as [ok|]; cbn [mbind option_bind];
      [|discriminate].
    destruct (survivors _ _ _ _ _ _ _ _ _ _ _ ds) as [rest|];
      cbn [mbind option_bind]; [|discriminate].
    intros [= <-]. specialize (IH rest eq_refl).
    destruct ok; [|exact IH]. constructor; [|exact IH].
    cbn [sv_distance sv_weight]. split; [by eapply Hhit|exact Hw].
Qed.

Lemma div_range (lo hi total n : R) :
  0 < n -> lo * n <= total <= hi * n -> lo <= total / n <= hi.
Proof.
  intros Hn [Hlo Hhi]. assert (0 < / n) as Hinv by (by apply Rinv_0_lt_compat).
  assert (n * / n = 1) as Hone by (apply Rinv_r; lra).
  unfold Rdiv. split.
  - replace lo with (lo * n * / n) by (rewrite Rmult_assoc, Hone; ring).
    apply Rmult_le_compat_r; lra.
  - replace hi with (hi * n * / n) by (rewrite Rmult_assoc, Hone; ring).
    apply Rmult_le_compat_r; lra.
Qed.

(** X16.  Over the reals, when every hit distance that the ray cast
    reports lies between [lo] and [hi] and no direction has a negative
    weight, a width that [calc_width] answers is the sentinel -1, or lies
    between [lo] and [hi] (one surviving ray, or the mean when the weights
    sum to zero), or lies between [lo] and [hi] moved by [safe_move] (the
    weighted mean): the offset is added in the last case only. *)
Theorem calc_width_range (lo hi : R) (point normal : Vec3r)
    (tree : AABBTree) (config : RaysConfig R) (w : R) :
  (forall p ray hit,
     intersect_ray_first_hit tree p ray = Some hit -> lo <= hit_t hit <= hi) ->
  Forall (fun d => 0 <= d_weight d) (dirs config) ->
  calc_width AABBTree intersect_ray_first_hit triangle_normals angle_axis acos
    point normal tree config = Some w ->
  w = -1
  \/ lo <= w <= hi
  \/ lo + safe_move config <= w <= hi + safe_move config.
Proof.
  intros Hhit Hweights. unfold calc_width.
  destruct (f_ltb _ _); [intros [= <-]; by left|].
  cbv zeta. rewrite cast_rays_survivors.
  destruct (survivors _ _ _ _ _ _ _ _ _ _ _ _) as [all|] eqn:E;
    cbn [mbind option_bind]; [|discriminate].
  cbn [a_widths a_weights a_sum_width a_sq_sum_width app].
  rewrite width_statistics_survivors. intros [= <-].
  apply (survivors_range lo hi _ _ _ _ _ _ _ Hhit Hweights) in E.
  unfold width_of_survivors.
  destruct all as [|s1 [|s2 all]]; [by left| |].
  { right. left. by apply Forall_inv in E as [? _]. }
  set (ss := s1 :: s2 :: all) in *.
  set (kept := List.filter (passes_deviation config ss) ss).
  assert (Forall (fun s => lo <= sv_distance s <= hi /\ 0 <= sv_weight s) kept)
    as Hkept.
  { rewrite Forall_forall in E. apply Forall_forall. intros s Hs.
    apply E. apply list_elem_of_In in Hs. apply filter_In in Hs as [Hs _].
    by apply list_elem_of_In. }
  destruct (weighted_sum_range lo hi kept Hkept) as [Hw Hsum].
  change (@f_leb R R_scalar) with Rs.leb. change (@f_zero R R_scalar) with 0.
  unfold Rs.leb. destruct (Rle_dec (sum_from 0 (map sv_weight kept)) 0).
  - right. left. unfold mean, count_of. rsimpl. apply div_range.
    + rewrite length_map. apply IZR_lt. unfold ss. cbn [length]. lia.
    + apply sum_range. rewrite Forall_map.
      eapply Forall_impl; [exact E|]. by intros s [? _].
  - right. right. unfold weighted_mean. rsimpl.
    assert (lo <= sum_from 0 (map (fun s => sv_distance s * sv_weight s) kept)
                  / sum_from 0 (map sv_weight kept) <= hi);
      [apply div_range; [lra|exact Hsum]|lra].
Qed.
End Range.

(** Two rays of weight 1 that both hit at distance 3, no filtering, and a
    safe move of 1/2. *)
Definition two_rays : RaysConfig R :=
  mkRaysConfig 1 (1 / 2)
    [mkDirection (mkVec3 0 0 1) 1; mkDirection (mkVec3 0 0 1) 1] 0 0
    false false.

Definition hit_at_3 (_ : unit) (_ _ : Vec3r) : option (Hit R) :=
  Some (mkHit 0%Z 3).

Lemma calc_width_range_witness :
  exists w,
    calc_width unit hit_at_3 (fun _ => []) (fun _ _ v => v) (fun x => x)
      (mkVec3 0 0 0) (mkVec3 0 0 0) tt two_rays = Some w
    /\ (w = -1 \/ 3 <= w <= 3
        \/ 3 + safe_move two_rays <= w <= 3 + safe_move two_rays).
Proof.
  assert (exists w,
            calc_width unit hit_at_3 (fun _ => []) (fun _ _ v => v)
              (fun x => x) (mkVec3 0 0 0) (mkVec3 0 0 0) tt two_rays = Some w)
    as [w Hw].
  { unfold calc_width. destruct (f_ltb _ _); [by eexists|].
    cbv zeta. unfold two_rays at 3.
    cbn [dirs cast_rays cast_ray hit_at_3 angle_ok is_angle_filtering
         mbind option_bind two_rays].
    by eexists. }
  exists w. split; [exact Hw|].
  apply (calc_width_range unit hit_at_3 (fun _ => []) (fun _ _ v => v)
           (fun x => x) 3 3 (mkVec3 0 0 0) (mkVec3 0 0 0) tt two_rays w).
  - intros p ray hit [= <-]. cbn. lra.
  - repeat constructor; cbn; lra.
  - exact Hw.
Defined.
End CalcWidthR.

(** ** subdivide over the reals: which triangle is divided, and where *)

Module SubdivideChoice.
Import SubdivideR.
Local Open Scope R_scope.

(** X17.  Over the reals [is_dividable] answers true exactly when one of
    the three edges is longer than [max_length]: the tests on the sums of
    absolute coordinates only save square roots.  It leaves the edge
    vectors as they are, and after a true answer all three lengths are
    computed. *)
Theorem is_dividable_iff_long_edge (max_length : R) (e : Edges R) :
  let r := is_dividable e max_length in
  e_data r.2 = e_data e
  /\ (r.1 = true
      <-> max_length < norm (vnth (e_data e) 0)
          \/ max_length < norm (vnth (e_data e) 1)
          \/ max_length < norm (vnth (e_data e) 2))
  /\ (r.1 = true ->
      e_lengths r.2
      = mkVec3 (norm (vnth (e_data e) 0)) (norm (vnth (e_data e) 1))
               (norm (vnth (e_data e) 2))).
Proof.
  cbv zeta. assert (H := is_dividable_R max_length e). cbv zeta in H.
  destruct H as [Hdata H]. split; [exact Hdata|].
  destruct (is_dividable e max_length).1.
  - destruct H as [Hl Hlong]. split; [|by intros _].
    split; [by intros _|by intros _].
  - split; [|discriminate]. split; [discriminate|]. lra.
Qed.

(** X18.  Over the reals [get_divide_index] answers -1 exactly when none
    of the three tracked lengths is above [max_length]; otherwise it
    answers the corner 0, 1 or 2 of a longest tracked length, which is
    above [max_length]. *)
Theorem get_divide_index_longest (max_length : R) (tl : TriangleLengths R) :
  let divide_index := get_divide_index tl max_length in
  let l := tl_l tl in
  (divide_index = (-1)%Z
   <-> vnth l 0 <= max_length /\ vnth l 1 <= max_length
       /\ vnth l 2 <= max_length)
  /\ (divide_index <> (-1)%Z ->
      (divide_index = 0 \/ divide_index = 1 \/ divide_index = 2)%Z
      /\ max_length < vnth l divide_index
      /\ vnth l 0 <= vnth l divide_index
      /\ vnth l 1 <= vnth l divide_index
      /\ vnth l 2 <= vnth l divide_index).
Proof.
  cbv zeta. assert (H := get_divide_index_R max_length tl). cbv zeta in H.
  destruct H as [(Hi & H0 & H1 & H2) | (Hi & Hlong & Hnext & Hprev)].
  - rewrite Hi. split; [by split|]. by intros [].
  - split.
    + split.
      * intros E. rewrite E in Hi. lia.
      * intros (H0 & H1 & H2). exfalso.
        destruct Hi as [E | [E | E]]; rewrite E in Hlong;
          unfold vnth in *; lra.
    + intros _. split; [exact Hi|]. split; [exact Hlong|].
      destruct Hi as [E | [E | E]]; rewrite E in *;
        revert Hnext Hprev; eval_mod3; unfold vnth; intros; lra.
Qed.
End SubdivideChoice.

(** ** subdivide over the reals: the area of the mesh *)

Section DivideIndices.
Context {F : Type} {SF : Scalar F}.

(** The triangles that [divide] returns: the divided edge runs from corner
    [divide_index] to the next corner, the new vertex takes the place of
    one end in each of them. *)
Lemma divide_indices (tl : TriangleLengths F) (divide_index : Z)
    (max_length : F) (vertices : list (Vec3 F)) (ed : EdgeDivides)
    (d : divided F) :
  divide tl divide_index max_length vertices ed = Some d ->
  let vi0 := vnth (tl_indices tl) divide_index in
  let vi1 := vnth (tl_indices tl) ((divide_index + 1) mod 3) in
  let vi2 := vnth (tl_indices tl) ((divide_index + 2) mod 3) in
  tl_indices (d_first d) = mkVec3 vi0 (d_new_index d) vi2
  /\ tl_indices (d_second d) = mkVec3 (d_new_index d) vi1 vi2.
Proof.
  unfold divide.
  destruct (edge_key (vnth (tl_indices tl) divide_index)
              (vnth (tl_indices tl) ((divide_index + 1) mod 3)))
    as [key key_swap] eqn:Ekey.
  destruct (f_to_size_t (f_floor (f_div (vnth (tl_l tl) divide_index) max_length)))
    as [count|] eqn:Ecount; cbn [mbind option_bind]; [|discriminate].
  destruct (find_or_create key count (f_of_Z (count + 1)) vertices ed)
    as [[[vertices' ed'] vs]|] eqn:Efind; cbn [mbind option_bind];
    [|discriminate].
  destruct (vget vertices' (vnth (tl_indices tl) ((divide_index + 2) mod 3)))
    as [v2|]; cbn [mbind option_bind]; [|discriminate].
  match goal with
  | |- context [vget vertices' ?i] => destruct (vget vertices' i) as [vn|]
  end; cbn [mbind option_bind]; [|discriminate].
  destruct key_swap.
  all: intros H; injection H as <-.
  all: cbn [d_first d_second d_new_index tl_indices].
  all: split; reflexivity.
Qed.
End DivideIndices.

Module SubdivideArea.
Import SubdivideR MeasuresR.
Local Open Scope R_scope.

(** *** A triangle cut at a point of one of its edges *)

Lemma on_edge_reverse (pa pb : Vec3r) (t : R) :
  on_edge pb pa t = on_edge pa pb (1 - t).
Proof. apply vec3_eq; unfold on_edge, vadd, vscale, vsub; rsimpl; ring. Qed.

Lemma area_split_first (pa pb pc : Vec3r) (s : R) :
  0 <= s ->
  triangle_area pa (on_edge pa pb s) pc = triangle_area pa pb pc * s.
Proof.
  intros Hs. unfold triangle_area. rsimpl.
  set (X := vcross (vsub (on_edge pa pb s) pa) (vsub pc pa)).
  set (Y := vcross (vsub pb pa) (vsub pc pa)).
  assert (norm X = norm Y * s) as ->; [|lra].
  apply sqr_inj.
  - apply norm_nonneg.
  - apply Rmult_le_pos; [apply norm_nonneg|exact Hs].
  - replace (norm Y * s * (norm Y * s)) with (norm Y * norm Y * (s * s)) by ring.
    rewrite !norm_sqr. unfold X, Y, on_edge.
    unfold squaredNorm, vdot, vcross, vsub, vadd, vscale. rsimpl. ring.
Qed.

Lemma area_split_second (pa pb pc : Vec3r) (s : R) :
  s <= 1 ->
  triangle_area (on_edge pa pb s) pb pc = triangle_area pa pb pc * (1 - s).
Proof.
  intros Hs. unfold triangle_area. rsimpl.
  set (X := vcross (vsub pb (on_edge pa pb s)) (vsub pc (on_edge pa pb s))).
  set (Y := vcross (vsub pb pa) (vsub pc pa)).
  assert (norm X = norm Y * (1 - s)) as ->; [|lra].
  apply sqr_inj.
  - apply norm_nonneg.
  - apply Rmult_le_pos; [apply norm_nonneg|lra].
  - replace (norm Y * (1 - s) * (norm Y * (1 - s)))
      with (norm Y * norm Y * ((1 - s) * (1 - s))) by ring.
    rewrite !norm_sqr. unfold X, Y, on_edge.
    unfold squaredNorm, vdot, vcross, vsub, vadd, vscale. rsimpl. ring.
Qed.

(** The two parts of a triangle cut from [pc] to a point of the edge from
    [pa] to [pb] have the area of the triangle together. *)
Lemma area_split (pa pb pc : Vec3r) (s : R) :
  0 <= s <= 1 ->
  triangle_area pa (on_edge pa pb s) pc
  + triangle_area (on_edge pa pb s) pb pc
  = triangle_area pa pb pc.
Proof.
  intros [H0 H1]. rewrite area_split_first, area_split_second by assumption.
  ring.
Qed.

(** *** One call of divide *)

Lemma zrange_elem (from n j : Z) :
  j ∈ zrange from n -> (from <= j < from + n)%Z.
Proof.
  unfold zrange. intros H. apply list_elem_of_fmap in H as (k & -> & Hk).
  apply list_elem_of_In, in_seq in Hk. lia.
Qed.

(** The area of a triangle read from any of its corners. *)
Lemma area_indexed_rot (V : list Vec3r) (t : Vec3crd) (i : Z)
    (pa pb pc : Vec3r) :
  (i = 0 \/ i = 1 \/ i = 2)%Z ->
  vget V (vnth t i) = Some pa ->
  vget V (vnth t ((i + 1) mod 3)) = Some pb ->
  vget V (vnth t ((i + 2) mod 3)) = Some pc ->
  triangle_area_indexed t V = Some (triangle_area pa pb pc).
Proof.
  unfold triangle_area_indexed.
  intros [-> | [-> | ->]]; eval_mod3; intros Ha Hb Hc;
    rewrite ?Ha, ?Hb, ?Hc; cbn [mbind option_bind]; f_equal.
  - rewrite (triangle_area_rot pb pc pa). apply triangle_area_rot.
  - apply triangle_area_rot.
Qed.

Lemma area_indexed_mk (V : list Vec3r) (a b c : Z) (pa pb pc : Vec3r) :
  vget V a = Some pa -> vget V b = Some pb -> vget V c = Some pc ->
  triangle_area_indexed (mkVec3 a b c) V = Some (triangle_area pa pb pc).
Proof.
  intros Ha Hb Hc. unfold triangle_area_indexed.
  rewrite vnth_0, vnth_1, vnth_2, Ha, Hb, Hc. reflexivity.
Qed.

(** A call of [divide] on the longest edge of a triangle returns two
    triangles that have the area of the divided one together. *)
Lemma divide_area (max_length : R) (V : list Vec3r) (ed : EdgeDivides)
    (tl : TriangleLengths R) (divide_index : Z) (d : divided R) :
  0 < max_length ->
  tri_inv V tl -> reg_inv max_length V ed ->
  (divide_index = 0 \/ divide_index = 1 \/ divide_index = 2)%Z ->
  max_length < vnth (tl_l tl) divide_index ->
  vnth (tl_l tl) ((divide_index + 1) mod 3) <= vnth (tl_l tl) divide_index ->
  vnth (tl_l tl) ((divide_index + 2) mod 3) <= vnth (tl_l tl) divide_index ->
  divide tl divide_index max_length V ed = Some d ->
  exists a1 a2,
    triangle_area_indexed (tl_indices (d_first d)) (d_vertices d) = Some a1
    /\ triangle_area_indexed (tl_indices (d_second d)) (d_vertices d)
       = Some a2
    /\ triangle_area_indexed (tl_indices tl) V = Some (a1 + a2).
Proof.
  intros Hmax Htri Hreg Hdi HL Hlb Hlc Hdiv.
  destruct (divide_step max_length V ed tl divide_index d Hmax Htri Hreg Hdi
              HL Hlb Hlc Hdiv) as ([W HW] & _ & _ & _ & Hinv & _).
  destruct (divide_registry _ _ _ _ _ _ Hdiv) as (_ & _ & Hnew & Hkey & _).
  destruct (divide_indices _ _ _ _ _ _ Hdiv) as [E1 E2]. cbv zeta in E1, E2.
  destruct Hinv as (Hc1 & Hc & pf & ps & Hf & Hs & Hd & Hseq & _).
  destruct (tri_inv_rot V tl divide_index Htri Hdi)
    as (pa & pb & pc & Ha & Hb & Hc' & _).
  (* the new vertex is a point of the divided edge *)
  assert (exists t, 0 <= t <= 1
                    /\ vget (d_vertices d) (d_new_index d)
                       = Some (on_edge pf ps t)) as (t & Ht & Hn).
  { specialize (Hnew Hc1). unfold sequence_indices in Hnew.
    apply list_elem_of_fmap in Hnew as (j & Hj & Hjr).
    apply zrange_elem in Hjr.
    assert (count_between max_length pf ps = d_count d) as Hcount.
    { unfold count_between. by rewrite Hd. }
    exists (IZR (j + 1) / IZR (d_count d + 1)). split.
    - assert (0 < IZR (d_count d + 1)) as Hpos by (apply IZR_lt; lia).
      assert (0 <= IZR (j + 1)) as H0 by (apply IZR_le; lia).
      assert (IZR (j + 1) <= IZR (d_count d + 1)) as H1 by (apply IZR_le; lia).
      assert (0 < / IZR (d_count d + 1)) by (by apply Rinv_0_lt_compat).
      split.
      + apply Rmult_le_pos; lra.
      + apply Rmult_le_reg_r with (IZR (d_count d + 1)); [exact Hpos|].
        unfold Rdiv. rewrite Rmult_assoc, Rinv_l by lra. lra.
    - rewrite Hj, <- Hcount. apply Hseq. rewrite Hcount. lia. }
  assert (Ha' := vget_app V W _ _ Ha). assert (Hb' := vget_app V W _ _ Hb).
  assert (Hc'' := vget_app V W _ _ Hc'). rewrite <- HW in Ha', Hb', Hc''.
  (* the ends of the key are the two ends of the edge, in some order *)
  assert (exists s, 0 <= s <= 1
                    /\ vget (d_vertices d) (d_new_index d)
                       = Some (on_edge pa pb s)) as (s & Hs01 & Hpn).
  { rewrite Hkey in Hf, Hs. unfold key_of, edge_key in Hf, Hs.
    destruct (_ >? _)%Z; cbn [fst snd] in Hf, Hs.
    - rewrite Hb' in Hf. rewrite Ha' in Hs. injection Hf as <-.
      injection Hs as <-. exists (1 - t). split; [lra|].
      by rewrite <- on_edge_reverse.
    - rewrite Ha' in Hf. rewrite Hb' in Hs. injection Hf as <-.
      injection Hs as <-. by exists t. }
  exists (triangle_area pa (on_edge pa pb s) pc),
         (triangle_area (on_edge pa pb s) pb pc).
  split; [rewrite E1; by apply area_indexed_mk|].
  split; [rewrite E2; by apply area_indexed_mk|].
  rewrite (area_split pa pb pc s Hs01).
  by apply (area_indexed_rot V _ divide_index).
Qed.

(** *** The loops *)

Lemma area_indexed_app (V W : list Vec3r) (t : Vec3crd) (a : R) :
  triangle_area_indexed t V = Some a ->
  triangle_area_indexed t (V ++ W) = Some a.
Proof.
  unfold triangle_area_indexed.
  destruct (vget V (vnth t 0)) as [v0|] eqn:E0; cbn [mbind option_bind];
    [|discriminate].
  destruct (vget V (vnth t 1)) as [v1|] eqn:E1; cbn [mbind option_bind];
    [|discriminate].
  destruct (vget V (vnth t 2)) as [v2|] eqn:E2; cbn [mbind option_bind];
    [|discriminate].
  intros [= <-].
  by rewrite (vget_app V W _ _ E0), (vget_app V W _ _ E1),
    (vget_app V W _ _ E2).
Qed.

Lemma area_loop_cons (V : list Vec3r) (t : Vec3crd) (l : list Vec3crd)
    (A : R) :
  area_loop V 0 (t :: l) = Some A
  <-> exists a r,
        triangle_area_indexed t V = Some a /\ area_loop V 0 l = Some r
        /\ A = a + r.
Proof.
  cbn [area_loop].
  destruct (triangle_area_indexed t V) as [a|]; cbn [mbind option_bind].
  - rewrite area_loop_shift.
    destruct (area_loop V 0 l) as [r|]; cbn [fmap option_fmap option_map].
    + rsimpl. split.
      * intros [= <-]. exists a, r. repeat split; lra.
      * intros (a' & r' & [= <-] & [= <-] & ->). f_equal. lra.
    + split; [discriminate|]. by intros (? & ? & _ & ? & _).
  - split; [discriminate|]. by intros (? & ? & ? & _).
Qed.

Lemma area_loop_vertices_app (V W : list Vec3r) (l : list Vec3crd) :
  forall A, area_loop V 0 l = Some A -> area_loop (V ++ W) 0 l = Some A.
Proof.
  induction l as [|t l IH]; intros A; [done|].
  rewrite !area_loop_cons. intros (a & r & Ha & Hr & ->).
  exists a, r. split; [by apply area_indexed_app|]. split; [by apply IH|done].
Qed.

(** What the inner loop keeps: the triangle in hand, the queue, the stored
    triangles and any other triangles [rest] have the same area together
    when the loop is left, the queue being empty then. *)
Lemma divide_loop_area (max_length : R) (rest : list Vec3crd) (fuel : nat) :
  0 < max_length ->
  forall tl tls st st' A,
    reg_inv max_length (s_vertices st) (s_edge_divides st) ->
    tri_inv (s_vertices st) tl -> Forall (tri_inv (s_vertices st)) tls ->
    area_loop (s_vertices st) 0
      (tl_indices tl :: map tl_indices tls ++ s_indices st ++ rest) = Some A ->
    divide_loop fuel max_length tl tls st = Done st' ->
    area_loop (s_vertices st') 0 (s_indices st' ++ rest) = Some A.
Proof.
  intros Hmax. induction fuel as [|fuel IH];
    intros tl tls st st' A Hreg Htl Htls Harea; [discriminate|].
  cbn [divide_loop].
  destruct (get_divide_index_R max_length tl)
    as [(Hdi & _) | (Hdi & HL & Hlb & Hlc)].
  - rewrite Hdi. cbn [Z.ltb Z.compare].
    set (st1 := mkSub (s_vertices st) (s_edge_divides st)
                  (s_indices st ++ [tl_indices tl]) (s_divisions st)).
    destruct tls as [|front tls].
    + intros [= <-]. unfold st1. cbn [s_vertices s_indices]. rewrite <- Harea.
      apply area_loop_perm. cbn [map app]. rewrite <- app_assoc. cbn [app].
      symmetry. apply Permutation_middle.
    + apply Forall_cons in Htls as [Hfront Htls].
      intros Hrun. refine (IH front tls st1 st' A Hreg Hfront Htls _ Hrun).
      unfold st1. cbn [s_vertices s_indices]. rewrite <- Harea.
      apply area_loop_perm. cbn [map].
      set (q := tl_indices front :: map tl_indices tls).
      transitivity ((q ++ s_indices st) ++ tl_indices tl :: rest).
      * unfold q. cbn [app]. rewrite <- !app_assoc. reflexivity.
      * change (tl_indices front :: map tl_indices tls ++ s_indices st ++ rest)
          with (q ++ s_indices st ++ rest).
        rewrite (app_assoc q). symmetry. apply Permutation_middle.
  - assert ((get_divide_index tl max_length <? 0)%Z = false) as ->
      by (apply Z.ltb_ge; lia).
    destruct (divide tl (get_divide_index tl max_length) max_length
                (s_vertices st) (s_edge_divides st)) as [d|] eqn:Hdiv;
      [|discriminate].
    destruct (divide_step _ _ _ _ _ _ Hmax Htl Hreg Hdi HL Hlb Hlc Hdiv)
      as ([W HW] & Hreg' & Ht1 & Ht2 & _ & _).
    destruct (divide_area _ _ _ _ _ _ Hmax Htl Hreg Hdi HL Hlb Hlc Hdiv)
      as (a1 & a2 & Ha1 & Ha2 & Ha).
    apply area_loop_cons in Harea as (a & r & Ha' & Hr & ->).
    rewrite Ha in Ha'. injection Ha' as <-.
    apply (area_loop_vertices_app _ W) in Hr. rewrite <- HW in Hr.
    intros Hrun. refine (IH _ _ _ st' (a1 + a2 + r) _ _ _ _ Hrun);
      cbn [s_vertices s_edge_divides s_indices].
    + exact Hreg'.
    + exact Ht1.
    + apply Forall_app. split; [|by constructor].
      rewrite HW. eapply Forall_impl; [exact Htls|].
      intros t. apply tri_inv_app.
    + apply area_loop_cons. exists a1, (a2 + r). split; [exact Ha1|].
      split; [|lra].
      rewrite map_app. cbn [map]. rewrite <- app_assoc. cbn [app].
      rewrite <- (area_loop_perm _ _ _ (Permutation_middle _ _ _)).
      apply area_loop_cons. exists a2, r. by split.
Qed.

Lemma subdivide_triangle_area (max_length : R) (V0 : list Vec3r)
    (rest : list Vec3crd) (fuel : nat) (t : Vec3crd) (st st' : sub_state R)
    (A : R) :
  0 < max_length ->
  state_inv max_length V0 st ->
  area_loop (s_vertices st) 0 (t :: s_indices st ++ rest) = Some A ->
  subdivide_triangle fuel max_length V0 t st = Done st' ->
  area_loop (s_vertices st') 0 (s_indices st' ++ rest) = Some A.
Proof.
  intros Hmax Hst Harea. unfold subdivide_triangle, Edges_new.
  destruct (vget V0 (vnth t 0)) as [p0|] eqn:E0; cbn [mbind option_bind];
    [|discriminate].
  destruct (vget V0 (vnth t 1)) as [p1|] eqn:E1; cbn [mbind option_bind];
    [|discriminate].
  destruct (vget V0 (vnth t 2)) as [p2|] eqn:E2; cbn [mbind option_bind];
    [|discriminate].
  match goal with
  | |- context [is_dividable ?e _] => set (edges := e)
  end.
  assert (Hdiv := is_dividable_R max_length edges). cbv zeta in Hdiv.
  destruct (is_dividable edges max_length) as [dividable edges'].
  cbn [fst snd] in Hdiv. destruct Hdiv as [_ Hdiv].
  destruct (si_prefix _ _ _ Hst) as [W HW].
  destruct dividable; cbn [negb].
  - destruct Hdiv as [Hdiv _].
    apply (divide_loop_area max_length rest fuel Hmax _ [] st st' A).
    + exact (si_reg _ _ _ Hst).
    + exists p0, p1, p2. cbn [tl_indices tl_l]. rewrite Hdiv, HW.
      split; [by apply vget_app|]. split; [by apply vget_app|].
      split; [by apply vget_app|]. done.
    + constructor.
    + exact Harea.
  - intros [= <-]. cbn [s_vertices s_indices]. rewrite <- Harea.
    apply area_loop_perm. rewrite <- app_assoc. cbn [app].
    symmetry. apply Permutation_middle.
Qed.

Lemma subdivide_triangles_area (max_length : R) (V0 : list Vec3r)
    (fuel : nat) (triangles : list Vec3crd) :
  0 < max_length ->
  forall st st' A,
    state_inv max_length V0 st ->
    area_loop (s_vertices st) 0 (s_indices st ++ triangles) = Some A ->
    subdivide_triangles fuel max_length V0 triangles st = Done st' ->
    area_loop (s_vertices st') 0 (s_indices st') = Some A.
Proof.
  intros Hmax. induction triangles as [|t triangles IH];
    intros st st' A Hst Harea; cbn [subdivide_triangles].
  - intros [= <-]. by rewrite app_nil_r in Harea.
  - destruct (subdivide_triangle fuel max_length V0 t st) as [st1| | |] eqn:E;
      try discriminate.
    apply (IH st1 st' A).
    + by eapply subdivide_triangle_inv.
    + apply (subdivide_triangle_area max_length V0 triangles fuel t st st1 A
               Hmax Hst); [|exact E].
      rewrite <- Harea. apply area_loop_perm. apply Permutation_middle.
Qed.

(** X19.  Over the reals and for a positive [max_length]: when
    [subdivide] returns, the input mesh has an area and the result has the
    same area.  Every division cuts a triangle along the segment from a
    point of its longest edge to the opposite corner. *)
Theorem subdivide_keeps_area (max_length : R) (fuel : nat)
    (its result : indexed_triangle_set R) :
  0 < max_length ->
  subdivide fuel its max_length = Done result ->
  exists A, area its = Some A /\ area result = Some A.
Proof.
  intros Hmax. unfold subdivide.
  destruct (subdivide_run fuel its max_length) as [st| | |] eqn:Hrun;
    try discriminate.
  intros [= <-]. unfold subdivide_run in Hrun.
  destruct (subdivide_triangles_shape _ _ _ _ _ _ Hrun) as (Hin & _).
  { split; cbn; [reflexivity|constructor]. }
  destruct (proj2 (area_loop_defined (its_vertices its) (its_indices its) 0)
              Hin) as [A HA].
  exists A. split; [exact HA|].
  unfold area. cbn [its_vertices its_indices].
  apply (subdivide_triangles_area max_length (its_vertices its) fuel
           (its_indices its) Hmax _ st A) in Hrun; [exact Hrun| |exact HA].
  split; cbn; try constructor.
  - exists []. by rewrite app_nil_r.
  - intros key vs H. by rewrite lookup_empty in H.
Qed.

Lemma subdivide_keeps_area_witness :
  exists fuel result A,
    subdivide fuel SubdivideSpec.tie_mesh 4 = Done result
    /\ area SubdivideSpec.tie_mesh = Some A /\ area result = Some A.
Proof.
  destruct (SubdivideSpec.subdivide_run_done 4 5 SubdivideSpec.tie_mesh
              ltac:(lra) (SubdivideSpec.casts_defined 5 4 ltac:(lra) ltac:(lra))
              SubdivideSpec.tie_mesh_within) as [st Hrun].
  assert (subdivide (run_fuel 4 SubdivideSpec.tie_mesh) SubdivideSpec.tie_mesh 4
          = Done (mkIts (s_indices st) (s_vertices st))) as Hsub.
  { unfold subdivide. by rewrite Hrun. }
  destruct (subdivide_keeps_area 4 (run_fuel 4 SubdivideSpec.tie_mesh)
              SubdivideSpec.tie_mesh (mkIts (s_indices st) (s_vertices st))
              ltac:(lra) Hsub) as (A & HA & HA').
  exists (run_fuel 4 SubdivideSpec.tie_mesh),
         (mkIts (s_indices st) (s_vertices st)), A.
  split; [exact Hsub|]. by split.
Defined.
End SubdivideArea.

(** ** subdivide in binary32: a mesh on which it does not return *)

(** X20.  In binary32 there is a mesh on which [subdivide] never returns:
    on the right triangle with legs of length 2 at the coordinate 2^24 and
    with [max_length] 1.5, no number of iterations of the inner loop ends
    the call.  The midpoint of an edge is rounded onto one of its ends
    there, so a division gives back a triangle as large as the divided
    one. *)
Theorem subdivide_binary32_never_returns (fuel : nat) :
  subdivide fuel SubdivideRounding.coarse_mesh SubdivideRounding.coarse_max
  = Timeout.
Proof.
  unfold subdivide. rewrite SubdivideRounding.subdivide_run_start.
  by rewrite SubdivideRounding.coarse_loop_never_done.
Qed.

(** ** Poisson filter: the points it keeps are apart *)

Section PoissonSeparation.
Context {F : Type} {SF : Scalar F}.
Local Open Scope scalar_scope.
Variable std_sort :
  (PointRadius F -> PointRadius F -> bool) ->
  list (PointRadius F) -> list (PointRadius F).
Local Abbreviation sort_by_radius := (std_sort radius_less).

(** Modelled from the spec: [PointGrid3D], whose code is not part of the
    sources, as the points inserted so far; [collides_with] answers whether
    a stored point lies within the radius of the query point, and the cell
    size only organises the storage. *)
Definition points_new (cell_size : Vec3 F) : list (Vec3 F) := [].
Definition points_insert (g : list (Vec3 F)) (p : Vec3 F) : list (Vec3 F) :=
  p :: g.
Definition points_collides_with (g : list (Vec3 F)) (p : Vec3 F) (r : F)
  : bool :=
  existsb (fun q => norm (vsub p q) <? r) g.

Lemma points_grid_of (start : list (Vec3 F)) (accepted : list (PointRadius F)) :
  grid_of (list (Vec3 F)) points_insert start accepted
  = rev (map pr_point accepted) ++ start.
Proof.
  unfold grid_of. revert start.
  induction accepted as [|s accepted IH]; intros start; cbn [map fold_left rev].
  - reflexivity.
  - rewrite IH. unfold points_insert. by rewrite <- app_assoc.
Qed.

Lemma points_free (g : list (Vec3 F)) (p : Vec3 F) (r : F) :
  points_collides_with g p r = false ->
  forall q, q ∈ g -> (norm (vsub p q) <? r) = false.
Proof.
  unfold points_collides_with. intros H q Hq.
  destruct (norm (vsub p q) <? r) eqn:E; [|reflexivity].
  rewrite <- H. symmetry. apply existsb_exists. exists q.
  split; [by apply list_elem_of_In|exact E].
Qed.

(** X21.  With the grid of the specification, whatever [std::sort]
    answers: a point that the filter keeps is not within its own radius of
    any point kept before it in the same call, nor of any point of the
    external grid. *)
Theorem poisson_points_apart (samples kept : list (PointRadius F))
    (grid : list (Vec3 F)) :
  poisson_sphere_from_samples (list (Vec3 F)) points_new points_insert
    points_collides_with std_sort samples grid = Some kept ->
  forall pre s post, kept = pre ++ s :: post ->
    (forall q, q ∈ pre ->
       (norm (vsub (pr_point s) (pr_point q)) <? pr_radius s) = false)
    /\ (forall q, q ∈ grid ->
          (norm (vsub (pr_point s) q) <? pr_radius s) = false).
Proof.
  unfold poisson_sphere_from_samples.
  destruct (last (sort_by_radius samples)) as [back|];
    cbn [mbind option_bind]; [|discriminate].
  set (cell := mkVec3 _ _ _).
  destruct (poisson_loop_accepts (list (Vec3 F)) points_insert
              points_collides_with grid (sort_by_radius samples)
              (points_new cell) []) as (acc & -> & _ & Hfree).
  cbn [app]. intros [= <-] pre s post Hsplit.
  destruct (Hfree pre s post Hsplit) as [Hext Hact].
  rewrite points_grid_of in Hact. split.
  - intros q Hq. apply (points_free _ _ _ Hact).
    apply list_elem_of_In, in_or_app. left. apply -> in_rev.
    apply in_map. by apply list_elem_of_In.
  - intros q Hq. by apply (points_free _ _ _ Hext).
Qed.
End PoissonSeparation.

Lemma poisson_points_apart_witness :
  poisson_sphere_from_samples (list (Vec3 B32.float)) points_new
    points_insert points_collides_with Examples.isort PoissonRuns.candidates
    PoissonRuns.external_grid = Some PoissonRuns.kept
  /\ forall pre s post, PoissonRuns.kept = pre ++ s :: post ->
       (forall q, q ∈ pre ->
          f_ltb (norm (vsub (pr_point s) (pr_point q))) (pr_radius s) = false)
       /\ (forall q, q ∈ PoissonRuns.external_grid ->
             f_ltb (norm (vsub (pr_point s) q)) (pr_radius s) = false).
Proof.
  split; [vm_compute; reflexivity|].
  apply (poisson_points_apart Examples.isort PoissonRuns.candidates
           PoissonRuns.kept PoissonRuns.external_grid).
  vm_compute. reflexivity.
Defined.

(** ** sample_tiny_parts over the reals: where the points lie *)

Module PipelineR.
Import SubdivideR SamplerR.
Local Open Scope R_scope.

Section OnSurface.
Variable remove_small_edges :
  indexed_triangle_set R -> R -> R -> indexed_triangle_set R.
Variable NormalType : Type.
Variable create_triangle_normals : indexed_triangle_set R -> list Vec3r.
Variable create_normals : indexed_triangle_set R -> NormalType -> list Vec3r.
Variable Tree : Type.
Variable build_aabb_tree : list Vec3r -> list Vec3crd -> Tree.
Variable intersect_ray_first_hit :
  list Vec3r -> list Vec3crd -> Tree -> Vec3r -> Vec3r -> option (Hit R).
Variable angle_axis : R -> Vec3r -> Vec3r -> Vec3r.
Variable acos : R -> R.
Variable Rng : Type.
Variable uniform01 : Rng -> R * Rng.
Variable PointGrid3D : Type.
Variable grid_new : Vec3r -> PointGrid3D.
Variable grid_insert : PointGrid3D -> Vec3r -> PointGrid3D.
Variable collides_with : PointGrid3D -> Vec3r -> R -> bool.
Variable std_sort :
  (PointRadius R -> PointRadius R -> bool) ->
  list (PointRadius R) -> list (PointRadius R).
Local Abbreviation sort_by_radius := (std_sort radius_less).

Hypothesis uniform01_range : forall g, 0 <= (uniform01 g).1 <= 1.
Hypothesis sort_keeps : forall l x, x ∈ sort_by_radius l -> x ∈ l.

(** X22.  Over the reals, with draws between 0 and 1 and a sort that
    answers samples it was given: when [sample_tiny_parts] answers, the
    mesh was divided, [calc_widths] answered the widths of the vertices of
    the divided mesh, the sampler answered samples for these widths, and
    the filter kept some of them; the points of the answer are the
    positions of the kept samples, in their order, and every kept sample
    lies on a triangle of the divided mesh, as a combination of its
    vertices with coefficients that are not negative and add up to 1,
    where the three widths that [calc_widths] answered for the corners of
    that triangle are inside the needs, and its radius is the same
    combination of the radiuses of these three widths. *)
Theorem sample_tiny_parts_on_surface (fuel : nat) (ndebug : bool)
    (its : indexed_triangle_set R) (grid : PointGrid3D)
    (config : Config R NormalType) (random_generator : Rng)
    (points : list Vec3r) (g : Rng) :
  sample_tiny_parts remove_small_edges NormalType create_triangle_normals
    create_normals Tree build_aabb_tree intersect_ray_first_hit angle_axis
    acos Rng uniform01 PointGrid3D grid_new grid_insert collides_with
    std_sort fuel ndebug its grid config random_generator
  = Done (points, g) ->
  let simplified :=
    connect_small_triangles remove_small_edges its (cfg_min_length config)
      (cfg_max_error config) in
  let tree :=
    mkAABBTree simplified (create_triangle_normals its)
      (build_aabb_tree (its_vertices its) (its_indices its)) in
  exists divided widths st kept,
    subdivide fuel simplified (cfg_max_length config) = Done divided
    /\ pipeline_widths NormalType create_normals Tree intersect_ray_first_hit
         angle_axis acos ndebug tree divided config = Done widths
    /\ generate_support_points Rng uniform01 ndebug divided widths
         (cfg_sample config) random_generator = Done st
    /\ poisson_sphere_from_samples PointGrid3D grid_new grid_insert
         collides_with std_sort (sp_result st) grid = Some kept
    /\ points = map pr_point kept
    /\ g = sp_rng st
    /\ Forall (sampled_on divided widths (cfg_sample config)) kept.
Proof using uniform01_range sort_keeps.
  intros Hrun simplified tree. revert Hrun. unfold sample_tiny_parts.
  fold simplified. fold tree.
  destruct (subdivide fuel _ _) as [divided| | |] eqn:Esub;
    cbn [outcome_bind]; try discriminate.
  destruct (pipeline_widths _ _ _ _ _ _ _ _ _ _) as [widths| | |] eqn:Ew;
    cbn [outcome_bind]; try discriminate.
  destruct (generate_support_points _ _ _ _ _ _ _) as [st| | |] eqn:Egen;
    cbn [outcome_bind]; try discriminate.
  destruct (poisson_sphere_from_samples _ _ _ _ _ _ _) as [kept|] eqn:Ep;
    cbn [of_option outcome_bind]; [|discriminate].
  intros [= <- <-]. exists divided, widths, st, kept.
  split; [reflexivity|]. split; [exact Ew|]. split; [exact Egen|].
  split; [exact Ep|]. split; [reflexivity|]. split; [reflexivity|].
  apply poisson_result in Ep as [_ Hsub].
  assert (Forall (sampled_on divided widths (cfg_sample config))
            (sp_result st)) as Hon.
  { revert Egen. unfold generate_support_points, assert.
    destruct (ndebug || _); [|discriminate].
    destruct (sample_triangles _ _ _ _ _ _ _) as [st'|] eqn:E;
      cbn [of_option]; [|discriminate].
    intros [= <-].
    apply (sample_triangles_on_mesh Rng uniform01 uniform01_range divided
             widths (cfg_sample config) (its_indices divided)
             ltac:(done) _ _ E).
    constructor. }
  rewrite Forall_forall in Hon. apply Forall_forall.
  intros pr Hpr. apply Hon, sort_keeps. by eapply elem_of_sublist.
Qed.
End OnSurface.

(** Stand-ins for what the pipeline calls outside the sources: a
    simplifier that finds nothing to remove, normals without a direction,
    a tree in which every ray hits triangle 0 at distance 1, a grid in
    which nothing collides and a sort that finds its input sorted. *)
Definition keep_mesh (its : indexed_triangle_set R) (_ _ : R)
  : indexed_triangle_set R := its.
Definition flat_normals (its : indexed_triangle_set R) (_ : unit)
  : list Vec3r := map (fun _ => mkVec3 0 0 0) (its_vertices its).
Definition hit_at_1 (_ : list Vec3r) (_ : list Vec3crd) (_ : unit)
    (_ _ : Vec3r) : option (Hit R) := Some (mkHit 0%Z 1).
Definition one_ray : RaysConfig R :=
  mkRaysConfig 1 0 [mkDirection (mkVec3 0 0 1) 1] 0 0 false false.
Definition never_collides (_ : unit) (_ : Vec3r) (_ : R) : bool := false.

Lemma flat_width (point : Vec3r) (tree : AABBTree R unit) :
  calc_width (AABBTree R unit) (tree_hit unit hit_at_1) tree_triangle_normals
    (fun _ _ v => v) (fun x => x) point (mkVec3 0 0 0) tree one_ray = Some 1.
Proof.
  unfold calc_width. cbn [normal_z_max one_ray v_z].
  change (@f_ltb R R_scalar) with Rs.ltb.
  assert (Rs.ltb 1 0 = false) as -> by (apply ltb_false; lra).
  cbv zeta.
  cbn [dirs cast_rays cast_ray tree_hit hit_at_1 angle_ok is_angle_filtering
       mbind option_bind a_widths a_weights app width_statistics hit_t].
  reflexivity.
Qed.

(** *** A run that divides the mesh *)

Lemma norm_value (x y z v : R) :
  0 <= v -> x * x + y * y + z * z = v * v -> norm (mkVec3 x y z : Vec3 R) = v.
Proof.
  intros Hv H. unfold norm, squaredNorm, vdot. rsimpl. rewrite H.
  by apply sqrt_square.
Qed.

Ltac rcmp :=
  repeat match goal with
         | |- context [Rs.ltb ?a ?b] =>
           first [ rewrite (proj2 (ltb_true a b)) by lra
                 | rewrite (proj2 (ltb_false a b)) by lra ]
         | |- context [Rs.leb ?a ?b] =>
           first [ rewrite (proj2 (leb_true a b)) by lra
                 | rewrite (proj2 (leb_false a b)) by lra ]
         end.

Ltac eval_vget :=
  repeat match goal with
         | |- context [vget ?l ?i] =>
           let v := eval cbv [vget Z.ltb Z.compare Z.to_nat Pos.to_nat
                              Pos.iter_op Init.Nat.add lookup list_lookup]
                    in (vget l i) in
           progress change (vget l i) with v
         end.

Definition right_mesh : indexed_triangle_set R :=
  mkIts [mkVec3 0 1 2]%Z [mkVec3 0 0 0; mkVec3 4 0 0; mkVec3 0 3 0].

Definition right_divided : indexed_triangle_set R :=
  mkIts [mkVec3 1 3 0; mkVec3 3 2 0]%Z
        [mkVec3 0 0 0; mkVec3 4 0 0; mkVec3 0 3 0; mkVec3 2 (3 / 2) 0].

Lemma divide_loop_emit (fuel : nat) (max_length : R) (tl : TriangleLengths R)
    (tls : list (TriangleLengths R)) (st : sub_state R) :
  get_divide_index tl max_length = (-1)%Z ->
  divide_loop (S fuel) max_length tl tls st
  = let st' := mkSub (s_vertices st) (s_edge_divides st)
                     (s_indices st ++ [tl_indices tl]) (s_divisions st) in
    match tls with
    | [] => Done st'
    | front :: tls => divide_loop fuel max_length front tls st'
    end.
Proof. intros H. cbn [divide_loop]. rewrite H. reflexivity. Qed.

Lemma divide_loop_divide (fuel : nat) (max_length : R) (tl : TriangleLengths R)
    (tls : list (TriangleLengths R)) (st : sub_state R) (i : Z)
    (d : divided R) :
  get_divide_index tl max_length = i -> (0 <= i)%Z ->
  divide tl i max_length (s_vertices st) (s_edge_divides st) = Some d ->
  divide_loop (S fuel) max_length tl tls st
  = divide_loop fuel max_length (d_first d) (tls ++ [d_second d])
      (mkSub (d_vertices d) (d_edge_divides d) (s_indices st)
             (s_divisions st ++ [d])).
Proof.
  intros Hi Hpos Hd. cbn [divide_loop]. rewrite Hi.
  destruct (Z.ltb_spec i 0); [lia|]. by rewrite Hd.
Qed.

Lemma get_divide_index_value (l0 l1 l2 max_length : R) (t : Vec3crd) (i : Z) :
  (i = (if Rs.ltb l1 l0 && Rs.ltb l2 l0
        then if Rs.ltb max_length l0 then 0 else -1
        else if Rs.ltb l2 l1
             then if Rs.ltb max_length l1 then 1 else -1
             else if Rs.ltb max_length l2 then 2 else -1)%Z) ->
  get_divide_index (mkTL t (mkVec3 l0 l1 l2)) max_length = i.
Proof. intros ->. reflexivity. Qed.

Lemma right_divide :
  exists d,
    divide (mkTL (mkVec3 0 1 2)%Z (mkVec3 4 5 3)) 1 4
      [mkVec3 0 0 0; mkVec3 4 0 0; mkVec3 0 3 0] ∅ = Some d
    /\ d_first d = mkTL (mkVec3 1 3 0)%Z (mkVec3 (5 / 2) (5 / 2) 4)
    /\ d_second d = mkTL (mkVec3 3 2 0)%Z (mkVec3 (5 / 2) 3 (5 / 2))
    /\ d_vertices d
       = [mkVec3 0 0 0; mkVec3 4 0 0; mkVec3 0 3 0; mkVec3 2 (3 / 2) 0].
Proof.
  unfold divide. cbn [tl_indices tl_l]. eval_mod3.
  rewrite ?vnth_0, ?vnth_1, ?vnth_2.
  change (edge_key 1 2) with ((1, 2)%Z, false).
  assert (f_to_size_t (f_floor (f_div 5 4)) = Some 1%Z) as ->.
  { apply floor_to_size_t. split; [|lia]. symmetry. apply int_part_unique.
    rsimpl. lra. }
  cbn [mbind option_bind]. unfold find_or_create. rewrite lookup_empty.
  cbn [fst snd].
  change (vget [mkVec3 0 0 0; mkVec3 4 0 0; mkVec3 0 3 0] 1)
    with (Some (mkVec3 4 0 0 : Vec3 R)).
  change (vget [mkVec3 0 0 0; mkVec3 4 0 0; mkVec3 0 3 0] 2)
    with (Some (mkVec3 0 3 0 : Vec3 R)).
  cbn [mbind option_bind].
  unfold new_edge_vertices. change (zrange 1 1) with [1%Z].
  cbn [map app length start_index positive_order].
  change (Z.of_nat 3) with 3%Z.
  change (1 mod 2 =? 0)%Z with false. cbn [andb].
  change (1 / 2)%Z with 0%Z. change (3 + 1 * 0)%Z with 3%Z.
  change (1 + 0)%Z with 1%Z. change (1 + 1)%Z with 2%Z.
  change (0 >? 0)%Z with false.
  change (size_t_of_int 0 <? size_t_of_int (1 - 1))%Z with false.
  eval_vget. cbn [mbind option_bind].
  eexists. split; [reflexivity|]. cbn [d_first d_second d_vertices].
  assert (Hn : norm (vsub (mkVec3 0 0 0)
                       (vadd (mkVec3 4 0 0)
                          (vscale (vsub (mkVec3 0 3 0) (mkVec3 4 0 0))
                             (f_div (f_of_Z 1) (f_of_Z 2))))) = 5 / 2).
  { unfold vsub, vadd, vscale. rsimpl. apply norm_value; [lra|field]. }
  rewrite Hn. rsimpl. unfold vsub, vadd, vscale. rsimpl.
  repeat split; repeat f_equal; field.
Qed.

Lemma right_mesh_divided : subdivide 3 right_mesh 4 = Done right_divided.
Proof.
  unfold subdivide, subdivide_run.
  cbn [its_indices its_vertices right_mesh subdivide_triangles].
  unfold subdivide_triangle, Edges_new. rewrite vnth_0, vnth_1, vnth_2.
  eval_vget. cbn [mbind option_bind].
  match goal with |- context [is_dividable ?e _] => set (edges := e) end.
  assert (Hdiv := is_dividable_R 4 edges). cbv zeta in Hdiv.
  destruct (is_dividable edges 4) as [dividable edges'].
  cbn [fst snd] in Hdiv. destruct Hdiv as [_ Hdiv].
  assert (N0 : norm (vnth (e_data edges) 0) = 4).
  { unfold edges. cbn [e_data]. rewrite vnth_0. unfold vsub. rsimpl.
    apply norm_value; lra. }
  assert (N1 : norm (vnth (e_data edges) 1) = 5).
  { unfold edges. cbn [e_data]. rewrite vnth_1. unfold vsub. rsimpl.
    apply norm_value; lra. }
  assert (N2 : norm (vnth (e_data edges) 2) = 3).
  { unfold edges. cbn [e_data]. rewrite vnth_2. unfold vsub. rsimpl.
    apply norm_value; lra. }
  rewrite N0, N1, N2 in Hdiv.
  destruct dividable; [|exfalso; lra]. destruct Hdiv as [-> _].
  cbn [negb]. clear edges N0 N1 N2.
  destruct right_divide as (d & Hd & H1 & H2 & HV).
  rewrite (divide_loop_divide _ _ _ _ _ 1 d); cycle 1.
  { apply get_divide_index_value. rcmp. reflexivity. }
  { lia. }
  { exact Hd. }
  rewrite H1, H2, HV. cbn [app s_indices s_divisions].
  rewrite divide_loop_emit
    by (apply get_divide_index_value; rcmp; reflexivity).
  cbv zeta. cbn [s_vertices s_edge_divides s_indices s_divisions tl_indices app].
  rewrite divide_loop_emit
    by (apply get_divide_index_value; rcmp; reflexivity).
  reflexivity.
Qed.


(** The sampler on a triangle with the widths 1 at its corners whose area
    makes the count of points one. *)
Lemma sample_triangle_single (its : indexed_triangle_set R) (widths : list R)
    (t : Vec3crd) (v0 v1 v2 : Vec3 R) (c m : R)
    (st : sampler_state R unit) :
  vget widths (vnth t 0) = Some 1 -> vget widths (vnth t 1) = Some 1 ->
  vget widths (vnth t 2) = Some 1 ->
  vget (its_vertices its) (vnth t 0) = Some v0 ->
  vget (its_vertices its) (vnth t 1) = Some v1 ->
  vget (its_vertices its) (vnth t 2) = Some v2 ->
  vcross (vsub v1 v0) (vsub v2 v0) = mkVec3 0 0 c -> 0 < c ->
  c / 2 / PI * m = 1 ->
  exists pr,
    sample_triangle unit quarter its widths (mkSampleConfig 0 2 0 2 m 2) t st
    = Some (mkSampler (sp_result st ++ [pr]) tt).
Proof.
  intros W0 W1 W2 V0 V1 V2 Hcross Hc Hcount. destruct st as [result []].
  set (cfg := mkSampleConfig 0 2 0 2 m 2).
  assert (Hpi := PI_RGT_0).
  unfold sample_triangle. cbn [needs_loop]. rewrite W0, W1, W2.
  cbn [mbind option_bind].
  assert (width_out_of_needs cfg 1 = false) as ->.
  { unfold width_out_of_needs, cfg. cbn [max_width]. rsimpl. by rcmp. }
  assert (width_to_radius cfg 1 = 1) as ->.
  { unfold width_to_radius, cfg.
    cbn [max_width min_width max_radius min_radius]. rsimpl. field. }
  unfold triangle_area_indexed. rewrite V0, V1, V2.
  cbn [mbind option_bind negb].
  assert (Hsqrt : sqrt (c * c) = c) by (apply sqrt_square; lra).
  assert (triangle_area v0 v1 v2 = c / 2) as ->.
  { unfold triangle_area. rewrite Hcross. unfold norm, squaredNorm, vdot.
    rsimpl. replace (0 * 0 + 0 * 0 + c * c) with (c * c) by ring.
    by rewrite Hsqrt. }
  match goal with
  | |- context [f_trunc ?x] => replace x with 1
  end.
  2:{ unfold cfg. cbn [multiplicator]. rsimpl.
      etransitivity; [symmetry; exact Hcount|]. field. lra. }
  change (f_trunc 1) with (IZR (Rs.trunc_Z 1)).
  change (f_to_int (IZR (Rs.trunc_Z 1)))
    with (Rs.to_integer (- 2 ^ 31) (2 ^ 31) (IZR (Rs.trunc_Z 1))).
  rewrite trunc_one. unfold Rs.to_integer. rewrite trunc_one.
  change ((- 2 ^ 31 <=? 1)%Z && (1 <? 2 ^ 31)%Z) with true.
  cbn [mbind option_bind]. unfold quarter at 1. cbn [sp_rng sp_result].
  change (@f_ltb R R_scalar) with Rs.ltb.
  change (@f_sub R R_scalar) with Rminus.
  assert (Rs.ltb (1 / 4) (1 - 1) = false) as -> by (apply ltb_false; lra).
  cbn [Z.eqb].
  rewrite Hcross.
  assert (Rs.ltb (sample_normal_z_max cfg)
            (v_z (normalize (mkVec3 0 0 c : Vec3 R))) = false) as ->.
  { unfold normalize, squaredNorm, vdot, cfg.
    cbn [sample_normal_z_max]. rsimpl.
    replace (0 * 0 + 0 * 0 + c * c) with (c * c) by ring. rewrite Hsqrt.
    assert (Rs.ltb 0 (c * c) = true) as -> by (apply ltb_true; nra).
    cbn [v_z]. apply ltb_false.
    replace (c / c) with 1 by (field; lra). lra. }
  change (Z.to_nat 1) with 1%nat.
  cbn [scatter]. unfold quarter. cbn [sp_rng sp_result app].
  match goal with
  | |- context [if ?c then (_, _) else _] =>
    assert (c = false) as -> by (apply ltb_false; rsimpl; lra)
  end.
  eexists. reflexivity.
Qed.

(** The right triangle with the sides 3, 4 and 5, which [max_length] 4
    divides once, at the middle of its longest side. *)
Definition right_pipeline : Config R unit :=
  mkConfig 0 0 4 tt one_ray (mkSampleConfig 0 2 0 2 (PI / 3) 2).

Definition right_sample :=
  sample_tiny_parts keep_mesh unit (fun _ => []) flat_normals unit
    (fun _ _ => tt) hit_at_1 (fun _ _ v => v) (fun x => x) unit quarter
    unit (fun _ => tt) (fun g _ => g) never_collides (fun _ l => l)
    3 false right_mesh tt right_pipeline tt.

Lemma right_sample_run :
  exists p1 p2,
    right_sample = Done ([pr_point p1; pr_point p2], tt)
    /\ generate_support_points unit quarter false right_divided [1; 1; 1; 1]
         (cfg_sample right_pipeline) tt = Done (mkSampler [p1; p2] tt).
Proof.
  assert (Hpi := PI_RGT_0).
  assert (Hgen : exists p1 p2,
            generate_support_points unit quarter false right_divided
              [1; 1; 1; 1] (cfg_sample right_pipeline) tt
            = Done (mkSampler [p1; p2] tt)).
  { unfold generate_support_points, assert.
    cbn [orb length its_vertices right_divided Nat.eqb its_indices
         sample_triangles cfg_sample right_pipeline].
    destruct (sample_triangle_single right_divided [1; 1; 1; 1]
                (mkVec3 1 3 0)%Z (mkVec3 4 0 0) (mkVec3 2 (3 / 2) 0)
                (mkVec3 0 0 0) 6 (PI / 3) (mkSampler [] tt))
      as [p1 ->]; try reflexivity.
    { unfold vcross, vsub. rsimpl. f_equal; field. }
    { lra. }
    { field. lra. }
    cbn [mbind option_bind sp_result app].
    destruct (sample_triangle_single right_divided [1; 1; 1; 1]
                (mkVec3 3 2 0)%Z (mkVec3 2 (3 / 2) 0) (mkVec3 0 3 0)
                (mkVec3 0 0 0) 6 (PI / 3) (mkSampler [p1] tt))
      as [p2 ->]; try reflexivity.
    { unfold vcross, vsub. rsimpl. f_equal; field. }
    { lra. }
    { field. lra. }
    cbn [mbind option_bind sp_result app of_option]. by exists p1, p2. }
  destruct Hgen as (p1 & p2 & Hgen). exists p1, p2. split; [|exact Hgen].
  unfold right_sample, sample_tiny_parts, connect_small_triangles, keep_mesh.
  cbn [cfg_max_length right_pipeline]. rewrite right_mesh_divided.
  cbn [outcome_bind]. unfold pipeline_widths, calc_widths, assert.
  cbn [its_vertices right_divided flat_normals map length Nat.eqb negb orb
       cfg_rays right_pipeline dirs one_ray cfg_normal_type].
  cbn [calc_widths_loop]. rewrite !flat_width.
  cbn [mbind option_bind of_option outcome_bind cfg_sample].
  change (mkSampleConfig 0 2 0 2 (PI / 3) 2)
    with (cfg_sample right_pipeline).
  fold right_divided. rewrite Hgen. cbn [outcome_bind sp_result sp_rng].
  unfold poisson_sphere_from_samples.
  cbn [last mbind option_bind poisson_loop never_collides app of_option
       outcome_bind map].
  reflexivity.
Qed.

Lemma sample_tiny_parts_on_surface_witness :
  exists p1 p2,
    right_sample = Done ([pr_point p1; pr_point p2], tt)
    /\ exists divided widths st kept,
         subdivide 3 right_mesh 4 = Done divided
         /\ divided = right_divided
         /\ pipeline_widths unit flat_normals unit hit_at_1 (fun _ _ v => v)
              (fun x => x) false
              (mkAABBTree right_mesh [] tt) divided right_pipeline
            = Done widths
         /\ generate_support_points unit quarter false divided widths
              (cfg_sample right_pipeline) tt = Done st
         /\ poisson_sphere_from_samples unit (fun _ => tt) (fun g _ => g)
              never_collides (fun _ l => l) (sp_result st) tt = Some kept
         /\ [pr_point p1; pr_point p2] = map pr_point kept
         /\ tt = sp_rng st
         /\ Forall (sampled_on divided widths (cfg_sample right_pipeline))
              kept.
Proof.
  destruct right_sample_run as (p1 & p2 & Hrun & _). exists p1, p2.
  split; [exact Hrun|].
  destruct (sample_tiny_parts_on_surface keep_mesh unit (fun _ => [])
              flat_normals unit (fun _ _ => tt) hit_at_1 (fun _ _ v => v)
              (fun x => x) unit quarter unit (fun _ => tt) (fun g _ => g)
              never_collides (fun _ l => l)
              ltac:(intros g; cbn; lra) ltac:(intros l x Hx; exact Hx)
              3 false right_mesh tt right_pipeline tt
              [pr_point p1; pr_point p2] tt Hrun)
    as (divided & widths & st & kept & Hsub & Hw & Hgen & Hp & Hpts & Hg & Hon).
  exists divided, widths, st, kept.
  split; [exact Hsub|]. split.
  { change (connect_small_triangles keep_mesh right_mesh
              (cfg_min_length right_pipeline) (cfg_max_error right_pipeline))
      with right_mesh in Hsub.
    change (cfg_max_length right_pipeline) with 4 in Hsub.
    rewrite right_mesh_divided in Hsub. by injection Hsub. }
  split; [exact Hw|]. split; [exact Hgen|]. split; [exact Hp|].
  split; [exact Hpts|]. split; [exact Hg|exact Hon].
Defined.
End PipelineR.

(** ** Width estimator over the reals: the deviation filter keeps a ray *)

Module DeviationR.
Import SubdivideR CalcWidthR.
Local Open Scope R_scope.

(** The sum of the squared distances from any [m]. *)
Lemma sum_squares_from (m : R) (l : list R) :
  sum_from 0 (map (fun x => (x - m) * (x - m)) l)
  = sum_from 0 (map (fun x => x * x) l) - 2 * m * sum_from 0 l
    + IZR (Z.of_nat (length l)) * (m * m).
Proof.
  induction l as [|x l IH]; cbn [map length].
  - unfold sum_from. cbn [fold_left]. change (Z.of_nat 0) with 0%Z. lra.
  - rewrite !sum_from_cons, IH, Nat2Z.inj_succ, succ_IZR. ring.
Qed.

(** The variance as the source computes it is the mean of the squared
    distances from the mean. *)
Lemma variance_identity (l : list R) :
  l <> [] ->
  let n := IZR (Z.of_nat (length l)) in
  let m := sum_from 0 l / n in
  sum_from 0 (map (fun x => (x - m) * (x - m)) l)
  = n * (sum_from 0 (map (fun x => x * x) l) / n - m * m).
Proof.
  intros Hl n m. rewrite sum_squares_from. fold n.
  assert (0 < n) as Hn.
  { unfold n. apply IZR_lt. destruct l; [done|]. cbn [length]. lia. }
  unfold m. field. lra.
Qed.

Lemma sum_above (v : R) (f : R -> R) (l : list R) :
  l <> [] -> Forall (fun x => v < f x) l ->
  IZR (Z.of_nat (length l)) * v < sum_from 0 (map f l).
Proof.
  intros Hl Hall. induction Hall as [|x l Hx Hall IH]; [done|].
  cbn [map length]. rewrite sum_from_cons, Nat2Z.inj_succ, succ_IZR.
  destruct l as [|y l].
  - unfold sum_from. cbn [map fold_left length].
    change (Z.of_nat 0) with 0%Z. lra.
  - specialize (IH ltac:(done)). lra.
Qed.

Lemma sum_squares_nonneg (m : R) (l : list R) :
  0 <= sum_from 0 (map (fun x => (x - m) * (x - m)) l).
Proof.
  induction l as [|x l IH]; cbn [map].
  - unfold sum_from. cbn [fold_left]. lra.
  - rewrite sum_from_cons. apply Rplus_le_le_0_compat; [|exact IH].
    apply (Rle_0_sqr (x - m)).
Qed.

(** Some distance is within one standard deviation of the mean. *)
Lemma not_all_outside (k : R) (l : list R) :
  l <> [] -> 1 <= k ->
  ~ Forall (fun x => population_deviation l * k < Rabs (x - mean l)) l.
Proof.
  intros Hl Hk Hall.
  assert (Hid := variance_identity l Hl). cbv zeta in Hid.
  unfold population_deviation, mean, count_of in Hall. rsimpl.
  set (n := IZR (Z.of_nat (length l))) in *.
  set (m := sum_from 0 l / n) in *.
  set (v := sum_from 0 (map (fun d => d * d) l) / n - m * m) in *.
  assert (0 < n) as Hn.
  { unfold n. apply IZR_lt. destruct l; [done|]. cbn [length]. lia. }
  assert (Hpos := sum_squares_nonneg m l).
  assert (0 <= v) as Hv by nra.
  assert (sqrt v * sqrt v = v) as Hsq by (by apply sqrt_sqrt).
  assert (0 <= sqrt v) as Hs by apply sqrt_pos.
  assert (Forall (fun x => v < (x - m) * (x - m)) l) as Hall'.
  { eapply Forall_impl; [exact Hall|]. intros x Hx. cbv beta in Hx.
    assert (sqrt v < Rabs (x - m)) as Hlt by nra.
    assert (Rabs (x - m) * Rabs (x - m) = (x - m) * (x - m)) as <-.
    { rewrite <- Rabs_mult. apply Rabs_pos_eq. apply (Rle_0_sqr (x - m)). }
    nra. }
  apply (sum_above v _ l Hl) in Hall'. fold n in Hall'. lra.
Qed.

Lemma filter_nil {A} (f : A -> bool) (l : list A) :
  List.filter f l = [] -> Forall (fun x => f x = false) l.
Proof.
  induction l as [|x l IH]; cbn [List.filter]; [constructor|].
  destruct (f x) eqn:E; [discriminate|]. intros H. constructor; auto.
Qed.

(** With a multiplier of at least 1 the deviation filter keeps a ray. *)
Lemma kept_nonempty (config : RaysConfig R) (all : list (survivor (F := R))) :
  all <> [] -> 1 <= allowed_deviation config ->
  List.filter (passes_deviation config all) all <> [].
Proof.
  intros Hall Hk Hnil. apply filter_nil in Hnil.
  apply (not_all_outside (allowed_deviation config) (map sv_distance all)).
  - by destruct all.
  - exact Hk.
  - rewrite Forall_map. eapply Forall_impl; [exact Hnil|].
    intros s. unfold passes_deviation. cbv beta.
    destruct (is_deviation_filtering config); [|discriminate].
    cbn [andb negb]. change (@f_ltb R R_scalar) with Rs.ltb.
    destruct (Rs.ltb _ _) eqn:E; [|discriminate]. intros _.
    apply ltb_true in E. exact E.
Qed.

Lemma weights_sum_positive (kept : list (survivor (F := R))) :
  kept <> [] -> Forall (fun s => 0 < sv_weight s) kept ->
  0 < sum_from 0 (map sv_weight kept).
Proof.
  intros Hk Hall. induction Hall as [|s kept Hs Hall IH]; [done|].
  cbn [map]. rewrite sum_from_cons. destruct kept as [|s' kept].
  - unfold sum_from. cbn [map fold_left]. lra.
  - specialize (IH ltac:(done)). lra.
Qed.

Section Weighted.
Variable AABBTree : Type.
Variable intersect_ray_first_hit : AABBTree -> Vec3r -> Vec3r -> option (Hit R).
Variable triangle_normals : AABBTree -> list Vec3r.
Variable angle_axis : R -> Vec3r -> Vec3r -> Vec3r.
Variable acos : R -> R.

Lemma survivors_weights (tree : AABBTree) (config : RaysConfig R)
    (ray_dir ray_point : Vec3r) (tr_angle : R) (tr_axis : Vec3r)
    (ds : list (Direction R)) :
  Forall (fun d => 0 < d_weight d) ds ->
  forall all,
    survivors AABBTree intersect_ray_first_hit triangle_normals angle_axis
      acos tree config ray_dir ray_point tr_angle tr_axis ds = Some all ->
    Forall (fun s => 0 < sv_weight s) all.
Proof.
  induction 1 as [|dir ds Hw _ IH]; intros all; cbn [survivors].
  - intros [= <-]. constructor.
  - destruct (intersect_ray_first_hit tree ray_point _) as [hit|];
      [|apply IH].
    destruct (angle_ok _ _ _ _ _ _ _) as [ok|]; cbn [mbind option_bind];
      [|discriminate].
    destruct (survivors _ _ _ _ _ _ _ _ _ _ _ ds) as [rest|];
      cbn [mbind option_bind]; [|discriminate].
    intros [= <-]. specialize (IH rest eq_refl).
    destruct ok; [|exact IH]. by constructor.
Qed.

(** Exact arithmetic.  Over the reals, when every direction has a positive
    weight and the deviation multiplier is at least 1: for a vertex with
    two or more surviving rays the deviation filter keeps at least one of
    them, the weights of the kept rays sum to more than zero, and
    [calc_width] answers their weighted mean plus [safe_move]; the branch
    that answers the plain mean is not taken. *)
Theorem calc_width_weighted (point normal : Vec3r) (tree : AABBTree)
    (config : RaysConfig R) (all : list (survivor (F := R))) :
  1 <= allowed_deviation config ->
  Forall (fun d => 0 < d_weight d) (dirs config) ->
  v_z normal <= normal_z_max config ->
  survivors AABBTree intersect_ray_first_hit triangle_normals angle_axis acos
    tree config (vneg normal)
    (vadd point (vscale (vneg normal) (safe_move config)))
    (acos (vdot (mkVec3 0 0 1) (vneg normal)))
    (vcross (mkVec3 0 0 1) (vneg normal)) (dirs config) = Some all ->
  (2 <= length all)%nat ->
  let kept := List.filter (passes_deviation config all) all in
  kept <> []
  /\ 0 < sum_from 0 (map sv_weight kept)
  /\ calc_width AABBTree intersect_ray_first_hit triangle_normals angle_axis
       acos point normal tree config
     = Some (weighted_mean kept + safe_move config).
Proof.
  intros Hk Hweights Hz Hall Hlen kept.
  assert (kept <> []) as Hkept.
  { apply kept_nonempty; [|exact Hk]. destruct all; [cbn in Hlen; lia|done]. }
  assert (0 < sum_from 0 (map sv_weight kept)) as Hsum.
  { apply weights_sum_positive; [exact Hkept|].
    pose proof (survivors_weights _ _ _ _ _ _ _ Hweights _ Hall) as Hpos.
    rewrite Forall_forall in Hpos. apply Forall_forall. intros s Hs.
    apply Hpos. apply list_elem_of_In in Hs. apply filter_In in Hs as [Hs _].
    by apply list_elem_of_In. }
  split; [exact Hkept|]. split; [exact Hsum|].
  unfold calc_width. change (@f_ltb R R_scalar) with Rs.ltb.
  assert (Rs.ltb (normal_z_max config) (v_z normal) = false) as ->
    by (by apply ltb_false).
  cbv zeta. rewrite cast_rays_survivors.
  match goal with
  | |- context [survivors ?a ?b ?c ?d ?e ?f ?g ?h ?i ?j ?k ?l] =>
    replace (survivors a b c d e f g h i j k l) with (Some all)
      by (symmetry; exact Hall)
  end.
  cbn [mbind option_bind].
  cbn [a_widths a_weights a_sum_width a_sq_sum_width app].
  rewrite width_statistics_survivors. f_equal.
  unfold width_of_survivors.
  destruct all as [|s1 [|s2 all]]; [cbn in Hlen; lia|cbn in Hlen; lia|].
  fold kept. change (@f_leb R R_scalar) with Rs.leb.
  change (@f_zero R R_scalar) with 0.
  assert (Rs.leb (sum_from 0 (map sv_weight kept)) 0 = false) as ->.
  { unfold Rs.leb. destruct (Rle_dec _ _); [lra|reflexivity]. }
  reflexivity.
Qed.
End Weighted.

(** Two rays of weight 1 with the deviation filter at one standard
    deviation, and a safe move of 1/2. *)
Definition filtered_rays : RaysConfig R :=
  mkRaysConfig 1 (1 / 2)
    [mkDirection (mkVec3 0 0 1) 1; mkDirection (mkVec3 0 0 1) 1] 0 1
    false true.

Definition both_hits : list (survivor (F := R)) :=
  [mkSurvivor 3 1; mkSurvivor 3 1].

Lemma calc_width_weighted_witness :
  let kept := List.filter (passes_deviation filtered_rays both_hits)
                both_hits in
  kept <> []
  /\ 0 < sum_from 0 (map sv_weight kept)
  /\ calc_width unit hit_at_3 (fun _ => []) (fun _ _ v => v) (fun x => x)
       (mkVec3 0 0 0) (mkVec3 0 0 0) tt filtered_rays
     = Some (weighted_mean kept + safe_move filtered_rays).
Proof.
  apply (calc_width_weighted unit hit_at_3 (fun _ => []) (fun _ _ v => v)
           (fun x => x) (mkVec3 0 0 0) (mkVec3 0 0 0) tt filtered_rays
           both_hits).
  - cbn. lra.
  - repeat constructor; cbn; lra.
  - cbn. lra.
  - reflexivity.
  - cbn. lia.
Defined.
End DeviationR.

(** ** Width estimator in binary32: the variance that cancels *)

Module DeviationRuns.
Import B32 Examples.

(** A stand-in for the ray tree: a ray that rises hits at distance 3, any
    other ray at distance 3.001. *)
Definition close_hits (_ : unit) (_ ray : Vec3 float) : option (Hit float) :=
  Some (mkHit 0%Z (if f_ltb f_zero (v_z ray) then of_Z 3
                   else f_div (of_Z 3001) (of_Z 1000))).

(** Two rays of weight 1, the deviation filter at one standard deviation,
    and a safe move of 1/2. *)
Definition close_rays : RaysConfig float :=
  mkRaysConfig (of_Z 1) (f_div (of_Z 1) (of_Z 2))
    [mkDirection (v3 0 0 1) (of_Z 1); mkDirection (v3 0 1 0) (of_Z 1)]
    (of_Z 0) (of_Z 1) false true.

(** The probed vertex, at the origin, and its normal, which points down:
    the rays are cast upwards. *)
Definition probe_point : Vec3 float := v3 0 0 0.
Definition probe_normal : Vec3 float := v3 0 0 (-1).

(** X23.  In binary32, with two rays of weight 1 that hit at the
    distances 3 and 3.001, deviation filtering with the multiplier 1 and a
    safe move of 1/2: the rays are both cast and counted, the variance
    that [calc_width] computes as the mean of the squares less the square
    of the mean is zero, so both distances are farther from the mean than
    the threshold and no ray is kept; the sum of the weights is zero, and
    [calc_width] answers the plain mean of the two distances, without the
    safe move. *)
Theorem calc_width_binary32_plain_mean :
  exists acc mean,
    cast_rays unit close_hits (fun _ => []) (fun _ _ v => v) (fun x => x)
      tt close_rays (vneg probe_normal)
      (vadd probe_point (vscale (vneg probe_normal) (safe_move close_rays)))
      (vdot (v3 0 0 1) (vneg probe_normal))
      (vcross (v3 0 0 1) (vneg probe_normal)) (dirs close_rays)
      (mkRayAcc [] [] f_zero f_zero) = Some acc
    /\ a_widths acc = [of_Z 3; f_div (of_Z 3001) (of_Z 1000)]
    /\ a_weights acc = [of_Z 1; of_Z 1]
    /\ mean = f_div (a_sum_width acc) (of_Z 2)
    /\ mean = f_div (f_add (of_Z 3) (f_div (of_Z 3001) (of_Z 1000))) (of_Z 2)
    /\ f_sub (f_div (a_sq_sum_width acc) (of_Z 2)) (f_mul mean mean) = f_zero
    /\ weighted_sums close_rays mean
         (f_mul (f_sqrt f_zero) (allowed_deviation close_rays))
         (a_widths acc) (a_weights acc) f_zero f_zero = (f_zero, f_zero)
    /\ calc_width unit close_hits (fun _ => []) (fun _ _ v => v) (fun x => x)
         probe_point probe_normal tt close_rays = Some mean
    /\ width_statistics close_rays acc = mean.
Proof.
  eexists _, _. split; [vm_compute; reflexivity|].
  split; [vm_compute; reflexivity|]. split; [vm_compute; reflexivity|].
  split; [reflexivity|].
  repeat match goal with |- _ /\ _ => split end; vm_compute; reflexivity.
Qed.
End DeviationRuns.

(** ** calc_widths: when it answers *)

Section CalcWidthsDefined.
Context {F : Type} {SF : Scalar F}.
Variable Tree : Type.
Variable intersect_ray_first_hit : Tree -> Vec3 F -> Vec3 F -> option (Hit F).
Variable triangle_normals : Tree -> list (Vec3 F).
Variable angle_axis : F -> Vec3 F -> Vec3 F -> Vec3 F.
Variable acos : F -> F.

(** With angle filtering every triangle that a ray can hit has a normal. *)
Definition hits_have_normals (tree : Tree) (config : RaysConfig F) : Prop :=
  is_angle_filtering config = true ->
  forall ray_point ray hit,
    intersect_ray_first_hit tree ray_point ray = Some hit ->
    (0 <= hit_id hit < Z.of_nat (length (triangle_normals tree)))%Z.

Lemma cast_rays_defined (tree : Tree) (config : RaysConfig F)
    (ray_dir ray_point : Vec3 F) (tr_angle : F) (tr_axis : Vec3 F)
    (ds : list (Direction F)) :
  hits_have_normals tree config ->
  forall acc,
    is_Some (cast_rays Tree intersect_ray_first_hit triangle_normals
               angle_axis acos tree config ray_dir ray_point tr_angle tr_axis
               ds acc).
Proof.
  intros Hn. induction ds as [|dir ds IH]; intros acc; cbn [cast_rays];
    [eauto|].
  unfold cast_ray, angle_ok.
  destruct (intersect_ray_first_hit tree ray_point _) as [hit|] eqn:E;
    cbn [mbind option_bind]; [|apply IH].
  destruct (is_angle_filtering config) eqn:Ef; cbn [mbind option_bind].
  - destruct (proj2 (vget_is_Some (triangle_normals tree) (hit_id hit))
                (Hn Ef _ _ _ E)) as [normal ->].
    cbn [mbind option_bind]. destruct (negb _); apply IH.
  - apply IH.
Qed.

Lemma calc_widths_loop_defined (tree : Tree) (config : RaysConfig F)
    (points : list (Vec3 F)) :
  hits_have_normals tree config ->
  forall normals,
    is_Some (calc_widths_loop Tree intersect_ray_first_hit triangle_normals
               angle_axis acos points normals tree config).
Proof.
  intros Hn. induction points as [|p points IH]; intros [|n normals];
    cbn [calc_widths_loop]; try by eauto.
  unfold calc_width.
  destruct (f_ltb _ _); cbn [mbind option_bind].
  - destruct (IH normals) as [ws ->]. cbn. eauto.
  - cbv zeta.
    match goal with
    | |- context [cast_rays ?a ?b ?c ?d ?e ?f ?g ?h ?i ?j ?k ?l ?m] =>
      destruct (cast_rays_defined f g h i j k l Hn m) as [acc ->]
    end.
    cbn [mbind option_bind]. destruct (IH normals) as [ws ->]. cbn. eauto.
Qed.

(** X24.  For every scalar type: called with at least one vertex, at
    least one direction and as many normals as vertices, [calc_widths]
    answers one width for each vertex, provided that with angle filtering
    every triangle that a ray hits has a normal; without angle filtering
    nothing more is needed. *)
Theorem calc_widths_defined (ndebug : bool) (points normals : list (Vec3 F))
    (tree : Tree) (config : RaysConfig F) :
  points <> [] -> dirs config <> [] -> length points = length normals ->
  hits_have_normals tree config ->
  exists widths,
    calc_widths Tree intersect_ray_first_hit triangle_normals angle_axis acos
      ndebug points normals tree config = Done widths
    /\ length widths = length points.
Proof.
  intros Hp Hd Hlen Hn. unfold calc_widths, assert.
  destruct points as [|p points]; [done|].
  destruct (dirs config) as [|d ds] eqn:Ed; [done|].
  rewrite (proj2 (Nat.eqb_eq _ _) Hlen). cbn [negb orb]. rewrite !orb_true_r.
  destruct (calc_widths_loop_defined tree config (p :: points) Hn normals)
    as [ws Hws].
  rewrite Hws. exists ws. split; [reflexivity|].
  exact (proj1 (calc_widths_loop_slots Tree intersect_ray_first_hit
                  triangle_normals angle_axis acos tree config _ normals ws
                  Hlen Hws)).
Qed.
End CalcWidthsDefined.

Lemma calc_widths_defined_witness :
  let config : RaysConfig B32.float :=
    mkRaysConfig (B32.of_Z 1) (B32.of_Z 0)
      [mkDirection (Examples.v3 0 0 1) (B32.of_Z 1)]
      (B32.of_Z 1) (B32.of_Z 1) true false in
  exists widths,
    calc_widths B32.float CalcWidthsRuns.flat_hit
      (fun _ => [Examples.v3 0 0 1]) (fun _ _ v => v) (fun x => x) false
      [Examples.v3 0 0 0; Examples.v3 1 0 0]
      [Examples.v3 0 0 0; Examples.v3 0 0 2] (B32.of_Z 3) config
    = Done widths
    /\ length widths = 2%nat.
Proof.
  intros config.
  apply (calc_widths_defined B32.float CalcWidthsRuns.flat_hit
           (fun _ => [Examples.v3 0 0 1]) (fun _ _ v => v) (fun x => x) false
           [Examples.v3 0 0 0; Examples.v3 1 0 0]
           [Examples.v3 0 0 0; Examples.v3 0 0 2] (B32.of_Z 3) config).
  - discriminate.
  - discriminate.
  - reflexivity.
  - intros _ ray_point ray hit [= <-]. cbn. lia.
Defined.
